(** * Search-algorithm engine of algoritmos-de-busca-ia

    A shallow embedding of [src/algorithms/uninformed.py] and
    [src/algorithms/informed.py], followed by the verification of the
    properties stated for the engine.

    Conventions of the embedding:
    - a location is a Python [str], here [string];
    - an edge weight, a path cost and a heuristic value are Python numbers,
      here [Z] (exact arithmetic);
    - a [dict] whose iteration order is observable is an association list in
      insertion order ([dict_setitem] updates in place or appends, the way
      CPython does); a [dict] or [set] that is only looked up is a [gmap] or
      a [gset];
    - an exception is a value of [outcome]; a [while] loop takes fuel and
      answers [OutOfFuel] when it is exhausted;
    - [execution_time] (wall clock) is left out of the result record. *)

From Stdlib Require Import ZArith Lia.
From stdpp Require Import gmap strings list fin_maps.

#[local] Open Scope string_scope.
#[local] Open Scope list_scope.
#[local] Open Scope nat_scope.

(* ===================================================================== *)
(** * Exceptions, loops                                                   *)
(* ===================================================================== *)

Inductive exn : Type :=
| KeyError (key : string)
| IndexError.

Inductive outcome (A : Type) : Type :=
| Ret (a : A)
| Raise (e : exn)
| OutOfFuel.
Arguments Ret {A} a.
Arguments Raise {A} e.
Arguments OutOfFuel {A}.

Definition bind {A B} (m : outcome A) (f : A → outcome B) : outcome B :=
  match m with
  | Ret a => f a
  | Raise e => Raise e
  | OutOfFuel => OutOfFuel
  end.

Notation "'let*' x ':=' m 'in' k" := (bind m (λ x, k))
  (at level 10, x pattern, m at level 200, k at level 200).

(** What one iteration of a loop body does: fall through to the next
    iteration, or [return] from the enclosing function. *)
Inductive flow (St R : Type) : Type :=
| Next (st : St)
| Return (r : R).
Arguments Next {St R} st.
Arguments Return {St R} r.

(** [while cond: body]; the result is the state at the normal exit of the
    loop, or the value returned from inside it. *)
Fixpoint while_loop {St R} (cond : St → bool) (body : St → outcome (flow St R))
    (fuel : nat) (st : St) : outcome (flow St R) :=
  match fuel with
  | O => OutOfFuel
  | S fuel' =>
    if cond st then
      match body st with
      | Ret (Next st') => while_loop cond body fuel' st'
      | Ret (Return r) => Ret (Return r)
      | Raise e => Raise e
      | OutOfFuel => OutOfFuel
      end
    else Ret (Next st)
  end.

(** [for x in xs: body], with the same two ways out. *)
Fixpoint for_loop {X St R} (body : X → St → outcome (flow St R))
    (xs : list X) (st : St) : outcome (flow St R) :=
  match xs with
  | [] => Ret (Next st)
  | x :: xs' =>
    match body x st with
    | Ret (Next st') => for_loop body xs' st'
    | Ret (Return r) => Ret (Return r)
    | Raise e => Raise e
    | OutOfFuel => OutOfFuel
    end
  end.

(** A [for] loop whose body can raise but never returns. *)
Fixpoint foldM {X St} (body : St → X → outcome St) (st : St) (xs : list X)
    : outcome St :=
  match xs with
  | [] => Ret st
  | x :: xs' =>
    match body st x with
    | Ret st' => foldM body st' xs'
    | Raise e => Raise e
    | OutOfFuel => OutOfFuel
    end
  end.

(** [range(n)] for a Python integer [n]: empty when [n <= 0]. *)
Definition range (n : Z) : list Z := Z.of_nat <$> seq 0 (Z.to_nat n).

(* ===================================================================== *)
(** * Insertion-ordered dictionaries, sets, lists                         *)
(* ===================================================================== *)

Abbreviation dict V := (list (string * V)).

Fixpoint dict_get {V} (d : dict V) (k : string) : option V :=
  match d with
  | [] => None
  | (k', v) :: d' => if decide (k' = k) then Some v else dict_get d' k
  end.

(** [k in d] *)
Definition dict_contains {V} (d : dict V) (k : string) : bool :=
  bool_decide (is_Some (dict_get d k)).

(** [d[k]] *)
Definition dict_getitem {V} (d : dict V) (k : string) : outcome V :=
  match dict_get d k with
  | Some v => Ret v
  | None => Raise (KeyError k)
  end.

(** [d[k] = v]: an existing key keeps its position, a new key goes last. *)
Fixpoint dict_setitem {V} (d : dict V) (k : string) (v : V) : dict V :=
  match d with
  | [] => [(k, v)]
  | (k', v') :: d' =>
    if decide (k' = k) then (k, v) :: d' else (k', v') :: dict_setitem d' k v
  end.

Definition dict_keys {V} (d : dict V) : list string := fst <$> d.

(** [m[k]] on a dictionary that is only looked up. *)
Definition map_getitem {V} (m : gmap string V) (k : string) : outcome V :=
  match m !! k with
  | Some v => Ret v
  | None => Raise (KeyError k)
  end.

(** [del m[k]] *)
Definition map_delitem {V} (m : gmap string V) (k : string)
    : outcome (gmap string V) :=
  match m !! k with
  | Some _ => Ret (delete k m)
  | None => Raise (KeyError k)
  end.

(** [s.remove(x)] *)
Definition set_remove (s : gset string) (x : string) : outcome (gset string) :=
  if decide (x ∈ s) then Ret (s ∖ {[x]}) else Raise (KeyError x).

(** [l.pop()]: the last element and the list without it. *)
Definition list_pop {A} (l : list A) : outcome (A * list A) :=
  match reverse l with
  | [] => Raise IndexError
  | x :: r => Ret (x, reverse r)
  end.

(** [l.pop(0)] and [deque.popleft()] *)
Definition list_popleft {A} (l : list A) : outcome (A * list A) :=
  match l with
  | [] => Raise IndexError
  | x :: r => Ret (x, r)
  end.

(** A graph: location ↦ (neighbour ↦ edge weight). *)
Abbreviation Graph := (dict (dict Z)).

(* ===================================================================== *)
(** * The search node                                                     *)
(* ===================================================================== *)

Module Node.

#[local] Unset Elimination Schemes.
Inductive t : Type := mk {
  state : string;
  parent : option t;
  action : option string;
  path_cost : Z;
  depth : Z
}.
#[local] Set Elimination Schemes.

(** [Node(state=s)] *)
Definition root (s : string) : t :=
  {| state := s; parent := None; action := None; path_cost := 0; depth := 0 |}.

(** [__lt__] *)
Definition lt (self other : t) : bool :=
  bool_decide (path_cost self < path_cost other)%Z.

Definition child (self : t) (edge : string * Z) : t :=
  {| state := edge.1;
     parent := Some self;
     action := Some (state self +:+ " to " +:+ edge.1);
     path_cost := path_cost self + edge.2;
     depth := depth self + 1 |}.

Definition expand (graph : Graph) (self : t) : outcome (list t) :=
  let* neighbors := dict_getitem graph (state self) in
  Ret (child self <$> neighbors).

Fixpoint path_back (node : t) : list string :=
  state node ::
  match parent node with
  | Some p => path_back p
  | None => []
  end.

Definition path (self : t) : list string := reverse (path_back self).

End Node.

(* ===================================================================== *)
(** * [heapq] on Python lists                                             *)
(* ===================================================================== *)

(** The [<] of Python on the elements of a heap. *)
Class PyLt (A : Type) := py_lt : A → A → bool.

(** Tuples compare lexicographically: the first component that differs
    decides.  Two distinct [Node] objects are never [==] (the class has no
    [__eq__]), so a tie on the numbers falls to [Node.__lt__]; an entry
    compared with itself is not smaller, and neither is it by
    [Node.__lt__]. *)
#[global] Instance pair_lt : PyLt (Z * Node.t) := λ a b,
  if decide (a.1 = b.1) then Node.lt a.2 b.2 else bool_decide (a.1 < b.1)%Z.

#[global] Instance triple_lt : PyLt (Z * Z * Node.t) := λ a b,
  if decide (a.1.1 = b.1.1) then
    if decide (a.1.2 = b.1.2) then Node.lt a.2 b.2
    else bool_decide (a.1.2 < b.1.2)%Z
  else bool_decide (a.1.1 < b.1.1)%Z.

Module heapq.
Section heapq.
Context {A : Type} `{PyLt A}.

(** The [while] of [_siftdown]; [pos] decreases at every turn, so [pos]
  turns are enough.  Returns the list and the final [pos]. *)
Fixpoint siftdown_loop (fuel : nat) (heap : list A) (newitem : A)
  (startpos pos : nat) : list A * nat :=
match fuel with
| O => (heap, pos)
| S fuel' =>
  if decide (startpos < pos) then
    let parentpos := (pos - 1) / 2 in
    let parent := default newitem (heap !! parentpos) in
    if py_lt newitem parent then
      siftdown_loop fuel' (<[pos := parent]> heap) newitem startpos parentpos
    else (heap, pos)
  else (heap, pos)
end.

Definition _siftdown (heap : list A) (startpos pos : nat) : list A :=
match heap !! pos with
| Some newitem =>
  let '(heap', pos') := siftdown_loop pos heap newitem startpos pos in
  <[pos' := newitem]> heap'
| None => heap
end.

(** The [while] of [_siftup]; [pos] increases at every turn and stays
  below [endpos]. *)
Fixpoint siftup_loop (fuel : nat) (heap : list A) (newitem : A)
  (endpos pos : nat) : list A * nat :=
match fuel with
| O => (heap, pos)
| S fuel' =>
  let childpos := 2 * pos + 1 in
  if decide (childpos < endpos) then
    let rightpos := childpos + 1 in
    let at_ i := default newitem (heap !! i) in
    let childpos :=
      if bool_decide (rightpos < endpos)
         && negb (py_lt (at_ childpos) (at_ rightpos))
      then rightpos else childpos in
    siftup_loop fuel' (<[pos := at_ childpos]> heap) newitem endpos childpos
  else (heap, pos)
end.

Definition _siftup (heap : list A) (pos : nat) : list A :=
match heap !! pos with
| Some newitem =>
  let endpos := length heap in
  let '(heap', pos') := siftup_loop endpos heap newitem endpos pos in
  _siftdown (<[pos' := newitem]> heap') pos pos'
| None => heap
end.

Definition heappush (heap : list A) (item : A) : list A :=
_siftdown (heap ++ [item]) 0 (length heap).

Definition heappop (heap : list A) : outcome (A * list A) :=
let* (lastelt, heap) := list_pop heap in
match heap with
| returnitem :: _ => Ret (returnitem, _siftup (<[0 := lastelt]> heap) 0)
| [] => Ret (lastelt, heap)
end.

Definition heapify (x : list A) : list A :=
let n := length x in
fold_left _siftup (reverse (seq 0 (n / 2))) x.

End heapq.
End heapq.

(* ===================================================================== *)
(** * Result records and step traces                                      *)
(* ===================================================================== *)

(** One snapshot of a unidirectional search.  [explored] is [list(explored)]
    of a Python [set], whose order is not specified: the snapshot keeps the
    set.  [depth_limit] is the key that iterative deepening adds. *)
Module Step.
Record t : Type := mk {
  frontier : list string;
  explored : gset string;
  current : option string;
  depth_limit : option Z
}.
End Step.

(** One snapshot of the bidirectional search. *)
Module BiStep.
Record t : Type := mk {
  forward_frontier : list string;
  backward_frontier : list string;
  forward_explored : list string;
  backward_explored : list string;
  current_forward : option string;
  current_backward : option string
}.
End BiStep.

Record Result (S : Type) : Type := mkResult {
  algorithm : string;
  path : list string;
  distance : Z;
  nodes_expanded : nat;
  nodes_generated : nat;
  max_frontier_size : nat;
  steps : list S
}.
Arguments mkResult {S}.
Arguments algorithm {S}.
Arguments path {S}.
Arguments distance {S}.
Arguments nodes_expanded {S}.
Arguments nodes_generated {S}.
Arguments max_frontier_size {S}.
Arguments steps {S}.

(** The local variables of the loop of a unidirectional search: [E] is the
    type of a frontier entry, [FS] the type of [frontier_states]. *)
Module Vars.
Record t (E FS : Type) : Type := mk {
  frontier : list E;
  frontier_states : FS;
  explored : gset string;
  steps : list Step.t;
  nodes_expanded : nat;
  nodes_generated : nat;
  max_frontier_size : nat
}.
Arguments mk {E FS}.
Arguments frontier {E FS}.
Arguments frontier_states {E FS}.
Arguments explored {E FS}.
Arguments steps {E FS}.
Arguments nodes_expanded {E FS}.
Arguments nodes_generated {E FS}.
Arguments max_frontier_size {E FS}.
End Vars.

(** The three result literals every algorithm repeats. *)
Definition trivial_result {S} (alg start : string) (expanded generated size : nat)
    : Result S :=
  {| algorithm := alg; path := [start]; distance := 0;
     nodes_expanded := expanded; nodes_generated := generated;
     max_frontier_size := size; steps := [] |}.

Definition found_result (alg : string) (node : Node.t)
    (expanded generated size : nat) (steps : list Step.t) : Result Step.t :=
  {| algorithm := alg; path := Node.path node; distance := Node.path_cost node;
     nodes_expanded := expanded; nodes_generated := generated;
     max_frontier_size := size; steps := steps |}.

Definition no_path_result {S} (alg : string) (expanded generated size : nat)
    (steps : list S) : Result S :=
  {| algorithm := alg; path := []; distance := 0;
     nodes_expanded := expanded; nodes_generated := generated;
     max_frontier_size := size; steps := steps |}.

(** The snapshot appended before the pop, with ["current"] as it is
    overwritten right after the pop. *)
Definition snapshot (frontier : list string) (explored : gset string)
    (current : string) : Step.t :=
  {| Step.frontier := frontier; Step.explored := explored;
     Step.current := Some current; Step.depth_limit := None |}.

(** The end of each unidirectional function: the value returned from the
    loop, or the result of an exhausted search. *)
Definition finish {E FS} (alg : string)
    (r : outcome (flow (Vars.t E FS) (Result Step.t))) : outcome (Result Step.t) :=
  let* fl := r in
  match fl with
  | Return res => Ret res
  | Next st =>
    Ret (no_path_result alg (Vars.nodes_expanded st) (Vars.nodes_generated st)
           (Vars.max_frontier_size st) (Vars.steps st))
  end.

(** [while frontier:] *)
Definition frontier_nonempty {E FS} (st : Vars.t E FS) : bool :=
  bool_decide (Vars.frontier st ≠ []).

(* ===================================================================== *)
(** * Uninformed search                                                   *)
(* ===================================================================== *)

(** ** Breadth-first search *)

Definition bfs_child (explored : gset string) (acc : list Node.t * nat)
    (child : Node.t) : list Node.t * nat :=
  let '(frontier, nodes_generated) := acc in
  let nodes_generated := S nodes_generated in
  if bool_decide (Node.state child ∉ explored)
     && bool_decide (Node.state child ∉ (Node.state <$> frontier))
  then (frontier ++ [child], nodes_generated)
  else (frontier, nodes_generated).

Definition bfs_body (graph : Graph) (goal : string) (st : Vars.t Node.t unit)
    : outcome (flow (Vars.t Node.t unit) (Result Step.t)) :=
  let max_frontier_size :=
    Nat.max (Vars.max_frontier_size st) (length (Vars.frontier st)) in
  let frontier_snapshot := Node.state <$> Vars.frontier st in
  let* (node, frontier) := list_popleft (Vars.frontier st) in
  let nodes_expanded := S (Vars.nodes_expanded st) in
  let steps :=
    Vars.steps st
    ++ [snapshot frontier_snapshot (Vars.explored st) (Node.state node)] in
  if decide (Node.state node = goal) then
    Ret (Return (found_result "bfs" node nodes_expanded (Vars.nodes_generated st)
                   max_frontier_size steps))
  else
    let explored := {[Node.state node]} ∪ Vars.explored st in
    let* children := Node.expand graph node in
    let '(frontier, nodes_generated) :=
      fold_left (bfs_child explored) children (frontier, Vars.nodes_generated st) in
    Ret (Next (Vars.mk frontier () explored steps nodes_expanded nodes_generated
                 max_frontier_size)).

Definition breadth_first_search (fuel : nat) (graph : Graph) (start goal : string)
    : outcome (Result Step.t) :=
  let nodes_expanded := 0 in
  let nodes_generated := 1 in
  let max_frontier_size := 1 in
  if decide (start = goal) then
    Ret (trivial_result "bfs" start nodes_expanded nodes_generated max_frontier_size)
  else
    let start_node := Node.root start in
    finish "bfs"
      (while_loop frontier_nonempty (bfs_body graph goal) fuel
         (Vars.mk [start_node] () ∅ [] nodes_expanded nodes_generated
            max_frontier_size)).

(** ** Uniform-cost search *)

Definition ucs_child (explored : gset string)
    (acc : list (Z * Node.t) * gset string * nat) (child : Node.t)
    : list (Z * Node.t) * gset string * nat :=
  let '(frontier, frontier_states, nodes_generated) := acc in
  let nodes_generated := S nodes_generated in
  if bool_decide (Node.state child ∉ explored)
     && bool_decide (Node.state child ∉ frontier_states)
  then (heapq.heappush frontier (Node.path_cost child, child),
        {[Node.state child]} ∪ frontier_states, nodes_generated)
  else if bool_decide (Node.state child ∈ frontier_states) then
    match list_find (λ entry : Z * Node.t,
                       Node.state entry.2 = Node.state child
                       ∧ (Node.path_cost child < entry.1)%Z) frontier with
    | Some (i, _) =>
      (heapq.heapify (<[i := (Node.path_cost child, child)]> frontier),
       frontier_states, nodes_generated)
    | None => (frontier, frontier_states, nodes_generated)
    end
  else (frontier, frontier_states, nodes_generated).

Definition ucs_body (graph : Graph) (goal : string)
    (st : Vars.t (Z * Node.t) (gset string))
    : outcome (flow (Vars.t (Z * Node.t) (gset string)) (Result Step.t)) :=
  let max_frontier_size :=
    Nat.max (Vars.max_frontier_size st) (length (Vars.frontier st)) in
  let frontier_snapshot := (λ entry, Node.state entry.2) <$> Vars.frontier st in
  let* (entry, frontier) := heapq.heappop (Vars.frontier st) in
  let node := entry.2 in
  let* frontier_states := set_remove (Vars.frontier_states st) (Node.state node) in
  let nodes_expanded := S (Vars.nodes_expanded st) in
  let steps :=
    Vars.steps st
    ++ [snapshot frontier_snapshot (Vars.explored st) (Node.state node)] in
  if decide (Node.state node = goal) then
    Ret (Return (found_result "ucs" node nodes_expanded (Vars.nodes_generated st)
                   max_frontier_size steps))
  else
    let explored := {[Node.state node]} ∪ Vars.explored st in
    let* children := Node.expand graph node in
    let '(frontier, frontier_states, nodes_generated) :=
      fold_left (ucs_child explored) children
        (frontier, frontier_states, Vars.nodes_generated st) in
    Ret (Next (Vars.mk frontier frontier_states explored steps nodes_expanded
                 nodes_generated max_frontier_size)).

Definition uniform_cost_search (fuel : nat) (graph : Graph) (start goal : string)
    : outcome (Result Step.t) :=
  let nodes_expanded := 0 in
  let nodes_generated := 1 in
  let max_frontier_size := 1 in
  if decide (start = goal) then
    Ret (trivial_result "ucs" start nodes_expanded nodes_generated max_frontier_size)
  else
    let start_node := Node.root start in
    finish "ucs"
      (while_loop frontier_nonempty (ucs_body graph goal) fuel
         (Vars.mk [(0%Z, start_node)] {[start]} ∅ [] nodes_expanded
            nodes_generated max_frontier_size)).

(** ** Depth-first search *)

Definition dfs_child (explored : gset string)
    (acc : list Node.t * gset string * nat) (child : Node.t)
    : list Node.t * gset string * nat :=
  let '(frontier, frontier_states, nodes_generated) := acc in
  let nodes_generated := S nodes_generated in
  if bool_decide (Node.state child ∉ explored)
     && bool_decide (Node.state child ∉ frontier_states)
  then (frontier ++ [child], {[Node.state child]} ∪ frontier_states,
        nodes_generated)
  else (frontier, frontier_states, nodes_generated).

Definition dfs_body (graph : Graph) (goal : string)
    (st : Vars.t Node.t (gset string))
    : outcome (flow (Vars.t Node.t (gset string)) (Result Step.t)) :=
  let max_frontier_size :=
    Nat.max (Vars.max_frontier_size st) (length (Vars.frontier st)) in
  let frontier_snapshot := Node.state <$> Vars.frontier st in
  let* (node, frontier) := list_pop (Vars.frontier st) in
  let* frontier_states := set_remove (Vars.frontier_states st) (Node.state node) in
  let nodes_expanded := S (Vars.nodes_expanded st) in
  let steps :=
    Vars.steps st
    ++ [snapshot frontier_snapshot (Vars.explored st) (Node.state node)] in
  if decide (Node.state node = goal) then
    Ret (Return (found_result "dfs" node nodes_expanded (Vars.nodes_generated st)
                   max_frontier_size steps))
  else
    let explored := {[Node.state node]} ∪ Vars.explored st in
    let* children := Node.expand graph node in
    let children := reverse children in
    let '(frontier, frontier_states, nodes_generated) :=
      fold_left (dfs_child explored) children
        (frontier, frontier_states, Vars.nodes_generated st) in
    Ret (Next (Vars.mk frontier frontier_states explored steps nodes_expanded
                 nodes_generated max_frontier_size)).

Definition depth_first_search (fuel : nat) (graph : Graph) (start goal : string)
    : outcome (Result Step.t) :=
  let nodes_expanded := 0 in
  let nodes_generated := 1 in
  let max_frontier_size := 1 in
  if decide (start = goal) then
    Ret (trivial_result "dfs" start nodes_expanded nodes_generated max_frontier_size)
  else
    let start_node := Node.root start in
    finish "dfs"
      (while_loop frontier_nonempty (dfs_body graph goal) fuel
         (Vars.mk [start_node] {[start]} ∅ [] nodes_expanded nodes_generated
            max_frontier_size)).

(** ** Depth-limited search *)

Definition dls_body (graph : Graph) (goal : string) (depth_limit : Z)
    (st : Vars.t Node.t (gset string))
    : outcome (flow (Vars.t Node.t (gset string)) (Result Step.t)) :=
  let max_frontier_size :=
    Nat.max (Vars.max_frontier_size st) (length (Vars.frontier st)) in
  let frontier_snapshot := Node.state <$> Vars.frontier st in
  let* (node, frontier) := list_pop (Vars.frontier st) in
  let* frontier_states := set_remove (Vars.frontier_states st) (Node.state node) in
  let nodes_expanded := S (Vars.nodes_expanded st) in
  let steps :=
    Vars.steps st
    ++ [snapshot frontier_snapshot (Vars.explored st) (Node.state node)] in
  if decide (Node.state node = goal) then
    Ret (Return (found_result "dls" node nodes_expanded (Vars.nodes_generated st)
                   max_frontier_size steps))
  else
    let explored := {[Node.state node]} ∪ Vars.explored st in
    if decide (Node.depth node < depth_limit)%Z then
      let* children := Node.expand graph node in
      let children := reverse children in
      let '(frontier, frontier_states, nodes_generated) :=
        fold_left (dfs_child explored) children
          (frontier, frontier_states, Vars.nodes_generated st) in
      Ret (Next (Vars.mk frontier frontier_states explored steps nodes_expanded
                   nodes_generated max_frontier_size))
    else
      Ret (Next (Vars.mk frontier frontier_states explored steps nodes_expanded
                   (Vars.nodes_generated st) max_frontier_size)).

Definition depth_limited_search (fuel : nat) (graph : Graph) (start goal : string)
    (depth_limit : Z) : outcome (Result Step.t) :=
  let nodes_expanded := 0 in
  let nodes_generated := 1 in
  let max_frontier_size := 1 in
  if decide (start = goal) then
    Ret (trivial_result "dls" start nodes_expanded nodes_generated max_frontier_size)
  else
    let start_node := Node.root start in
    finish "dls"
      (while_loop frontier_nonempty (dls_body graph goal depth_limit) fuel
         (Vars.mk [start_node] {[start]} ∅ [] nodes_expanded nodes_generated
            max_frontier_size)).

(** The default of the [depth_limit] parameter. *)
Definition default_depth_limit : Z := 10.

(** ** Iterative deepening *)

(** [step["depth_limit"] = depth] *)
Definition tag_depth (depth : Z) (step : Step.t) : Step.t :=
  {| Step.frontier := Step.frontier step; Step.explored := Step.explored step;
     Step.current := Step.current step; Step.depth_limit := Some depth |}.

Definition ids_body (fuel : nat) (graph : Graph) (start goal : string) (depth : Z)
    (acc : nat * nat * nat * list Step.t)
    : outcome (flow (nat * nat * nat * list Step.t) (Result Step.t)) :=
  let* result := depth_limited_search fuel graph start goal depth in
  let result_max_frontier_size := max_frontier_size result in
  let '(total_nodes_expanded, total_nodes_generated, max_frontier_size, all_steps) :=
    acc in
  let total_nodes_expanded := total_nodes_expanded + nodes_expanded result in
  let total_nodes_generated := total_nodes_generated + nodes_generated result in
  let max_frontier_size :=
    Nat.max max_frontier_size result_max_frontier_size in
  let all_steps := all_steps ++ (tag_depth depth <$> steps result) in
  if bool_decide (path result ≠ []) then
    Ret (Return {| algorithm := "ids"; path := path result;
                   distance := distance result;
                   nodes_expanded := total_nodes_expanded;
                   nodes_generated := total_nodes_generated;
                   max_frontier_size := max_frontier_size;
                   steps := all_steps |})
  else
    Ret (Next (total_nodes_expanded, total_nodes_generated, max_frontier_size,
               all_steps)).

Definition iterative_deepening_search (fuel : nat) (graph : Graph)
    (start goal : string) (max_depth : Z) : outcome (Result Step.t) :=
  let total_nodes_expanded := 0 in
  let total_nodes_generated := 0 in
  let max_frontier_size := 0 in
  let all_steps := [] in
  if decide (start = goal) then
    Ret (trivial_result "ids" start 1 1 1)
  else
    let* fl :=
      for_loop (ids_body fuel graph start goal) (range max_depth)
        (total_nodes_expanded, total_nodes_generated, max_frontier_size,
         all_steps) in
    match fl with
    | Return res => Ret res
    | Next (total_nodes_expanded, total_nodes_generated, max_frontier_size,
            all_steps) =>
      Ret (no_path_result "ids" total_nodes_expanded total_nodes_generated
             max_frontier_size all_steps)
    end.

(** The default of the [max_depth] parameter. *)
Definition default_max_depth : Z := 100.

(** ** Bidirectional search *)

Module BiVars.
Record t : Type := mk {
  forward_frontier : list Node.t;
  forward_explored : dict Node.t;
  backward_frontier : list Node.t;
  backward_explored : dict Node.t;
  steps : list BiStep.t;
  nodes_expanded : nat;
  nodes_generated : nat;
  max_frontier_size : nat
}.
End BiVars.

(** [reverse_graph[city] = {}] for every city, then
    [reverse_graph[neighbor][city] = distance] for every edge. *)
Definition reverse_graph_edge (city : string) (reverse_graph : Graph)
    (edge : string * Z) : outcome Graph :=
  let '(neighbor, distance) := edge in
  let* inner := dict_getitem reverse_graph neighbor in
  Ret (dict_setitem reverse_graph neighbor (dict_setitem inner city distance)).

Definition reverse_graph_city (reverse_graph : Graph)
    (item : string * dict Z) : outcome Graph :=
  let '(city, neighbors) := item in
  foldM (reverse_graph_edge city) reverse_graph neighbors.

Definition make_reverse_graph (graph : Graph) : outcome Graph :=
  let reverse_graph :=
    fold_left (λ rg city, dict_setitem rg city []) (dict_keys graph) [] in
  foldM reverse_graph_city reverse_graph graph.

Definition bidi_child (explored : dict Node.t) (acc : list Node.t * nat)
    (child : Node.t) : list Node.t * nat :=
  let '(frontier, nodes_generated) := acc in
  let nodes_generated := S nodes_generated in
  if negb (dict_contains explored (Node.state child))
     && bool_decide (Node.state child ∉ (Node.state <$> frontier))
  then (frontier ++ [child], nodes_generated)
  else (frontier, nodes_generated).

(** The path through the meeting node and its cost. *)
Definition join (forward_node backward_node : Node.t) (expanded generated size : nat)
    (steps : list BiStep.t) : outcome (Result BiStep.t) :=
  let forward_path := Node.path forward_node in
  let backward_path := reverse (Node.path backward_node) in
  let* (_, backward_path) := list_popleft backward_path in
  let path := forward_path ++ backward_path in
  let distance := (Node.path_cost forward_node + Node.path_cost backward_node)%Z in
  Ret {| algorithm := "bidirectional"; path := path; distance := distance;
         nodes_expanded := expanded; nodes_generated := generated;
         max_frontier_size := size; steps := steps |}.

Definition bidi_body (graph reverse_graph : Graph) (st : BiVars.t)
    : outcome (flow BiVars.t (Result BiStep.t)) :=
  let max_frontier_size :=
    Nat.max (BiVars.max_frontier_size st)
      (length (BiVars.forward_frontier st) + length (BiVars.backward_frontier st)) in
  let step current_forward current_backward :=
    {| BiStep.forward_frontier := Node.state <$> BiVars.forward_frontier st;
       BiStep.backward_frontier := Node.state <$> BiVars.backward_frontier st;
       BiStep.forward_explored := dict_keys (BiVars.forward_explored st);
       BiStep.backward_explored := dict_keys (BiVars.backward_explored st);
       BiStep.current_forward := current_forward;
       BiStep.current_backward := current_backward |} in
  (* forward *)
  let* (forward_node, forward_frontier) := list_popleft (BiVars.forward_frontier st) in
  let nodes_expanded := S (BiVars.nodes_expanded st) in
  let forward_explored :=
    dict_setitem (BiVars.forward_explored st) (Node.state forward_node) forward_node in
  if dict_contains (BiVars.backward_explored st) (Node.state forward_node) then
    let* backward_node :=
      dict_getitem (BiVars.backward_explored st) (Node.state forward_node) in
    let* res :=
      join forward_node backward_node nodes_expanded (BiVars.nodes_generated st)
        max_frontier_size
        (BiVars.steps st ++ [step (Some (Node.state forward_node)) None]) in
    Ret (Return res)
  else
    let* children := Node.expand graph forward_node in
    let '(forward_frontier, nodes_generated) :=
      fold_left (bidi_child forward_explored) children
        (forward_frontier, BiVars.nodes_generated st) in
    (* backward *)
    let* (backward_node, backward_frontier) :=
      list_popleft (BiVars.backward_frontier st) in
    let nodes_expanded := S nodes_expanded in
    let steps :=
      BiVars.steps st
      ++ [step (Some (Node.state forward_node)) (Some (Node.state backward_node))] in
    let backward_explored :=
      dict_setitem (BiVars.backward_explored st) (Node.state backward_node)
        backward_node in
    if dict_contains forward_explored (Node.state backward_node) then
      let* forward_node := dict_getitem forward_explored (Node.state backward_node) in
      let* res :=
        join forward_node backward_node nodes_expanded nodes_generated
          max_frontier_size steps in
      Ret (Return res)
    else
      let* children := Node.expand reverse_graph backward_node in
      let '(backward_frontier, nodes_generated) :=
        fold_left (bidi_child backward_explored) children
          (backward_frontier, nodes_generated) in
      Ret (Next {| BiVars.forward_frontier := forward_frontier;
                   BiVars.forward_explored := forward_explored;
                   BiVars.backward_frontier := backward_frontier;
                   BiVars.backward_explored := backward_explored;
                   BiVars.steps := steps;
                   BiVars.nodes_expanded := nodes_expanded;
                   BiVars.nodes_generated := nodes_generated;
                   BiVars.max_frontier_size := max_frontier_size |}).

(** [while forward_frontier and backward_frontier:] *)
Definition both_nonempty (st : BiVars.t) : bool :=
  bool_decide (BiVars.forward_frontier st ≠ [])
  && bool_decide (BiVars.backward_frontier st ≠ []).

Definition bidirectional_search (fuel : nat) (graph : Graph) (start goal : string)
    : outcome (Result BiStep.t) :=
  let nodes_expanded := 0 in
  let nodes_generated := 2 in
  let max_frontier_size := 2 in
  if decide (start = goal) then
    Ret (trivial_result "bidirectional" start nodes_expanded nodes_generated
           max_frontier_size)
  else
    let start_node := Node.root start in
    let goal_node := Node.root goal in
    let* reverse_graph := make_reverse_graph graph in
    let* fl :=
      while_loop both_nonempty (bidi_body graph reverse_graph) fuel
        {| BiVars.forward_frontier := [start_node];
           BiVars.forward_explored := [];
           BiVars.backward_frontier := [goal_node];
           BiVars.backward_explored := [];
           BiVars.steps := [];
           BiVars.nodes_expanded := nodes_expanded;
           BiVars.nodes_generated := nodes_generated;
           BiVars.max_frontier_size := max_frontier_size |} in
    match fl with
    | Return res => Ret res
    | Next st =>
      (* the literal repeats three keys; the later value of each stands *)
      Ret (no_path_result "bidirectional" (BiVars.nodes_expanded st)
             (BiVars.nodes_generated st) (BiVars.max_frontier_size st)
             (BiVars.steps st))
    end.

(* ===================================================================== *)
(** * Informed search                                                     *)
(* ===================================================================== *)

Definition designated_goal : string := "Bucharest".

Definition get_heuristic (state goal : string) (heuristic_data : gmap string Z)
    : outcome Z :=
  if bool_decide (goal = designated_goal)
     && bool_decide (is_Some (heuristic_data !! state))
  then map_getitem heuristic_data state
  else Ret 0%Z.

(** ** Greedy best-first search *)

Definition greedy_child (goal : string) (heuristic_data : gmap string Z)
    (explored : gset string) (acc : list (Z * Node.t) * gset string * nat)
    (child : Node.t) : outcome (list (Z * Node.t) * gset string * nat) :=
  let '(frontier, frontier_states, nodes_generated) := acc in
  let nodes_generated := S nodes_generated in
  if bool_decide (Node.state child ∉ explored)
     && bool_decide (Node.state child ∉ frontier_states)
  then
    let* h := get_heuristic (Node.state child) goal heuristic_data in
    Ret (heapq.heappush frontier (h, child),
         {[Node.state child]} ∪ frontier_states, nodes_generated)
  else Ret (frontier, frontier_states, nodes_generated).

Definition greedy_body (graph : Graph) (goal : string)
    (heuristic_data : gmap string Z) (st : Vars.t (Z * Node.t) (gset string))
    : outcome (flow (Vars.t (Z * Node.t) (gset string)) (Result Step.t)) :=
  let max_frontier_size :=
    Nat.max (Vars.max_frontier_size st) (length (Vars.frontier st)) in
  let frontier_snapshot := (λ entry, Node.state entry.2) <$> Vars.frontier st in
  let* (entry, frontier) := heapq.heappop (Vars.frontier st) in
  let node := entry.2 in
  let* frontier_states := set_remove (Vars.frontier_states st) (Node.state node) in
  let nodes_expanded := S (Vars.nodes_expanded st) in
  let steps :=
    Vars.steps st
    ++ [snapshot frontier_snapshot (Vars.explored st) (Node.state node)] in
  if decide (Node.state node = goal) then
    Ret (Return (found_result "greedy" node nodes_expanded
                   (Vars.nodes_generated st) max_frontier_size steps))
  else
    let explored := {[Node.state node]} ∪ Vars.explored st in
    let* children := Node.expand graph node in
    let* (frontier, frontier_states, nodes_generated) :=
      foldM (greedy_child goal heuristic_data explored)
        (frontier, frontier_states, Vars.nodes_generated st) children in
    Ret (Next (Vars.mk frontier frontier_states explored steps nodes_expanded
                 nodes_generated max_frontier_size)).

Definition greedy_search (fuel : nat) (graph : Graph) (start goal : string)
    (heuristic_data : gmap string Z) : outcome (Result Step.t) :=
  let nodes_expanded := 0 in
  let nodes_generated := 1 in
  let max_frontier_size := 1 in
  if decide (start = goal) then
    Ret (trivial_result "greedy" start nodes_expanded nodes_generated
           max_frontier_size)
  else
    let start_node := Node.root start in
    finish "greedy"
      (let* h := get_heuristic start goal heuristic_data in
       while_loop frontier_nonempty (greedy_body graph goal heuristic_data) fuel
         (Vars.mk [(h, start_node)] {[start]} ∅ [] nodes_expanded
            nodes_generated max_frontier_size)).

(** ** A* *)

Section a_star.
(** [id(node)]: the address CPython gave to the node that
    [nodes_generated] counted as its [k]-th.  Every statement below holds
    whatever the addresses are. *)
Variable id : nat → Z.

Definition astar_child (goal : string) (heuristic_data : gmap string Z)
    (explored : gset string)
    (acc : list (Z * Z * Node.t) * gmap string Z * nat) (child : Node.t)
    : outcome (list (Z * Z * Node.t) * gmap string Z * nat) :=
  let '(frontier, frontier_states, nodes_generated) := acc in
  let nodes_generated := S nodes_generated in
  if bool_decide (Node.state child ∉ explored) then
    let* h := get_heuristic (Node.state child) goal heuristic_data in
    let f_value := (Node.path_cost child + h)%Z in
    if bool_decide (frontier_states !! Node.state child = None) then
      Ret (heapq.heappush frontier (f_value, id nodes_generated, child),
           <[Node.state child := Node.path_cost child]> frontier_states,
           nodes_generated)
    else
      let* recorded := map_getitem frontier_states (Node.state child) in
      if bool_decide (Node.path_cost child < recorded)%Z then
        match list_find (λ entry : Z * Z * Node.t,
                           Node.state entry.2 = Node.state child) frontier with
        | Some (i, _) =>
          Ret (heapq.heapify
                 (<[i := (f_value, id nodes_generated, child)]> frontier),
               <[Node.state child := Node.path_cost child]> frontier_states,
               nodes_generated)
        | None => Ret (frontier, frontier_states, nodes_generated)
        end
      else Ret (frontier, frontier_states, nodes_generated)
  else Ret (frontier, frontier_states, nodes_generated).

Definition astar_body (graph : Graph) (goal : string)
    (heuristic_data : gmap string Z)
    (st : Vars.t (Z * Z * Node.t) (gmap string Z))
    : outcome (flow (Vars.t (Z * Z * Node.t) (gmap string Z)) (Result Step.t)) :=
  let max_frontier_size :=
    Nat.max (Vars.max_frontier_size st) (length (Vars.frontier st)) in
  let frontier_snapshot :=
    (λ entry : Z * Z * Node.t, Node.state entry.2) <$> Vars.frontier st in
  let* (entry, frontier) := heapq.heappop (Vars.frontier st) in
  let node := entry.2 in
  let* frontier_states := map_delitem (Vars.frontier_states st) (Node.state node) in
  let nodes_expanded := S (Vars.nodes_expanded st) in
  let steps :=
    Vars.steps st
    ++ [snapshot frontier_snapshot (Vars.explored st) (Node.state node)] in
  if decide (Node.state node = goal) then
    Ret (Return (found_result "astar" node nodes_expanded
                   (Vars.nodes_generated st) max_frontier_size steps))
  else
    let explored := {[Node.state node]} ∪ Vars.explored st in
    let* children := Node.expand graph node in
    let* (frontier, frontier_states, nodes_generated) :=
      foldM (astar_child goal heuristic_data explored)
        (frontier, frontier_states, Vars.nodes_generated st) children in
    Ret (Next (Vars.mk frontier frontier_states explored steps nodes_expanded
                 nodes_generated max_frontier_size)).

Definition a_star_search (fuel : nat) (graph : Graph) (start goal : string)
    (heuristic_data : gmap string Z) : outcome (Result Step.t) :=
  let nodes_expanded := 0 in
  let nodes_generated := 1 in
  let max_frontier_size := 1 in
  if decide (start = goal) then
    Ret (trivial_result "astar" start nodes_expanded nodes_generated
           max_frontier_size)
  else
    let start_node := Node.root start in
    finish "astar"
      (let* h := get_heuristic start goal heuristic_data in
       while_loop frontier_nonempty (astar_body graph goal heuristic_data) fuel
         (Vars.mk [((Node.path_cost start_node + h)%Z, id nodes_generated,
                    start_node)]
            {[start := Node.path_cost start_node]} ∅ [] nodes_expanded
            nodes_generated max_frontier_size)).

End a_star.

(* ===================================================================== *)
(** * The concrete scenario                                               *)
(* ===================================================================== *)

(** [A-B(1), B-C(2), A-C(5)], both directions populated, and a fourth,
    isolated location. *)
Definition scenario_graph : Graph :=
  [ ("A", [("B", 1%Z); ("C", 5%Z)]);
    ("B", [("A", 1%Z); ("C", 2%Z)]);
    ("C", [("A", 5%Z); ("B", 2%Z)]);
    ("D", []) ].

(* ===================================================================== *)
(** * Path metrics ([src/utils/metrics.py])                               *)
(* ===================================================================== *)

(** [l[i]] for an index that is not negative. *)
Definition list_getitem {A} (l : list A) (i : nat) : outcome A :=
  match l !! i with
  | Some x => Ret x
  | None => Raise IndexError
  end.

(** [len(path) if path else 0] *)
Definition calculate_path_length (path : list string) : nat :=
  if bool_decide (path ≠ []) then length path else 0.

(** One turn of the loop: [cost += graph[path[i]][path[i+1]]]. *)
Definition path_cost_step (path : list string) (graph : Graph) (cost : Z)
    (i : nat) : outcome Z :=
  let* u := list_getitem path i in
  let* neighbors := dict_getitem graph u in
  let* v := list_getitem path (i + 1) in
  let* w := dict_getitem neighbors v in
  Ret (cost + w)%Z.

Definition calculate_path_cost (path : list string) (graph : Graph) : outcome Z :=
  if bool_decide (path = []) || bool_decide (length path < 2) then Ret 0%Z
  else
    let cost := 0%Z in
    foldM (path_cost_step path graph) cost (seq 0 (length path - 1)).

(* ===================================================================== *)
(** * The graph the window hands to the searches                          *)
(*    ([MainWindow.__init__] in [src/gui/main_window.py])                 *)
(* ===================================================================== *)

(** [adjacency_dict[city1][city2] = distance] and the same the other way
    round. *)
Definition add_road (adjacency_dict : Graph) (road : string * string * Z)
    : outcome Graph :=
  let '(city1, city2, distance) := road in
  let* inner := dict_getitem adjacency_dict city1 in
  let adjacency_dict :=
    dict_setitem adjacency_dict city1 (dict_setitem inner city2 distance) in
  let* inner := dict_getitem adjacency_dict city2 in
  Ret (dict_setitem adjacency_dict city2 (dict_setitem inner city1 distance)).

(** The adjacency dictionary built from the map data.  [CITIES] and [ROADS]
    come from [data.romania_map], which is not among the sources: they are
    parameters.  Only the keys of [CITIES] are used, whatever the positions
    are. *)
Definition make_adjacency_dict {Pos} (CITIES : dict Pos)
    (ROADS : list (string * string * Z)) : outcome Graph :=
  let roads_list := (λ '(city1, city2, distance), (city1, city2, distance)) <$> ROADS in
  let adjacency_dict :=
    fold_left (λ d city, dict_setitem d city []) (dict_keys CITIES) [] in
  foldM add_road adjacency_dict roads_list.

(** ** [MainWindow.update_results_text]: the name shown for a result *)

(** [algorithm_names] *)
Definition algorithm_names : dict string :=
  [ ("bfs", "Busca em Largura (BFS)");
    ("ucs", "Busca de Custo Uniforme (UCS)");
    ("dfs", "Busca em Profundidade (DFS)");
    ("dls", "Busca em Profundidade Limitada (DLS)");
    ("ids", "Busca de Aprofundamento Iterativo (IDS)");
    ("bidirectional", "Busca Bidirecional");
    ("greedy", "Busca Gulosa");
    ("astar", "Algoritmo A*") ].

(** [algorithm_names.get(result['algorithm'], result['algorithm'])] *)
Definition shown_name {S} (result : Result S) : string :=
  default (algorithm result) (dict_get algorithm_names (algorithm result)).

(* ===================================================================== *)
(** * Vocabulary of the specification                                     *)
(* ===================================================================== *)

(** ** Heaps *)

(** What [heapq] expects of [<]: a strict weak order. *)
Class LawfulLt (A : Type) `{PyLt A} : Prop := {
  py_lt_irrefl a : py_lt a a = false;
  py_lt_trans a b c : py_lt a b = true → py_lt b c = true → py_lt a c = true;
  py_lt_cotrans a b c : py_lt a c = true → py_lt a b = true ∨ py_lt b c = true
}.

(** The heap invariant of [heapq], [heap[(c-1)//2] <= heap[c]], at every
    child [c] whose parent is at index [k] or later. *)
Definition heap_from {A} `{PyLt A} (k : nat) (heap : list A) : Prop :=
  ∀ (c : nat) x y, k ≤ (c - 1) / 2 → 0 < c →
    heap !! c = Some x → heap !! ((c - 1) / 2) = Some y → py_lt x y = false.

Definition is_heap {A} `{PyLt A} (heap : list A) : Prop := heap_from 0 heap.

(** [pos] lies in the subtree of the heap rooted at [startpos]. *)
Inductive descends (startpos : nat) : nat → Prop :=
| descends_refl : descends startpos startpos
| descends_child (c : nat) :
    0 < c → descends startpos ((c - 1) / 2) → descends startpos c.

(** The state of [_siftdown] while [newitem] travels up from [pos]: the slot
    [pos] is a hole, everything else is in order, and what hangs below the
    hole is above [newitem] and above the parent of the hole. *)
Record siftdown_inv {A} `{PyLt A} (newitem : A) (startpos pos : nat)
    (heap : list A) : Prop := {
  sd_others : ∀ (c : nat) x y, startpos ≤ (c - 1) / 2 → 0 < c → c ≠ pos →
    (c - 1) / 2 ≠ pos →
    heap !! c = Some x → heap !! ((c - 1) / 2) = Some y → py_lt x y = false;
  sd_below : ∀ (c : nat) x, 0 < c → (c - 1) / 2 = pos → heap !! c = Some x →
    py_lt x newitem = false;
  sd_skip : ∀ (c : nat) x y, startpos < pos → 0 < c → (c - 1) / 2 = pos →
    heap !! c = Some x → heap !! ((pos - 1) / 2) = Some y → py_lt x y = false
}.

(** ** Graphs, walks and paths *)

(** The type invariant of a Python [dict]: no key twice. *)
Definition dict_wf {V} (d : dict V) : Prop := NoDup (dict_keys d).

Definition graph_wf (g : Graph) : Prop :=
  dict_wf g ∧ Forall (λ item, dict_wf item.2) g.

(** [graph[u][v] = w], as [Node.expand] sees it. *)
Definition edge (g : Graph) (u v : string) (w : Z) : Prop :=
  ∃ neighbors, dict_get g u = Some neighbors ∧ (v, w) ∈ neighbors.

(** A property of every edge of the graph; decidable when [P] is. *)
Definition forall_edges (P : string → string → Z → Prop) (g : Graph) : Prop :=
  Forall (λ item, Forall (λ e, P item.1 e.1 e.2) item.2) g.

Definition nonneg_weights (g : Graph) : Prop :=
  forall_edges (λ _ _ w, (0 ≤ w)%Z) g.

(** Every neighbour appears as a key. *)
Definition closed_graph (g : Graph) : Prop :=
  forall_edges (λ _ v _, v ∈ dict_keys g) g.

(** A walk from [start], edge by edge, and its cost. *)
Inductive walk (g : Graph) (start : string) : string → Z → Prop :=
| walk_start : walk g start start 0
| walk_step u c v w :
    walk g start u c → edge g u v w → walk g start v (c + w).

Definition reachable (g : Graph) (start x : string) : Prop :=
  ∃ c, walk g start x c.

(** Every location reachable from [start], [start] included, is a key. *)
Definition reachable_closed (g : Graph) (start : string) : Prop :=
  ∀ x, reachable g start x → x ∈ dict_keys g.

(** The sum of the edge weights along a list of locations; [None] when two
    consecutive ones are not adjacent, or the list is empty. *)
Fixpoint path_weight (g : Graph) (p : list string) : option Z :=
  match p with
  | [] => None
  | u :: rest =>
    match rest with
    | [] => Some 0%Z
    | v :: _ =>
      match dict_get g u with
      | Some neighbors =>
        match dict_get neighbors v, path_weight g rest with
        | Some w, Some c => Some (w + c)%Z
        | _, _ => None
        end
      | None => None
      end
    end
  end.

(** [p] leads from [start] to [goal] along edges of [g] and costs [c]. *)
Definition is_path (g : Graph) (start goal : string) (p : list string) (c : Z)
    : Prop :=
  head p = Some start ∧ last p = Some goal ∧ path_weight g p = Some c.

(** ** Search nodes *)

(** The nodes the search can build: the root and the children that
    [Node.expand] makes. *)
Inductive node_ok (g : Graph) (start : string) : Node.t → Prop :=
| node_ok_root : node_ok g start (Node.root start)
| node_ok_child n neighbors e :
    node_ok g start n → dict_get g (Node.state n) = Some neighbors →
    e ∈ neighbors → node_ok g start (Node.child n e).

(** The node inside a frontier entry. *)
Class Entry (E : Type) := entry_node : E → Node.t.
#[global] Instance node_entry : Entry Node.t := λ n, n.
#[global] Instance pair_entry : Entry (Z * Node.t) := snd.
#[global] Instance triple_entry : Entry (Z * Z * Node.t) := snd.

(** What every unidirectional loop has in its variables, whatever the
    frontier is made of. *)
Definition view {E FS} `{Entry E} (st : Vars.t E FS) : Vars.t Node.t unit :=
  Vars.mk (entry_node <$> Vars.frontier st) () (Vars.explored st)
    (Vars.steps st) (Vars.nodes_expanded st) (Vars.nodes_generated st)
    (Vars.max_frontier_size st).

(** [frontier_states] holds the states of the frontier, no more, no less. *)
Definition states_agree {E} `{Entry E} (st : Vars.t E (gset string)) : Prop :=
  ∀ x, x ∈ Vars.frontier_states st ↔ x ∈ (Node.state <$> Vars.frontier (view st)).

(** What each heap-based search keeps true of its own variables. *)
Definition greedy_local (st : Vars.t (Z * Node.t) (gset string)) : Prop :=
  states_agree st ∧ is_heap (Vars.frontier st).

Definition ucs_local (st : Vars.t (Z * Node.t) (gset string)) : Prop :=
  states_agree st ∧ is_heap (Vars.frontier st)
  ∧ ∀ e, e ∈ Vars.frontier st → e.1 = Node.path_cost e.2.

(** The cost record that A-star keeps next to its frontier. *)
Definition cost_record (frontier : list (Z * Z * Node.t)) : gmap string Z :=
  list_to_map ((λ e, (Node.state e.2, Node.path_cost e.2)) <$> frontier).

Definition astar_local (h : string → Z)
    (st : Vars.t (Z * Z * Node.t) (gmap string Z)) : Prop :=
  Vars.frontier_states st = cost_record (Vars.frontier st)
  ∧ is_heap (Vars.frontier st)
  ∧ ∀ e, e ∈ Vars.frontier st →
      e.1.1 = (Node.path_cost e.2 + h (Node.state e.2))%Z.

(** ** One iteration, abstractly *)

Section machine.
(** [relax]: the search compares costs (uniform cost and A-star), with [key] the
    priority of a node; [pos]: where in the frontier the pop takes place. *)
Variable relax : bool.
Variable key : Node.t → Z.
Variable pos : list string → option string.
Variable g : Graph.
Variable goal : string.

(** What the loop over the children does with one child: nothing, an
    insertion, or the replacement of a dearer entry for the same state. *)
Definition absorb1 (X : gset string) (F : list Node.t) (c : Node.t)
    (F' : list Node.t) : Prop :=
  (F' ≡ₚ F
   ∧ (Node.state c ∈ X
      ∨ ∃ old, old ∈ F ∧ Node.state old = Node.state c
          ∧ (relax = true → (Node.path_cost old ≤ Node.path_cost c)%Z)))
  ∨ (F' ≡ₚ c :: F ∧ (Node.state c ∉ X) ∧ Node.state c ∉ (Node.state <$> F))
  ∨ (∃ old rest, F ≡ₚ old :: rest ∧ F' ≡ₚ c :: rest
       ∧ Node.state old = Node.state c ∧ (Node.state c ∉ X)
       ∧ (Node.path_cost c < Node.path_cost old)%Z).

Inductive absorb (X : gset string)
    : list Node.t → list Node.t → list Node.t → Prop :=
| absorb_nil F : absorb X F [] F
| absorb_cons F c F1 cs F' :
    absorb1 X F c F1 → absorb X F1 cs F' → absorb X F (c :: cs) F'.

(** The pop of an iteration. *)
Definition popped (v : Vars.t Node.t unit) (node : Node.t) (rest : list Node.t)
    : Prop :=
  Vars.frontier v ≡ₚ node :: rest
  ∧ pos (Node.state <$> Vars.frontier v) = Some (Node.state node)
  ∧ (relax = true → ∀ m, m ∈ rest → (key node ≤ key m)%Z).

(** An iteration that falls through to the next one. *)
Inductive search_step (v v' : Vars.t Node.t unit) : Prop :=
| SearchStep node rest cs :
    popped v node rest →
    Node.state node ≠ goal →
    ((∃ children, Node.expand g node = Ret children ∧ cs ≡ₚ children)
     ∨ (relax = false ∧ cs = [])) →
    absorb ({[Node.state node]} ∪ Vars.explored v) rest cs (Vars.frontier v') →
    Vars.explored v' = {[Node.state node]} ∪ Vars.explored v →
    Vars.steps v' =
      Vars.steps v
      ++ [snapshot (Node.state <$> Vars.frontier v) (Vars.explored v)
            (Node.state node)] →
    Vars.nodes_expanded v' = S (Vars.nodes_expanded v) →
    Vars.nodes_generated v' = Vars.nodes_generated v + length cs →
    Vars.max_frontier_size v' =
      Nat.max (Vars.max_frontier_size v) (length (Vars.frontier v)) →
    search_step v v'.

(** An iteration that returns the node it popped. *)
Inductive search_found (v : Vars.t Node.t unit) (r : Result Step.t) : Prop :=
| SearchFound node rest alg :
    popped v node rest →
    Node.state node = goal →
    r = found_result alg node (S (Vars.nodes_expanded v))
          (Vars.nodes_generated v)
          (Nat.max (Vars.max_frontier_size v) (length (Vars.frontier v)))
          (Vars.steps v
           ++ [snapshot (Node.state <$> Vars.frontier v) (Vars.explored v)
                 (Node.state node)]) →
    search_found v r.

(** A trace whose snapshots chain: each one shows the explored set it
    started from and the location popped from its frontier, which joins
    the explored set of the next. *)
Inductive trace_from : gset string → list Step.t → gset string → Prop :=
| trace_nil X : trace_from X [] X
| trace_cons X s x rest X' :
    Step.explored s = X → Step.current s = Some x →
    pos (Step.frontier s) = Some x → x ∉ X → Step.depth_limit s = None →
    trace_from ({[x]} ∪ X) rest X' →
    trace_from X (s :: rest) X'.

(** The frontier the first snapshot shows (or will show). *)
Definition first_frontier (v : Vars.t Node.t unit) : list string :=
  match Vars.steps v with
  | [] => Node.state <$> Vars.frontier v
  | s :: _ => Step.frontier s
  end.

(** What holds of the variables at the head of the loop. *)
Record search_inv (start : string) (v : Vars.t Node.t unit) : Prop := {
  inv_nodup : NoDup (Node.state <$> Vars.frontier v);
  inv_fresh : ∀ n, n ∈ Vars.frontier v → Node.state n ∉ Vars.explored v;
  inv_ok : ∀ n, n ∈ Vars.frontier v → node_ok g start n;
  inv_explored : ∀ x, x ∈ Vars.explored v → reachable g start x;
  inv_goal : goal ∉ Vars.explored v;
  inv_size : size (Vars.explored v) = Vars.nodes_expanded v;
  inv_steps : length (Vars.steps v) = Vars.nodes_expanded v;
  inv_generated :
    Vars.nodes_expanded v + length (Vars.frontier v) ≤ Vars.nodes_generated v;
  inv_max : 1 ≤ Vars.max_frontier_size v;
  inv_trace : trace_from ∅ (Vars.steps v) (Vars.explored v);
  inv_first : first_frontier v = [start]
}.
End machine.

(** How a run ends: on the node it popped, or on an empty frontier. *)
Definition run_end (relax : bool) (key : Node.t → Z)
    (pos : list string → option string) (goal alg : string)
    (v : Vars.t Node.t unit) (r : Result Step.t) : Prop :=
  search_found relax key pos goal v r
  ∨ (Vars.frontier v = []
     ∧ r = no_path_result alg (Vars.nodes_expanded v) (Vars.nodes_generated v)
             (Vars.max_frontier_size v) (Vars.steps v)).

(** The trace of a run: one snapshot per expansion, chained from the empty
    explored set, the first one showing the start alone in the frontier. *)
Definition trace_ok (pos : list string → option string) (start : string)
    (r : Result Step.t) : Prop :=
  length (steps r) = nodes_expanded r
  ∧ (∃ X, trace_from pos ∅ (steps r) X)
  ∧ (∀ s, head (steps r) = Some s → Step.frontier s = [start]).

(** What a cost-comparing search knows about the walks of the graph: the
    start has been met, and every edge out of an explored location leads to
    an explored location or to a frontier node no dearer than any walk
    through that edge. *)
Record dijkstra_inv (g : Graph) (start : string) (v : Vars.t Node.t unit)
    : Prop := {
  dj_start :
    start ∈ Vars.explored v
    ∨ ∃ n, n ∈ Vars.frontier v ∧ Node.state n = start
        ∧ (Node.path_cost n ≤ 0)%Z;
  dj_edges : ∀ u c x w,
    walk g start u c → u ∈ Vars.explored v → edge g u x w →
    x ∈ Vars.explored v
    ∨ ∃ n, n ∈ Vars.frontier v ∧ Node.state n = x
        ∧ (Node.path_cost n ≤ c + w)%Z
}.

(** The value [get_heuristic] computes. *)
Definition heuristic_value (goal : string) (heuristic_data : gmap string Z)
    (state : string) : Z :=
  if decide (goal = designated_goal) then default 0%Z (heuristic_data !! state)
  else 0%Z.

(** A heuristic is consistent when it drops along an edge by no more than
    the weight of the edge. *)
Definition consistent (h : string → Z) (g : Graph) : Prop :=
  forall_edges (λ u v w, (h u ≤ w + h v)%Z) g.

(** ** Bidirectional search *)

(** What the construction keeps true of the reverse graph: the keys of the
    graph, and in each inner dictionary only edges of the graph, turned
    round. *)
Definition reverse_inv (g rg : Graph) : Prop :=
  dict_keys rg = dict_keys g
  ∧ ∀ u inner, dict_get rg u = Some inner →
      dict_wf inner ∧ ∀ v w, (v, w) ∈ inner → edge g v u w.


(** A node of one of the two search trees: built by [Node.expand], on a
    chain of parents that passes no location twice and whose locations are
    all explored on that side. *)
Definition chain_ok (g : Graph) (root : string) (explored : dict Node.t)
    (n : Node.t) : Prop :=
  node_ok g root n ∧ NoDup (Node.path_back n)
  ∧ ∀ x, x ∈ tail (Node.path_back n) → x ∈ dict_keys explored.

Definition explored_ok (g : Graph) (root : string) (explored : dict Node.t)
    : Prop :=
  dict_wf explored
  ∧ ∀ k n, (k, n) ∈ explored → Node.state n = k ∧ chain_ok g root explored n.

Definition frontier_ok (g : Graph) (root : string) (explored : dict Node.t)
    (frontier : list Node.t) : Prop :=
  NoDup (Node.state <$> frontier)
  ∧ ∀ n, n ∈ frontier →
      (Node.state n ∉ dict_keys explored) ∧ chain_ok g root explored n.

(** What holds at the head of the bidirectional loop; [rg] is the reverse
    graph. *)
Record bidi_inv (g rg : Graph) (start goal : string) (st : BiVars.t)
    : Prop := {
  bi_forward_explored : explored_ok g start (BiVars.forward_explored st);
  bi_forward_frontier :
    frontier_ok g start (BiVars.forward_explored st) (BiVars.forward_frontier st);
  bi_backward_explored : explored_ok rg goal (BiVars.backward_explored st);
  bi_backward_frontier :
    frontier_ok rg goal (BiVars.backward_explored st)
      (BiVars.backward_frontier st);
  bi_apart : ∀ x, x ∈ dict_keys (BiVars.forward_explored st) →
    x ∉ dict_keys (BiVars.backward_explored st);
  bi_expanded :
    BiVars.nodes_expanded st = 2 * length (BiVars.forward_explored st)
    ∧ length (BiVars.backward_explored st)
      = length (BiVars.forward_explored st);
  bi_generated :
    BiVars.nodes_expanded st + length (BiVars.forward_frontier st)
    + length (BiVars.backward_frontier st) ≤ BiVars.nodes_generated st;
  bi_max : 1 ≤ BiVars.max_frontier_size st
}.

(** The two nodes a bidirectional result is made of. *)
Definition meeting (g rg : Graph) (start goal : string) (fwd bwd : Node.t)
    (r : Result BiStep.t) : Prop :=
  node_ok g start fwd ∧ node_ok rg goal bwd
  ∧ Node.state fwd = Node.state bwd
  ∧ NoDup (Node.path_back fwd) ∧ NoDup (Node.path_back bwd)
  ∧ (∀ x, x ∈ Node.path_back fwd → x ∈ Node.path_back bwd →
       x = Node.state fwd)
  ∧ path r = Node.path fwd ++ tail (reverse (Node.path bwd))
  ∧ distance r = (Node.path_cost fwd + Node.path_cost bwd)%Z
  ∧ nodes_expanded r ≤ nodes_generated r ∧ 1 ≤ max_frontier_size r.

(** The accumulator of iterative deepening after [i] depth-limited runs;
    [bound] holds of the sizes the reachable component may have. *)
Definition ids_inv (bound : nat → Prop) (i : nat)
    (acc : nat * nat * nat * list Step.t) : Prop :=
  acc.1.1.1 ≤ acc.1.1.2 ∧ (0 < i → 1 ≤ acc.1.2)
  ∧ ∀ n, bound n → acc.1.1.1 ≤ i * n.

(** The variables of the bidirectional loop when it is entered. *)
Definition bidi_start (start goal : string) : BiVars.t :=
  {| BiVars.forward_frontier := [Node.root start];
     BiVars.forward_explored := [];
     BiVars.backward_frontier := [Node.root goal];
     BiVars.backward_explored := [];
     BiVars.steps := [];
     BiVars.nodes_expanded := 0;
     BiVars.nodes_generated := 2;
     BiVars.max_frontier_size := 2 |}.

(** ** What a loop body owes to the abstract iteration *)

Section run_defs.
Context {E FS : Type} `{Entry E}.
Context (relax : bool) (key : Node.t → Z) (pos : list string → option string).
Context (g : Graph) (goal start : string).
(** What the algorithm keeps true about its own variables. *)
Context (L : Vars.t E FS → Prop).
(** What follows from the iterations alone. *)
Context (J : Vars.t Node.t unit → Prop).
Context (body : Vars.t E FS → outcome (flow (Vars.t E FS) (Result Step.t))).

(** The loop body refines the abstract iteration, and the only exception
    it can raise is the [KeyError] of expanding a location that is not a
    key of the graph. *)
Definition body_spec : Prop :=
  ∀ st, L st → search_inv pos g goal start (view st) → Vars.frontier st ≠ [] →
    match body st with
    | Ret (Next st') => search_step relax key pos g goal (view st) (view st') ∧ L st'
    | Ret (Return r) => search_found relax key pos goal (view st) r
    | Raise e =>
      ∃ n, n ∈ Vars.frontier (view st) ∧ Node.state n ∉ dict_keys g
    | OutOfFuel => False
    end.

Definition run_inv (st : Vars.t E FS) : Prop :=
  L st ∧ search_inv pos g goal start (view st) ∧ J (view st).

End run_defs.

(** ** How the properties of the engine are stated *)

(** Whatever the call returns satisfies [P]. *)
Definition returns {A} (call : outcome A) (P : A → Prop) : Prop :=
  ∀ r, call = Ret r → P r.

(** The call returns, and what it returns satisfies [P]. *)
Definition terminates {A} (call : outcome A) (P : A → Prop) : Prop :=
  ∃ r, call = Ret r ∧ P r.

(** The result of a call with [start == goal]. *)
Definition is_trivial {S} (start : string) (r : Result S) : Prop :=
  path r = [start] ∧ distance r = 0%Z ∧ steps r = [].

Definition counts {S} (expanded generated : nat) (r : Result S) : Prop :=
  nodes_expanded r = expanded ∧ nodes_generated r = generated.

(** A non-empty path of the result leads from [start] to [goal] along edges
    of the graph, and the distance is the sum of their weights. *)
Definition valid_path {S} (g : Graph) (start goal : string) (r : Result S)
    : Prop :=
  path r ≠ [] → is_path g start goal (path r) (distance r).

(** The result is a path of the graph that no path undercuts. *)
Definition optimal {S} (g : Graph) (start goal : string) (r : Result S) : Prop :=
  is_path g start goal (path r) (distance r)
  ∧ ∀ p c, is_path g start goal p c → (distance r ≤ c)%Z.


(** A heuristic is admissible when it never exceeds the cost of a walk to
    the goal. *)
Definition admissible (h : string → Z) (g : Graph) (goal : string) : Prop :=
  ∀ x c, walk g x goal c → (h x ≤ c)%Z.

(** The report of an exhausted search that expanded at most [bound] nodes. *)
Definition no_path_within {S} (bound : nat) (r : Result S) : Prop :=
  path r = [] ∧ distance r = 0%Z ∧ nodes_expanded r ≤ bound.

Definition metrics_ok {S} (r : Result S) : Prop :=
  nodes_expanded r ≤ nodes_generated r ∧ 1 ≤ max_frontier_size r.

(** A set of locations that no edge of the graph leaves. *)
Definition edge_closed (g : Graph) (comp : list string) : Prop :=
  Forall (λ item : string * dict Z,
            item.1 ∈ comp → Forall (λ e : string * Z, e.1 ∈ comp) item.2) g.

(** What a call reports when it returns, the trace apart. *)
Definition report {S} (call : outcome (Result S))
    : option (string * list string * Z * (nat * nat * nat)) :=
  match call with
  | Ret r =>
    Some (algorithm r, path r, distance r,
          (nodes_expanded r, nodes_generated r, max_frontier_size r))
  | _ => None
  end.

(** ** Concrete inputs *)

(** Two components, [S-A] and [G-H]. *)
Definition split_graph : Graph :=
  [ ("S", [("A", 1%Z)]); ("A", [("S", 1%Z)]);
    ("G", [("H", 1%Z)]); ("H", [("G", 1%Z)]) ].

(** A location, [X], that is a neighbour but not a key, out of reach of
    [S]. *)
Definition dangling_graph : Graph :=
  [ ("S", []); ("G", [("X", 1%Z)]) ].

(** A map on which the cheapest way to Bucharest goes through [A] and [B],
    and a table that is admissible but drops by 11 along the edge [A-B] of
    weight 1. *)
Definition detour_graph : Graph :=
  [ ("S", [("A", 1%Z); ("B", 3%Z)]);
    ("A", [("S", 1%Z); ("B", 1%Z)]);
    ("B", [("S", 3%Z); ("A", 1%Z); ("Bucharest", 10%Z)]);
    ("Bucharest", [("B", 10%Z)]) ].

Definition detour_table : gmap string Z :=
  <["S" := 0%Z]> (<["A" := 11%Z]> (<["B" := 0%Z]> (<["Bucharest" := 0%Z]> ∅))).

(** The true remaining costs on [detour_graph]. *)
Definition detour_costs : gmap string Z :=
  <["S" := 12%Z]> (<["A" := 11%Z]> (<["B" := 10%Z]> (<["Bucharest" := 0%Z]> ∅))).

(** Addresses that grow with the allocations. *)
Definition increasing_ids (k : nat) : Z := Z.of_nat k.


(** What a call of one of the six unidirectional functions comes to: the
    short cut of [start == goal], or a run of the search loop that pops at
    [pos]. *)
Definition unidirectional (pos : list string → option string) (g : Graph)
    (start goal : string) (r : Result Step.t) : Prop :=
  (start = goal ∧ ∃ alg, r = trivial_result alg start 0 1 1)
  ∨ (start ≠ goal
     ∧ ∃ relax key alg v,
         search_inv pos g goal start v ∧ run_end relax key pos goal alg v r).

(** ** Deciding the hypotheses on a concrete graph *)

#[global] Instance graph_wf_dec (g : Graph) : Decision (graph_wf g).
Proof. unfold graph_wf, dict_wf. apply _. Defined.

#[global] Instance forall_edges_dec (P : string → string → Z → Prop)
  `{∀ u v w, Decision (P u v w)} (g : Graph) : Decision (forall_edges P g).
Proof. unfold forall_edges. apply _. Defined.

#[global] Instance nonneg_weights_dec (g : Graph) : Decision (nonneg_weights g).
Proof. unfold nonneg_weights. apply _. Defined.

#[global] Instance closed_graph_dec (g : Graph) : Decision (closed_graph g).
Proof. unfold closed_graph. apply _. Defined.

#[global] Instance consistent_dec (h : string → Z) (g : Graph)
  : Decision (consistent h g).
Proof. unfold consistent. apply _. Defined.

#[global] Instance edge_closed_dec (g : Graph) (comp : list string)
  : Decision (edge_closed g comp).
Proof. unfold edge_closed. apply _. Defined.

#[global] Instance is_path_dec (g : Graph) (start goal : string)
  (p : list string) (c : Z) : Decision (is_path g start goal p c).
Proof. unfold is_path. apply _. Defined.

(** Settles a decidable statement about a concrete input by evaluation. *)
Ltac by_evaluation :=
  match goal with
  | |- ?P => apply (bool_decide_unpack P); vm_compute; exact I
  end.

(* ===================================================================== *)
(** * Vocabulary for the callers                                          *)
(* ===================================================================== *)

(** The cost of the path [u :: rest] added to [acc], edge by edge from the
    front, the way the loop of [calculate_path_cost] meets the edges. *)
Fixpoint cost_along (g : Graph) (u : string) (rest : list string) (acc : Z)
    : outcome Z :=
  match rest with
  | [] => Ret acc
  | v :: rest' =>
    let* neighbors := dict_getitem g u in
    let* w := dict_getitem neighbors v in
    cost_along g v rest' (acc + w)%Z
  end.

(** [graph[u][v]], where both lookups find their key. *)
Definition weight (g : Graph) (u v : string) : option Z :=
  match dict_get g u with
  | Some neighbors => dict_get neighbors v
  | None => None
  end.

(** The road joins [a] and [b], in this order or the other. *)
Definition joins (road : string * string * Z) (a b : string) : Prop :=
  (road.1.1 = a ∧ road.1.2 = b) ∨ (road.1.1 = b ∧ road.1.2 = a).

#[global] Instance joins_dec road a b : Decision (joins road a b).
Proof. unfold joins. apply _. Defined.

(** The distance of the last road of the list that joins [a] and [b]. *)
Definition road_distance (roads : list (string * string * Z)) (a b : string)
    : option Z :=
  fold_left (λ acc road, if decide (joins road a b) then Some road.2 else acc)
    roads None.

(** Both ends of the road are cities. *)
Definition road_ok (cities : list string) (road : string * string * Z) : Prop :=
  road.1.1 ∈ cities ∧ road.1.2 ∈ cities.

#[global] Instance road_ok_dec cities road : Decision (road_ok cities road).
Proof. unfold road_ok. apply _. Defined.

(* ===================================================================== *)
(** * More that the search loops keep true                                *)
(* ===================================================================== *)

(** The variables of a unidirectional loop when it is entered, as [view]
    shows them. *)
Definition start_vars (start : string) : Vars.t Node.t unit :=
  Vars.mk [Node.root start] () ∅ [] 0 1 1.

(** [J] holds when the loop is entered and every iteration keeps it,
    whatever the order of the frontier and the comparison of costs. *)
Definition stable (pos : list string → option string) (g : Graph)
    (goal start : string) (J : Vars.t Node.t unit → Prop) : Prop :=
  J (start_vars start)
  ∧ ∀ relax key v v',
      search_inv pos g goal start v → J v →
      search_step relax key pos g goal v v' → J v'.

(** [unidirectional], with what [J] says of the variables at the end. *)
Definition unidirectional_with (J : Vars.t Node.t unit → Prop)
    (pos : list string → option string) (g : Graph) (start goal : string)
    (r : Result Step.t) : Prop :=
  (start = goal ∧ ∃ alg, r = trivial_result alg start 0 1 1)
  ∨ (start ≠ goal
     ∧ ∃ relax key alg v,
         search_inv pos g goal start v ∧ J v
         ∧ run_end relax key pos goal alg v r).

(** The chain of parents of a frontier node holds no location twice, and
    all of it but the node itself is explored. *)
Definition simple_inv (v : Vars.t Node.t unit) : Prop :=
  ∀ n, n ∈ Vars.frontier v →
    NoDup (Node.path_back n)
    ∧ ∀ x, x ∈ tail (Node.path_back n) → x ∈ Vars.explored v.

(** A snapshot shows a frontier without duplicates, apart from the explored
    set, and the current location. *)
Definition snapshot_ok (s : Step.t) : Prop :=
  NoDup (Step.frontier s)
  ∧ (∀ x, x ∈ Step.frontier s → x ∉ Step.explored s)
  ∧ ∃ x, Step.current s = Some x ∧ x ∈ Step.frontier s.

Definition snapshots_inv (v : Vars.t Node.t unit) : Prop :=
  Forall snapshot_ok (Vars.steps v).

Definition frontier_bound (comp : list string) (v : Vars.t Node.t unit) : Prop :=
  Vars.max_frontier_size v ≤ Vars.nodes_generated v
  ∧ Vars.max_frontier_size v ≤ length comp.

(** The locations the snapshots show as current, in order. *)
Definition currents (steps : list Step.t) : list string :=
  omap Step.current steps.

(** No frontier node of a depth-limited search lies beyond the limit, the
    root apart (it is in the frontier whatever the limit). *)
Definition depth_inv (start : string) (depth_limit : Z)
    (st : Vars.t Node.t (gset string)) : Prop :=
  ∀ n, n ∈ Vars.frontier st →
    (Node.depth n ≤ depth_limit)%Z ∨ n = Node.root start.

(** The depth-limited search with limit [d] comes back without a path. *)
Definition dls_fails (fuel : nat) (g : Graph) (start goal : string) (d : Z)
    : Prop :=
  ∃ r, depth_limited_search fuel g start goal d = Ret r ∧ path r = [].

(** The snapshot carries a depth limit below [bound]. *)
Definition tagged_below (bound : Z) (s : Step.t) : Prop :=
  ∃ d, Step.depth_limit s = Some d ∧ (0 ≤ d < bound)%Z.

(** What iterative deepening has done after the limits below [i]. *)
Definition deepening_inv (fuel : nat) (g : Graph) (start goal : string)
    (i : nat) (acc : nat * nat * nat * list Step.t) : Prop :=
  (∀ j, j < i → dls_fails fuel g start goal (Z.of_nat j))
  ∧ length acc.2 = acc.1.1.1
  ∧ Forall (tagged_below (Z.of_nat i)) acc.2.

(** The result of iterative deepening is the result of the first limit
    that finds a path. *)
Definition first_success (fuel : nat) (g : Graph) (start goal : string)
    (max_depth : Z) (r : Result Step.t) : Prop :=
  ∃ d rd, (0 ≤ d < max_depth)%Z
    ∧ depth_limited_search fuel g start goal d = Ret rd
    ∧ path rd = path r ∧ distance rd = distance r ∧ path r ≠ []
    ∧ (∀ d', (0 ≤ d' < d)%Z → dls_fails fuel g start goal d')
    ∧ (Z.of_nat (length (path r)) ≤ d + 1)%Z.

(* ===================================================================== *)
(** * How the further properties are stated                               *)
(* ===================================================================== *)

(** The cost of the path, recomputed from the graph, is the distance the
    result reports. *)
Definition cost_agrees {S} (g : Graph) (r : Result S) : Prop :=
  calculate_path_cost (path r) g = Ret (distance r).

(** The graph gives [a] to [b] the weight it gives [b] to [a]. *)
Definition symmetric (g : Graph) : Prop :=
  ∀ a b, weight g a b = weight g b a.

(** ** More concrete inputs *)

(** Four cities at made-up positions, and the three roads of the
    scenario. *)
Definition scenario_cities : dict (Z * Z) :=
  [ ("A", (0, 0)%Z); ("B", (1, 0)%Z); ("C", (1, 1)%Z); ("D", (5, 5)%Z) ].

Definition scenario_roads : list (string * string * Z) :=
  [ ("A", "B", 1%Z); ("B", "C", 2%Z); ("A", "C", 5%Z) ].

(** A chain of four locations. *)
Definition chain_graph : Graph :=
  [ ("A", [("B", 1%Z)]); ("B", [("A", 1%Z); ("C", 1%Z)]);
    ("C", [("B", 1%Z); ("D", 1%Z)]); ("D", [("C", 1%Z)]) ].

(** The order of the expansions, as the trace shows it: no location twice,
    one per node expanded, all of them reachable, the goal last and only
    when a path is returned. *)
Definition expansion_order (g : Graph) (start goal : string)
    (r : Result Step.t) : Prop :=
  NoDup (currents (steps r))
  ∧ length (currents (steps r)) = nodes_expanded r
  ∧ (∀ x, x ∈ currents (steps r) → reachable g start x)
  ∧ (start ≠ goal → path r ≠ [] →
       ∃ pre, currents (steps r) = pre ++ [goal] ∧ goal ∉ pre)
  ∧ (path r = [] → goal ∉ currents (steps r)).

(** The counters and the path stay within the [comp] locations that can be
    reached. *)
Definition within (comp : list string) (r : Result Step.t) : Prop :=
  nodes_expanded r ≤ length comp
  ∧ max_frontier_size r ≤ length comp
  ∧ max_frontier_size r ≤ nodes_generated r
  ∧ length (path r) ≤ length comp.

(** A path that is found has at least one edge and at most [limit]. *)
Definition edges_within (limit : Z) (r : Result Step.t) : Prop :=
  path r ≠ [] →
  (2 ≤ Z.of_nat (calculate_path_length (path r)) ≤ limit + 1)%Z.

(** The result carries the label [name], and the window shows it under the
    name that [algorithm_names] holds for that label. *)
Definition labelled {S} (name : string) (r : Result S) : Prop :=
  algorithm r = name
  ∧ dict_get algorithm_names name = Some (shown_name r).

(** ** Searches that expand every node they pop *)

(** An iteration that expands the node it pops: the frontier absorbs all
    the children. *)
Definition expands (g : Graph) (v v' : Vars.t Node.t unit) : Prop :=
  ∃ relax node rest children cs,
    Vars.frontier v ≡ₚ node :: rest
    ∧ Node.expand g node = Ret children ∧ cs ≡ₚ children
    ∧ absorb relax ({[Node.state node]} ∪ Vars.explored v) rest cs
        (Vars.frontier v')
    ∧ Vars.explored v' = {[Node.state node]} ∪ Vars.explored v.

(** The start has been met, and every edge out of an explored location
    leads to a location that is explored or in the frontier. *)
Definition closure_inv (g : Graph) (start : string)
    (v : Vars.t Node.t unit) : Prop :=
  (start ∈ Vars.explored v ∨ start ∈ (Node.state <$> Vars.frontier v))
  ∧ ∀ u x w, u ∈ Vars.explored v → edge g u x w →
      x ∈ Vars.explored v ∨ x ∈ (Node.state <$> Vars.frontier v).

(** The search gives up only when it has expanded every location that can
    be reached: it finds a goal that can be reached, and the trace of a
    search without a path shows every reachable location as current. *)
Definition exhaustive (g : Graph) (start goal : string)
    (r : Result Step.t) : Prop :=
  (reachable g start goal → path r ≠ [])
  ∧ (path r = [] →
       ∀ x, reachable g start x ↔ x ∈ currents (steps r)).

(** ** The queue of breadth-first search *)

(** A walk of [k] edges from [start]. *)
Inductive hops (g : Graph) (start : string) : string → nat → Prop :=
| hops_start : hops g start start 0
| hops_step u k v w :
    hops g start u k → edge g u v w → hops g start v (S k).

(** [b] is queued after [a]: at the depth of [a] or one below. *)
Definition level_order (a b : Node.t) : Prop :=
  (Node.depth a ≤ Node.depth b ≤ Node.depth a + 1)%Z.

(** The queue holds its nodes by depth, over at most two levels. *)
Fixpoint queue_sorted (frontier : list Node.t) : Prop :=
  match frontier with
  | [] => True
  | a :: rest => Forall (level_order a) rest ∧ queue_sorted rest
  end.

(** What breadth-first search knows about the walks of the graph: the
    queue is sorted, the start has been met, and every edge out of an
    explored location leads to an explored location or to a queued node no
    deeper than any walk through that edge is long. *)
Definition queue_inv (g : Graph) (start : string)
    (st : Vars.t Node.t unit) : Prop :=
  queue_sorted (Vars.frontier st)
  ∧ (start ∈ Vars.explored st
     ∨ ∃ n, n ∈ Vars.frontier st ∧ Node.state n = start
         ∧ (Node.depth n ≤ 0)%Z)
  ∧ ∀ u k x w,
      hops g start u k → u ∈ Vars.explored st → edge g u x w →
      x ∈ Vars.explored st
      ∨ ∃ n, n ∈ Vars.frontier st ∧ Node.state n = x
          ∧ (Node.depth n ≤ Z.of_nat k + 1)%Z.

(** No path of the graph from [start] to [goal] has fewer locations than
    the path of the result. *)
Definition fewest_edges {S} (g : Graph) (start goal : string) (r : Result S)
    : Prop :=
  ∀ p c, is_path g start goal p c →
    calculate_path_length (path r) ≤ calculate_path_length p.

(** ** The trace, iteration by iteration *)

(** The loop passes through the states [sts], in each of which the
    condition holds and the body falls through to the next iteration, and
    arrives at the head of the loop in [st]. *)
Inductive passes {St R} (cond : St → bool) (body : St → outcome (flow St R))
    : St → list St → St → Prop :=
| passes_here st : passes cond body st [] st
| passes_on st st' sts st'' :
    cond st = true → body st = Ret (Next st') →
    passes cond body st' sts st'' →
    passes cond body st (st :: sts) st''.

(** The snapshot of the iteration that starts in [st]: the states of the
    frontier and the explored set as the iteration finds them, before the
    pop, and the state of the entry that [pop] takes out of that
    frontier. *)
Definition shot {E FS} `{Entry E} (pop : list E → outcome (E * list E))
    (st : Vars.t E FS) : option Step.t :=
  match pop (Vars.frontier st) with
  | Ret (entry, _) =>
    Some (snapshot ((λ e, Node.state (entry_node e)) <$> Vars.frontier st)
            (Vars.explored st) (Node.state (entry_node entry)))
  | _ => None
  end.

(** The steps of the result are the snapshots of the iterations of the
    loop entered in [st0], one per iteration and in their order: of the
    iterations that fell through and, when the loop returned from inside,
    of the one that returned. *)
Definition recorded {E FS} `{Entry E} (pop : list E → outcome (E * list E))
    (body : Vars.t E FS → outcome (flow (Vars.t E FS) (Result Step.t)))
    (st0 : Vars.t E FS) (r : Result Step.t) : Prop :=
  ∃ sts st, passes frontier_nonempty body st0 sts st
    ∧ ((frontier_nonempty st = true ∧ body st = Ret (Return r)
        ∧ Forall2 (λ st s, shot pop st = Some s) (sts ++ [st]) (steps r))
       ∨ (frontier_nonempty st = false
          ∧ Forall2 (λ st s, shot pop st = Some s) sts (steps r))).

(** The variables with which each loop is entered. *)
Definition bfs_entry (start : string) : Vars.t Node.t unit :=
  Vars.mk [Node.root start] () ∅ [] 0 1 1.

Definition dfs_entry (start : string) : Vars.t Node.t (gset string) :=
  Vars.mk [Node.root start] {[start]} ∅ [] 0 1 1.

Definition ucs_entry (start : string) : Vars.t (Z * Node.t) (gset string) :=
  Vars.mk [(0%Z, Node.root start)] {[start]} ∅ [] 0 1 1.

Definition greedy_entry (goal : string) (heuristic_data : gmap string Z)
    (start : string) : Vars.t (Z * Node.t) (gset string) :=
  Vars.mk [(heuristic_value goal heuristic_data start, Node.root start)]
    {[start]} ∅ [] 0 1 1.

Definition astar_entry (id : nat → Z) (goal : string)
    (heuristic_data : gmap string Z) (start : string)
    : Vars.t (Z * Z * Node.t) (gmap string Z) :=
  Vars.mk [((0 + heuristic_value goal heuristic_data start)%Z, id 1,
            Node.root start)]
    {[start := 0%Z]} ∅ [] 0 1 1.

(* ===================================================================== *)
(** * Exceptions and loops: reasoning rules                               *)
(* ===================================================================== *)

Lemma bind_Ret {A B} (m : outcome A) (f : A → outcome B) (b : B) :
  bind m f = Ret b → ∃ a, m = Ret a ∧ f a = Ret b.
Proof. destruct m; simpl; [eauto|done|done]. Qed.

(** The invariant rule of [while]. *)
Lemma while_loop_rule {St R} (I : St → Prop) (Q : R → Prop)
    (cond : St → bool) (body : St → outcome (flow St R)) :
  (∀ st st', I st → cond st = true → body st = Ret (Next st') → I st') →
  (∀ st r, I st → cond st = true → body st = Ret (Return r) → Q r) →
  ∀ fuel st fl, I st → while_loop cond body fuel st = Ret fl →
    match fl with
    | Next st' => I st' ∧ cond st' = false
    | Return r => Q r
    end.
Proof.
  intros Hnext Hreturn. induction fuel as [|fuel IH]; intros st fl Hst; [done|].
  simpl. destruct (cond st) eqn:Hc.
  - destruct (body st) as [[st'|r]| |] eqn:Hb; try done.
    + apply IH. by eapply Hnext.
    + intros [= <-]. by eapply Hreturn.
  - intros [= <-]. done.
Qed.

(** A loop whose body never fails and makes a measure decrease ends, with
    [fuel] above the measure. *)
Lemma while_loop_total {St R} (I : St → Prop) (measure : St → nat)
    (cond : St → bool) (body : St → outcome (flow St R)) :
  (∀ st, I st → cond st = true →
     ∃ fl, body st = Ret fl
       ∧ match fl with
         | Next st' => I st' ∧ measure st' < measure st
         | Return _ => True
         end) →
  ∀ fuel st, I st → measure st < fuel →
    ∃ fl, while_loop cond body fuel st = Ret fl.
Proof.
  intros Hbody. induction fuel as [|fuel IH]; intros st Hst Hm; [lia|].
  simpl. destruct (cond st) eqn:Hc; [|eauto].
  destruct (Hbody st Hst Hc) as ([st'|r] & -> & Hfl); [|eauto].
  destruct Hfl as [Hst' Hlt]. apply IH; [done|lia].
Qed.

(** More fuel does not change an answer. *)
Lemma while_loop_fuel_mono {St R} (cond : St → bool)
    (body : St → outcome (flow St R)) (fuel fuel' : nat) (st : St) fl :
  fuel ≤ fuel' → while_loop cond body fuel st = Ret fl →
  while_loop cond body fuel' st = Ret fl.
Proof.
  revert fuel' st. induction fuel as [|fuel IH]; intros fuel' st Hle; [done|].
  destruct fuel' as [|fuel']; [lia|]. simpl.
  destruct (cond st); [|done].
  destruct (body st) as [[st'|r]| |]; try done.
  apply IH. lia.
Qed.

Lemma list_pop_snoc {A} (l : list A) (x : A) : list_pop (l ++ [x]) = Ret (x, l).
Proof.
  unfold list_pop. rewrite reverse_app. simpl. by rewrite reverse_involutive.
Qed.

Lemma list_snoc_inv {A} (l : list A) : l ≠ [] → ∃ init x, l = init ++ [x].
Proof. destruct l as [|x l _] using rev_ind; [done|eauto]. Qed.

(** The invariant rule of [for], the invariant counting the turns. *)
Lemma for_loop_rule {X St R} (I : nat → St → Prop) (Q : R → Prop)
    (body : X → St → outcome (flow St R)) (xs : list X) :
  (∀ i x st st', xs !! i = Some x → I i st → body x st = Ret (Next st') →
     I (S i) st') →
  (∀ i x st r, xs !! i = Some x → I i st → body x st = Ret (Return r) → Q r) →
  ∀ st fl, I 0 st → for_loop body xs st = Ret fl →
    match fl with
    | Next st' => I (length xs) st'
    | Return r => Q r
    end.
Proof.
  revert I. induction xs as [|x xs IH]; intros I Hnext Hreturn st fl Hst; simpl.
  - by intros [= <-].
  - destruct (body x st) as [[st'|r]| |] eqn:Hb; try done.
    + intros Hloop.
      apply (IH (λ i, I (S i))) in Hloop; [done| | |].
      * intros i y s s' Hy. by apply (Hnext (S i)).
      * intros i y s r Hy. by apply (Hreturn (S i)).
      * by apply (Hnext 0 x st).
    + intros [= <-]. by apply (Hreturn 0 x st).
Qed.

Lemma for_loop_total {X St R} (body : X → St → outcome (flow St R))
    (xs : list X) (st : St) :
  (∀ x st, ∃ fl, body x st = Ret fl) → ∃ fl, for_loop body xs st = Ret fl.
Proof.
  intros Hbody. revert st. induction xs as [|x xs IH]; intros st; simpl; [eauto|].
  destruct (Hbody x st) as [[st'|r] ->]; eauto.
Qed.

(* ===================================================================== *)
(** * Dictionaries, graphs and nodes                                      *)
(* ===================================================================== *)

Lemma size_le_list (X : gset string) (l : list string) :
  (∀ x, x ∈ X → x ∈ l) → size X ≤ length l.
Proof.
  intros Hsub. apply submseteq_length.
  apply NoDup_submseteq; [apply NoDup_elements|].
  intros x Hx%elem_of_elements. auto.
Qed.

Lemma dict_get_Some_elem {V} (d : dict V) (k : string) (v : V) :
  dict_get d k = Some v → (k, v) ∈ d.
Proof.
  induction d as [|[k' v'] d IH]; simpl; [done|].
  case_decide as Hk.
  - intros [= ->]. subst. left.
  - intros Hd. right. by apply IH.
Qed.

Lemma dict_get_elem_wf {V} (d : dict V) (k : string) (v : V) :
  dict_wf d → (k, v) ∈ d → dict_get d k = Some v.
Proof.
  unfold dict_wf, dict_keys. induction d as [|[k' v'] d IH]; simpl.
  - by intros _ ?%elem_of_nil.
  - intros [Hnotin Hnd]%NoDup_cons [Heq|Hin]%elem_of_cons.
    + simplify_eq. by rewrite decide_True.
    + rewrite decide_False; [by apply IH|].
      intros ->. apply Hnotin. apply list_elem_of_fmap. by exists (k, v).
Qed.

Lemma dict_get_is_Some {V} (d : dict V) (k : string) :
  is_Some (dict_get d k) ↔ k ∈ dict_keys d.
Proof.
  unfold dict_keys. induction d as [|[k' v'] d IH]; simpl.
  - split; [by intros [? ?]|by intros ?%elem_of_nil].
  - case_decide as Hk.
    + subst. split; [intros _; left|eauto].
    + rewrite IH. split; [by right|].
      intros [?|?]%elem_of_cons; [congruence|done].
Qed.

Lemma dict_get_None {V} (d : dict V) (k : string) :
  dict_get d k = None ↔ k ∉ dict_keys d.
Proof. rewrite <- dict_get_is_Some, eq_None_not_Some. done. Qed.

Lemma forall_edges_edge (P : string → string → Z → Prop) (g : Graph) u v w :
  forall_edges P g → edge g u v w → P u v w.
Proof.
  intros Hall (neighbors & Hget%dict_get_Some_elem & Hin).
  unfold forall_edges in Hall. rewrite Forall_forall in Hall.
  specialize (Hall _ Hget). rewrite Forall_forall in Hall.
  apply (Hall _ Hin).
Qed.

Lemma nonneg_consistent (g : Graph) :
  nonneg_weights g → consistent (λ _, 0%Z) g.
Proof.
  unfold nonneg_weights, consistent, forall_edges. intros Hall.
  eapply Forall_impl; [exact Hall|]. intros item Hitem.
  eapply Forall_impl; [exact Hitem|]. intros e He. simpl in *. lia.
Qed.

Lemma graph_wf_neighbors (g : Graph) u neighbors :
  graph_wf g → dict_get g u = Some neighbors → dict_wf neighbors.
Proof.
  intros [_ Hall] Hget%dict_get_Some_elem.
  rewrite Forall_forall in Hall. apply (Hall _ Hget).
Qed.

Lemma closed_reachable (g : Graph) (start : string) :
  closed_graph g → start ∈ dict_keys g → reachable_closed g start.
Proof.
  intros Hclosed Hstart x [c Hwalk].
  induction Hwalk as [|u c v w _ _ Hedge]; [done|].
  apply (forall_edges_edge _ _ _ _ _ Hclosed Hedge).
Qed.

(** ** Walks and paths *)

Lemma walk_app (g : Graph) (start u v : string) (c c' : Z) :
  walk g start u c → walk g u v c' → walk g start v (c + c').
Proof.
  intros Hu Hv. induction Hv as [|x d y w _ IH Hedge].
  - by rewrite Z.add_0_r.
  - rewrite Z.add_assoc. by eapply walk_step.
Qed.

Lemma path_weight_cons (g : Graph) (u v : string) (rest : list string) :
  path_weight g (u :: v :: rest) =
  match dict_get g u with
  | Some neighbors =>
    match dict_get neighbors v, path_weight g (v :: rest) with
    | Some w, Some c => Some (w + c)%Z
    | _, _ => None
    end
  | None => None
  end.
Proof. reflexivity. Qed.

Lemma path_weight_walk (g : Graph) (p : list string) (u v : string) (c : Z) :
  head p = Some u → last p = Some v → path_weight g p = Some c →
  walk g u v c.
Proof.
  revert u c. induction p as [|x p IH]; intros u c Hhead Hlast Hw; [done|].
  simpl in Hhead. injection Hhead as ->.
  destruct p as [|y p].
  - simpl in *. simplify_eq. constructor.
  - rewrite path_weight_cons in Hw.
    destruct (dict_get g u) as [neighbors|] eqn:Hg; [|done].
    destruct (dict_get neighbors y) as [w|] eqn:Hn; [|done].
    destruct (path_weight g (y :: p)) as [c'|] eqn:Hp; [|done].
    injection Hw as <-.
    apply (walk_app g u y v w c').
    + replace w with (0 + w)%Z by lia. eapply walk_step; [constructor|].
      exists neighbors. split; [done|]. by apply dict_get_Some_elem.
    + apply IH; [done| |done]. by rewrite last_cons_cons in Hlast.
Qed.

Lemma is_path_walk (g : Graph) (start goal : string) p c :
  is_path g start goal p c → walk g start goal c.
Proof. intros (Hh & Hl & Hw). by eapply path_weight_walk. Qed.

Lemma path_weight_snoc (g : Graph) (p : list string) (u v : string) (c w : Z)
    neighbors :
  last p = Some u → path_weight g p = Some c →
  dict_get g u = Some neighbors → dict_get neighbors v = Some w →
  path_weight g (p ++ [v]) = Some (c + w)%Z.
Proof.
  revert c. induction p as [|x p IH]; intros c Hlast Hw Hg Hn; [done|].
  destruct p as [|y p].
  - simpl in *. simplify_eq. rewrite Hg, Hn. f_equal. lia.
  - rewrite last_cons_cons in Hlast.
    rewrite path_weight_cons in Hw.
    change ((x :: y :: p) ++ [v]) with (x :: y :: (p ++ [v])).
    rewrite path_weight_cons.
    destruct (dict_get g x) as [nx|]; [|done].
    destruct (dict_get nx y) as [wx|]; [|done].
    destruct (path_weight g (y :: p)) as [c'|] eqn:Hp; [|done].
    injection Hw as <-.
    change (y :: (p ++ [v])) with ((y :: p) ++ [v]).
    rewrite (IH c' Hlast eq_refl Hg Hn). f_equal. lia.
Qed.

(** ** Nodes *)

Lemma node_path_child (n : Node.t) (e : string * Z) :
  Node.path (Node.child n e) = Node.path n ++ [e.1].
Proof. unfold Node.path. simpl. by rewrite reverse_cons. Qed.

Lemma node_path_last (n : Node.t) : last (Node.path n) = Some (Node.state n).
Proof.
  unfold Node.path. destruct n as [s p a c d]. simpl.
  by rewrite reverse_cons, last_snoc.
Qed.

Lemma node_ok_walk (g : Graph) (start : string) (n : Node.t) :
  node_ok g start n → walk g start (Node.state n) (Node.path_cost n).
Proof.
  induction 1 as [|n neighbors [v w] _ IH Hg Hin]; [constructor|].
  simpl. eapply walk_step; [done|]. by exists neighbors.
Qed.

Lemma node_ok_reachable (g : Graph) (start : string) (n : Node.t) :
  node_ok g start n → reachable g start (Node.state n).
Proof. intros Hok. eexists. by apply node_ok_walk. Qed.

Lemma node_ok_head (g : Graph) (start : string) (n : Node.t) :
  node_ok g start n → head (Node.path n) = Some start.
Proof.
  induction 1 as [|n neighbors e _ IH Hg Hin]; [done|].
  rewrite node_path_child. destruct (Node.path n); [done|]. done.
Qed.

(** The path of a node is a path of the graph, and the node's cost is the
    sum of its edge weights. *)
Lemma node_ok_path (g : Graph) (start : string) (n : Node.t) :
  graph_wf g → node_ok g start n →
  is_path g start (Node.state n) (Node.path n) (Node.path_cost n).
Proof.
  intros Hwf Hok. split; [by eapply node_ok_head|].
  split; [apply node_path_last|].
  induction Hok as [|n neighbors [v w] _ IH Hg Hin]; [done|].
  rewrite node_path_child. simpl.
  eapply path_weight_snoc; [apply node_path_last|done|done|].
  apply dict_get_elem_wf; [|done]. by eapply graph_wf_neighbors.
Qed.

Lemma expand_Ret (g : Graph) (n : Node.t) (children : list Node.t) :
  Node.expand g n = Ret children ↔
  ∃ neighbors, dict_get g (Node.state n) = Some neighbors
    ∧ children = Node.child n <$> neighbors.
Proof.
  unfold Node.expand, dict_getitem.
  destruct (dict_get g (Node.state n)) as [neighbors|]; simpl.
  - split; [intros [= <-]; eauto|]. by intros (? & [= <-] & ->).
  - split; [done|]. by intros (? & ? & _).
Qed.

Lemma expand_total (g : Graph) (n : Node.t) :
  Node.state n ∈ dict_keys g → ∃ children, Node.expand g n = Ret children.
Proof.
  intros [neighbors Hg]%dict_get_is_Some. eexists.
  apply expand_Ret. eauto.
Qed.

Lemma expand_Raise (g : Graph) (n : Node.t) (e : exn) :
  Node.expand g n = Raise e → Node.state n ∉ dict_keys g.
Proof.
  unfold Node.expand, dict_getitem.
  destruct (dict_get g (Node.state n)) as [neighbors|] eqn:Hg; [done|].
  intros _. by apply dict_get_None.
Qed.

Lemma expand_ok (g : Graph) (start : string) (n c : Node.t) children :
  node_ok g start n → Node.expand g n = Ret children → c ∈ children →
  node_ok g start c.
Proof.
  intros Hok (neighbors & Hg & ->)%expand_Ret (e & -> & He)%list_elem_of_fmap.
  by eapply node_ok_child.
Qed.

Lemma expand_edge (g : Graph) (n : Node.t) children v w :
  Node.expand g n = Ret children → edge g (Node.state n) v w →
  Node.child n (v, w) ∈ children.
Proof.
  intros (neighbors & Hg & ->)%expand_Ret (neighbors' & Hg' & Hin).
  simplify_eq. apply list_elem_of_fmap. eauto.
Qed.

(* ===================================================================== *)
(** * [heapq] keeps its promises                                          *)
(* ===================================================================== *)

Lemma parent_cases (c : nat) :
  0 < c → c = 2 * ((c - 1) / 2) + 1 ∨ c = 2 * ((c - 1) / 2) + 2.
Proof.
  intros Hc. pose proof (Nat.div_mod_eq (c - 1) 2) as Hd.
  pose proof (Nat.mod_upper_bound (c - 1) 2). lia.
Qed.

Lemma parent_lt (c : nat) : 0 < c → (c - 1) / 2 < c.
Proof. intros Hc. destruct (parent_cases c Hc); lia. Qed.

Lemma parent_left (p : nat) : (2 * p + 1 - 1) / 2 = p.
Proof.
  pose proof (Nat.div_mod_eq (2 * p + 1 - 1) 2).
  pose proof (Nat.mod_upper_bound (2 * p + 1 - 1) 2). lia.
Qed.

Lemma parent_right (p : nat) : (2 * p + 1 + 1 - 1) / 2 = p.
Proof.
  pose proof (Nat.div_mod_eq (2 * p + 1 + 1 - 1) 2).
  pose proof (Nat.mod_upper_bound (2 * p + 1 + 1 - 1) 2). lia.
Qed.

Lemma insert_exchange_cons {A} (l : list A) i a b :
  i < length l → a :: <[i := b]> l ≡ₚ b :: <[i := a]> l.
Proof.
  revert i. induction l as [|z l IH]; intros [|i] Hi; simpl in *; try lia.
  - apply Permutation_swap.
  - etrans; [apply Permutation_swap|].
    etrans; [|apply Permutation_swap].
    constructor. apply IH. lia.
Qed.

Lemma insert_swap_perm {A} (l : list A) i j a b :
  i ≠ j → l !! j = Some b → i < length l →
  <[j := a]> (<[i := b]> l) ≡ₚ <[i := a]> l.
Proof.
  revert i j. induction l as [|z l IH]; intros [|i] [|j] Hne Hj Hi;
    simpl in *; try lia; try done.
  - rewrite <- (list_insert_id l j b) at 2 by done.
    apply insert_exchange_cons. by eapply lookup_lt_Some.
  - simplify_eq. apply insert_exchange_cons. lia.
  - constructor. apply IH; [lia | done | lia].
Qed.

Section heap_proofs.
Context {A : Type} `{LawfulLt A}.

Lemma py_lt_asym (a b : A) : py_lt a b = true → py_lt b a = false.
Proof.
  intros Hab. destruct (py_lt b a) eqn:Hba; [|done].
  rewrite <- (py_lt_irrefl a). symmetry. by eapply py_lt_trans.
Qed.

Lemma py_le_trans (a b c : A) :
  py_lt a b = false → py_lt b c = false → py_lt a c = false.
Proof.
  intros Hab Hbc. destruct (py_lt a c) eqn:Hac; [|done].
  destruct (py_lt_cotrans a b c Hac); congruence.
Qed.

Lemma heap_from_mono (k k' : nat) (heap : list A) :
  k ≤ k' → heap_from k heap → heap_from k' heap.
Proof. intros Hk Hh c x y Hp. apply Hh. lia. Qed.

(** The first element of a heap is a least one. *)
Lemma heap_root_least (heap : list A) (r : A) :
  is_heap heap → heap !! 0 = Some r → ∀ x, x ∈ heap → py_lt x r = false.
Proof.
  intros Hh Hr x [i Hi]%list_elem_of_lookup. revert x Hi.
  induction i as [i IH] using lt_wf_ind. intros x Hi.
  destruct (decide (i = 0)) as [->|Hne].
  - simplify_eq. apply py_lt_irrefl.
  - assert (0 < i) as Hpos by lia. pose proof (parent_lt i Hpos) as Hlt.
    destruct (lookup_lt_is_Some_2 heap ((i - 1) / 2)) as [y Hy].
    { apply lookup_lt_Some in Hi. lia. }
    eapply py_le_trans; [|by eapply IH].
    eapply (Hh i); eauto. lia.
Qed.

(** *** [_siftdown] *)

Lemma siftdown_loop_S fuel (heap : list A) newitem startpos pos :
  heapq.siftdown_loop (S fuel) heap newitem startpos pos =
  if decide (startpos < pos) then
    if py_lt newitem (default newitem (heap !! ((pos - 1) / 2))) then
      heapq.siftdown_loop fuel
        (<[pos := default newitem (heap !! ((pos - 1) / 2))]> heap)
        newitem startpos ((pos - 1) / 2)
    else (heap, pos)
  else (heap, pos).
Proof. reflexivity. Qed.

Lemma siftdown_exit (heap : list A) newitem startpos pos :
  siftdown_inv newitem startpos pos heap →
  (startpos < pos → ∀ y, heap !! ((pos - 1) / 2) = Some y →
     py_lt newitem y = false) →
  heap_from startpos (<[pos := newitem]> heap).
Proof.
  intros Hinv Hup c x y Hp Hc Hx Hy.
  pose proof (parent_lt c Hc) as Hlt.
  destruct (decide (c = pos)) as [->|Hcpos].
  - rewrite list_lookup_insert_ne in Hy by lia.
    apply lookup_lt_Some in Hx as Hlen. rewrite length_insert in Hlen.
    rewrite list_lookup_insert_eq in Hx by done. simplify_eq.
    apply (Hup ltac:(lia) y Hy).
  - rewrite list_lookup_insert_ne in Hx by done.
    destruct (decide ((c - 1) / 2 = pos)) as [Hcp|Hcp].
    + rewrite Hcp in Hy. apply lookup_lt_Some in Hy as Hlen.
      rewrite length_insert in Hlen.
      rewrite list_lookup_insert_eq in Hy by done. simplify_eq.
      by eapply (sd_below _ _ _ _ Hinv c).
    + rewrite list_lookup_insert_ne in Hy by done.
      by eapply (sd_others _ _ _ _ Hinv c).
Qed.

Lemma descends_le startpos pos : descends startpos pos → startpos ≤ pos.
Proof.
  induction 1 as [|c Hc _ IH]; [done|]. pose proof (parent_lt c Hc). lia.
Qed.

Lemma descends_parent startpos pos :
  descends startpos pos → startpos < pos →
  descends startpos ((pos - 1) / 2) ∧ startpos ≤ (pos - 1) / 2.
Proof.
  intros Hd Hlt. inversion Hd as [|c Hc Hd']; subst; [lia|].
  split; [done|]. by apply descends_le.
Qed.

Lemma descends_root pos : descends 0 pos.
Proof.
  induction pos as [pos IH] using lt_wf_ind.
  destruct (decide (pos = 0)) as [->|Hne]; [constructor|].
  apply descends_child; [lia|]. apply IH, parent_lt. lia.
Qed.

Lemma siftdown_loop_spec (fuel : nat) (heap : list A) (newitem : A)
    (startpos pos : nat) :
  pos ≤ fuel → pos < length heap → descends startpos pos →
  siftdown_inv newitem startpos pos heap →
  ∃ heap' pos',
    heapq.siftdown_loop fuel heap newitem startpos pos = (heap', pos')
    ∧ heap_from startpos (<[pos' := newitem]> heap')
    ∧ length heap' = length heap
    ∧ pos' < length heap
    ∧ <[pos' := newitem]> heap' ≡ₚ <[pos := newitem]> heap.
Proof.
  revert heap pos.
  induction fuel as [|fuel IH]; intros heap pos Hfuel Hlen Hdesc Hinv.
  { exists heap, pos. split_and!; try done.
    apply siftdown_exit; [done|lia]. }
  rewrite siftdown_loop_S.
  destruct (decide (startpos < pos)) as [Hsp|Hsp].
  2:{ exists heap, pos. split_and!; try done.
      apply siftdown_exit; [done|lia]. }
  assert (0 < pos) as Hpos by lia. pose proof (parent_lt pos Hpos) as Hplt.
  destruct (descends_parent _ _ Hdesc Hsp) as [Hdesc' Hsle].
  destruct (lookup_lt_is_Some_2 heap ((pos - 1) / 2)) as [parent Hparent];
    [lia|].
  rewrite Hparent. simpl.
  destruct (py_lt newitem parent) eqn:Hcmp.
  2:{ exists heap, pos. split_and!; try done.
      apply siftdown_exit; [done|]. intros _ y Hy. congruence. }
  assert (∀ c x, 0 < c → c ≠ pos → (c - 1) / 2 = (pos - 1) / 2 →
            heap !! c = Some x → py_lt x parent = false) as Hsib.
  { intros c x Hc Hcpos Hcp Hx.
    eapply (sd_others _ _ _ _ Hinv c); eauto; rewrite ?Hcp; [lia|lia|done]. }
  assert (∀ y, startpos < (pos - 1) / 2 →
            heap !! (((pos - 1) / 2 - 1) / 2) = Some y →
            py_lt parent y = false) as Hgrand.
  { intros y Hs Hy.
    destruct (descends_parent _ _ Hdesc' Hs) as [_ Hsle'].
    pose proof (parent_lt ((pos - 1) / 2) ltac:(lia)).
    eapply (sd_others _ _ _ _ Hinv ((pos - 1) / 2)); eauto; lia. }
  destruct (IH (<[pos := parent]> heap) ((pos - 1) / 2))
    as (heap' & pos' & Heq & Hheap & Hl & Hp' & Hperm).
  { lia. }
  { rewrite length_insert. lia. }
  { done. }
  { split.
    - intros c x y Hs Hc Hcp Hpp Hx Hy.
      pose proof (parent_lt c Hc).
      destruct (decide (c = pos)) as [->|Hcpos]; [done|].
      rewrite list_lookup_insert_ne in Hx by done.
      destruct (decide ((c - 1) / 2 = pos)) as [Hcp'|Hcp'].
      + rewrite Hcp' in Hy. rewrite list_lookup_insert_eq in Hy by done.
        simplify_eq. by eapply (sd_skip _ _ _ _ Hinv c).
      + rewrite list_lookup_insert_ne in Hy by done.
        by eapply (sd_others _ _ _ _ Hinv c).
    - intros c x Hc Hcp Hx.
      destruct (decide (c = pos)) as [->|Hcpos].
      + rewrite list_lookup_insert_eq in Hx by done. simplify_eq.
        by apply py_lt_asym.
      + rewrite list_lookup_insert_ne in Hx by done.
        destruct (py_lt x newitem) eqn:Hxn; [|done].
        rewrite <- (Hsib c x Hc Hcpos Hcp Hx). symmetry.
        by eapply py_lt_trans.
    - intros c x y Hs Hc Hcp Hx Hy.
      pose proof (parent_lt ((pos - 1) / 2) ltac:(lia)).
      rewrite list_lookup_insert_ne in Hy by lia.
      destruct (decide (c = pos)) as [->|Hcpos].
      + rewrite list_lookup_insert_eq in Hx by done. simplify_eq.
        by apply Hgrand.
      + rewrite list_lookup_insert_ne in Hx by done.
        eapply py_le_trans; [by eapply (Hsib c)|by apply Hgrand]. }
  exists heap', pos'. rewrite length_insert in Hl, Hp'.
  split_and!; try done.
  rewrite Hperm. apply insert_swap_perm; [lia|done|done].
Qed.

Lemma siftdown_spec (heap : list A) (newitem : A) (startpos pos : nat) :
  heap !! pos = Some newitem → descends startpos pos →
  siftdown_inv newitem startpos pos heap →
  heap_from startpos (heapq._siftdown heap startpos pos)
  ∧ heapq._siftdown heap startpos pos ≡ₚ heap.
Proof.
  intros Hpos Hdesc Hinv. unfold heapq._siftdown. rewrite Hpos.
  destruct (siftdown_loop_spec pos heap newitem startpos pos)
    as (heap' & pos' & -> & Hheap & _ & _ & Hperm);
    [done|by eapply lookup_lt_Some|done|done|].
  split; [done|]. by rewrite Hperm, list_insert_id.
Qed.

(** *** [_siftup] *)

Lemma siftup_loop_S fuel (heap : list A) newitem endpos pos :
  heapq.siftup_loop (S fuel) heap newitem endpos pos =
  if decide (2 * pos + 1 < endpos) then
    let at_ i := default newitem (heap !! i) in
    let childpos :=
      if bool_decide (2 * pos + 1 + 1 < endpos)
         && negb (py_lt (at_ (2 * pos + 1)) (at_ (2 * pos + 1 + 1)))
      then 2 * pos + 1 + 1 else 2 * pos + 1 in
    heapq.siftup_loop fuel (<[pos := at_ childpos]> heap) newitem endpos childpos
  else (heap, pos).
Proof. reflexivity. Qed.

(** Moving the smaller child into the hole keeps the order below
    [startpos]. *)
Lemma bubble_step (heap : list A) (startpos pos child : nat) (v : A) :
  descends startpos pos → pos < length heap →
  heap_from (S startpos) heap → (pos ≠ startpos → heap_from startpos heap) →
  0 < child → (child - 1) / 2 = pos → heap !! child = Some v →
  (∀ c x, 0 < c → (c - 1) / 2 = pos → heap !! c = Some x → py_lt x v = false) →
  heap_from startpos (<[pos := v]> heap).
Proof.
  intros Hdesc Hlen Hh1 Hh0 Hchild Hcp Hv Hleast c x y Hp Hc Hx Hy.
  pose proof (parent_lt c Hc) as Hlt. pose proof (descends_le _ _ Hdesc).
  destruct (decide ((c - 1) / 2 = pos)) as [Hcpos|Hcpos].
  - rewrite Hcpos in Hy. rewrite list_lookup_insert_eq in Hy by done.
    rewrite list_lookup_insert_ne in Hx by lia. simplify_eq.
    by eapply Hleast.
  - rewrite list_lookup_insert_ne in Hy by done.
    destruct (decide (c = pos)) as [Hceq|Hcne].
    + subst c. rewrite list_lookup_insert_eq in Hx by done.
      injection Hx as <-.
      destruct (lookup_lt_is_Some_2 heap pos Hlen) as [z Hz].
      assert (heap_from startpos heap) as Hh by (apply Hh0; lia).
      eapply py_le_trans.
      * eapply (Hh child); [rewrite Hcp; lia|done|done|by rewrite Hcp].
      * eapply (Hh pos); eauto.
    + rewrite list_lookup_insert_ne in Hx by done.
      destruct (decide (pos = startpos)) as [->|Hps].
      * eapply (Hh1 c); eauto. lia.
      * eapply (Hh0 Hps c); eauto.
Qed.

Lemma siftup_loop_spec (fuel : nat) (heap : list A) (newitem : A)
    (startpos pos : nat) :
  length heap ≤ fuel + pos → pos < length heap → descends startpos pos →
  heap_from (S startpos) heap → (pos ≠ startpos → heap_from startpos heap) →
  ∃ heap' pos',
    heapq.siftup_loop fuel heap newitem (length heap) pos = (heap', pos')
    ∧ heap_from (S startpos) heap'
    ∧ (pos' ≠ startpos → heap_from startpos heap')
    ∧ length heap ≤ 2 * pos' + 1
    ∧ pos' < length heap
    ∧ descends startpos pos'
    ∧ length heap' = length heap
    ∧ <[pos' := newitem]> heap' ≡ₚ <[pos := newitem]> heap.
Proof.
  revert heap pos.
  induction fuel as [|fuel IH]; intros heap pos Hfuel Hlen Hdesc Hh1 Hh0;
    [lia|].
  rewrite siftup_loop_S.
  destruct (decide (2 * pos + 1 < length heap)) as [Hchild|Hleaf].
  2:{ exists heap, pos. split_and!; try done. lia. }
  destruct (lookup_lt_is_Some_2 heap (2 * pos + 1) Hchild) as [l Hl].
  cbv beta zeta.
  match goal with
  | |- context [heapq.siftup_loop _ _ _ _ ?c] => remember c as child eqn:Hsel
  end.
  assert (∃ v,
    heap !! child = Some v ∧ 0 < child ∧ (child - 1) / 2 = pos
    ∧ ∀ c x, 0 < c → (c - 1) / 2 = pos → heap !! c = Some x →
        py_lt x v = false) as (v & Hv & Hc0 & Hcp & Hleast).
  { rewrite Hl in Hsel. cbn [default] in Hsel.
    match type of Hsel with _ = if ?b then _ else _ => destruct b eqn:Hs end;
      subst child.
    - apply andb_true_iff in Hs as [Hr%bool_decide_eq_true Hcmp%negb_true_iff].
      destruct (lookup_lt_is_Some_2 heap (2 * pos + 1 + 1) Hr) as [r Hrv].
      rewrite Hrv in Hcmp. cbn in Hcmp.
      exists r. split_and!; try done; [lia|apply parent_right|].
      intros c x Hc Hcpar Hx.
      destruct (parent_cases c Hc) as [Hcc|Hcc]; rewrite Hcpar in Hcc.
      + replace c with (2 * pos + 1) in Hx by lia. congruence.
      + replace c with (2 * pos + 1 + 1) in Hx by lia. simplify_eq.
        apply py_lt_irrefl.
    - exists l. split_and!; try done; [lia|apply parent_left|].
      intros c x Hc Hcpar Hx.
      destruct (parent_cases c Hc) as [Hcc|Hcc]; rewrite Hcpar in Hcc.
      + replace c with (2 * pos + 1) in Hx by lia. simplify_eq.
        apply py_lt_irrefl.
      + replace c with (2 * pos + 1 + 1) in Hx by lia.
        apply lookup_lt_Some in Hx as Hr.
        apply andb_false_iff in Hs as [Hs|Hs].
        { apply bool_decide_eq_false in Hs. lia. }
        rewrite Hx in Hs. cbn in Hs. apply negb_false_iff in Hs.
        by apply py_lt_asym. }
  clear Hsel. rewrite Hv. cbn [default].
  assert (heap_from startpos (<[pos := v]> heap)) as Hstep
    by (by eapply bubble_step).
  apply lookup_lt_Some in Hv as Hclen.
  assert (pos < child) as Hpc by (rewrite <- Hcp; by apply parent_lt).
  destruct (IH (<[pos := v]> heap) child)
    as (heap' & pos' & Heq & Hh1' & Hh0' & Hleaf & Hp' & Hd' & Hlen' & Hperm).
  { rewrite length_insert. lia. }
  { by rewrite length_insert. }
  { apply descends_child; [done|]. by rewrite Hcp. }
  { eapply heap_from_mono; [|done]. lia. }
  { done. }
  rewrite length_insert in *.
  exists heap', pos'. split_and!; try done.
  rewrite Hperm. by apply insert_swap_perm; [lia|..].
Qed.

Lemma siftup_spec (heap : list A) (pos : nat) :
  pos < length heap → heap_from (S pos) heap →
  heap_from pos (heapq._siftup heap pos) ∧ heapq._siftup heap pos ≡ₚ heap.
Proof.
  intros Hlen Hh. unfold heapq._siftup.
  destruct (lookup_lt_is_Some_2 heap pos Hlen) as [newitem Hnew].
  rewrite Hnew.
  destruct (siftup_loop_spec (length heap) heap newitem pos pos)
    as (heap' & pos' & -> & Hh1 & Hh0 & Hleaf & Hp' & Hd' & Hlen' & Hperm);
    [lia|done|constructor|done|done|].
  destruct (siftdown_spec (<[pos' := newitem]> heap') newitem pos pos')
    as [Hheap Hperm'].
  - apply list_lookup_insert_eq. lia.
  - done.
  - split.
    + intros c x y Hs Hc Hcp Hpp Hx Hy.
      rewrite list_lookup_insert_ne in Hx, Hy by done.
      destruct (decide (pos' = pos)) as [->|Hne].
      * eapply (Hh1 c); eauto. lia.
      * eapply (Hh0 Hne c); eauto.
    + intros c x Hc Hcp Hx. apply lookup_lt_Some in Hx.
      rewrite length_insert in Hx.
      destruct (parent_cases c Hc); lia.
    + intros c x y _ Hc Hcp Hx _. apply lookup_lt_Some in Hx.
      rewrite length_insert in Hx.
      destruct (parent_cases c Hc); lia.
  - split; [done|]. rewrite Hperm', Hperm. by rewrite list_insert_id.
Qed.

(** *** The three operations the search uses *)

Lemma heappush_spec (heap : list A) (item : A) :
  is_heap heap →
  is_heap (heapq.heappush heap item) ∧ heapq.heappush heap item ≡ₚ item :: heap.
Proof.
  intros Hh. unfold heapq.heappush.
  destruct (siftdown_spec (heap ++ [item]) item 0 (length heap))
    as [Hheap Hperm].
  - by rewrite lookup_app_r, Nat.sub_diag by done.
  - apply descends_root.
  - split.
    + intros c x y _ Hc Hcp Hpp Hx Hy. pose proof (parent_lt c Hc).
      apply lookup_lt_Some in Hx as Hcl. rewrite length_app in Hcl.
      simpl in Hcl.
      rewrite lookup_app_l in Hx, Hy by lia.
      eapply (Hh c); eauto. lia.
    + intros c x Hc Hcp Hx. apply lookup_lt_Some in Hx.
      rewrite length_app in Hx. simpl in Hx.
      destruct (parent_cases c Hc); lia.
    + intros c x y _ Hc Hcp Hx _. apply lookup_lt_Some in Hx.
      rewrite length_app in Hx. simpl in Hx.
      destruct (parent_cases c Hc); lia.
  - split; [done|]. rewrite Hperm. by rewrite Permutation_app_comm.
Qed.

Lemma heappop_spec (heap : list A) :
  heap ≠ [] → is_heap heap →
  ∃ x heap',
    heapq.heappop heap = Ret (x, heap')
    ∧ head heap = Some x ∧ heap ≡ₚ x :: heap' ∧ is_heap heap'.
Proof.
  intros Hne Hh.
  destruct (decide (heap = [])) as [|_]; [done|].
  assert (∃ init lastelt, heap = init ++ [lastelt]) as (init & lastelt & ->).
  { destruct heap as [|a heap] using rev_ind; [done|]. eauto. }
  unfold heapq.heappop. rewrite list_pop_snoc. cbn [bind].
  destruct init as [|returnitem tl].
  { exists lastelt, []. split_and!; try done.
    all: intros c x y _ Hc Hx _; by rewrite lookup_nil in Hx. }
  cbn [list_insert]. simpl insert.
  destruct (siftup_spec (lastelt :: tl) 0) as [Hheap Hperm].
  { simpl. lia. }
  { intros c x y Hp Hc Hx Hy. pose proof (parent_lt c Hc).
    apply lookup_lt_Some in Hx as Hcl. simpl in Hcl.
    destruct c as [|c]; [lia|].
    destruct ((S c - 1) / 2) as [|p] eqn:Hpar; [lia|].
    simpl in Hx, Hy.
    eapply (Hh (S c)); [lia|lia| |rewrite Hpar].
    - simpl. by rewrite lookup_app_l by lia.
    - simpl. rewrite lookup_app_l; [done|]. simpl in *. lia. }
  exists returnitem, (heapq._siftup (lastelt :: tl) 0).
  split_and!; try done.
  rewrite Hperm. simpl. constructor.
  by rewrite Permutation_app_comm.
Qed.

Lemma heapify_spec (x : list A) :
  is_heap (heapq.heapify x) ∧ heapq.heapify x ≡ₚ x.
Proof.
  unfold heapq.heapify.
  assert (∀ k heap, k ≤ length heap / 2 → heap_from k heap →
            is_heap (fold_left heapq._siftup (reverse (seq 0 k)) heap)
            ∧ fold_left heapq._siftup (reverse (seq 0 k)) heap ≡ₚ heap) as Hgen.
  { induction k as [|k IH]; intros heap Hk Hh; [done|].
    rewrite seq_S, reverse_app. simpl.
    pose proof (Nat.div_mod_eq (length heap) 2).
    pose proof (Nat.mod_upper_bound (length heap) 2).
    destruct (siftup_spec heap k) as [Hheap Hperm]; [lia|done|].
    destruct (IH (heapq._siftup heap k)) as [Hheap' Hperm'].
    - by rewrite Hperm; lia.
    - done.
    - split; [done|]. by rewrite Hperm'. }
  apply Hgen; [done|].
  intros c a b Hp Hc Ha _. apply lookup_lt_Some in Ha.
  pose proof (Nat.div_mod_eq (length x) 2).
  pose proof (Nat.mod_upper_bound (length x) 2).
  destruct (parent_cases c Hc); lia.
Qed.

End heap_proofs.

(* ===================================================================== *)
(** * The frontier entries are lawfully ordered                           *)
(* ===================================================================== *)

Lemma node_lt_true (a b : Node.t) :
  Node.lt a b = true ↔ (Node.path_cost a < Node.path_cost b)%Z.
Proof. unfold Node.lt. apply bool_decide_eq_true. Qed.

Lemma pair_lt_true (a b : Z * Node.t) :
  py_lt a b = true ↔
  (a.1 < b.1 ∨ (a.1 = b.1 ∧ Node.path_cost a.2 < Node.path_cost b.2))%Z.
Proof.
  unfold py_lt, pair_lt. case_decide.
  - rewrite node_lt_true. lia.
  - rewrite bool_decide_eq_true. lia.
Qed.

Lemma triple_lt_true (a b : Z * Z * Node.t) :
  py_lt a b = true ↔
  (a.1.1 < b.1.1
   ∨ (a.1.1 = b.1.1
      ∧ (a.1.2 < b.1.2
         ∨ (a.1.2 = b.1.2 ∧ Node.path_cost a.2 < Node.path_cost b.2))))%Z.
Proof.
  unfold py_lt, triple_lt.
  repeat case_decide; rewrite ?node_lt_true, ?bool_decide_eq_true; lia.
Qed.

#[global] Instance pair_lawful : LawfulLt (Z * Node.t).
Proof.
  split.
  - intros a. apply not_true_is_false. rewrite pair_lt_true. lia.
  - intros a b c. rewrite !pair_lt_true. lia.
  - intros a b c. rewrite !pair_lt_true. lia.
Qed.

#[global] Instance triple_lawful : LawfulLt (Z * Z * Node.t).
Proof.
  split.
  - intros a. apply not_true_is_false. rewrite triple_lt_true. lia.
  - intros a b c. rewrite !triple_lt_true. lia.
  - intros a b c. rewrite !triple_lt_true. lia.
Qed.

(** A pop from a heap: the first element, which nothing is below. *)
Lemma heappop_least {A} `{LawfulLt A} (heap : list A) :
  heap ≠ [] → is_heap heap →
  ∃ x heap',
    heapq.heappop heap = Ret (x, heap')
    ∧ head heap = Some x ∧ heap ≡ₚ x :: heap' ∧ is_heap heap'
    ∧ ∀ y, y ∈ heap → py_lt y x = false.
Proof.
  intros Hne Hh.
  destruct (heappop_spec heap Hne Hh) as (x & heap' & Hpop & Hhead & Hperm & Hh').
  exists x, heap'. split_and!; try done.
  apply heap_root_least; [done|]. by rewrite <- head_lookup.
Qed.

Lemma insert_delete_perm {A} (l : list A) (i : nat) (x : A) :
  i < length l → <[i := x]> l ≡ₚ x :: delete i l.
Proof.
  revert i. induction l as [|y l IH]; intros [|i] Hi; simpl in *; try lia.
  - done.
  - rewrite (IH i) by lia. apply Permutation_swap.
Qed.

Lemma singleton_heap {A} `{PyLt A} (x : A) : is_heap [x].
Proof.
  intros c a b _ Hc Ha _. destruct c as [|c]; [lia|]. by destruct c.
Qed.

(* ===================================================================== *)
(** * The abstract iteration keeps the invariants                         *)
(* ===================================================================== *)

Section machine_proofs.
Context (relax : bool) (key : Node.t → Z) (pos : list string → option string).
Context (g : Graph) (goal start : string).

Abbreviation absorb1 := (absorb1 relax).
Abbreviation absorb := (absorb relax).
Abbreviation search_step := (search_step relax key pos g goal).
Abbreviation search_found := (search_found relax key pos goal).
Abbreviation search_inv := (search_inv pos g goal start).

(** ** The children *)

Lemma absorb1_elem X F c F1 n :
  absorb1 X F c F1 → n ∈ F1 → n ∈ F ∨ n = c.
Proof.
  intros [(HF & _)|[(HF & _)|(old & rest & HF & HF1 & _)]] Hn.
  - left. by rewrite <- HF.
  - rewrite HF in Hn. apply elem_of_cons in Hn as [->|Hn]; auto.
  - rewrite HF1 in Hn. apply elem_of_cons in Hn as [->|Hn]; [auto|].
    left. rewrite HF. by right.
Qed.

Lemma absorb1_length X F c F1 :
  absorb1 X F c F1 → length F1 ≤ S (length F).
Proof.
  intros [(HF & _)|[(HF & _)|(old & rest & HF & HF1 & _)]].
  - rewrite HF. lia.
  - by rewrite HF.
  - rewrite HF, HF1. simpl. lia.
Qed.

Lemma absorb1_nodup X F c F1 :
  absorb1 X F c F1 → NoDup (Node.state <$> F) → NoDup (Node.state <$> F1).
Proof.
  intros [(HF & _)|[(HF & _ & Hc)|(old & rest & HF & HF1 & Hs & _)]] Hnd.
  - by rewrite HF.
  - rewrite HF. simpl. by apply NoDup_cons.
  - rewrite HF1. rewrite HF in Hnd. simpl in *. by rewrite <- Hs.
Qed.

Lemma absorb1_fresh X F c F1 :
  absorb1 X F c F1 → (∀ n, n ∈ F → Node.state n ∉ X) →
  ∀ n, n ∈ F1 → Node.state n ∉ X.
Proof.
  intros [(HF & _)|[(HF & Hc & _)|(old & rest & HF & HF1 & Hs & Hc & _)]] Hf n Hn.
  - apply Hf. by rewrite <- HF.
  - rewrite HF in Hn. apply elem_of_cons in Hn as [->|Hn]; auto.
  - rewrite HF1 in Hn. apply elem_of_cons in Hn as [->|Hn]; [done|].
    apply Hf. rewrite HF. by right.
Qed.

Lemma absorb1_keep X F c F1 n :
  absorb1 X F c F1 → n ∈ F →
  ∃ n', n' ∈ F1 ∧ Node.state n' = Node.state n
    ∧ (Node.path_cost n' ≤ Node.path_cost n)%Z.
Proof.
  intros [(HF & _)|[(HF & _)|(old & rest & HF & HF1 & Hs & _ & Hlt)]] Hn.
  - exists n. rewrite HF. done.
  - exists n. rewrite HF. split; [by right|done].
  - rewrite HF in Hn. apply elem_of_cons in Hn as [->|Hn].
    + exists c. rewrite HF1. split; [left|]. split; [done|lia].
    + exists n. rewrite HF1. split; [by right|done].
Qed.

Lemma absorb1_relaxed X F c F1 :
  relax = true → absorb1 X F c F1 →
  Node.state c ∈ X
  ∨ ∃ n', n' ∈ F1 ∧ Node.state n' = Node.state c
      ∧ (Node.path_cost n' ≤ Node.path_cost c)%Z.
Proof.
  intros Hr [(HF & [Hc|(old & Hold & Hs & Hle)])|
             [(HF & _)|(old & rest & HF & HF1 & _)]].
  - by left.
  - right. exists old. rewrite HF. auto.
  - right. exists c. rewrite HF. split; [left|done].
  - right. exists c. rewrite HF1. split; [left|done].
Qed.

Lemma absorb_elem X F cs F' n :
  absorb X F cs F' → n ∈ F' → n ∈ F ∨ n ∈ cs.
Proof.
  induction 1 as [F|F c F1 cs F' H1 _ IH]; [auto|]. intros Hn.
  destruct (IH Hn) as [Hn1|Hn1]; [|right; by right].
  destruct (absorb1_elem _ _ _ _ _ H1 Hn1) as [?| ->]; [auto|]. right. left.
Qed.

Lemma absorb_length X F cs F' :
  absorb X F cs F' → length F' ≤ length F + length cs.
Proof.
  induction 1 as [F|F c F1 cs F' H1%absorb1_length _ IH]; simpl; lia.
Qed.

Lemma absorb_nodup X F cs F' :
  absorb X F cs F' → NoDup (Node.state <$> F) → NoDup (Node.state <$> F').
Proof.
  induction 1 as [F|F c F1 cs F' H1 _ IH]; [done|]. intros Hnd.
  by eapply IH, absorb1_nodup.
Qed.

Lemma absorb_fresh X F cs F' :
  absorb X F cs F' → (∀ n, n ∈ F → Node.state n ∉ X) →
  ∀ n, n ∈ F' → Node.state n ∉ X.
Proof.
  induction 1 as [F|F c F1 cs F' H1 _ IH]; [done|]. intros Hf.
  by eapply IH, absorb1_fresh.
Qed.

Lemma absorb_keep X F cs F' n :
  absorb X F cs F' → n ∈ F →
  ∃ n', n' ∈ F' ∧ Node.state n' = Node.state n
    ∧ (Node.path_cost n' ≤ Node.path_cost n)%Z.
Proof.
  intros Habs. revert n.
  induction Habs as [F|F c F1 cs F' H1 _ IH]; intros n Hn; [by exists n|].
  destruct (absorb1_keep _ _ _ _ _ H1 Hn) as (n1 & Hn1 & Hs1 & Hc1).
  destruct (IH _ Hn1) as (n' & Hn' & Hs' & Hc').
  exists n'. split; [done|]. split; [congruence|lia].
Qed.

Lemma absorb_relaxed X F cs F' c :
  relax = true → absorb X F cs F' → c ∈ cs →
  Node.state c ∈ X
  ∨ ∃ n', n' ∈ F' ∧ Node.state n' = Node.state c
      ∧ (Node.path_cost n' ≤ Node.path_cost c)%Z.
Proof.
  intros Hr Habs. induction Habs as [F|F c1 F1 cs F' H1 Habs IH].
  - by intros ?%elem_of_nil.
  - intros [->|Hc]%elem_of_cons; [|by apply IH].
    destruct (absorb1_relaxed _ _ _ _ Hr H1) as [?|(n1 & Hn1 & Hs1 & Hc1)];
      [by left|].
    destruct (absorb_keep _ _ _ _ _ Habs Hn1) as (n' & Hn' & Hs' & Hc').
    right. exists n'. split; [done|]. split; [congruence|lia].
Qed.

(** ** The trace *)

Lemma trace_from_snoc X steps X' s x :
  trace_from pos X steps X' →
  Step.explored s = X' → Step.current s = Some x →
  pos (Step.frontier s) = Some x → x ∉ X' → Step.depth_limit s = None →
  trace_from pos X (steps ++ [s]) ({[x]} ∪ X').
Proof.
  induction 1 as [X|X s0 x0 rest X' ? ? ? ? ? _ IH]; intros He Hc Hp Hx Hd.
  - simpl. econstructor; eauto. constructor.
  - simpl. econstructor; eauto.
Qed.

(** ** The invariant *)

Lemma popped_elem v node rest :
  popped relax key pos v node rest → node ∈ Vars.frontier v.
Proof. intros (HF & _). rewrite HF. left. Qed.

Lemma search_step_inv v v' :
  search_inv v → search_step v v' → search_inv v'.
Proof.
  intros Hinv [node rest cs Hpop Hgoal Hcs Habs Hexp Hsteps Hne Hng Hmax].
  pose proof (popped_elem _ _ _ Hpop) as Hnode.
  destruct Hpop as (HF & Hpos & _).
  pose proof (inv_nodup _ _ _ _ _ Hinv) as Hnd.
  rewrite HF in Hnd. simpl in Hnd. apply NoDup_cons in Hnd as [Hnotin Hnd].
  assert (∀ n, n ∈ rest →
            Node.state n ∉ ({[Node.state node]} ∪ Vars.explored v)) as Hfresh.
  { intros n Hn [Heq%elem_of_singleton|Hx]%elem_of_union.
    - apply Hnotin. apply list_elem_of_fmap. eauto.
    - revert Hx. apply (inv_fresh _ _ _ _ _ Hinv). rewrite HF. by right. }
  assert (∀ c, c ∈ cs → node_ok g start c) as Hcsok.
  { intros c Hc. destruct Hcs as [(children & Hex & Hperm)|[_ ->]].
    - eapply expand_ok; [by apply (inv_ok _ _ _ _ _ Hinv)|done|].
      by rewrite <- Hperm.
    - by apply elem_of_nil in Hc. }
  assert (Node.state node ∉ Vars.explored v) as Hnew
    by by apply (inv_fresh _ _ _ _ _ Hinv).
  split.
  - by eapply absorb_nodup.
  - rewrite Hexp. by eapply absorb_fresh.
  - intros n Hn. destruct (absorb_elem _ _ _ _ _ Habs Hn) as [Hr|Hc]; [|auto].
    apply (inv_ok _ _ _ _ _ Hinv). rewrite HF. by right.
  - rewrite Hexp. intros x [Heq%elem_of_singleton|Hx]%elem_of_union.
    + subst x. eapply node_ok_reachable. by apply (inv_ok _ _ _ _ _ Hinv).
    + by apply (inv_explored _ _ _ _ _ Hinv).
  - rewrite Hexp. intros [Hg%elem_of_singleton|Hg]%elem_of_union; [done|].
    by apply (inv_goal _ _ _ _ _ Hinv) in Hg.
  - rewrite Hexp, Hne, size_union, size_singleton by set_solver.
    by rewrite (inv_size _ _ _ _ _ Hinv).
  - rewrite Hsteps, Hne, length_app. simpl.
    rewrite (inv_steps _ _ _ _ _ Hinv). lia.
  - rewrite Hne, Hng. pose proof (inv_generated _ _ _ _ _ Hinv) as Hgen.
    rewrite HF in Hgen. simpl in Hgen.
    pose proof (absorb_length _ _ _ _ Habs). lia.
  - rewrite Hmax. pose proof (inv_max _ _ _ _ _ Hinv). lia.
  - rewrite Hsteps, Hexp.
    apply trace_from_snoc; try done. apply (inv_trace _ _ _ _ _ Hinv).
  - pose proof (inv_first _ _ _ _ _ Hinv) as Hfirst.
    unfold first_frontier in *. rewrite Hsteps.
    destruct (Vars.steps v); simpl; done.
Qed.

End machine_proofs.

(* ===================================================================== *)
(** * From one iteration to a run                                         *)
(* ===================================================================== *)

Section run.
Context {E FS : Type} `{Entry E}.
Context (relax : bool) (key : Node.t → Z) (pos : list string → option string).
Context (g : Graph) (goal start : string).
(** What the algorithm keeps true about its own variables. *)
Context (L : Vars.t E FS → Prop).
(** What follows from the iterations alone. *)
Context (J : Vars.t Node.t unit → Prop).
Context (body : Vars.t E FS → outcome (flow (Vars.t E FS) (Result Step.t))).

Abbreviation search_step := (search_step relax key pos g goal).
Abbreviation search_found := (search_found relax key pos goal).
Abbreviation search_inv := (search_inv pos g goal start).

Abbreviation body_spec := (body_spec relax key pos g goal start L body).
Abbreviation run_inv := (run_inv pos g goal start L J).

Hypothesis Hbody : body_spec.
Hypothesis HJ : ∀ v v', search_inv v → J v → search_step v v' → J v'.

Lemma frontier_nonempty_true (st : Vars.t E FS) :
  frontier_nonempty st = true → Vars.frontier st ≠ [].
Proof. by intros ?%bool_decide_eq_true. Qed.

(** Whatever a run returns is the node popped at the head of an iteration
    or the report of an empty frontier. *)
Lemma run_partial (alg : string) (fuel : nat) (st0 : Vars.t E FS)
    (r : Result Step.t) :
  run_inv st0 →
  finish alg (while_loop frontier_nonempty body fuel st0) = Ret r →
  ∃ st, run_inv st ∧ run_end relax key pos goal alg (view st) r.
Proof.
  intros Hinv0 (fl & Hloop & Hfl)%bind_Ret.
  pose proof (while_loop_rule run_inv
    (λ r, ∃ st, run_inv st ∧ search_found (view st) r)
    frontier_nonempty body) as Hrule.
  eapply Hrule in Hloop; [| | |done].
  - destruct fl as [st|r'].
    + destruct Hloop as [Hinv Hc]. exists st. split; [done|]. right.
      injection Hfl as <-. split; [|done].
      apply bool_decide_eq_false in Hc. simpl.
      destruct (Vars.frontier st); [done|]. by destruct Hc.
    + injection Hfl as ->. destruct Hloop as (st & Hinv & Hf).
      exists st. split; [done|by left].
  - intros st st' (HL & Hinv & HJst) Hc%frontier_nonempty_true Hb.
    pose proof (Hbody st HL Hinv Hc) as Hspec. rewrite Hb in Hspec.
    destruct Hspec as [Hstep HL']. split; [done|].
    split; [by eapply search_step_inv|by eapply HJ].
  - intros st r' (HL & Hinv & HJst) Hc%frontier_nonempty_true Hb.
    pose proof (Hbody st HL Hinv Hc) as Hspec. rewrite Hb in Hspec.
    exists st. done.
Qed.

(** On a graph closed under reachability a run ends without an
    exception, within as many iterations as the graph has keys. *)
Lemma run_total (alg : string) (fuel : nat) (st0 : Vars.t E FS) :
  reachable_closed g start → run_inv st0 →
  length (dict_keys g) < fuel + size (Vars.explored st0) →
  ∃ r, finish alg (while_loop frontier_nonempty body fuel st0) = Ret r.
Proof.
  intros Hclosed Hinv0 Hfuel.
  assert (∀ v, search_inv v →
            size (Vars.explored v) ≤ length (dict_keys g)) as Hbound.
  { intros v Hv. apply size_le_list. intros x Hx.
    apply Hclosed. by apply (inv_explored _ _ _ _ _ Hv). }
  destruct (while_loop_total run_inv
    (λ st, length (dict_keys g) - size (Vars.explored st))
    frontier_nonempty body) with (fuel := fuel) (st := st0) as [fl Hfl].
  - intros st (HL & Hinv & HJst) Hc%frontier_nonempty_true.
    pose proof (Hbody st HL Hinv Hc) as Hspec.
    destruct (body st) as [[st'|r]|e|] eqn:Hb.
    + eexists. split; [done|]. destruct Hspec as [Hstep HL'].
      pose proof (search_step_inv _ _ _ _ _ _ _ _ Hinv Hstep) as Hinv'.
      split; [split; [done|split; [done|exact (HJ _ _ Hinv HJst Hstep)]]|].
      pose proof (Hbound _ Hinv') as Hb'.
      pose proof (inv_size _ _ _ _ _ Hinv) as Hs.
      pose proof (inv_size _ _ _ _ _ Hinv') as Hs'.
      destruct Hstep as [? ? ? _ _ _ _ _ _ Hne _ _].
      rewrite Hne in Hs'. simpl in *. lia.
    + eexists. done.
    + destruct Hspec as (n & Hn & Hkey). exfalso. apply Hkey, Hclosed.
      eapply node_ok_reachable. by apply (inv_ok _ _ _ _ _ Hinv).
    + done.
  - done.
  - destruct Hinv0 as (_ & Hinv0 & _).
    pose proof (Hbound _ Hinv0) as Hb0. simpl in Hb0. lia.
  - unfold finish. rewrite Hfl. simpl. destruct fl; eauto.
Qed.

End run.

(* ===================================================================== *)
(** * Each loop body refines the abstract iteration                       *)
(* ===================================================================== *)

(** The bookkeeping goals of a step: projections of the new variables. *)
Ltac step_side HF :=
  simpl; rewrite ?list_fmap_id, ?length_fmap, ?HF;
  first [done | lia | constructor].

Lemma view_frontier_node {FS} (st : Vars.t Node.t FS) :
  Vars.frontier (view st) = Vars.frontier st.
Proof. simpl. apply list_fmap_id. Qed.

Lemma absorb1_skip relax X F c :
  (Node.state c ∈ X
   ∨ ∃ old, old ∈ F ∧ Node.state old = Node.state c
       ∧ (relax = true → (Node.path_cost old ≤ Node.path_cost c)%Z)) →
  absorb1 relax X F c F.
Proof. intros Hc. left. done. Qed.

Lemma absorb1_add relax X F F' c :
  F' ≡ₚ c :: F → Node.state c ∉ X → Node.state c ∉ (Node.state <$> F) →
  absorb1 relax X F c F'.
Proof. intros HF Hc Hin. right. left. done. Qed.

Lemma elem_of_states (F : list Node.t) (x : string) :
  x ∈ (Node.state <$> F) ↔ ∃ n, n ∈ F ∧ Node.state n = x.
Proof.
  rewrite list_elem_of_fmap. split.
  - intros (n & Hx & Hn). eauto.
  - intros (n & Hn & Hx). eauto.
Qed.

(** ** Breadth-first search *)

Lemma bfs_children (X : gset string) (cs F F' : list Node.t) (ng ng' : nat) :
  fold_left (bfs_child X) cs (F, ng) = (F', ng') →
  absorb false X F cs F' ∧ ng' = ng + length cs.
Proof.
  revert F ng. induction cs as [|c cs IH]; intros F ng; simpl.
  - intros [= <- <-]. split; [constructor|lia].
  - destruct (bool_decide (Node.state c ∉ X)
              && bool_decide (Node.state c ∉ (Node.state <$> F))) eqn:Hc.
    + intros [Habs ->]%IH. split; [|lia].
      apply andb_true_iff in Hc as [Hx%bool_decide_eq_true Hf%bool_decide_eq_true].
      econstructor; [|done]. apply absorb1_add; [|done|done].
      by rewrite Permutation_app_comm.
    + intros [Habs ->]%IH. split; [|lia].
      econstructor; [|done]. apply absorb1_skip.
      apply andb_false_iff in Hc as [Hx%bool_decide_eq_false|Hf%bool_decide_eq_false].
      * left. by apply dec_stable.
      * right. apply dec_stable in Hf. apply elem_of_states in Hf as (n & ? & ?).
        exists n. done.
Qed.

Lemma bfs_body_spec (key : Node.t → Z) (g : Graph) (goal start : string) :
  body_spec false key head g goal start (λ _, True) (bfs_body g goal).
Proof.
  intros st _ Hinv Hne. unfold bfs_body.
  destruct (Vars.frontier st) as [|node rest] eqn:HF; [done|]. cbn [list_popleft bind].
  assert (popped false key head (view st) node rest) as Hpop.
  { split; [by rewrite view_frontier_node, HF|].
    split; [by rewrite view_frontier_node, HF|done]. }
  case_decide as Hgoal.
  { econstructor; [done|done|]. by rewrite view_frontier_node, HF. }
  destruct (Node.expand g node) as [children|e|] eqn:Hex; cbn [bind].
  - destruct (fold_left _ children _) as [F' ng'] eqn:Hfold.
    apply bfs_children in Hfold as [Habs ->].
    split; [|done].
    eapply (SearchStep _ _ _ _ _ _ _ node rest children Hpop Hgoal);
      [left; eauto|by rewrite view_frontier_node|..]; step_side HF.
  - exists node. split; [by rewrite view_frontier_node, HF; left|].
    by eapply expand_Raise.
  - unfold Node.expand, dict_getitem in Hex.
    by destruct (dict_get g (Node.state node)).
Qed.

(** ** Depth-first and depth-limited search *)

Lemma dfs_children (X : gset string) (cs F F' : list Node.t)
    (fs fs' : gset string) (ng ng' : nat) :
  (∀ x, x ∈ fs ↔ x ∈ (Node.state <$> F)) →
  fold_left (dfs_child X) cs (F, fs, ng) = (F', fs', ng') →
  absorb false X F cs F' ∧ ng' = ng + length cs
  ∧ (∀ x, x ∈ fs' ↔ x ∈ (Node.state <$> F')).
Proof.
  revert F fs ng. induction cs as [|c cs IH]; intros F fs ng Hfs; simpl.
  - intros [= <- <- <-]. split; [constructor|]. split; [lia|done].
  - destruct (bool_decide (Node.state c ∉ X)
              && bool_decide (Node.state c ∉ fs)) eqn:Hc.
    + apply andb_true_iff in Hc as [Hx%bool_decide_eq_true Hf%bool_decide_eq_true].
      intros (Habs & -> & Hfs')%IH.
      * split; [|split; [lia|done]].
        econstructor; [|done]. apply absorb1_add; [|done|by rewrite <- Hfs].
        by rewrite Permutation_app_comm.
      * intros x. rewrite fmap_app, elem_of_app, elem_of_union, <- Hfs.
        simpl. rewrite list_elem_of_singleton, elem_of_singleton. tauto.
    + intros (Habs & -> & Hfs')%IH; [|done].
      split; [|split; [lia|done]].
      econstructor; [|done]. apply absorb1_skip.
      apply andb_false_iff in Hc as [Hx%bool_decide_eq_false|Hf%bool_decide_eq_false].
      * left. by apply dec_stable.
      * right. apply dec_stable, Hfs, elem_of_states in Hf as (n & ? & ?).
        exists n. done.
Qed.

Lemma pop_last_fresh (init : list Node.t) (node : Node.t) :
  NoDup (Node.state <$> (init ++ [node])) →
  Node.state node ∉ (Node.state <$> init).
Proof.
  rewrite fmap_app. intros (_ & Hdisj & _)%NoDup_app Hin.
  apply (Hdisj _ Hin). simpl. left.
Qed.

Lemma states_agree_pop_last (init : list Node.t) (node : Node.t)
    (fs : gset string) :
  NoDup (Node.state <$> (init ++ [node])) →
  (∀ x, x ∈ fs ↔ x ∈ (Node.state <$> (init ++ [node]))) →
  ∀ x, x ∈ fs ∖ {[Node.state node]} ↔ x ∈ (Node.state <$> init).
Proof.
  intros Hnd%pop_last_fresh Hfs x.
  rewrite elem_of_difference, elem_of_singleton, Hfs, fmap_app, elem_of_app.
  simpl. rewrite list_elem_of_singleton. split; [tauto|].
  intros Hx. split; [by left|]. by intros ->.
Qed.

Lemma dls_body_spec (key : Node.t → Z) (g : Graph) (goal start : string)
    (depth_limit : Z) :
  body_spec false key last g goal start states_agree
    (dls_body g goal depth_limit).
Proof.
  intros st HL Hinv Hne. unfold dls_body.
  destruct (list_snoc_inv _ Hne) as (init & node & HF).
  pose proof (inv_nodup _ _ _ _ _ Hinv) as Hnd.
  rewrite view_frontier_node, HF in Hnd.
  pose proof HL as Hagree. unfold states_agree in Hagree.
  rewrite view_frontier_node, HF in Hagree.
  rewrite HF, list_pop_snoc. cbn [bind].
  unfold set_remove. rewrite decide_True.
  2:{ apply Hagree. rewrite fmap_app, elem_of_app. right. simpl. left. }
  cbn [bind].
  assert (popped false key last (view st) node init) as Hpop.
  { split; [rewrite view_frontier_node, HF|].
    - by rewrite Permutation_app_comm.
    - split; [|done]. rewrite view_frontier_node, HF, fmap_app. simpl.
      by rewrite last_snoc. }
  pose proof (states_agree_pop_last _ _ _ Hnd Hagree) as Hagree'.
  case_decide as Hgoal.
  { econstructor; [done|done|]. by rewrite view_frontier_node, HF. }
  case_decide as Hdepth.
  - destruct (Node.expand g node) as [children|e|] eqn:Hex; cbn [bind].
    + destruct (fold_left _ (reverse children) _) as [[F' fs'] ng'] eqn:Hfold.
      apply dfs_children in Hfold as (Habs & -> & Hfs'); [|done].
      split.
      * eapply (SearchStep _ _ _ _ _ _ _ node init (reverse children) Hpop Hgoal);
          [left; exists children; split; [done|apply reverse_Permutation]
          |by rewrite view_frontier_node|..]; step_side HF.
      * intros x. by rewrite view_frontier_node.
    + exists node. split; [|by eapply expand_Raise].
      rewrite view_frontier_node, HF, elem_of_app. right. left.
    + unfold Node.expand, dict_getitem in Hex.
      by destruct (dict_get g (Node.state node)).
  - split.
    + eapply (SearchStep _ _ _ _ _ _ _ node init [] Hpop Hgoal);
        [by right|..]; step_side HF.
    + intros x. by rewrite view_frontier_node.
Qed.

Lemma dfs_body_spec (key : Node.t → Z) (g : Graph) (goal start : string) :
  body_spec false key last g goal start states_agree (dfs_body g goal).
Proof.
  intros st HL Hinv Hne. unfold dfs_body.
  destruct (list_snoc_inv _ Hne) as (init & node & HF).
  pose proof (inv_nodup _ _ _ _ _ Hinv) as Hnd.
  rewrite view_frontier_node, HF in Hnd.
  pose proof HL as Hagree. unfold states_agree in Hagree.
  rewrite view_frontier_node, HF in Hagree.
  rewrite HF, list_pop_snoc. cbn [bind].
  unfold set_remove. rewrite decide_True.
  2:{ apply Hagree. rewrite fmap_app, elem_of_app. right. simpl. left. }
  cbn [bind].
  assert (popped false key last (view st) node init) as Hpop.
  { split; [rewrite view_frontier_node, HF|].
    - by rewrite Permutation_app_comm.
    - split; [|done]. rewrite view_frontier_node, HF, fmap_app. simpl.
      by rewrite last_snoc. }
  pose proof (states_agree_pop_last _ _ _ Hnd Hagree) as Hagree'.
  case_decide as Hgoal.
  { econstructor; [done|done|]. by rewrite view_frontier_node, HF. }
  destruct (Node.expand g node) as [children|e|] eqn:Hex; cbn [bind].
  - destruct (fold_left _ (reverse children) _) as [[F' fs'] ng'] eqn:Hfold.
    apply dfs_children in Hfold as (Habs & -> & Hfs'); [|done].
    split.
    + eapply (SearchStep _ _ _ _ _ _ _ node init (reverse children) Hpop Hgoal);
        [left; exists children; split; [done|apply reverse_Permutation]
        |by rewrite view_frontier_node|..]; step_side HF.
    + intros x. by rewrite view_frontier_node.
  - exists node. split; [|by eapply expand_Raise].
    rewrite view_frontier_node, HF, elem_of_app. right. left.
  - unfold Node.expand, dict_getitem in Hex.
    by destruct (dict_get g (Node.state node)).
Qed.

(** ** The heuristic *)

Lemma get_heuristic_value (state goal : string) (heuristic_data : gmap string Z) :
  get_heuristic state goal heuristic_data
  = Ret (heuristic_value goal heuristic_data state).
Proof.
  unfold get_heuristic, heuristic_value, map_getitem.
  destruct (decide (goal = designated_goal)) as [Hg|Hg].
  - rewrite (bool_decide_eq_true_2 _ Hg). cbn [andb].
    case_bool_decide as Hs.
    + destruct Hs as [v Hv]. by rewrite Hv.
    + apply eq_None_not_Some in Hs. by rewrite Hs.
  - by rewrite (bool_decide_eq_false_2 _ Hg).
Qed.

(** ** Greedy best-first search *)

Lemma pair_states (F : list (Z * Node.t)) :
  (λ entry : Z * Node.t, Node.state entry.2) <$> F
  = Node.state <$> (entry_node <$> F).
Proof. by rewrite <- list_fmap_compose. Qed.

Lemma heap_pop_states {E} `{Entry E} (F rest : list E) (entry : E) :
  NoDup (Node.state <$> (entry_node <$> F)) → F ≡ₚ entry :: rest →
  ∀ fs : gset string,
    (∀ x, x ∈ fs ↔ x ∈ (Node.state <$> (entry_node <$> F))) →
    Node.state (entry_node entry) ∈ fs
    ∧ ∀ x, x ∈ fs ∖ {[Node.state (entry_node entry)]}
        ↔ x ∈ (Node.state <$> (entry_node <$> rest)).
Proof.
  intros Hnd Hperm fs Hfs. rewrite Hperm in Hnd. simpl in Hnd.
  apply NoDup_cons in Hnd as [Hnotin _].
  split.
  - apply Hfs. rewrite Hperm. simpl. left.
  - intros x. rewrite elem_of_difference, elem_of_singleton, Hfs, Hperm.
    simpl. rewrite elem_of_cons. split; [tauto|].
    intros Hx. split; [by right|]. by intros ->.
Qed.

Lemma greedy_children (goal : string) (heuristic_data : gmap string Z)
    (X : gset string) (cs : list Node.t) (F : list (Z * Node.t))
    (fs : gset string) (ng : nat) :
  is_heap F → (∀ x, x ∈ fs ↔ x ∈ (Node.state <$> (entry_node <$> F))) →
  ∃ F' fs' ng',
    foldM (greedy_child goal heuristic_data X) (F, fs, ng) cs
    = Ret (F', fs', ng')
    ∧ absorb false X (entry_node <$> F) cs (entry_node <$> F')
    ∧ ng' = ng + length cs ∧ is_heap F'
    ∧ (∀ x, x ∈ fs' ↔ x ∈ (Node.state <$> (entry_node <$> F'))).
Proof.
  revert F fs ng. induction cs as [|c cs IH]; intros F fs ng Hheap Hfs.
  { exists F, fs, ng. split_and!; try done; first [constructor|simpl; lia]. }
  cbn [foldM]. unfold greedy_child at 1.
  destruct (bool_decide (Node.state c ∉ X)
            && bool_decide (Node.state c ∉ fs)) eqn:Hc.
  - apply andb_true_iff in Hc as [Hx%bool_decide_eq_true Hf%bool_decide_eq_true].
    rewrite get_heuristic_value. cbn [bind].
    set (entry := (heuristic_value goal heuristic_data (Node.state c), c)).
    destruct (heappush_spec F entry Hheap) as [Hheap' Hperm].
    destruct (IH (heapq.heappush F entry) ({[Node.state c]} ∪ fs) (S ng))
      as (F' & fs' & ng' & -> & Habs & -> & Hh' & Hfs'); [done| |].
    { intros x. rewrite Hperm. simpl.
      rewrite elem_of_union, elem_of_singleton, elem_of_cons, Hfs. done. }
    exists F', fs', (S ng + length cs). split_and!; try done; [|simpl; lia..].
    econstructor; [|done]. apply absorb1_add; [|done|by rewrite <- Hfs].
    by rewrite Hperm.
  - destruct (IH F fs (S ng)) as (F' & fs' & ng' & -> & Habs & -> & Hh' & Hfs');
      [done|done|].
    exists F', fs', (S ng + length cs). split_and!; try done; [|simpl; lia..].
    econstructor; [|done]. apply absorb1_skip.
    apply andb_false_iff in Hc as [Hx%bool_decide_eq_false|Hf%bool_decide_eq_false].
    + left. by apply dec_stable.
    + right. apply dec_stable, Hfs, elem_of_states in Hf as (n & ? & ?).
      exists n. done.
Qed.

Lemma greedy_body_spec (key : Node.t → Z) (g : Graph) (goal start : string)
    (heuristic_data : gmap string Z) :
  body_spec false key head g goal start greedy_local
    (greedy_body g goal heuristic_data).
Proof.
  intros st [Hagree Hheap] Hinv Hne. unfold greedy_body.
  destruct (heappop_least _ Hne Hheap)
    as (entry & rest & -> & Hhead & Hperm & Hheap' & _).
  cbn [bind].
  pose proof (inv_nodup _ _ _ _ _ Hinv) as Hnd. cbn [view Vars.frontier] in Hnd.
  destruct (heap_pop_states _ _ _ Hnd Hperm _ Hagree) as [Hin Hagree'].
  unfold set_remove. rewrite decide_True by done. cbn [bind].
  assert (popped false key head (view st) (entry_node entry)
            (entry_node <$> rest)) as Hpop.
  { split; [cbn; by rewrite Hperm|]. split; [|done].
    cbn. destruct (Vars.frontier st); [done|]. by injection Hhead as ->. }
  rewrite pair_states.
  case_decide as Hgoal.
  { econstructor; [done|done|]. cbn. by rewrite length_fmap. }
  destruct (Node.expand g entry.2) as [children|e|] eqn:Hex; cbn [bind].
  - destruct (greedy_children goal heuristic_data
                ({[Node.state entry.2]} ∪ Vars.explored st) children rest
                (Vars.frontier_states st ∖ {[Node.state entry.2]})
                (Vars.nodes_generated st) Hheap' Hagree')
      as (F' & fs' & ng' & -> & Habs & -> & Hh' & Hfs').
    cbn [bind]. split; [|done].
    eapply (SearchStep _ _ _ _ _ _ _ (entry_node entry) (entry_node <$> rest)
              children Hpop Hgoal); [left; eauto|done|..];
      cbn; rewrite ?length_fmap; done.
  - exists (entry_node entry). split; [|by eapply expand_Raise].
    cbn. rewrite Hperm. left.
  - unfold Node.expand, dict_getitem in Hex.
    by destruct (dict_get g (Node.state entry.2)).
Qed.

(** ** Uniform-cost search *)

Lemma rest_fresh {E} `{Entry E} (F rest : list E) (entry : E) (X : gset string) :
  NoDup (Node.state <$> (entry_node <$> F)) → F ≡ₚ entry :: rest →
  (∀ n, n ∈ (entry_node <$> F) → Node.state n ∉ X) →
  ∀ n, n ∈ (entry_node <$> rest) →
    Node.state n ∉ ({[Node.state (entry_node entry)]} ∪ X).
Proof.
  intros Hnd Hperm Hfresh n Hn. rewrite Hperm in Hnd. simpl in Hnd.
  apply NoDup_cons in Hnd as [Hnotin _].
  intros [Heq%elem_of_singleton|Hx]%elem_of_union.
  - apply Hnotin. rewrite <- Heq. by apply list_elem_of_fmap_2.
  - revert Hx. apply Hfresh. rewrite Hperm. simpl. by right.
Qed.

Lemma ucs_children (X : gset string) (cs : list Node.t) (F : list (Z * Node.t))
    (fs : gset string) (ng : nat) :
  is_heap F → (∀ x, x ∈ fs ↔ x ∈ (Node.state <$> (entry_node <$> F))) →
  (∀ e, e ∈ F → e.1 = Node.path_cost e.2) →
  (∀ n, n ∈ (entry_node <$> F) → Node.state n ∉ X) →
  ∃ F' fs' ng',
    fold_left (ucs_child X) cs (F, fs, ng) = (F', fs', ng')
    ∧ absorb true X (entry_node <$> F) cs (entry_node <$> F')
    ∧ ng' = ng + length cs ∧ is_heap F'
    ∧ (∀ x, x ∈ fs' ↔ x ∈ (Node.state <$> (entry_node <$> F')))
    ∧ (∀ e, e ∈ F' → e.1 = Node.path_cost e.2).
Proof.
  revert F fs ng.
  induction cs as [|c cs IH]; intros F fs ng Hheap Hfs Hcost Hfresh.
  { exists F, fs, ng. split_and!; try done; first [constructor|simpl; lia]. }
  cbn [fold_left]. unfold ucs_child at 2.
  assert (∀ F1 fs1,
    absorb1 true X (entry_node <$> F) c (entry_node <$> F1) →
    is_heap F1 →
    (∀ x, x ∈ fs1 ↔ x ∈ (Node.state <$> (entry_node <$> F1))) →
    (∀ e, e ∈ F1 → e.1 = Node.path_cost e.2) →
    ∃ F' fs' ng',
      fold_left (ucs_child X) cs (F1, fs1, S ng) = (F', fs', ng')
      ∧ absorb true X (entry_node <$> F) (c :: cs) (entry_node <$> F')
      ∧ ng' = ng + length (c :: cs) ∧ is_heap F'
      ∧ (∀ x, x ∈ fs' ↔ x ∈ (Node.state <$> (entry_node <$> F')))
      ∧ (∀ e, e ∈ F' → e.1 = Node.path_cost e.2)) as Hnext.
  { intros F1 fs1 Habs1 Hheap1 Hfs1 Hcost1.
    destruct (IH F1 fs1 (S ng) Hheap1 Hfs1 Hcost1)
      as (F' & fs' & ng' & Hfold & Habs & -> & Hh' & Hfs' & Hc').
    { by eapply absorb1_fresh. }
    exists F', fs', (S ng + length cs). split_and!; try done; [|simpl; lia].
    by econstructor. }
  destruct (bool_decide (Node.state c ∉ X)
            && bool_decide (Node.state c ∉ fs)) eqn:Hc.
  - apply andb_true_iff in Hc as [Hx%bool_decide_eq_true Hf%bool_decide_eq_true].
    destruct (heappush_spec F (Node.path_cost c, c) Hheap) as [Hheap' Hperm].
    apply Hnext; [|done| |].
    + apply absorb1_add; [by rewrite Hperm|done|by rewrite <- Hfs].
    + intros x. rewrite Hperm. simpl.
      rewrite elem_of_union, elem_of_singleton, elem_of_cons, Hfs. done.
    + intros e. rewrite Hperm. intros [->|He]%elem_of_cons; [done|auto].
  - destruct (decide (Node.state c ∈ fs)) as [Hin|Hin];
      [rewrite (bool_decide_eq_true_2 _ Hin)
      |rewrite (bool_decide_eq_false_2 _ Hin)].
    + destruct (list_find _ F) as [[i e]|] eqn:Hfind.
      * apply list_find_Some in Hfind as (Hi & [Hstate Hlt] & _).
        apply lookup_lt_Some in Hi as Hlen.
        destruct (heapify_spec (<[i := (Node.path_cost c, c)]> F))
          as [Hheap' Hperm0].
        pose proof (transitivity Hperm0
                      (insert_delete_perm F i (Node.path_cost c, c) Hlen))
          as Hperm.
        pose proof (delete_Permutation _ _ _ Hi) as HF.
        assert (e ∈ F) as He by (by eapply list_elem_of_lookup_2).
        apply Hnext; [|done| |].
        -- right. right. exists e.2, (entry_node <$> delete i F).
           split_and!; try done.
           ++ by rewrite HF at 1.
           ++ by rewrite Hperm.
           ++ rewrite <- Hstate. apply Hfresh. by apply list_elem_of_fmap_2.
           ++ rewrite <- (Hcost e He). done.
        -- intros x. rewrite Hfs, Hperm. rewrite HF at 1.
           unfold entry_node, pair_entry. simpl.
           rewrite !elem_of_cons. by rewrite Hstate.
        -- intros e'. rewrite Hperm. intros [->|He']%elem_of_cons; [done|].
           apply Hcost. rewrite HF. by right.
      * apply list_find_None in Hfind. rewrite Forall_forall in Hfind.
        apply Hnext; try done. apply absorb1_skip. right.
        apply Hfs, elem_of_states in Hin as (n & Hn & Hs).
        apply list_elem_of_fmap in Hn as (e & -> & He).
        exists (entry_node e). split; [by apply list_elem_of_fmap_2|].
        split; [done|]. intros _. unfold entry_node, pair_entry in *.
        pose proof (Hfind e He) as Hnot. rewrite <- (Hcost e He).
        destruct (decide (Node.path_cost c < e.1)%Z); [|lia].
        destruct Hnot. done.
    + apply Hnext; try done. apply absorb1_skip. left.
      apply andb_false_iff in Hc as [Hx%bool_decide_eq_false|Hf%bool_decide_eq_false].
      * by apply dec_stable.
      * by apply dec_stable in Hf.
Qed.

Lemma ucs_body_spec (g : Graph) (goal start : string) :
  body_spec true (λ n, (Node.path_cost n + 0)%Z) head g goal start ucs_local
    (ucs_body g goal).
Proof.
  intros st (Hagree & Hheap & Hcost) Hinv Hne. unfold ucs_body.
  destruct (heappop_least _ Hne Hheap)
    as (entry & rest & -> & Hhead & Hperm & Hheap' & Hleast).
  cbn [bind].
  pose proof (inv_nodup _ _ _ _ _ Hinv) as Hnd. cbn [view Vars.frontier] in Hnd.
  destruct (heap_pop_states _ _ _ Hnd Hperm _ Hagree) as [Hin Hagree'].
  unfold set_remove. rewrite decide_True by done. cbn [bind].
  assert (popped true (λ n, (Node.path_cost n + 0)%Z) head (view st)
            (entry_node entry) (entry_node <$> rest)) as Hpop.
  { split; [cbn; by rewrite Hperm|]. split.
    - cbn. destruct (Vars.frontier st); [done|]. by injection Hhead as ->.
    - intros _ m (e & -> & He)%list_elem_of_fmap.
      assert (e ∈ Vars.frontier st) as He' by (rewrite Hperm; by right).
      assert (entry ∈ Vars.frontier st) as Hentry by (rewrite Hperm; left).
      pose proof (Hleast e He') as Hle.
      apply not_true_iff_false in Hle. rewrite pair_lt_true in Hle.
      unfold entry_node, pair_entry.
      rewrite <- (Hcost e He'), <- (Hcost entry Hentry). lia. }
  rewrite pair_states.
  case_decide as Hgoal.
  { econstructor; [done|done|]. cbn. by rewrite length_fmap. }
  destruct (Node.expand g entry.2) as [children|e|] eqn:Hex; cbn [bind].
  - destruct (ucs_children ({[Node.state entry.2]} ∪ Vars.explored st) children
                rest (Vars.frontier_states st ∖ {[Node.state entry.2]})
                (Vars.nodes_generated st) Hheap' Hagree')
      as (F' & fs' & ng' & -> & Habs & -> & Hh' & Hfs' & Hc').
    { intros e He. apply Hcost. rewrite Hperm. by right. }
    { exact (rest_fresh (Vars.frontier st) rest entry (Vars.explored st)
               Hnd Hperm (inv_fresh _ _ _ _ _ Hinv)). }
    split; [|done].
    eapply (SearchStep _ _ _ _ _ _ _ (entry_node entry) (entry_node <$> rest)
              children Hpop Hgoal); [left; eauto|done|..];
      cbn; rewrite ?length_fmap; done.
  - exists (entry_node entry). split; [|by eapply expand_Raise].
    cbn. rewrite Hperm. left.
  - unfold Node.expand, dict_getitem in Hex.
    by destruct (dict_get g (Node.state entry.2)).
Qed.

(** ** A-star *)

Lemma triple_states (F : list (Z * Z * Node.t)) :
  (λ entry : Z * Z * Node.t, Node.state entry.2) <$> F
  = Node.state <$> (entry_node <$> F).
Proof. by rewrite <- list_fmap_compose. Qed.

Lemma cost_keys (F : list (Z * Z * Node.t)) :
  ((λ e : Z * Z * Node.t, (Node.state e.2, Node.path_cost e.2)) <$> F).*1
  = Node.state <$> (entry_node <$> F).
Proof. by rewrite <- !list_fmap_compose. Qed.

Lemma cost_record_cons (e : Z * Z * Node.t) (F : list (Z * Z * Node.t)) :
  cost_record (e :: F)
  = <[Node.state e.2 := Node.path_cost e.2]> (cost_record F).
Proof. reflexivity. Qed.

Lemma cost_record_perm (F F' : list (Z * Z * Node.t)) :
  NoDup (Node.state <$> (entry_node <$> F)) → F ≡ₚ F' →
  cost_record F = cost_record F'.
Proof.
  intros Hnd Hperm. unfold cost_record.
  apply list_to_map_proper; [by rewrite cost_keys|by rewrite Hperm].
Qed.

Lemma cost_record_None (F : list (Z * Z * Node.t)) (x : string) :
  cost_record F !! x = None ↔ x ∉ (Node.state <$> (entry_node <$> F)).
Proof. unfold cost_record. by rewrite <- not_elem_of_list_to_map, cost_keys. Qed.

Lemma cost_record_Some (F : list (Z * Z * Node.t)) (x : string) (r : Z) :
  cost_record F !! x = Some r →
  ∃ e, e ∈ F ∧ Node.state e.2 = x ∧ Node.path_cost e.2 = r.
Proof.
  intros (e & [= -> ->] & He)%elem_of_list_to_map_2%list_elem_of_fmap. eauto.
Qed.

Section a_star_proofs.
Context (id : nat → Z) (goal : string) (heuristic_data : gmap string Z).
Abbreviation h := (heuristic_value goal heuristic_data).

Lemma astar_children (X : gset string) (cs : list Node.t)
    (F : list (Z * Z * Node.t)) (ng : nat) :
  is_heap F →
  (∀ e, e ∈ F → e.1.1 = (Node.path_cost e.2 + h (Node.state e.2))%Z) →
  (∀ n, n ∈ (entry_node <$> F) → Node.state n ∉ X) →
  NoDup (Node.state <$> (entry_node <$> F)) →
  ∃ F' ng',
    foldM (astar_child id goal heuristic_data X) (F, cost_record F, ng) cs
    = Ret (F', cost_record F', ng')
    ∧ absorb true X (entry_node <$> F) cs (entry_node <$> F')
    ∧ ng' = ng + length cs ∧ is_heap F'
    ∧ (∀ e, e ∈ F' → e.1.1 = (Node.path_cost e.2 + h (Node.state e.2))%Z).
Proof.
  revert F ng.
  induction cs as [|c cs IH]; intros F ng Hheap Hf Hfresh Hnd.
  { exists F, ng. split_and!; try done; first [constructor|simpl; lia]. }
  cbn [foldM]. unfold astar_child at 1.
  assert (∀ F1,
    absorb1 true X (entry_node <$> F) c (entry_node <$> F1) →
    is_heap F1 →
    (∀ e, e ∈ F1 → e.1.1 = (Node.path_cost e.2 + h (Node.state e.2))%Z) →
    ∃ F' ng',
      foldM (astar_child id goal heuristic_data X)
        (F1, cost_record F1, S ng) cs
      = Ret (F', cost_record F', ng')
      ∧ absorb true X (entry_node <$> F) (c :: cs) (entry_node <$> F')
      ∧ ng' = ng + length (c :: cs) ∧ is_heap F'
      ∧ (∀ e, e ∈ F' →
           e.1.1 = (Node.path_cost e.2 + h (Node.state e.2))%Z)) as Hnext.
  { intros F1 Habs1 Hheap1 Hf1.
    destruct (IH F1 (S ng) Hheap1 Hf1)
      as (F' & ng' & Hfold & Habs & -> & Hh' & Hf').
    { by eapply absorb1_fresh. }
    { by eapply absorb1_nodup. }
    exists F', (S ng + length cs). split_and!; try done; [|simpl; lia].
    by econstructor. }
  destruct (decide (Node.state c ∈ X)) as [Hx|Hx].
  { rewrite bool_decide_eq_false_2 by (by intros ?).
    apply Hnext; try done. apply absorb1_skip. by left. }
  rewrite (bool_decide_eq_true_2 _ Hx), get_heuristic_value. cbn [bind].
  set (new := ((Node.path_cost c + h (Node.state c))%Z, id (S ng), c)).
  destruct (cost_record F !! Node.state c) as [r|] eqn:Hrec.
  2:{ rewrite bool_decide_eq_true_2 by done.
      apply cost_record_None in Hrec.
      destruct (heappush_spec F new Hheap) as [Hheap' Hperm].
      assert (NoDup (Node.state <$> (entry_node <$> heapq.heappush F new)))
        as Hnd'.
      { rewrite Hperm. simpl. by apply NoDup_cons. }
      change (<[Node.state c := Node.path_cost c]> (cost_record F))
        with (cost_record (new :: F)).
      rewrite <- (cost_record_perm _ _ Hnd' Hperm).
      apply Hnext; [|done|].
      - apply absorb1_add; [by rewrite Hperm|done|done].
      - intros e. rewrite Hperm. intros [->|He]%elem_of_cons; [done|auto]. }
  rewrite bool_decide_eq_false_2 by done.
  unfold map_getitem. rewrite Hrec. cbn [bind].
  destruct (cost_record_Some _ _ _ Hrec) as (old & Hold & Hstate & Hcost).
  destruct (decide (Node.path_cost c < r)%Z) as [Hlt|Hge].
  2:{ rewrite bool_decide_eq_false_2 by done.
      apply Hnext; try done. apply absorb1_skip. right.
      exists (entry_node old). split; [by apply list_elem_of_fmap_2|].
      split; [done|]. intros _. unfold entry_node, triple_entry. lia. }
  rewrite bool_decide_eq_true_2 by done.
  destruct (list_find _ F) as [[i e]|] eqn:Hfind.
  2:{ apply list_find_None in Hfind. rewrite Forall_forall in Hfind.
      by destruct (Hfind old Hold). }
  apply list_find_Some in Hfind as (Hi & Hes & _).
  apply lookup_lt_Some in Hi as Hlen.
  destruct (heapify_spec (<[i := new]> F)) as [Hheap' Hperm0].
  pose proof (transitivity Hperm0 (insert_delete_perm F i new Hlen)) as Hperm.
  pose proof (delete_Permutation _ _ _ Hi) as HF.
  assert (e ∈ F) as He by (by eapply list_elem_of_lookup_2).
  assert (NoDup (Node.state <$> (entry_node <$> e :: delete i F))) as Hnde
    by (by rewrite <- HF).
  assert (Node.path_cost e.2 = r) as Her.
  { rewrite (cost_record_perm _ _ Hnd HF), cost_record_cons, Hes in Hrec.
    rewrite lookup_insert_eq in Hrec. by injection Hrec. }
  assert (NoDup (Node.state <$> (entry_node <$> heapq.heapify (<[i := new]> F))))
    as Hnd'.
  { rewrite Hperm. simpl in *. unfold entry_node, triple_entry in *.
    simpl. by rewrite <- Hes. }
  replace (<[Node.state c := Node.path_cost c]> (cost_record F))
    with (cost_record (heapq.heapify (<[i := new]> F))).
  2:{ rewrite (cost_record_perm _ _ Hnd' Hperm), cost_record_cons.
      rewrite (cost_record_perm _ _ Hnd HF), cost_record_cons, Hes.
      simpl. by rewrite insert_insert_eq. }
  apply Hnext; [|done|].
  - right. right. exists e.2, (entry_node <$> delete i F).
    split_and!; try done.
    + by rewrite HF at 1.
    + by rewrite Hperm.
    + lia.
  - intros e'. rewrite Hperm. intros [->|He']%elem_of_cons; [done|].
    apply Hf. rewrite HF. by right.
Qed.

Lemma astar_body_spec (g : Graph) (start : string) :
  body_spec true (λ n, (Node.path_cost n + h (Node.state n))%Z) head g goal
    start (astar_local h) (astar_body id g goal heuristic_data).
Proof.
  intros st (Hrec & Hheap & Hf) Hinv Hne. unfold astar_body.
  destruct (heappop_least _ Hne Hheap)
    as (entry & rest & -> & Hhead & Hperm & Hheap' & Hleast).
  cbn [bind].
  pose proof (inv_nodup _ _ _ _ _ Hinv) as Hnd.
  cbn [view Vars.frontier] in Hnd.
  assert (NoDup (Node.state <$> (entry_node <$> entry :: rest))) as Hnd'
    by (by rewrite <- Hperm).
  simpl in Hnd'. apply NoDup_cons in Hnd' as [Hnotin Hndrest].
  rewrite Hrec, (cost_record_perm _ _ Hnd Hperm), cost_record_cons.
  unfold map_delitem. rewrite lookup_insert_eq. cbn [bind].
  rewrite delete_insert_id by (by apply cost_record_None).
  assert (popped true (λ n, (Node.path_cost n + h (Node.state n))%Z) head
            (view st) (entry_node entry) (entry_node <$> rest)) as Hpop.
  { split; [cbn; by rewrite Hperm|]. split.
    - cbn. destruct (Vars.frontier st); [done|]. by injection Hhead as ->.
    - intros _ m (e & -> & He)%list_elem_of_fmap.
      assert (e ∈ Vars.frontier st) as He' by (rewrite Hperm; by right).
      assert (entry ∈ Vars.frontier st) as Hentry by (rewrite Hperm; left).
      pose proof (Hleast e He') as Hle.
      apply not_true_iff_false in Hle. rewrite triple_lt_true in Hle.
      unfold entry_node, triple_entry.
      rewrite <- (Hf e He'), <- (Hf entry Hentry). lia. }
  rewrite triple_states.
  case_decide as Hgoal.
  { econstructor; [done|done|]. cbn. by rewrite length_fmap. }
  destruct (Node.expand g entry.2) as [children|e|] eqn:Hex; cbn [bind].
  - destruct (astar_children ({[Node.state entry.2]} ∪ Vars.explored st)
                children rest (Vars.nodes_generated st) Hheap')
      as (F' & ng' & -> & Habs & -> & Hh' & Hf').
    { intros e He. apply Hf. rewrite Hperm. by right. }
    { exact (rest_fresh (Vars.frontier st) rest entry (Vars.explored st)
               Hnd Hperm (inv_fresh _ _ _ _ _ Hinv)). }
    { done. }
    cbn [bind]. split; [|done].
    eapply (SearchStep _ _ _ _ _ _ _ (entry_node entry) (entry_node <$> rest)
              children Hpop Hgoal); [left; eauto|done|..];
      cbn; rewrite ?length_fmap; done.
  - exists (entry_node entry). split; [|by eapply expand_Raise].
    cbn. rewrite Hperm. left.
  - unfold Node.expand, dict_getitem in Hex.
    by destruct (dict_get g (Node.state entry.2)).
Qed.

End a_star_proofs.

(* ===================================================================== *)
(** * What the end of a run says about the result                         *)
(* ===================================================================== *)

Lemma node_path_nonempty (n : Node.t) : Node.path n ≠ [].
Proof.
  pose proof (node_path_last n) as Hl. by destruct (Node.path n).
Qed.

Section end_facts.
Context (relax : bool) (key : Node.t → Z) (pos : list string → option string).
Context (g : Graph) (goal start alg : string).
Context (v : Vars.t Node.t unit) (r : Result Step.t).
Hypothesis Hinv : search_inv pos g goal start v.
Hypothesis Hend : run_end relax key pos goal alg v r.

Lemma end_metrics :
  nodes_expanded r ≤ nodes_generated r ∧ 1 ≤ max_frontier_size r.
Proof.
  pose proof (inv_generated _ _ _ _ _ Hinv) as Hgen.
  pose proof (inv_max _ _ _ _ _ Hinv) as Hmax.
  destruct Hend as [[node rest alg' (HF & _) _ ->]|[_ ->]]; simpl.
  - rewrite HF in Hgen. simpl in Hgen. lia.
  - lia.
Qed.

Lemma end_trace : trace_ok pos start r.
Proof.
  pose proof (inv_steps _ _ _ _ _ Hinv) as Hlen.
  pose proof (inv_trace _ _ _ _ _ Hinv) as Htrace.
  pose proof (inv_first _ _ _ _ _ Hinv) as Hfirst.
  unfold first_frontier in Hfirst.
  destruct Hend as [[node rest alg' Hpop _ ->]|[_ ->]];
    unfold trace_ok; simpl.
  - pose proof (popped_elem _ _ _ _ _ _ Hpop) as Hnode.
    destruct Hpop as (HF & Hpos & _).
    split; [rewrite length_app; simpl; lia|]. split.
    + eexists. apply trace_from_snoc; try done.
      by apply (inv_fresh _ _ _ _ _ Hinv).
    + intros s. destruct (Vars.steps v) as [|s0 l]; simpl.
      * by intros [= <-].
      * by intros [= <-].
  - split; [done|]. split; [eauto|].
    intros s. destruct (Vars.steps v) as [|s0 l]; simpl; [done|].
    by intros [= <-].
Qed.

Lemma end_found_reachable : path r ≠ [] → reachable g start goal.
Proof.
  destruct Hend as [[node rest alg' Hpop Hg ->]|[_ ->]]; [|done].
  intros _. rewrite <- Hg. eapply node_ok_reachable, (inv_ok _ _ _ _ _ Hinv).
  by eapply popped_elem.
Qed.

Lemma end_path :
  graph_wf g → path r ≠ [] → is_path g start goal (path r) (distance r).
Proof.
  intros Hwf. destruct Hend as [[node rest alg' Hpop Hg ->]|[_ ->]]; [|done].
  intros _. simpl. rewrite <- Hg. apply node_ok_path; [done|].
  eapply (inv_ok _ _ _ _ _ Hinv). by eapply popped_elem.
Qed.

Lemma end_expanded_bound (comp : list string) :
  path r = [] → (∀ x, reachable g start x → x ∈ comp) →
  nodes_expanded r ≤ length comp.
Proof.
  intros Hpath Hcomp.
  destruct Hend as [[node rest alg' Hpop _ ->]|[_ ->]]; simpl in *.
  - by destruct (node_path_nonempty node).
  - rewrite <- (inv_size _ _ _ _ _ Hinv). apply size_le_list.
    intros x Hx. by apply Hcomp, (inv_explored _ _ _ _ _ Hinv).
Qed.

Lemma end_distance : path r = [] → distance r = 0%Z.
Proof.
  destruct Hend as [[node rest alg' Hpop _ ->]|[_ ->]]; simpl; [|done].
  intros Hp. by destruct (node_path_nonempty node).
Qed.

Lemma end_unreachable :
  ¬ reachable g start goal → path r = [] ∧ distance r = 0%Z.
Proof.
  intros Hun. destruct (decide (path r = [])) as [Hp|Hp].
  - split; [done|]. destruct Hend as [[node rest alg' Hpop _ ->]|[_ ->]].
    + simpl in Hp. by destruct (node_path_nonempty node).
    + done.
  - destruct Hun. by apply end_found_reachable.
Qed.

End end_facts.

(* ===================================================================== *)
(** * Cost-comparing search finds a cheapest walk                         *)
(* ===================================================================== *)

Section dijkstra.
Context (h : string → Z) (pos : list string → option string).
Context (g : Graph) (goal start : string).
Hypothesis Hcons : consistent h g.

Abbreviation key := (λ n : Node.t, (Node.path_cost n + h (Node.state n))%Z).
Abbreviation search_step := (search_step true key pos g goal).
Abbreviation search_inv := (search_inv pos g goal start).

(** Every walk that ends outside the explored set crosses the frontier,
    at a node whose priority the walk bounds. *)
Lemma dijkstra_cut v x c :
  dijkstra_inv g start v → walk g start x c → x ∉ Vars.explored v →
  ∃ m, m ∈ Vars.frontier v ∧ (key m ≤ c + h x)%Z.
Proof.
  intros Hdj Hwalk. induction Hwalk as [|u c x w Hwalk IH Hedge]; intros Hx.
  - destruct (dj_start _ _ _ Hdj) as [?|(n & Hn & Hs & Hc)]; [done|].
    exists n. split; [done|]. simpl. rewrite Hs. lia.
  - pose proof (forall_edges_edge _ _ _ _ _ Hcons Hedge) as Hh. simpl in Hh.
    destruct (decide (u ∈ Vars.explored v)) as [Hu|Hu].
    + destruct (dj_edges _ _ _ Hdj u c x w Hwalk Hu Hedge)
        as [?|(n & Hn & Hs & Hc)]; [done|].
      exists n. split; [done|]. simpl. rewrite Hs. lia.
    + destruct (IH Hu) as (m & Hm & Hk). exists m. split; [done|]. lia.
Qed.

Lemma dijkstra_pop_least v node rest c :
  search_inv v → dijkstra_inv g start v →
  popped true key pos v node rest →
  walk g start (Node.state node) c → (Node.path_cost node ≤ c)%Z.
Proof.
  intros Hinv Hdj Hpop Hwalk.
  pose proof (popped_elem _ _ _ _ _ _ Hpop) as Hnode.
  destruct Hpop as (HF & _ & Hmin).
  destruct (dijkstra_cut v _ c Hdj Hwalk) as (m & Hm & Hk).
  { by apply (inv_fresh _ _ _ _ _ Hinv). }
  rewrite HF in Hm. apply elem_of_cons in Hm as [->|Hm].
  - simpl in Hk. lia.
  - pose proof (Hmin eq_refl m Hm) as Hle. simpl in *. lia.
Qed.

Lemma dijkstra_step v v' :
  search_inv v → dijkstra_inv g start v → search_step v v' →
  dijkstra_inv g start v'.
Proof.
  intros Hinv Hdj Hstep.
  destruct Hstep as [node rest cs Hpop Hgoal Hcs Habs Hexp _ _ _ _].
  pose proof (λ c, dijkstra_pop_least v node rest c Hinv Hdj Hpop) as Hleast.
  destruct Hpop as (HF & _ & _).
  destruct Hcs as [(children & Hex & Hperm)|[? _]]; [|done].
  assert (∀ n, n ∈ Vars.frontier v →
    Node.state n ∈ Vars.explored v'
    ∨ ∃ n', n' ∈ Vars.frontier v' ∧ Node.state n' = Node.state n
        ∧ (Node.path_cost n' ≤ Node.path_cost n)%Z) as Hkeep.
  { intros n. rewrite HF. intros [->|Hn]%elem_of_cons.
    - left. rewrite Hexp. set_solver.
    - right. by eapply absorb_keep. }
  split.
  - destruct (dj_start _ _ _ Hdj) as [Hs|(n & Hn & Hs & Hc)].
    + left. rewrite Hexp. set_solver.
    + destruct (Hkeep n Hn) as [Hin|(n' & Hn' & Hs' & Hc')].
      * left. by rewrite <- Hs.
      * right. exists n'. split; [done|]. split; [congruence|lia].
  - intros u c x w Hwalk Hu Hedge. rewrite Hexp in Hu.
    apply elem_of_union in Hu as [->%elem_of_singleton|Hu].
    + assert (Node.child node (x, w) ∈ cs) as Hc.
      { rewrite Hperm. by eapply expand_edge. }
      destruct (absorb_relaxed _ _ _ _ _ _ eq_refl Habs Hc)
        as [Hin|(n' & Hn' & Hs' & Hc')].
      * left. by rewrite Hexp.
      * right. exists n'. split; [done|]. split; [done|].
        simpl in Hc'. specialize (Hleast c Hwalk). lia.
    + destruct (dj_edges _ _ _ Hdj u c x w Hwalk Hu Hedge)
        as [Hin|(n & Hn & Hs & Hc)].
      * left. rewrite Hexp. set_solver.
      * destruct (Hkeep n Hn) as [Hin|(n' & Hn' & Hs' & Hc')].
        -- left. by rewrite <- Hs.
        -- right. exists n'. split; [done|]. split; [congruence|lia].
Qed.

Lemma dijkstra_init (mfs : nat) :
  dijkstra_inv g start (Vars.mk [Node.root start] () ∅ [] 0 1 mfs).
Proof.
  split.
  - right. exists (Node.root start). split; [left|done].
  - intros u c x w _ Hu. by apply not_elem_of_empty in Hu.
Qed.

(** The run ends on the goal, at the cost of a cheapest walk. *)
Lemma end_optimal alg v r :
  search_inv v → dijkstra_inv g start v → run_end true key pos goal alg v r →
  reachable g start goal →
  path r ≠ [] ∧ ∀ c, walk g start goal c → (distance r ≤ c)%Z.
Proof.
  intros Hinv Hdj Hend [c0 Hreach].
  destruct Hend as [[node rest alg' Hpop Hg ->]|[Hempty ->]]; simpl.
  - split; [apply node_path_nonempty|].
    intros c Hwalk. rewrite <- Hg in Hwalk. by eapply dijkstra_pop_least.
  - destruct (dijkstra_cut v goal c0 Hdj Hreach) as (m & Hm & _).
    { apply (inv_goal _ _ _ _ _ Hinv). }
    rewrite Hempty in Hm. by apply elem_of_nil in Hm.
Qed.

End dijkstra.

(* ===================================================================== *)
(** * The six unidirectional searches, from call to return                *)
(* ===================================================================== *)

Lemma search_inv_init (pos : list string → option string) (g : Graph)
    (goal start : string) :
  search_inv pos g goal start (Vars.mk [Node.root start] () ∅ [] 0 1 1).
Proof.
  split; simpl; try done.
  - apply NoDup_singleton.
  - intros n [->|[]%elem_of_nil]%elem_of_cons. constructor.
  - constructor.
Qed.

Lemma singleton_agree (start : string) :
  ∀ x, x ∈ ({[start]} : gset string) ↔ x ∈ [start].
Proof. intros x. by rewrite elem_of_singleton, list_elem_of_singleton. Qed.

Section runs.
Context (g : Graph) (start goal : string) (fuel : nat).
Hypothesis Hne : start ≠ goal.

Abbreviation ends relax key pos alg r :=
  (∃ v, search_inv pos g goal start v ∧ run_end relax key pos goal alg v r).

Lemma bfs_run r :
  breadth_first_search fuel g start goal = Ret r →
  ends false Node.path_cost head "bfs" r.
Proof.
  unfold breadth_first_search. rewrite decide_False by done. intros Hrun.
  eapply (run_partial _ _ _ _ _ _ (λ _, True) (λ _, True)) in Hrun
    as (st & (_ & Hinv & _) & Hend); eauto using bfs_body_spec.
  split; [done|]. split; [apply search_inv_init|done].
Qed.

Lemma bfs_total :
  reachable_closed g start → length (dict_keys g) < fuel →
  ∃ r, breadth_first_search fuel g start goal = Ret r.
Proof.
  intros Hclosed Hfuel. unfold breadth_first_search.
  rewrite decide_False by done.
  eapply (run_total false Node.path_cost head g goal start (λ _, True)
            (λ _, True)); eauto using bfs_body_spec.
  - split; [done|]. split; [apply search_inv_init|done].
  - simpl. lia.
Qed.

Lemma dfs_run r :
  depth_first_search fuel g start goal = Ret r →
  ends false Node.path_cost last "dfs" r.
Proof.
  unfold depth_first_search. rewrite decide_False by done. intros Hrun.
  eapply (run_partial _ _ _ _ _ _ states_agree (λ _, True)) in Hrun
    as (st & (_ & Hinv & _) & Hend); eauto using dfs_body_spec.
  split; [exact (singleton_agree start)|]. split; [apply search_inv_init|done].
Qed.

Lemma dfs_total :
  reachable_closed g start → length (dict_keys g) < fuel →
  ∃ r, depth_first_search fuel g start goal = Ret r.
Proof.
  intros Hclosed Hfuel. unfold depth_first_search.
  rewrite decide_False by done.
  eapply (run_total false Node.path_cost last g goal start states_agree
            (λ _, True)); eauto using dfs_body_spec.
  - split; [exact (singleton_agree start)|]. split; [apply search_inv_init|done].
  - simpl. lia.
Qed.

Lemma dls_run depth_limit r :
  depth_limited_search fuel g start goal depth_limit = Ret r →
  ends false Node.path_cost last "dls" r.
Proof.
  unfold depth_limited_search. rewrite decide_False by done. intros Hrun.
  eapply (run_partial _ _ _ _ _ _ states_agree (λ _, True)) in Hrun
    as (st & (_ & Hinv & _) & Hend); eauto using dls_body_spec.
  split; [exact (singleton_agree start)|]. split; [apply search_inv_init|done].
Qed.

Lemma dls_total depth_limit :
  reachable_closed g start → length (dict_keys g) < fuel →
  ∃ r, depth_limited_search fuel g start goal depth_limit = Ret r.
Proof.
  intros Hclosed Hfuel. unfold depth_limited_search.
  rewrite decide_False by done.
  eapply (run_total false Node.path_cost last g goal start states_agree
            (λ _, True)); eauto using dls_body_spec.
  - split; [exact (singleton_agree start)|]. split; [apply search_inv_init|done].
  - simpl. lia.
Qed.

Lemma greedy_run heuristic_data r :
  greedy_search fuel g start goal heuristic_data = Ret r →
  ends false Node.path_cost head "greedy" r.
Proof.
  unfold greedy_search. rewrite decide_False by done.
  rewrite get_heuristic_value. cbn [bind]. intros Hrun.
  eapply (run_partial _ _ _ _ _ _ greedy_local (λ _, True)) in Hrun
    as (st & (_ & Hinv & _) & Hend); eauto using greedy_body_spec.
  split; [split; [exact (singleton_agree start)|apply singleton_heap]|].
  split; [apply search_inv_init|done].
Qed.

Lemma greedy_total heuristic_data :
  reachable_closed g start → length (dict_keys g) < fuel →
  ∃ r, greedy_search fuel g start goal heuristic_data = Ret r.
Proof.
  intros Hclosed Hfuel. unfold greedy_search.
  rewrite decide_False by done. rewrite get_heuristic_value. cbn [bind].
  eapply (run_total false Node.path_cost head g goal start greedy_local
            (λ _, True)); eauto using greedy_body_spec.
  - split; [split; [exact (singleton_agree start)|apply singleton_heap]|].
    split; [apply search_inv_init|done].
  - simpl. lia.
Qed.

Lemma ucs_local_init :
  ucs_local (Vars.mk [(0%Z, Node.root start)] {[start]} ∅ [] 0 1 1).
Proof.
  split; [exact (singleton_agree start)|]. split; [apply singleton_heap|].
  by intros e [->|[]%elem_of_nil]%elem_of_cons.
Qed.

Lemma ucs_run r :
  uniform_cost_search fuel g start goal = Ret r →
  ends true (λ n, (Node.path_cost n + 0)%Z) head "ucs" r.
Proof.
  unfold uniform_cost_search. rewrite decide_False by done. intros Hrun.
  eapply (run_partial _ _ _ _ _ _ ucs_local (λ _, True)) in Hrun
    as (st & (_ & Hinv & _) & Hend); eauto using ucs_body_spec.
  split; [apply ucs_local_init|]. split; [apply search_inv_init|done].
Qed.

Lemma ucs_total :
  reachable_closed g start → length (dict_keys g) < fuel →
  ∃ r, uniform_cost_search fuel g start goal = Ret r.
Proof.
  intros Hclosed Hfuel. unfold uniform_cost_search.
  rewrite decide_False by done.
  eapply (run_total true (λ n, (Node.path_cost n + 0)%Z) head g goal start
            ucs_local
            (λ _, True)); eauto using ucs_body_spec.
  - split; [apply ucs_local_init|]. split; [apply search_inv_init|done].
  - simpl. lia.
Qed.

Section a_star_runs.
Context (id : nat → Z) (heuristic_data : gmap string Z).
Abbreviation h := (heuristic_value goal heuristic_data).
Abbreviation key := (λ n : Node.t, (Node.path_cost n + h (Node.state n))%Z).

Lemma astar_local_init :
  astar_local h
    (Vars.mk [((0 + h start)%Z, id 1, Node.root start)]
       {[start := 0%Z]} ∅ [] 0 1 1).
Proof.
  split; [done|]. split; [apply singleton_heap|].
  by intros e [->|[]%elem_of_nil]%elem_of_cons.
Qed.

Lemma astar_run r :
  a_star_search id fuel g start goal heuristic_data = Ret r →
  ends true key head "astar" r.
Proof.
  unfold a_star_search. rewrite decide_False by done.
  rewrite get_heuristic_value. cbn [bind]. intros Hrun.
  eapply (run_partial _ _ _ _ _ _ (astar_local h) (λ _, True)) in Hrun
    as (st & (_ & Hinv & _) & Hend); eauto using astar_body_spec.
  split; [apply astar_local_init|]. split; [apply search_inv_init|done].
Qed.

Lemma astar_total :
  reachable_closed g start → length (dict_keys g) < fuel →
  ∃ r, a_star_search id fuel g start goal heuristic_data = Ret r.
Proof.
  intros Hclosed Hfuel. unfold a_star_search.
  rewrite decide_False by done. rewrite get_heuristic_value. cbn [bind].
  eapply (run_total true key head g goal start (astar_local h)
            (λ _, True)); eauto using astar_body_spec.
  - split; [apply astar_local_init|].
    split; [apply search_inv_init|done].
  - simpl. lia.
Qed.

(** With a consistent heuristic, the end of a run of A-star also knows
    the walks of the graph. *)
Lemma astar_run_optimal r :
  consistent h g →
  a_star_search id fuel g start goal heuristic_data = Ret r →
  ∃ v, search_inv head g goal start v ∧ dijkstra_inv g start v
    ∧ run_end true key head goal "astar" v r.
Proof.
  intros Hcons. unfold a_star_search. rewrite decide_False by done.
  rewrite get_heuristic_value. cbn [bind]. intros Hrun.
  eapply (run_partial _ _ _ _ _ _ (astar_local h) (dijkstra_inv g start))
    in Hrun as (st & (_ & Hinv & Hdj) & Hend);
    eauto using astar_body_spec.
  - intros v v' Hv Hdj Hstep. by eapply (dijkstra_step h).
  - split; [apply astar_local_init|].
    split; [apply search_inv_init|apply dijkstra_init].
Qed.
End a_star_runs.

Lemma ucs_run_optimal r :
  nonneg_weights g →
  uniform_cost_search fuel g start goal = Ret r →
  ∃ v, search_inv head g goal start v ∧ dijkstra_inv g start v
    ∧ run_end true (λ n, (Node.path_cost n + 0)%Z) head goal "ucs" v r.
Proof.
  intros Hcons%nonneg_consistent. unfold uniform_cost_search.
  rewrite decide_False by done. intros Hrun.
  eapply (run_partial _ _ _ _ _ _ ucs_local (dijkstra_inv g start))
    in Hrun as (st & (_ & Hinv & Hdj) & Hend); eauto using ucs_body_spec.
  - intros v v' Hv Hdj Hstep. by eapply (dijkstra_step (λ _, 0%Z)).
  - split; [apply ucs_local_init|].
    split; [apply search_inv_init|apply dijkstra_init].
Qed.

End runs.

(* ===================================================================== *)
(** * Iterative deepening                                                 *)
(* ===================================================================== *)

Lemma range_length (n : Z) : length (range n) = Z.to_nat n.
Proof. unfold range. by rewrite length_fmap, length_seq. Qed.

Section ids.
Context (g : Graph) (start goal : string) (fuel : nat).
Hypothesis Hne : start ≠ goal.

(** What one depth-limited run contributes. *)
Lemma dls_result depth_limit r :
  depth_limited_search fuel g start goal depth_limit = Ret r →
  nodes_expanded r ≤ nodes_generated r
  ∧ 1 ≤ max_frontier_size r
  ∧ (graph_wf g → path r ≠ [] → is_path g start goal (path r) (distance r))
  ∧ (path r ≠ [] → reachable g start goal)
  ∧ (path r = [] → distance r = 0%Z)
  ∧ (∀ comp, path r = [] → (∀ x, reachable g start x → x ∈ comp) →
       nodes_expanded r ≤ length comp).
Proof.
  intros (v & Hinv & Hend)%dls_run; [|done].
  destruct (end_metrics _ _ _ _ _ _ _ _ _ Hinv Hend) as [Hm1 Hm2].
  split_and!; try done.
  - by eapply end_path.
  - by eapply end_found_reachable.
  - by eapply end_distance.
  - intros comp. by eapply end_expanded_bound.
Qed.

Lemma ids_result max_depth r :
  iterative_deepening_search fuel g start goal max_depth = Ret r →
  nodes_expanded r ≤ nodes_generated r
  ∧ ((0 < max_depth)%Z → 1 ≤ max_frontier_size r)
  ∧ (graph_wf g → path r ≠ [] → is_path g start goal (path r) (distance r))
  ∧ (path r ≠ [] → reachable g start goal)
  ∧ (path r = [] → distance r = 0%Z)
  ∧ (∀ comp, path r = [] → (∀ x, reachable g start x → x ∈ comp) →
       nodes_expanded r ≤ Z.to_nat max_depth * length comp).
Proof.
  unfold iterative_deepening_search. rewrite decide_False by done.
  intros (fl & Hloop & Hfl)%bind_Ret.
  set (bound := λ n, ∃ comp, n = length comp
                      ∧ ∀ x, reachable g start x → x ∈ comp).
  eapply (for_loop_rule (ids_inv bound)
            (λ r, nodes_expanded r ≤ nodes_generated r
                  ∧ 1 ≤ max_frontier_size r
                  ∧ (graph_wf g → is_path g start goal (path r) (distance r))
                  ∧ reachable g start goal
                  ∧ path r ≠ [])) in Hloop.
  - destruct fl as [[[[te tg] mf] all_steps]|r'].
    + injection Hfl as <-. destruct Hloop as (Hle & Hmf & Hb).
      rewrite range_length in Hmf, Hb. unfold ids_inv in *. simpl in *.
      split_and!; try done.
      * intros Hd. apply Hmf. lia.
      * intros comp _ Hcomp. apply Hb. by exists comp.
    + injection Hfl as <-.
      destruct Hloop as (Hle & Hmf & Hpath & Hreach & Hnil).
      split_and!; try done; auto.
  - intros i depth [[[te tg] mf] all_steps] st' _ (Hle & Hmf & Hb).
    unfold ids_body. intros (res & Hdls & Hres)%bind_Ret.
    apply dls_result in Hdls as (H1 & H2 & _ & _ & _ & H6).
    case_bool_decide as Hp; [done|]. injection Hres as <-.
    unfold ids_inv. simpl in *.
    split_and!; [lia|lia|].
    intros n (comp & -> & Hcomp). specialize (H6 comp Hp Hcomp).
    specialize (Hb _ (ex_intro _ comp (conj eq_refl Hcomp))). lia.
  - intros i depth [[[te tg] mf] all_steps] r' _ (Hle & Hmf & Hb).
    unfold ids_body. intros (res & Hdls & Hres)%bind_Ret.
    apply dls_result in Hdls as (H1 & H2 & H3 & H4 & _ & _).
    case_bool_decide as Hp; [|done]. injection Hres as <-.
    simpl in *. split_and!; auto; lia.
  - unfold ids_inv. split_and!; simpl; [lia|lia|]. intros n _. lia.
Qed.

Lemma ids_total max_depth :
  reachable_closed g start → length (dict_keys g) < fuel →
  ∃ r, iterative_deepening_search fuel g start goal max_depth = Ret r.
Proof.
  intros Hclosed Hfuel. unfold iterative_deepening_search.
  rewrite decide_False by done.
  destruct (for_loop_total (ids_body fuel g start goal) (range max_depth)
              (0, 0, 0, [])) as [fl ->].
  - intros depth [[[te tg] mf] all_steps]. unfold ids_body.
    destruct (dls_total g start goal fuel Hne depth Hclosed Hfuel) as [res ->].
    cbn [bind]. case_bool_decide; eauto.
  - cbn [bind]. destruct fl as [[[[te tg] mf] all_steps]|r']; eauto.
Qed.

End ids.

(* ===================================================================== *)
(** * The reverse graph                                                   *)
(* ===================================================================== *)

Lemma dict_get_setitem_eq {V} (d : dict V) (k : string) (v : V) :
  dict_get (dict_setitem d k v) k = Some v.
Proof.
  induction d as [|[k' v'] d IH]; simpl.
  - by rewrite decide_True.
  - case_decide as Hk; simpl.
    + by rewrite decide_True.
    + by rewrite decide_False.
Qed.

Lemma dict_get_setitem_ne {V} (d : dict V) (k k' : string) (v : V) :
  k ≠ k' → dict_get (dict_setitem d k v) k' = dict_get d k'.
Proof.
  intros Hne. induction d as [|[k0 v0] d IH]; simpl.
  - by rewrite decide_False.
  - case_decide as Hk; simpl.
    + subst. by rewrite !decide_False.
    + case_decide; [done|apply IH].
Qed.

Lemma dict_keys_setitem_in {V} (d : dict V) (k : string) (v : V) :
  k ∈ dict_keys d → dict_keys (dict_setitem d k v) = dict_keys d.
Proof.
  unfold dict_keys. induction d as [|[k' v'] d IH]; simpl.
  - by intros ?%elem_of_nil.
  - case_decide as Hk; simpl; [by subst|].
    intros [?|Hin]%elem_of_cons; [congruence|]. f_equal. by apply IH.
Qed.

Lemma dict_keys_setitem_notin {V} (d : dict V) (k : string) (v : V) :
  k ∉ dict_keys d → dict_keys (dict_setitem d k v) = dict_keys d ++ [k].
Proof.
  unfold dict_keys. induction d as [|[k' v'] d IH]; simpl; [done|].
  intros [Hne Hnotin]%not_elem_of_cons.
  rewrite decide_False by done. simpl. f_equal. by apply IH.
Qed.

Lemma dict_keys_setitem_elem {V} (d : dict V) (k x : string) (v : V) :
  x ∈ dict_keys (dict_setitem d k v) ↔ x = k ∨ x ∈ dict_keys d.
Proof.
  destruct (decide (k ∈ dict_keys d)) as [Hin|Hnotin].
  - rewrite dict_keys_setitem_in by done. split; [auto|].
    by intros [->|?].
  - rewrite dict_keys_setitem_notin, elem_of_app, list_elem_of_singleton by done.
    tauto.
Qed.

Lemma dict_wf_setitem {V} (d : dict V) (k : string) (v : V) :
  dict_wf d → dict_wf (dict_setitem d k v).
Proof.
  unfold dict_wf. intros Hwf.
  destruct (decide (k ∈ dict_keys d)) as [Hin|Hnotin].
  - by rewrite dict_keys_setitem_in.
  - rewrite dict_keys_setitem_notin by done.
    apply NoDup_app. split; [done|]. split; [|apply NoDup_singleton].
    intros x Hx ->%list_elem_of_singleton. done.
Qed.

Lemma dict_setitem_elem {V} (d : dict V) (k k' : string) (v v' : V) :
  (k', v') ∈ dict_setitem d k v → (k', v') = (k, v) ∨ (k', v') ∈ d.
Proof.
  induction d as [|[k0 v0] d IH]; simpl.
  - intros ->%list_elem_of_singleton. by left.
  - case_decide as Hk.
    + intros [->|Hin]%elem_of_cons; [by left|]. right. by right.
    + intros [->|Hin]%elem_of_cons; [right; left|].
      destruct (IH Hin) as [?|?]; [by left|]. right. by right.
Qed.

Lemma reverse_init_keys (keys : list string) (rg : Graph) :
  NoDup keys → (∀ k, k ∈ keys → k ∉ dict_keys rg) →
  dict_keys (fold_left (λ rg city, dict_setitem rg city []) keys rg)
  = dict_keys rg ++ keys.
Proof.
  revert rg. induction keys as [|k keys IH]; intros rg Hnd Hdisj; simpl.
  - by rewrite app_nil_r.
  - apply NoDup_cons in Hnd as [Hk Hnd].
    rewrite IH; [|done|].
    + rewrite dict_keys_setitem_notin by (apply Hdisj; left).
      by rewrite <- app_assoc.
    + intros k' Hk'. rewrite dict_keys_setitem_elem.
      intros [->|Hin]; [done|]. revert Hin. apply Hdisj. by right.
Qed.

Lemma reverse_init_empty (keys : list string) (rg : Graph) u inner :
  (∀ v i, dict_get rg v = Some i → i = []) →
  dict_get (fold_left (λ rg city, dict_setitem rg city []) keys rg) u
  = Some inner → inner = [].
Proof.
  revert rg. induction keys as [|k keys IH]; intros rg Hrg; simpl; [apply Hrg|].
  apply IH. intros v i. destruct (decide (k = v)) as [->|Hne].
  - rewrite dict_get_setitem_eq. by intros [= <-].
  - rewrite dict_get_setitem_ne by done. apply Hrg.
Qed.

Lemma reverse_edge_step (g rg rg' : Graph) (city : string) (e : string * Z) :
  reverse_inv g rg → edge g city e.1 e.2 →
  reverse_graph_edge city rg e = Ret rg' → reverse_inv g rg'.
Proof.
  intros [Hkeys Hinner] Hedge. destruct e as [neighbor distance].
  unfold reverse_graph_edge, dict_getitem. simpl in *.
  destruct (dict_get rg neighbor) as [inner|] eqn:Hget; [|done].
  cbn [bind]. intros [= <-]. split.
  - rewrite dict_keys_setitem_in; [done|]. apply dict_get_is_Some. eauto.
  - intros u inner'. destruct (decide (neighbor = u)) as [->|Hne].
    + rewrite dict_get_setitem_eq. intros [= <-].
      destruct (Hinner _ _ Hget) as [Hwf Hedges].
      split; [by apply dict_wf_setitem|].
      intros v w [[= -> ->]|Hin]%dict_setitem_elem; [done|auto].
    + rewrite dict_get_setitem_ne by done. apply Hinner.
Qed.

Lemma reverse_city_step (g rg rg' : Graph) (city : string) (neighbors : dict Z) :
  reverse_inv g rg → (∀ e, e ∈ neighbors → edge g city e.1 e.2) →
  foldM (reverse_graph_edge city) rg neighbors = Ret rg' → reverse_inv g rg'.
Proof.
  revert rg. induction neighbors as [|e neighbors IH]; intros rg Hinv Hedges;
    simpl.
  - by intros [= <-].
  - destruct (reverse_graph_edge city rg e) as [rg1| |] eqn:Hstep; try done.
    apply IH.
    + eapply reverse_edge_step; [done| |done]. apply Hedges. left.
    + intros e' He'. apply Hedges. by right.
Qed.

Lemma reverse_graph_inv (g rg : Graph) :
  graph_wf g → make_reverse_graph g = Ret rg → reverse_inv g rg.
Proof.
  intros [Hwf Hinner]. unfold make_reverse_graph.
  set (rg0 := fold_left _ (dict_keys g) []).
  assert (reverse_inv g rg0) as Hinv0.
  { split.
    - unfold rg0.
      rewrite reverse_init_keys; [done|exact Hwf|by intros k _ ?%elem_of_nil].
    - intros u inner Hget. apply reverse_init_empty in Hget as ->; [|done].
      split; [apply NoDup_nil_2|]. by intros v w ?%elem_of_nil. }
  assert (∀ items rg1, (∀ item, item ∈ items → item ∈ g) →
            reverse_inv g rg1 → foldM reverse_graph_city rg1 items = Ret rg →
            reverse_inv g rg) as Hgen.
  { induction items as [|[city neighbors] items IH]; intros rg1 Hsub Hinv1;
      simpl.
    - by intros [= <-].
    - destruct (foldM (reverse_graph_edge city) rg1 neighbors) as [rg2| |]
        eqn:Hcity; try done.
      apply IH; [intros item Hitem; apply Hsub; by right|].
      eapply reverse_city_step; [done| |done].
      intros [v w] He. exists neighbors. split; [|done].
      apply dict_get_elem_wf; [done|]. apply Hsub. left. }
  by apply Hgen.
Qed.

(** Where every neighbour is a key, the construction raises nothing. *)
Lemma reverse_graph_total (g : Graph) :
  graph_wf g → closed_graph g → ∃ rg, make_reverse_graph g = Ret rg.
Proof.
  intros Hwf Hclosed. unfold make_reverse_graph.
  set (rg0 := fold_left _ (dict_keys g) []).
  assert (dict_keys rg0 = dict_keys g) as Hkeys0.
  { unfold rg0.
    rewrite reverse_init_keys; [done|apply Hwf|by intros k _ ?%elem_of_nil]. }
  assert (∀ city neighbors rg1, dict_keys rg1 = dict_keys g →
            Forall (λ e : string * Z, e.1 ∈ dict_keys g) neighbors →
            ∃ rg2, foldM (reverse_graph_edge city) rg1 neighbors = Ret rg2
              ∧ dict_keys rg2 = dict_keys g) as Hcity.
  { intros city. induction neighbors as [|[v w] neighbors IH];
      intros rg1 Hk Hall; simpl; [eauto|].
    apply Forall_cons in Hall as [Hv Hall]. simpl in Hv.
    unfold dict_getitem. rewrite <- Hk in Hv.
    pose proof Hv as [inner Hget]%dict_get_is_Some. rewrite Hget. cbn [bind].
    apply IH; [|done]. by rewrite dict_keys_setitem_in. }
  assert (∀ items rg1, dict_keys rg1 = dict_keys g →
            Forall (λ item : string * dict Z,
                      Forall (λ e : string * Z, e.1 ∈ dict_keys g) item.2) items →
            ∃ rg2, foldM reverse_graph_city rg1 items = Ret rg2) as Hgen.
  { induction items as [|[city neighbors] items IH]; intros rg1 Hk Hall;
      simpl; [eauto|].
    apply Forall_cons in Hall as [Hn Hall].
    destruct (Hcity city neighbors rg1 Hk Hn) as (rg2 & -> & Hk2).
    by apply IH. }
  by apply Hgen.
Qed.

Lemma reverse_edge (g rg : Graph) u v w :
  reverse_inv g rg → edge rg u v w → edge g v u w.
Proof.
  intros [_ Hinner] (inner & Hget & Hin). by apply (Hinner _ _ Hget).
Qed.

Lemma reverse_walk (g rg : Graph) (a b : string) (c : Z) :
  reverse_inv g rg → walk rg a b c → walk g b a c.
Proof.
  intros Hinv. induction 1 as [|u c v w _ IH Hedge]; [constructor|].
  replace (c + w)%Z with (w + c)%Z by lia.
  eapply walk_app; [|done].
  replace w with (0 + w)%Z by lia. eapply walk_step; [constructor|].
  by eapply reverse_edge.
Qed.

Lemma reverse_key (g rg : Graph) (goal x : string) :
  reverse_inv g rg → goal ∈ dict_keys g → reachable rg goal x →
  x ∈ dict_keys rg.
Proof.
  intros Hinv Hgoal [c Hwalk]. pose proof Hinv as [Hkeys _].
  rewrite Hkeys. induction Hwalk as [|u c v w _ _ Hedge]; [done|].
  apply (reverse_edge _ _ _ _ _ Hinv) in Hedge as (neighbors & Hget & _).
  apply dict_get_is_Some. eauto.
Qed.

(* ===================================================================== *)
(** * Bidirectional search                                                *)
(* ===================================================================== *)

Lemma path_back_cons (n : Node.t) :
  Node.path_back n = Node.state n :: tail (Node.path_back n).
Proof. by destruct n. Qed.

Lemma dict_contains_keys {V} (d : dict V) (k : string) :
  dict_contains d k = true ↔ k ∈ dict_keys d.
Proof. unfold dict_contains. by rewrite bool_decide_eq_true, dict_get_is_Some. Qed.

Lemma dict_contains_not_keys {V} (d : dict V) (k : string) :
  dict_contains d k = false ↔ k ∉ dict_keys d.
Proof. by rewrite <- dict_contains_keys, not_true_iff_false. Qed.

Lemma dict_setitem_length_notin {V} (d : dict V) (k : string) (v : V) :
  k ∉ dict_keys d → length (dict_setitem d k v) = S (length d).
Proof.
  intros Hk. rewrite <- (length_fmap fst (dict_setitem d k v)).
  change (fst <$> dict_setitem d k v) with (dict_keys (dict_setitem d k v)).
  rewrite dict_keys_setitem_notin by done.
  unfold dict_keys. rewrite length_app, length_fmap. simpl. lia.
Qed.

Lemma bidi_children (explored : dict Node.t) (cs F F' : list Node.t)
    (ng ng' : nat) :
  fold_left (bidi_child explored) cs (F, ng) = (F', ng') →
  absorb false (list_to_set (dict_keys explored)) F cs F'
  ∧ ng' = ng + length cs.
Proof.
  revert F ng. induction cs as [|c cs IH]; intros F ng; simpl.
  - intros [= <- <-]. split; [constructor|lia].
  - destruct (negb (dict_contains explored (Node.state c))
              && bool_decide (Node.state c ∉ (Node.state <$> F))) eqn:Hc.
    + intros [Habs ->]%IH. split; [|lia].
      apply andb_true_iff in Hc as [Hx%negb_true_iff Hf%bool_decide_eq_true].
      apply dict_contains_not_keys in Hx.
      econstructor; [|done]. apply absorb1_add; [|by rewrite elem_of_list_to_set|done].
      by rewrite Permutation_app_comm.
    + intros [Habs ->]%IH. split; [|lia].
      econstructor; [|done]. apply absorb1_skip.
      apply andb_false_iff in Hc as [Hx%negb_false_iff|Hf%bool_decide_eq_false].
      * left. apply elem_of_list_to_set. by apply dict_contains_keys.
      * right. apply dec_stable in Hf. apply elem_of_states in Hf as (n & ? & ?).
        exists n. done.
Qed.

Lemma join_Ret (fwd bwd : Node.t) (expanded generated size : nat)
    (steps : list BiStep.t) :
  ∃ r, join fwd bwd expanded generated size steps = Ret r
    ∧ path r = Node.path fwd ++ tail (reverse (Node.path bwd))
    ∧ distance r = (Node.path_cost fwd + Node.path_cost bwd)%Z
    ∧ nodes_expanded r = expanded ∧ nodes_generated r = generated
    ∧ max_frontier_size r = size.
Proof.
  unfold join, Node.path. rewrite reverse_involutive, (path_back_cons bwd).
  cbn [list_popleft bind]. eexists. split; [done|]. done.
Qed.

Section bidi_proofs.
Context (g rg : Graph) (start goal : string).

Lemma chain_ok_mono (gr : Graph) (root : string) (e e' : dict Node.t) n :
  (∀ x, x ∈ dict_keys e → x ∈ dict_keys e') →
  chain_ok gr root e n → chain_ok gr root e' n.
Proof. intros Hsub (Hok & Hnd & Hin). split_and!; auto. Qed.

Lemma explored_ok_entry (gr : Graph) (root : string) (e : dict Node.t) k n :
  explored_ok gr root e → dict_get e k = Some n →
  Node.state n = k ∧ node_ok gr root n ∧ NoDup (Node.path_back n)
  ∧ ∀ x, x ∈ Node.path_back n → x ∈ dict_keys e.
Proof.
  intros [Hwf Hall] Hget. pose proof (dict_get_Some_elem _ _ _ Hget) as Hin.
  destruct (Hall _ _ Hin) as (Hs & Hok & Hnd & Htail).
  split_and!; try done. intros x. rewrite path_back_cons.
  intros [->|Hx]%elem_of_cons; [|auto].
  rewrite Hs. apply dict_get_is_Some. eauto.
Qed.

Lemma explored_ok_add (gr : Graph) (root : string) (e : dict Node.t) n :
  explored_ok gr root e → Node.state n ∉ dict_keys e →
  chain_ok gr root e n →
  explored_ok gr root (dict_setitem e (Node.state n) n).
Proof.
  intros [Hwf Hall] Hnew Hchain. split; [by apply dict_wf_setitem|].
  assert (∀ x, x ∈ dict_keys e →
            x ∈ dict_keys (dict_setitem e (Node.state n) n)) as Hsub.
  { intros x Hx. apply dict_keys_setitem_elem. by right. }
  intros k n' [[= -> ->]|Hin]%dict_setitem_elem.
  - split; [done|]. by eapply chain_ok_mono.
  - destruct (Hall _ _ Hin) as [Hs Hc]. split; [done|].
    by eapply chain_ok_mono.
Qed.

Lemma frontier_ok_step (gr : Graph) (root : string) (e : dict Node.t)
    (node : Node.t) (rest children F' : list Node.t) :
  explored_ok gr root e → frontier_ok gr root e (node :: rest) →
  Node.expand gr node = Ret children →
  absorb false (list_to_set (dict_keys (dict_setitem e (Node.state node) node)))
    rest children F' →
  frontier_ok gr root (dict_setitem e (Node.state node) node) F'.
Proof.
  intros Hexp [Hnd Hall] Hex Habs. simpl in Hnd.
  apply NoDup_cons in Hnd as [Hnotin Hnd].
  destruct (Hall node ltac:(left)) as [Hnew Hchain].
  set (e' := dict_setitem e (Node.state node) node) in *.
  assert (∀ x, x ∈ dict_keys e → x ∈ dict_keys e') as Hsub.
  { intros x Hx. apply dict_keys_setitem_elem. by right. }
  assert (∀ x, x ∈ Node.path_back node → x ∈ dict_keys e') as Hback.
  { intros x. rewrite path_back_cons. intros [->|Hx]%elem_of_cons.
    - apply dict_keys_setitem_elem. by left.
    - apply Hsub. by apply Hchain. }
  assert (∀ n, n ∈ rest → Node.state n ∉ (list_to_set (dict_keys e') : gset string))
    as Hfresh.
  { intros n Hn. rewrite elem_of_list_to_set.
    intros [Heq|Hin]%dict_keys_setitem_elem.
    - apply Hnotin. rewrite <- Heq. by apply list_elem_of_fmap_2.
    - revert Hin. apply Hall. by right. }
  split; [by eapply absorb_nodup|].
  intros n Hn.
  pose proof (absorb_fresh _ _ _ _ _ Habs Hfresh n Hn) as Hn'.
  rewrite elem_of_list_to_set in Hn'. split; [done|].
  destruct (absorb_elem _ _ _ _ _ _ Habs Hn) as [Hr|Hc].
  - eapply chain_ok_mono; [done|]. apply Hall. by right.
  - pose proof Hex as (neighbors & Hg & ->)%expand_Ret.
    apply list_elem_of_fmap in Hc as (edge & -> & He).
    destruct Hchain as (Hok & Hndb & _).
    split_and!.
    + by eapply node_ok_child.
    + simpl. apply NoDup_cons. split; [|done].
      intros Hin. apply Hn'. by apply Hback.
    + done.
Qed.

Lemma frontier_ok_root (gr : Graph) (root : string) :
  frontier_ok gr root [] [Node.root root].
Proof.
  split; [apply NoDup_singleton|].
  intros n ->%list_elem_of_singleton. split; [by intros ?%elem_of_nil|].
  split_and!; [constructor|apply NoDup_singleton|by intros x ?%elem_of_nil].
Qed.

Lemma explored_ok_empty (gr : Graph) (root : string) : explored_ok gr root [].
Proof. split; [apply NoDup_nil_2|]. by intros k n ?%elem_of_nil. Qed.

Lemma bidi_body_spec (st : BiVars.t) :
  bidi_inv g rg start goal st → both_nonempty st = true →
  match bidi_body g rg st with
  | Ret (Next st') =>
    bidi_inv g rg start goal st'
    ∧ length (BiVars.forward_explored st')
      = S (length (BiVars.forward_explored st))
  | Ret (Return r) => ∃ fwd bwd, meeting g rg start goal fwd bwd r
  | Raise e =>
    (∃ n, n ∈ BiVars.forward_frontier st ∧ Node.state n ∉ dict_keys g)
    ∨ (∃ n, n ∈ BiVars.backward_frontier st ∧ Node.state n ∉ dict_keys rg)
  | OutOfFuel => False
  end.
Proof.
  intros [Hfe Hff Hbe Hbf Hapart [Hne Hlen] Hgen Hmax].
  intros [Hf%bool_decide_eq_true Hb%bool_decide_eq_true]%andb_true_iff.
  destruct st as [ff fe bf be steps ne ng mf]. simpl in *.
  destruct ff as [|fnode ff']; [done|].
  destruct bf as [|bnode bf']; [done|].
  simpl in Hgen. unfold bidi_body. cbn [list_popleft bind BiVars.forward_frontier
    BiVars.backward_frontier BiVars.forward_explored BiVars.backward_explored
    BiVars.steps BiVars.nodes_expanded BiVars.nodes_generated
    BiVars.max_frontier_size].
  destruct (proj2 Hff fnode ltac:(left)) as [Hfnew Hfchain].
  destruct (proj2 Hbf bnode ltac:(left)) as [Hbnew Hbchain].
  pose proof (explored_ok_add _ _ _ _ Hfe Hfnew Hfchain) as Hfe'.
  pose proof (explored_ok_add _ _ _ _ Hbe Hbnew Hbchain) as Hbe'.
  destruct (dict_contains be (Node.state fnode)) eqn:Hmeet.
  { (* the forward node meets the backward tree *)
    apply dict_contains_keys, dict_get_is_Some in Hmeet as [bwd Hbwd].
    unfold dict_getitem. rewrite Hbwd. cbn [bind].
    destruct (explored_ok_entry _ _ _ _ _ Hbe Hbwd) as (Hs & Hok & Hnd & Hin).
    edestruct (join_Ret fnode bwd) as (r & -> & Hp & Hd & He & Hg & Hm).
    cbn [bind]. exists fnode, bwd.
    destruct Hfchain as (Hfok & Hfnd & Hftail).
    split_and!; try done.
    - intros x. rewrite (path_back_cons fnode).
      intros [->|Hx]%elem_of_cons Hx'; [done|].
      destruct (Hapart x); auto.
    - rewrite He, Hg. lia.
    - rewrite Hm. lia. }
  apply dict_contains_not_keys in Hmeet.
  destruct (Node.expand g fnode) as [children|e|] eqn:Hex; cbn [bind].
  2:{ left. exists fnode. split; [left|by eapply expand_Raise]. }
  2:{ unfold Node.expand, dict_getitem in Hex.
      by destruct (dict_get g (Node.state fnode)). }
  destruct (fold_left _ children _) as [ff'' ng1] eqn:Hfold.
  apply bidi_children in Hfold as [Habs ->].
  pose proof (frontier_ok_step _ _ _ _ _ _ _ Hfe Hff Hex Habs) as Hff'.
  pose proof (absorb_length _ _ _ _ _ Habs) as Hflen.
  set (fe' := dict_setitem fe (Node.state fnode) fnode) in *.
  destruct (dict_contains fe' (Node.state bnode)) eqn:Hmeet'.
  { (* the backward node meets the forward tree *)
    apply dict_contains_keys, dict_get_is_Some in Hmeet' as [fwd Hfwd].
    unfold dict_getitem. rewrite Hfwd. cbn [bind].
    destruct (explored_ok_entry _ _ _ _ _ Hfe' Hfwd) as (Hs & Hok & Hnd & Hin).
    edestruct (join_Ret fwd bnode) as (r & -> & Hp & Hd & He & Hg & Hm).
    cbn [bind]. exists fwd, bnode.
    destruct Hbchain as (Hbok & Hbnd & Hbtail).
    split_and!; try done.
    - intros x Hx. rewrite (path_back_cons bnode).
      intros [->|Hx']%elem_of_cons; [done|].
      apply Hin in Hx. apply Hbtail in Hx'.
      apply dict_keys_setitem_elem in Hx as [->|Hx]; [done|].
      destruct (Hapart x); auto.
    - rewrite He, Hg. lia.
    - rewrite Hm. lia. }
  apply dict_contains_not_keys in Hmeet'.
  destruct (Node.expand rg bnode) as [children'|e|] eqn:Hex'; cbn [bind].
  2:{ right. exists bnode. split; [left|by eapply expand_Raise]. }
  2:{ unfold Node.expand, dict_getitem in Hex'.
      by destruct (dict_get rg (Node.state bnode)). }
  destruct (fold_left _ children' _) as [bf'' ng2] eqn:Hfold'.
  apply bidi_children in Hfold' as [Habs' ->].
  pose proof (frontier_ok_step _ _ _ _ _ _ _ Hbe Hbf Hex' Habs') as Hbf'.
  pose proof (absorb_length _ _ _ _ _ Habs') as Hblen.
  split; [|by apply dict_setitem_length_notin].
  split; simpl; try done.
  - intros x [->|Hx]%dict_keys_setitem_elem
      [Heq|Hx']%dict_keys_setitem_elem.
    + apply Hmeet'. rewrite <- Heq. apply dict_keys_setitem_elem. by left.
    + done.
    + apply Hmeet'. rewrite <- Heq. apply dict_keys_setitem_elem. by right.
    + by apply (Hapart x).
  - unfold fe'. rewrite !dict_setitem_length_notin by done. lia.
  - lia.
  - lia.
Qed.

End bidi_proofs.

(** ** What a meeting says about the result *)

Lemma path_weight_join (g : Graph) (p1 t : list string) (m : string) (c1 c2 : Z) :
  last p1 = Some m → path_weight g p1 = Some c1 →
  path_weight g (m :: t) = Some c2 →
  path_weight g (p1 ++ t) = Some (c1 + c2)%Z.
Proof.
  revert c1. induction p1 as [|x p1 IH]; intros c1 Hlast H1 H2; [done|].
  destruct p1 as [|y p1].
  - simpl in Hlast, H1. simplify_eq. simpl app. rewrite H2. f_equal.
  - rewrite last_cons_cons in Hlast. rewrite path_weight_cons in H1.
    change ((x :: y :: p1) ++ t) with (x :: y :: (p1 ++ t)).
    rewrite path_weight_cons.
    destruct (dict_get g x) as [nx|]; [|done].
    destruct (dict_get nx y) as [wx|]; [|done].
    destruct (path_weight g (y :: p1)) as [c'|] eqn:Hp; [|done].
    injection H1 as <-.
    change (y :: (p1 ++ t)) with ((y :: p1) ++ t).
    rewrite (IH c' Hlast eq_refl H2). f_equal. lia.
Qed.

Lemma back_path (g rg : Graph) (goal : string) (n : Node.t) :
  graph_wf g → reverse_inv g rg → node_ok rg goal n →
  path_weight g (Node.path_back n) = Some (Node.path_cost n)
  ∧ last (Node.path_back n) = Some goal.
Proof.
  intros Hwf Hrev. induction 1 as [|n neighbors [v w] Hok [IHw IHl] Hg Hin];
    [done|].
  assert (edge rg (Node.state n) v w) as Hedge by (by exists neighbors).
  apply (reverse_edge _ _ _ _ _ Hrev) in Hedge as (nv & Hgv & Hinv).
  assert (dict_get nv (Node.state n) = Some w) as Hw.
  { apply dict_get_elem_wf; [|done]. by eapply graph_wf_neighbors. }
  change (Node.path_back (Node.child n (v, w))) with (v :: Node.path_back n).
  split.
  - rewrite (path_back_cons n), path_weight_cons, Hgv, Hw.
    rewrite <- (path_back_cons n), IHw. simpl. f_equal. lia.
  - rewrite (path_back_cons n), last_cons_cons, <- (path_back_cons n). done.
Qed.

Section meeting_facts.
Context (g rg : Graph) (start goal : string).
Context (fwd bwd : Node.t) (r : Result BiStep.t).
Hypothesis Hmeet : meeting g rg start goal fwd bwd r.

Lemma meeting_tail :
  path r = Node.path fwd ++ tail (Node.path_back bwd).
Proof.
  destruct Hmeet as (_ & _ & _ & _ & _ & _ & -> & _).
  unfold Node.path at 2. by rewrite reverse_involutive.
Qed.

Lemma meeting_nonempty : path r ≠ [].
Proof.
  rewrite meeting_tail. pose proof (node_path_nonempty fwd).
  by destruct (Node.path fwd).
Qed.

Lemma meeting_path :
  graph_wf g → reverse_inv g rg →
  is_path g start goal (path r) (distance r).
Proof.
  intros Hwf Hrev. rewrite meeting_tail.
  destruct Hmeet as (Hf & Hb & Hs & _ & _ & _ & _ & -> & _).
  destruct (node_ok_path g start fwd Hwf Hf) as (Hhead & Hlast & Hweight).
  destruct (back_path g rg goal bwd Hwf Hrev Hb) as [Hbw Hbl].
  rewrite path_back_cons in Hbw, Hbl. rewrite <- Hs in Hbw, Hbl.
  split_and!.
  - by destruct (Node.path fwd).
  - destruct (tail (Node.path_back bwd)) as [|y t] eqn:Ht.
    + rewrite app_nil_r. simpl in Hbl. congruence.
    + rewrite last_app. rewrite last_cons_cons in Hbl. by rewrite Hbl.
  - by eapply path_weight_join.
Qed.

Lemma meeting_nodup : NoDup (path r) ∧ Node.state fwd ∈ path r.
Proof.
  rewrite meeting_tail.
  destruct Hmeet as (_ & _ & Hs & Hfnd & Hbnd & Hcommon & _).
  rewrite (path_back_cons bwd) in Hbnd.
  apply NoDup_cons in Hbnd as [Hhead Htail].
  split.
  - apply NoDup_app. unfold Node.path.
    split; [by rewrite reverse_Permutation|]. split; [|done].
    intros x Hx Hx'. rewrite elem_of_reverse in Hx.
    assert (x = Node.state fwd) as ->.
    { apply Hcommon; [done|]. rewrite path_back_cons. by right. }
    apply Hhead. by rewrite <- Hs.
  - apply elem_of_app. left. unfold Node.path. rewrite elem_of_reverse.
    rewrite path_back_cons. left.
Qed.

Lemma meeting_reachable : reverse_inv g rg → reachable g start goal.
Proof.
  intros Hrev. destruct Hmeet as (Hf & Hb & Hs & _).
  apply node_ok_walk in Hf, Hb. rewrite <- Hs in Hb.
  apply (reverse_walk _ _ _ _ _ Hrev) in Hb.
  eexists. by eapply walk_app.
Qed.

Lemma meeting_metrics :
  nodes_expanded r ≤ nodes_generated r ∧ 1 ≤ max_frontier_size r.
Proof. by destruct Hmeet as (_ & _ & _ & _ & _ & _ & _ & _ & ? & ?). Qed.

End meeting_facts.

(** ** From call to return *)

Section bidi_runs.
Context (g : Graph) (start goal : string) (fuel : nat).
Hypothesis Hne : start ≠ goal.

Lemma bidi_inv_start (rg : Graph) : bidi_inv g rg start goal (bidi_start start goal).
Proof.
  split; simpl;
    first [apply explored_ok_empty | apply frontier_ok_root | lia | idtac].
  by intros x ?%elem_of_nil.
Qed.

(** A run ends on a meeting or on an exhausted frontier. *)
Lemma bidi_run r :
  bidirectional_search fuel g start goal = Ret r →
  ∃ rg, make_reverse_graph g = Ret rg
    ∧ ((∃ fwd bwd, meeting g rg start goal fwd bwd r)
       ∨ ∃ st, bidi_inv g rg start goal st
           ∧ r = no_path_result "bidirectional" (BiVars.nodes_expanded st)
                   (BiVars.nodes_generated st) (BiVars.max_frontier_size st)
                   (BiVars.steps st)).
Proof.
  unfold bidirectional_search. rewrite decide_False by done.
  intros (rg & Hrg & (fl & Hloop & Hfl)%bind_Ret)%bind_Ret.
  exists rg. split; [done|].
  eapply (while_loop_rule (bidi_inv g rg start goal)
            (λ r, ∃ fwd bwd, meeting g rg start goal fwd bwd r)) in Hloop.
  - destruct fl as [st|r']; injection Hfl as <-; [right|left; done].
    destruct Hloop as [Hinv _]. eauto.
  - intros st st' Hinv Hc Hb.
    pose proof (bidi_body_spec g rg start goal st Hinv Hc) as Hspec.
    rewrite Hb in Hspec. apply Hspec.
  - intros st r' Hinv Hc Hb.
    pose proof (bidi_body_spec g rg start goal st Hinv Hc) as Hspec.
    by rewrite Hb in Hspec.
  - apply bidi_inv_start.
Qed.

Lemma explored_length_bound (gr : Graph) (root : string) (e : dict Node.t)
    (comp : list string) :
  explored_ok gr root e → (∀ x, reachable gr root x → x ∈ comp) →
  length e ≤ length comp.
Proof.
  intros [Hwf Hall] Hcomp. rewrite <- (length_fmap fst e).
  apply submseteq_length, NoDup_submseteq; [done|].
  intros k [[k' n] [-> Hin]]%list_elem_of_fmap. simpl.
  destruct (Hall _ _ Hin) as (<- & Hok & _).
  by apply Hcomp, (node_ok_reachable gr root).
Qed.

Lemma bidi_total :
  graph_wf g → closed_graph g → start ∈ dict_keys g → goal ∈ dict_keys g →
  length (dict_keys g) < fuel →
  ∃ r, bidirectional_search fuel g start goal = Ret r.
Proof.
  intros Hwf Hclosed Hstart Hgoal Hfuel.
  unfold bidirectional_search. rewrite decide_False by done.
  destruct (reverse_graph_total g Hwf Hclosed) as [rg Hrg].
  pose proof (reverse_graph_inv g rg Hwf Hrg) as Hrev.
  pose proof (closed_reachable g start Hclosed Hstart) as Hreach.
  rewrite Hrg. cbn [bind].
  destruct (while_loop_total (bidi_inv g rg start goal)
    (λ st, length (dict_keys g) - length (BiVars.forward_explored st))
    both_nonempty (bidi_body g rg)) with (fuel := fuel)
    (st := bidi_start start goal)
    as [fl Hfl].
  - intros st Hinv Hc.
    pose proof (bidi_body_spec g rg start goal st Hinv Hc) as Hspec.
    destruct (bidi_body g rg st) as [[st'|r]|e|] eqn:Hb.
    + eexists. split; [done|]. destruct Hspec as [Hinv' Hlen].
      split; [done|].
      pose proof (explored_length_bound g start _ (dict_keys g)
                    (bi_forward_explored _ _ _ _ _ Hinv') Hreach). lia.
    + eexists. done.
    + exfalso. destruct Hspec as [(n & Hn & Hkey)|(n & Hn & Hkey)].
      * apply Hkey, Hreach. eapply node_ok_reachable.
        apply (bi_forward_frontier _ _ _ _ _ Hinv). done.
      * apply Hkey. eapply reverse_key; [done|done|].
        eapply node_ok_reachable.
        apply (bi_backward_frontier _ _ _ _ _ Hinv). done.
    + done.
  - apply bidi_inv_start.
  - simpl. lia.
  - unfold bidi_start in Hfl. rewrite Hfl. cbn [bind]. destruct fl; eauto.
Qed.

End bidi_runs.
(* ===================================================================== *)
(** * Facts the statements about the engine rest on                       *)
(* ===================================================================== *)

Lemma returns_Ret {A} (r : A) (P : A → Prop) : P r → returns (Ret r) P.
Proof. intros HP r' [= <-]. exact HP. Qed.

Lemma terminates_Ret {A} (r : A) (P : A → Prop) : P r → terminates (Ret r) P.
Proof. intros HP. by exists r. Qed.



(** A consistent potential drops along a walk by no more than its cost. *)
Lemma consistent_walk (h : string → Z) (g : Graph) (x y : string) (c : Z) :
  consistent h g → walk g x y c → (h x ≤ c + h y)%Z.
Proof.
  intros Hcons. induction 1 as [|u c v w _ IH Hedge]; [lia|].
  pose proof (forall_edges_edge _ _ _ _ _ Hcons Hedge) as Huv. simpl in Huv. lia.
Qed.

Lemma nonneg_walk (g : Graph) (x y : string) (c : Z) :
  nonneg_weights g → walk g x y c → (0 ≤ c)%Z.
Proof.
  intros Hnn%nonneg_consistent Hwalk.
  pose proof (consistent_walk _ _ _ _ _ Hnn Hwalk). simpl in *. lia.
Qed.

Lemma is_path_reachable (g : Graph) (start goal : string) p c :
  is_path g start goal p c → reachable g start goal.
Proof. intros Hp. exists c. by eapply is_path_walk. Qed.

(** No walk leaves a set of locations that no edge leaves. *)
Lemma edge_closed_reachable (g : Graph) (comp : list string) (start x : string) :
  edge_closed g comp → start ∈ comp → reachable g start x → x ∈ comp.
Proof.
  intros Hclosed Hstart [c Hwalk].
  induction Hwalk as [|u c v w _ IH (neighbors & Hget & Hin)]; [done|].
  apply dict_get_Some_elem in Hget.
  unfold edge_closed in Hclosed. rewrite Forall_forall in Hclosed.
  specialize (Hclosed _ Hget IH). rewrite Forall_forall in Hclosed.
  apply (Hclosed _ Hin).
Qed.

(** ** The six unidirectional functions, whatever the arguments *)

Ltac short_cut f :=
  unfold f, returns; rewrite decide_True by done; intros ? [= <-];
  left; split; [done|eauto].

Section calls.
Context (id : nat → Z) (fuel : nat) (g : Graph) (start goal : string).
Context (depth_limit : Z) (heuristic_data : gmap string Z).

Lemma bfs_unidirectional :
  returns (breadth_first_search fuel g start goal)
    (unidirectional head g start goal).
Proof.
  destruct (decide (start = goal)) as [Heq|Hne]; [short_cut breadth_first_search|].
  intros r (v & Hv)%bfs_run; [|done]. right. split; [done|]. eauto.
Qed.

Lemma ucs_unidirectional :
  returns (uniform_cost_search fuel g start goal)
    (unidirectional head g start goal).
Proof.
  destruct (decide (start = goal)) as [Heq|Hne]; [short_cut uniform_cost_search|].
  intros r (v & Hv)%ucs_run; [|done]. right. split; [done|]. eauto.
Qed.

Lemma dfs_unidirectional :
  returns (depth_first_search fuel g start goal)
    (unidirectional last g start goal).
Proof.
  destruct (decide (start = goal)) as [Heq|Hne]; [short_cut depth_first_search|].
  intros r (v & Hv)%dfs_run; [|done]. right. split; [done|]. eauto.
Qed.

Lemma dls_unidirectional :
  returns (depth_limited_search fuel g start goal depth_limit)
    (unidirectional last g start goal).
Proof.
  destruct (decide (start = goal)) as [Heq|Hne]; [short_cut depth_limited_search|].
  intros r (v & Hv)%dls_run; [|done]. right. split; [done|]. eauto.
Qed.

Lemma greedy_unidirectional :
  returns (greedy_search fuel g start goal heuristic_data)
    (unidirectional head g start goal).
Proof.
  destruct (decide (start = goal)) as [Heq|Hne]; [short_cut greedy_search|].
  intros r (v & Hv)%greedy_run; [|done]. right. split; [done|]. eauto.
Qed.

Lemma astar_unidirectional :
  returns (a_star_search id fuel g start goal heuristic_data)
    (unidirectional head g start goal).
Proof.
  destruct (decide (start = goal)) as [Heq|Hne]; [short_cut a_star_search|].
  intros r (v & Hv)%astar_run; [|done]. right. split; [done|]. eauto.
Qed.

End calls.

(** ** What holds of every unidirectional result *)

Section unidirectional_facts.
Context (pos : list string → option string) (g : Graph) (start goal : string).
Context (r : Result Step.t).
Hypothesis Hr : unidirectional pos g start goal r.

Lemma unidirectional_metrics : metrics_ok r.
Proof.
  destruct Hr as [(_ & alg & ->)|(_ & relax & key & alg & v & Hinv & Hend)].
  - split; simpl; lia.
  - by eapply end_metrics.
Qed.

Lemma unidirectional_path : graph_wf g → valid_path g start goal r.
Proof.
  intros Hwf Hp.
  destruct Hr as [(<- & alg & ->)|(_ & relax & key & alg & v & Hinv & Hend)].
  - done.
  - by eapply end_path.
Qed.

Lemma unidirectional_trace : start ≠ goal → trace_ok pos start r.
Proof.
  intros Hne.
  destruct Hr as [(Heq & _)|(_ & relax & key & alg & v & Hinv & Hend)]; [done|].
  by eapply end_trace.
Qed.

Lemma unidirectional_exhausted (comp : list string) :
  ¬ reachable g start goal → (∀ x, reachable g start x → x ∈ comp) →
  no_path_within (length comp) r.
Proof.
  intros Hun Hcomp.
  destruct Hr as [(Heq & _)|(_ & relax & key & alg & v & Hinv & Hend)].
  - destruct Hun. rewrite <- Heq. exists 0%Z. constructor.
  - destruct (end_unreachable _ _ _ _ _ _ _ _ _ Hinv Hend Hun) as [Hp Hd].
    split; [done|]. split; [done|]. by eapply end_expanded_bound.
Qed.

End unidirectional_facts.

(** ** Every call returns, given fuel for one pop per key *)

Ltac returns_at_once f :=
  unfold f; rewrite decide_True by done; eauto.

Section totals.
Context (id : nat → Z) (fuel : nat) (g : Graph) (start goal : string).
Context (depth_limit max_depth : Z) (heuristic_data : gmap string Z).
Hypothesis Hclosed : reachable_closed g start.
Hypothesis Hfuel : length (dict_keys g) < fuel.

Lemma bfs_returns : ∃ r, breadth_first_search fuel g start goal = Ret r.
Proof.
  destruct (decide (start = goal)); [returns_at_once breadth_first_search|].
  by apply bfs_total.
Qed.

Lemma ucs_returns : ∃ r, uniform_cost_search fuel g start goal = Ret r.
Proof.
  destruct (decide (start = goal)); [returns_at_once uniform_cost_search|].
  by apply ucs_total.
Qed.

Lemma dfs_returns : ∃ r, depth_first_search fuel g start goal = Ret r.
Proof.
  destruct (decide (start = goal)); [returns_at_once depth_first_search|].
  by apply dfs_total.
Qed.

Lemma dls_returns :
  ∃ r, depth_limited_search fuel g start goal depth_limit = Ret r.
Proof.
  destruct (decide (start = goal)); [returns_at_once depth_limited_search|].
  by apply dls_total.
Qed.

Lemma ids_returns :
  ∃ r, iterative_deepening_search fuel g start goal max_depth = Ret r.
Proof.
  destruct (decide (start = goal));
    [returns_at_once iterative_deepening_search|].
  by apply ids_total.
Qed.

Lemma greedy_returns :
  ∃ r, greedy_search fuel g start goal heuristic_data = Ret r.
Proof.
  destruct (decide (start = goal)); [returns_at_once greedy_search|].
  by apply greedy_total.
Qed.

Lemma astar_returns :
  ∃ r, a_star_search id fuel g start goal heuristic_data = Ret r.
Proof.
  destruct (decide (start = goal)); [returns_at_once a_star_search|].
  by apply astar_total.
Qed.

End totals.

(** ** More fuel, same answer *)

Lemma finish_fuel_mono {E FS} (alg : string) (cond : Vars.t E FS → bool)
    (body : Vars.t E FS → outcome (flow (Vars.t E FS) (Result Step.t)))
    (fuel fuel' : nat) (st : Vars.t E FS) (r : Result Step.t) :
  fuel ≤ fuel' → finish alg (while_loop cond body fuel st) = Ret r →
  finish alg (while_loop cond body fuel' st) = Ret r.
Proof.
  intros Hle. unfold finish. intros (fl & Hloop & Hfl)%bind_Ret.
  by rewrite (while_loop_fuel_mono _ _ _ _ _ _ Hle Hloop).
Qed.

Lemma bfs_fuel_mono (fuel fuel' : nat) (g : Graph) (start goal : string) r :
  fuel ≤ fuel' → breadth_first_search fuel g start goal = Ret r →
  breadth_first_search fuel' g start goal = Ret r.
Proof.
  intros Hle. unfold breadth_first_search. destruct (decide (start = goal)); [done|].
  by apply finish_fuel_mono.
Qed.

Lemma ucs_fuel_mono (fuel fuel' : nat) (g : Graph) (start goal : string) r :
  fuel ≤ fuel' → uniform_cost_search fuel g start goal = Ret r →
  uniform_cost_search fuel' g start goal = Ret r.
Proof.
  intros Hle. unfold uniform_cost_search. destruct (decide (start = goal)); [done|].
  by apply finish_fuel_mono.
Qed.

Lemma astar_fuel_mono (id : nat → Z) (fuel fuel' : nat) (g : Graph)
    (start goal : string) (heuristic_data : gmap string Z) r :
  fuel ≤ fuel' → a_star_search id fuel g start goal heuristic_data = Ret r →
  a_star_search id fuel' g start goal heuristic_data = Ret r.
Proof.
  intros Hle. unfold a_star_search. destruct (decide (start = goal)); [done|].
  rewrite get_heuristic_value. cbn [bind]. by apply finish_fuel_mono.
Qed.

(** ** An unreachable goal *)

Section unreachable.
Context (fuel : nat) (g : Graph) (start goal : string) (comp : list string).
Hypothesis Hun : ¬ reachable g start goal.
Hypothesis Hcomp : ∀ x, reachable g start x → x ∈ comp.

Lemma unreachable_ne : start ≠ goal.
Proof. intros Heq. apply Hun. rewrite <- Heq. exists 0%Z. constructor. Qed.

Lemma ids_exhausted (max_depth : Z) :
  returns (iterative_deepening_search fuel g start goal max_depth)
    (no_path_within (Z.to_nat max_depth * length comp)).
Proof.
  intros r Hr. apply ids_result in Hr; [|exact unreachable_ne].
  destruct Hr as (_ & _ & _ & Hreach & Hdist & Hbound).
  destruct (decide (path r = [])) as [Hp|Hp]; [|by destruct Hun; apply Hreach].
  split; [done|]. split; [by apply Hdist|]. by apply Hbound.
Qed.

Lemma bidi_exhausted :
  graph_wf g →
  returns (bidirectional_search fuel g start goal)
    (no_path_within (2 * length comp)).
Proof.
  intros Hwf r Hr. apply bidi_run in Hr; [|exact unreachable_ne].
  destruct Hr as (rg & Hrg & [(fwd & bwd & Hmeet)|(st & Hinv & ->)]).
  - destruct Hun. eapply meeting_reachable; [done|]. by apply reverse_graph_inv.
  - split; [done|]. split; [done|]. simpl.
    destruct (bi_expanded _ _ _ _ _ Hinv) as [-> _].
    pose proof (explored_length_bound g start _ comp
                  (bi_forward_explored _ _ _ _ _ Hinv) Hcomp). lia.
Qed.

End unreachable.

(** ** The concrete graphs *)

Lemma split_graph_component (x : string) :
  reachable split_graph "S" x ↔ x ∈ ["S"; "A"].
Proof.
  split.
  - apply edge_closed_reachable; by_evaluation.
  - intros [->|[->|[]%elem_of_nil]%elem_of_cons]%elem_of_cons.
    + exists 0%Z. constructor.
    + apply (is_path_reachable _ _ _ ["S"; "A"] 1%Z). by_evaluation.
Qed.

Lemma split_graph_closed : reachable_closed split_graph "S".
Proof. apply closed_reachable; by_evaluation. Qed.

Lemma split_graph_apart : ¬ reachable split_graph "S" "G".
Proof. rewrite split_graph_component. by_evaluation. Qed.

Lemma dangling_graph_component (x : string) :
  reachable dangling_graph "S" x → x ∈ ["S"].
Proof. apply edge_closed_reachable; by_evaluation. Qed.

Lemma detour_costs_consistent :
  consistent (heuristic_value "Bucharest" detour_costs) detour_graph.
Proof. by_evaluation. Qed.

Lemma detour_table_below (x : string) :
  (heuristic_value "Bucharest" detour_table x
   ≤ heuristic_value "Bucharest" detour_costs x)%Z.
Proof.
  unfold heuristic_value. destruct (decide ("Bucharest" = designated_goal)); [|done].
  unfold detour_table, detour_costs.
  destruct (decide (x = "S")) as [->|HS]; [by_evaluation|].
  destruct (decide (x = "A")) as [->|HA]; [by_evaluation|].
  destruct (decide (x = "B")) as [->|HB]; [by_evaluation|].
  destruct (decide (x = "Bucharest")) as [->|HG]; [by_evaluation|].
  rewrite !lookup_insert_ne by done. by rewrite lookup_empty.
Qed.

Lemma detour_table_admissible :
  admissible (heuristic_value "Bucharest" detour_table) detour_graph "Bucharest".
Proof.
  intros x c Hwalk.
  pose proof (consistent_walk _ _ _ _ _ detour_costs_consistent Hwalk) as Hc.
  pose proof (detour_table_below x) as Hx.
  change (heuristic_value "Bucharest" detour_costs "Bucharest") with 0%Z in Hc.
  lia.
Qed.

(** ** Cheapest paths *)

Lemma trivial_optimal {S} (g : Graph) (start : string) (alg : string) :
  nonneg_weights g →
  optimal (S := S) g start start (trivial_result alg start 0 1 1).
Proof.
  intros Hnn. split; [done|]. intros p c Hp%is_path_walk. simpl.
  by eapply nonneg_walk.
Qed.

Lemma end_optimal_path (h : string → Z) (g : Graph) (start goal alg : string)
    (v : Vars.t Node.t unit) (r : Result Step.t) :
  graph_wf g → consistent h g → reachable g start goal →
  search_inv head g goal start v → dijkstra_inv g start v →
  run_end true (λ n, (Node.path_cost n + h (Node.state n))%Z) head goal alg v r →
  optimal g start goal r.
Proof.
  intros Hwf Hcons Hreach Hinv Hdj Hend.
  destruct (end_optimal h head g goal start Hcons alg v r Hinv Hdj Hend Hreach)
    as [Hp Hleast].
  split; [by eapply end_path|]. intros p c Hpc%is_path_walk. by apply Hleast.
Qed.
(* ===================================================================== *)
(** * The engine at work                                                  *)
(* ===================================================================== *)

(** From A to C on the scenario: the searches that compare costs go through
    B, the others take the edge A-C. *)
Example bfs_on_scenario :
  report (breadth_first_search 10 scenario_graph "A" "C")
  = Some ("bfs", ["A"; "C"], 5%Z, (3, 5, 2)).
Proof. reflexivity. Qed.

Example ucs_on_scenario :
  report (uniform_cost_search 10 scenario_graph "A" "C")
  = Some ("ucs", ["A"; "B"; "C"], 3%Z, (3, 5, 2)).
Proof. reflexivity. Qed.

Example dfs_on_scenario :
  report (depth_first_search 10 scenario_graph "A" "C")
  = Some ("dfs", ["A"; "C"], 5%Z, (3, 5, 2)).
Proof. reflexivity. Qed.

Example dls_on_scenario :
  report
    (depth_limited_search 10 scenario_graph "A" "C" default_depth_limit)
  = Some ("dls", ["A"; "C"], 5%Z, (3, 5, 2)).
Proof. reflexivity. Qed.

Example ids_on_scenario :
  report
    (iterative_deepening_search 10 scenario_graph "A" "C" default_max_depth)
  = Some ("ids", ["A"; "C"], 5%Z, (4, 4, 2)).
Proof. reflexivity. Qed.

Example bidirectional_on_scenario :
  report (bidirectional_search 10 scenario_graph "A" "C")
  = Some ("bidirectional", ["A"; "C"], 5%Z, (4, 8, 4)).
Proof. reflexivity. Qed.

Example greedy_on_scenario :
  report (greedy_search 10 scenario_graph "A" "C" ∅)
  = Some ("greedy", ["A"; "C"], 5%Z, (3, 5, 2)).
Proof. reflexivity. Qed.

Example astar_on_scenario :
  report
    (a_star_search increasing_ids 10 scenario_graph "A" "C" ∅)
  = Some ("astar", ["A"; "B"; "C"], 3%Z, (3, 5, 2)).
Proof. reflexivity. Qed.

(** A location that is no key of the graph makes [Node.expand] raise. *)
Example bfs_missing_key :
  breadth_first_search 10 [("A", [("B", 1%Z)])] "A" "C" = Raise (KeyError "B").
Proof. reflexivity. Qed.

(** The loop stops when the fuel is spent. *)
Example bfs_out_of_fuel :
  breadth_first_search 2 scenario_graph "A" "C" = OutOfFuel.
Proof. reflexivity. Qed.
(* ===================================================================== *)
(** * The trace is the record of the iterations                           *)
(* ===================================================================== *)

Lemma while_loop_passes {St R} (cond : St → bool)
    (body : St → outcome (flow St R)) (fuel : nat) (st0 : St) (fl : flow St R) :
  while_loop cond body fuel st0 = Ret fl →
  ∃ sts st, passes cond body st0 sts st
    ∧ ((cond st = false ∧ fl = Next st)
       ∨ (cond st = true ∧ ∃ r, body st = Ret (Return r) ∧ fl = Return r)).
Proof.
  revert st0. induction fuel as [|fuel IH]; intros st0; [done|]. simpl.
  destruct (cond st0) eqn:Hc.
  - destruct (body st0) as [[st'|r]|e|] eqn:Hb; try done.
    + intros (sts & st & Hp & Hend)%IH.
      exists (st0 :: sts), st. split; [by econstructor|done].
    + intros [= <-]. exists [], st0. split; [constructor|]. right. eauto.
  - intros [= <-]. exists [], st0. split; [constructor|]. by left.
Qed.

Section record.
Context {E FS : Type} `{Entry E}.
Context (pop : list E → outcome (E * list E)).
Context (body : Vars.t E FS → outcome (flow (Vars.t E FS) (Result Step.t))).

(** Whichever way the body ends, it has appended the snapshot of its
    iteration. *)
Hypothesis Hbody : ∀ st fl, body st = Ret fl →
  ∃ s, shot pop st = Some s
    ∧ match fl with
      | Next st' => Vars.steps st' = Vars.steps st ++ [s]
      | Return r => steps r = Vars.steps st ++ [s]
      end.

Lemma passes_steps (st0 : Vars.t E FS) (sts : list (Vars.t E FS))
    (st : Vars.t E FS) :
  passes frontier_nonempty body st0 sts st →
  ∃ ss, Forall2 (λ st s, shot pop st = Some s) sts ss
    ∧ Vars.steps st = Vars.steps st0 ++ ss.
Proof.
  induction 1 as [st|st st' sts st'' Hc Hb Hp (ss & Hss & Hsteps)].
  - exists []. split; [constructor|]. by rewrite app_nil_r.
  - destruct (Hbody _ _ Hb) as (s & Hs & Hst').
    exists (s :: ss). split; [by constructor|].
    by rewrite Hsteps, Hst', <- app_assoc.
Qed.

Lemma finish_recorded (alg : string) (fuel : nat) (st0 : Vars.t E FS)
    (r : Result Step.t) :
  Vars.steps st0 = [] →
  finish alg (while_loop frontier_nonempty body fuel st0) = Ret r →
  recorded pop body st0 r.
Proof.
  intros Hnil (fl & Hloop & Hfl)%bind_Ret.
  apply while_loop_passes in Hloop as (sts & st & Hp & Hend).
  destruct (passes_steps _ _ _ Hp) as (ss & Hss & Hsteps).
  rewrite Hnil in Hsteps. simpl in Hsteps.
  exists sts, st. split; [done|].
  destruct Hend as [[Hc ->]|(Hc & r' & Hb & ->)].
  - right. split; [done|]. injection Hfl as <-. simpl. by rewrite Hsteps.
  - left. injection Hfl as ->. split; [done|]. split; [done|].
    destruct (Hbody _ _ Hb) as (s & Hs & ->). rewrite Hsteps.
    apply Forall2_app; [done|]. by repeat constructor.
Qed.

End record.

(** ** Each body appends the snapshot of its iteration *)

Lemma bfs_body_shot (g : Graph) (goal : string) (st : Vars.t Node.t unit)
    (fl : flow (Vars.t Node.t unit) (Result Step.t)) :
  bfs_body g goal st = Ret fl →
  ∃ s, shot list_popleft st = Some s
    ∧ match fl with
      | Next st' => Vars.steps st' = Vars.steps st ++ [s]
      | Return r => steps r = Vars.steps st ++ [s]
      end.
Proof.
  unfold bfs_body, shot.
  destruct (list_popleft (Vars.frontier st)) as [[node rest]| |];
    cbn [bind]; [|done..].
  destruct (decide (Node.state node = goal)).
  { intros [= <-]. eexists. split; [reflexivity|done]. }
  destruct (Node.expand g node) as [children| |]; cbn [bind]; [|done..].
  destruct (fold_left _ _ _) as [F' ng'].
  intros [= <-]. eexists. split; [reflexivity|done].
Qed.

Lemma dfs_body_shot (g : Graph) (goal : string)
    (st : Vars.t Node.t (gset string))
    (fl : flow (Vars.t Node.t (gset string)) (Result Step.t)) :
  dfs_body g goal st = Ret fl →
  ∃ s, shot list_pop st = Some s
    ∧ match fl with
      | Next st' => Vars.steps st' = Vars.steps st ++ [s]
      | Return r => steps r = Vars.steps st ++ [s]
      end.
Proof.
  unfold dfs_body, shot.
  destruct (list_pop (Vars.frontier st)) as [[node rest]| |];
    cbn [bind]; [|done..].
  destruct (set_remove _ _) as [fs| |]; cbn [bind]; [|done..].
  destruct (decide (Node.state node = goal)).
  { intros [= <-]. eexists. split; [reflexivity|done]. }
  destruct (Node.expand g node) as [children| |]; cbn [bind]; [|done..].
  destruct (fold_left _ _ _) as [[F' fs'] ng'].
  intros [= <-]. eexists. split; [reflexivity|done].
Qed.

Lemma dls_body_shot (g : Graph) (goal : string) (depth_limit : Z)
    (st : Vars.t Node.t (gset string))
    (fl : flow (Vars.t Node.t (gset string)) (Result Step.t)) :
  dls_body g goal depth_limit st = Ret fl →
  ∃ s, shot list_pop st = Some s
    ∧ match fl with
      | Next st' => Vars.steps st' = Vars.steps st ++ [s]
      | Return r => steps r = Vars.steps st ++ [s]
      end.
Proof.
  unfold dls_body, shot.
  destruct (list_pop (Vars.frontier st)) as [[node rest]| |];
    cbn [bind]; [|done..].
  destruct (set_remove _ _) as [fs| |]; cbn [bind]; [|done..].
  destruct (decide (Node.state node = goal)).
  { intros [= <-]. eexists. split; [reflexivity|done]. }
  destruct (decide (Node.depth node < depth_limit)%Z).
  - destruct (Node.expand g node) as [children| |]; cbn [bind]; [|done..].
    destruct (fold_left _ _ _) as [[F' fs'] ng'].
    intros [= <-]. eexists. split; [reflexivity|done].
  - intros [= <-]. eexists. split; [reflexivity|done].
Qed.

Lemma ucs_body_shot (g : Graph) (goal : string)
    (st : Vars.t (Z * Node.t) (gset string))
    (fl : flow (Vars.t (Z * Node.t) (gset string)) (Result Step.t)) :
  ucs_body g goal st = Ret fl →
  ∃ s, shot heapq.heappop st = Some s
    ∧ match fl with
      | Next st' => Vars.steps st' = Vars.steps st ++ [s]
      | Return r => steps r = Vars.steps st ++ [s]
      end.
Proof.
  unfold ucs_body, shot.
  destruct (heapq.heappop (Vars.frontier st)) as [[entry rest]| |];
    cbn [bind]; [|done..].
  destruct (set_remove _ _) as [fs| |]; cbn [bind]; [|done..].
  destruct (decide (Node.state entry.2 = goal)).
  { intros [= <-]. eexists. split; [reflexivity|done]. }
  destruct (Node.expand g entry.2) as [children| |]; cbn [bind]; [|done..].
  destruct (fold_left _ _ _) as [[F' fs'] ng'].
  intros [= <-]. eexists. split; [reflexivity|done].
Qed.

Lemma greedy_body_shot (g : Graph) (goal : string)
    (heuristic_data : gmap string Z)
    (st : Vars.t (Z * Node.t) (gset string))
    (fl : flow (Vars.t (Z * Node.t) (gset string)) (Result Step.t)) :
  greedy_body g goal heuristic_data st = Ret fl →
  ∃ s, shot heapq.heappop st = Some s
    ∧ match fl with
      | Next st' => Vars.steps st' = Vars.steps st ++ [s]
      | Return r => steps r = Vars.steps st ++ [s]
      end.
Proof.
  unfold greedy_body, shot.
  destruct (heapq.heappop (Vars.frontier st)) as [[entry rest]| |];
    cbn [bind]; [|done..].
  destruct (set_remove _ _) as [fs| |]; cbn [bind]; [|done..].
  destruct (decide (Node.state entry.2 = goal)).
  { intros [= <-]. eexists. split; [reflexivity|done]. }
  destruct (Node.expand g entry.2) as [children| |]; cbn [bind]; [|done..].
  destruct (foldM _ _ _) as [[[F' fs'] ng']| |]; cbn [bind]; [|done..].
  intros [= <-]. eexists. split; [reflexivity|done].
Qed.

Lemma astar_body_shot (id : nat → Z) (g : Graph) (goal : string)
    (heuristic_data : gmap string Z)
    (st : Vars.t (Z * Z * Node.t) (gmap string Z))
    (fl : flow (Vars.t (Z * Z * Node.t) (gmap string Z)) (Result Step.t)) :
  astar_body id g goal heuristic_data st = Ret fl →
  ∃ s, shot heapq.heappop st = Some s
    ∧ match fl with
      | Next st' => Vars.steps st' = Vars.steps st ++ [s]
      | Return r => steps r = Vars.steps st ++ [s]
      end.
Proof.
  unfold astar_body, shot.
  destruct (heapq.heappop (Vars.frontier st)) as [[entry rest]| |];
    cbn [bind]; [|done..].
  destruct (map_delitem _ _) as [fs| |]; cbn [bind]; [|done..].
  destruct (decide (Node.state entry.2 = goal)).
  { intros [= <-]. eexists. split; [reflexivity|done]. }
  destruct (Node.expand g entry.2) as [children| |]; cbn [bind]; [|done..].
  destruct (foldM _ _ _) as [[[F' fs'] ng']| |]; cbn [bind]; [|done..].
  intros [= <-]. eexists. split; [reflexivity|done].
Qed.

(** ** The six functions *)

Section recorded_runs.
Context (g : Graph) (start goal : string) (fuel : nat).
Hypothesis Hne : start ≠ goal.

Lemma bfs_recorded :
  returns (breadth_first_search fuel g start goal)
    (recorded list_popleft (bfs_body g goal) (bfs_entry start)).
Proof.
  intros r. unfold breadth_first_search. rewrite decide_False by done.
  apply finish_recorded; [apply bfs_body_shot|done].
Qed.

Lemma ucs_recorded :
  returns (uniform_cost_search fuel g start goal)
    (recorded heapq.heappop (ucs_body g goal) (ucs_entry start)).
Proof.
  intros r. unfold uniform_cost_search. rewrite decide_False by done.
  apply finish_recorded; [apply ucs_body_shot|done].
Qed.

Lemma dfs_recorded :
  returns (depth_first_search fuel g start goal)
    (recorded list_pop (dfs_body g goal) (dfs_entry start)).
Proof.
  intros r. unfold depth_first_search. rewrite decide_False by done.
  apply finish_recorded; [apply dfs_body_shot|done].
Qed.

Lemma dls_recorded (depth_limit : Z) :
  returns (depth_limited_search fuel g start goal depth_limit)
    (recorded list_pop (dls_body g goal depth_limit) (dfs_entry start)).
Proof.
  intros r. unfold depth_limited_search. rewrite decide_False by done.
  apply finish_recorded; [apply dls_body_shot|done].
Qed.

Lemma greedy_recorded (heuristic_data : gmap string Z) :
  returns (greedy_search fuel g start goal heuristic_data)
    (recorded heapq.heappop (greedy_body g goal heuristic_data)
       (greedy_entry goal heuristic_data start)).
Proof.
  intros r. unfold greedy_search. rewrite decide_False by done.
  rewrite get_heuristic_value. cbn [bind].
  apply finish_recorded; [apply greedy_body_shot|done].
Qed.

Lemma astar_recorded (id : nat → Z) (heuristic_data : gmap string Z) :
  returns (a_star_search id fuel g start goal heuristic_data)
    (recorded heapq.heappop (astar_body id g goal heuristic_data)
       (astar_entry id goal heuristic_data start)).
Proof.
  intros r. unfold a_star_search. rewrite decide_False by done.
  rewrite get_heuristic_value. cbn [bind].
  apply finish_recorded; [apply astar_body_shot|done].
Qed.

End recorded_runs.
(* ===================================================================== *)
(** * The properties stated for the engine                                *)
(* ===================================================================== *)

(** ** Cheapest paths *)

(** C1, as the code has it: on a graph that holds every location reachable
    from [start] as a key, with non-negative weights and the goal reachable,
    uniform-cost search returns (fuel for one pop per key is enough) a path
    of the graph from [start] to [goal] that no path undercuts; A-star
    search does so when the heuristic that [get_heuristic] computes from the
    table is consistent, that is, drops along no edge by more than the
    weight of the edge. *)
Theorem C1_cheapest_path (id : nat → Z) (fuel : nat) (g : Graph)
    (start goal : string) (heuristic_data : gmap string Z) :
  graph_wf g → reachable_closed g start → reachable g start goal →
  nonneg_weights g → length (dict_keys g) < fuel →
  terminates (uniform_cost_search fuel g start goal) (optimal g start goal)
  ∧ (consistent (heuristic_value goal heuristic_data) g →
     terminates (a_star_search id fuel g start goal heuristic_data)
       (optimal g start goal)).
Proof.
  intros Hwf Hclosed Hreach Hnn Hfuel. split.
  - destruct (ucs_returns fuel g start goal Hclosed Hfuel) as [r Hr].
    exists r. split; [done|].
    destruct (decide (start = goal)) as [Heq|Hne].
    + unfold uniform_cost_search in Hr. rewrite decide_True in Hr by done.
      injection Hr as <-. subst goal. by apply trivial_optimal.
    + apply ucs_run_optimal in Hr; [|done|done].
      destruct Hr as (v & Hinv & Hdj & Hend).
      eapply (end_optimal_path (λ _, 0%Z)); eauto using nonneg_consistent.
  - intros Hcons.
    destruct (astar_returns id fuel g start goal heuristic_data Hclosed Hfuel)
      as [r Hr].
    exists r. split; [done|].
    destruct (decide (start = goal)) as [Heq|Hne].
    + unfold a_star_search in Hr. rewrite decide_True in Hr by done.
      injection Hr as <-. subst goal. by apply trivial_optimal.
    + apply astar_run_optimal in Hr; [|done|done].
      destruct Hr as (v & Hinv & Hdj & Hend).
      eapply (end_optimal_path (heuristic_value goal heuristic_data)); eauto.
Qed.

(** On the detour map, with the true remaining costs as the table. *)
Lemma C1_cheapest_path_witness :
  terminates (uniform_cost_search 10 detour_graph "S" "Bucharest")
    (optimal detour_graph "S" "Bucharest")
  ∧ (consistent (heuristic_value "Bucharest" detour_costs) detour_graph →
     terminates
       (a_star_search increasing_ids 10 detour_graph "S" "Bucharest" detour_costs)
       (optimal detour_graph "S" "Bucharest")).
Proof.
  apply (C1_cheapest_path increasing_ids 10 detour_graph "S" "Bucharest"
           detour_costs).
  - by_evaluation.
  - apply closed_reachable; by_evaluation.
  - apply (is_path_reachable _ _ _ ["S"; "A"; "B"; "Bucharest"] 12%Z).
    by_evaluation.
  - by_evaluation.
  - vm_compute. lia.
Defined.

(** C1 as stated fails for A-star search.  The table below never
    overestimates the remaining cost, yet drops by 11 along the edge A-B of
    weight 1: B is expanded at cost 3 before A, is never reopened when A
    reaches it at cost 2, and the search returns distance 13 where the path
    S, A, B, Bucharest costs 12. *)
Lemma C1_astar_admissible_counterexample :
  graph_wf detour_graph ∧ closed_graph detour_graph
  ∧ nonneg_weights detour_graph
  ∧ admissible (heuristic_value "Bucharest" detour_table) detour_graph
      "Bucharest"
  ∧ is_path detour_graph "S" "Bucharest" ["S"; "A"; "B"; "Bucharest"] 12
  ∧ ∃ r, a_star_search increasing_ids 10 detour_graph "S" "Bucharest"
           detour_table = Ret r
      ∧ path r = ["S"; "B"; "Bucharest"] ∧ distance r = 13%Z
      ∧ ¬ optimal detour_graph "S" "Bucharest" r.
Proof.
  split_and!; [by_evaluation|by_evaluation|by_evaluation| |by_evaluation|].
  - exact detour_table_admissible.
  - eexists. split; [vm_compute; reflexivity|]. split; [done|]. split; [done|].
    intros [_ Hleast].
    assert (is_path detour_graph "S" "Bucharest" ["S"; "A"; "B"; "Bucharest"] 12)
      as Hp by by_evaluation.
    apply Hleast in Hp. simpl in Hp. lia.
Qed.

(** ** The path *)

(** C2: on a graph given as dictionaries (no key twice), a non-empty path
    returned by any of the eight functions begins at [start], ends at
    [goal], joins adjacent locations only, and the distance returned is the
    sum of the weights of its edges. *)
Theorem C2_path_validity (id : nat → Z) (fuel : nat) (g : Graph)
    (start goal : string) (depth_limit max_depth : Z)
    (heuristic_data : gmap string Z) :
  graph_wf g →
  returns (breadth_first_search fuel g start goal) (valid_path g start goal)
  ∧ returns (uniform_cost_search fuel g start goal) (valid_path g start goal)
  ∧ returns (depth_first_search fuel g start goal) (valid_path g start goal)
  ∧ returns (depth_limited_search fuel g start goal depth_limit)
      (valid_path g start goal)
  ∧ returns (iterative_deepening_search fuel g start goal max_depth)
      (valid_path g start goal)
  ∧ returns (bidirectional_search fuel g start goal) (valid_path g start goal)
  ∧ returns (greedy_search fuel g start goal heuristic_data)
      (valid_path g start goal)
  ∧ returns (a_star_search id fuel g start goal heuristic_data)
      (valid_path g start goal).
Proof.
  intros Hwf. split_and!.
  - intros r Hr%bfs_unidirectional. by eapply unidirectional_path.
  - intros r Hr%ucs_unidirectional. by eapply unidirectional_path.
  - intros r Hr%dfs_unidirectional. by eapply unidirectional_path.
  - intros r Hr%dls_unidirectional. by eapply unidirectional_path.
  - intros r. destruct (decide (start = goal)) as [Heq|Hne].
    + unfold iterative_deepening_search. rewrite decide_True by done.
      intros [= <-] _. by rewrite <- Heq.
    + intros Hr. apply ids_result in Hr; [|done].
      destruct Hr as (_ & _ & Hpath & _). exact (Hpath Hwf).
  - intros r. destruct (decide (start = goal)) as [Heq|Hne].
    + unfold bidirectional_search. rewrite decide_True by done.
      intros [= <-] _. by rewrite <- Heq.
    + intros Hr. apply bidi_run in Hr; [|done].
      destruct Hr as (rg & Hrg & [(fwd & bwd & Hmeet)|(st & Hinv & ->)]).
      * intros _. eapply meeting_path; [done|done|].
        by apply reverse_graph_inv.
      * done.
  - intros r Hr%greedy_unidirectional. by eapply unidirectional_path.
  - intros r Hr%astar_unidirectional. by eapply unidirectional_path.
Qed.

(** On the scenario, from A to C. *)
Lemma C2_path_validity_witness :
  returns (breadth_first_search 10 scenario_graph "A" "C")
    (valid_path scenario_graph "A" "C")
  ∧ returns (uniform_cost_search 10 scenario_graph "A" "C")
      (valid_path scenario_graph "A" "C")
  ∧ returns (depth_first_search 10 scenario_graph "A" "C")
      (valid_path scenario_graph "A" "C")
  ∧ returns (depth_limited_search 10 scenario_graph "A" "C" default_depth_limit)
      (valid_path scenario_graph "A" "C")
  ∧ returns (iterative_deepening_search 10 scenario_graph "A" "C"
               default_max_depth)
      (valid_path scenario_graph "A" "C")
  ∧ returns (bidirectional_search 10 scenario_graph "A" "C")
      (valid_path scenario_graph "A" "C")
  ∧ returns (greedy_search 10 scenario_graph "A" "C" ∅)
      (valid_path scenario_graph "A" "C")
  ∧ returns (a_star_search increasing_ids 10 scenario_graph "A" "C" ∅)
      (valid_path scenario_graph "A" "C").
Proof.
  apply (C2_path_validity increasing_ids 10 scenario_graph "A" "C"
           default_depth_limit default_max_depth ∅).
  by_evaluation.
Defined.

(** ** The call with [start == goal] *)

(** C3, as the code has it: when [start == goal] every one of the eight
    functions returns at once, for any graph and before any loop is entered
    (no fuel is needed), with [path = [start]], [distance = 0] and
    [steps = []].  Breadth-first, uniform-cost, depth-first, depth-limited,
    greedy and A-star search report zero nodes expanded and one generated;
    bidirectional search reports zero expanded and two generated, its two
    root nodes; iterative deepening reports one generated. *)
Theorem C3_start_is_goal (id : nat → Z) (fuel : nat) (g : Graph)
    (start : string) (depth_limit max_depth : Z) (heuristic_data : gmap string Z) :
  terminates (breadth_first_search fuel g start start)
    (λ r, is_trivial start r ∧ counts 0 1 r)
  ∧ terminates (uniform_cost_search fuel g start start)
      (λ r, is_trivial start r ∧ counts 0 1 r)
  ∧ terminates (depth_first_search fuel g start start)
      (λ r, is_trivial start r ∧ counts 0 1 r)
  ∧ terminates (depth_limited_search fuel g start start depth_limit)
      (λ r, is_trivial start r ∧ counts 0 1 r)
  ∧ terminates (iterative_deepening_search fuel g start start max_depth)
      (λ r, is_trivial start r ∧ nodes_generated r = 1)
  ∧ terminates (bidirectional_search fuel g start start)
      (λ r, is_trivial start r ∧ counts 0 2 r)
  ∧ terminates (greedy_search fuel g start start heuristic_data)
      (λ r, is_trivial start r ∧ counts 0 1 r)
  ∧ terminates (a_star_search id fuel g start start heuristic_data)
      (λ r, is_trivial start r ∧ counts 0 1 r).
Proof.
  unfold breadth_first_search, uniform_cost_search, depth_first_search,
    depth_limited_search, iterative_deepening_search, bidirectional_search,
    greedy_search, a_star_search.
  rewrite !decide_True by done.
  split_and!; by apply terminates_Ret.
Qed.

(** C3 as stated fails: with [start == goal] iterative deepening reports one
    node expanded, not zero, and bidirectional search reports two nodes
    generated, not one. *)
Lemma C3_uninformed_counts_counterexample :
  (∃ r, iterative_deepening_search 10 scenario_graph "A" "A" default_max_depth
        = Ret r
      ∧ nodes_expanded r = 1 ∧ nodes_expanded r ≠ 0)
  ∧ (∃ r, bidirectional_search 10 scenario_graph "A" "A" = Ret r
      ∧ nodes_generated r = 2 ∧ nodes_generated r ≠ 1).
Proof. split; eexists; (split; [reflexivity|]); by vm_compute. Qed.

(** ** The concrete scenario *)

(** C4, as the code has it: on the graph with the edges A-B of weight 1,
    B-C of weight 2 and A-C of weight 5, in both directions, from A to C,
    uniform-cost search and A-star search (the heuristic is zero, the goal
    not being the designated one) return [A, B, C] at distance 3, and
    breadth-first search returns the path of fewest edges, [A, C], at
    distance 5. *)
Theorem C4_scenario (id : nat → Z) (heuristic_data : gmap string Z) (fuel : nat) :
  3 ≤ fuel →
  terminates (uniform_cost_search fuel scenario_graph "A" "C")
    (λ r, path r = ["A"; "B"; "C"] ∧ distance r = 3%Z)
  ∧ terminates (a_star_search id fuel scenario_graph "A" "C" heuristic_data)
      (λ r, path r = ["A"; "B"; "C"] ∧ distance r = 3%Z)
  ∧ terminates (breadth_first_search fuel scenario_graph "A" "C")
      (λ r, path r = ["A"; "C"] ∧ distance r = 5%Z).
Proof.
  intros Hfuel. split_and!; eexists.
  - split; [eapply ucs_fuel_mono; [exact Hfuel|vm_compute; reflexivity]|done].
  - split; [eapply astar_fuel_mono; [exact Hfuel|vm_compute; reflexivity]|done].
  - split; [eapply bfs_fuel_mono; [exact Hfuel|vm_compute; reflexivity]|done].
Qed.

(** With fuel 10, increasing addresses and an empty table. *)
Lemma C4_scenario_witness :
  terminates (uniform_cost_search 10 scenario_graph "A" "C")
    (λ r, path r = ["A"; "B"; "C"] ∧ distance r = 3%Z)
  ∧ terminates (a_star_search increasing_ids 10 scenario_graph "A" "C" ∅)
      (λ r, path r = ["A"; "B"; "C"] ∧ distance r = 3%Z)
  ∧ terminates (breadth_first_search 10 scenario_graph "A" "C")
      (λ r, path r = ["A"; "C"] ∧ distance r = 5%Z).
Proof. apply (C4_scenario increasing_ids ∅ 10). lia. Defined.

(** C4 as stated fails: whatever the fuel, breadth-first search does not
    return [A, B, C] at distance 3 on the scenario. *)
Lemma C4_bfs_counterexample :
  ¬ ∃ fuel r, breadth_first_search fuel scenario_graph "A" "C" = Ret r
      ∧ path r = ["A"; "B"; "C"] ∧ distance r = 3%Z.
Proof.
  intros (fuel & r & Hr & Hp & _).
  destruct (decide (3 ≤ fuel)) as [Hle|Hlt].
  - assert (∃ r0, breadth_first_search 3 scenario_graph "A" "C" = Ret r0
              ∧ path r0 = ["A"; "C"]) as (r0 & Hr0 & Hp0).
    { eexists. split; [vm_compute; reflexivity|done]. }
    apply (bfs_fuel_mono _ _ _ _ _ _ Hle) in Hr0. congruence.
  - destruct fuel as [|[|[|fuel]]]; [| | |lia]; by vm_compute in Hr.
Qed.

(** ** Bidirectional search *)



(** ** The heuristic *)

(** C6: [get_heuristic] answers with the value tabulated for the state when
    the goal is the designated one, "Bucharest", and with 0 for every other
    goal, whatever the state and the table. *)
Theorem C6_get_heuristic (state goal : string) (heuristic_data : gmap string Z) :
  (∀ v, goal = designated_goal → heuristic_data !! state = Some v →
     get_heuristic state goal heuristic_data = Ret v)
  ∧ (goal ≠ designated_goal → get_heuristic state goal heuristic_data = Ret 0%Z)
  ∧ (∀ v, get_heuristic state goal heuristic_data = Ret v → v ≠ 0%Z →
       goal = designated_goal ∧ heuristic_data !! state = Some v).
Proof.
  rewrite get_heuristic_value. unfold heuristic_value. split_and!.
  - intros v Hg Hv. rewrite decide_True by done. by rewrite Hv.
  - intros Hg. by rewrite decide_False by done.
  - intros v [= <-] Hv. destruct (decide (goal = designated_goal)); [|done].
    split; [done|]. by destruct (heuristic_data !! state).
Qed.

(** ** The goal out of reach *)

(** C7, as the code has it: on a graph that holds every location reachable
    from [start] as a key, with the goal a key that is not reachable, and
    with [comp] a list that holds the locations reachable from [start]:
    each of the eight functions returns (fuel for one pop per key is
    enough), raises nothing, and reports an empty path at distance 0.
    Breadth-first, uniform-cost, depth-first, depth-limited, greedy and
    A-star search expand at most [length comp] nodes; iterative deepening,
    which adds up its depth-limited runs, at most [max_depth * length comp];
    bidirectional search, which also expands on the side of the goal, at
    most [2 * length comp], and it needs every neighbour of the graph to be
    a key. *)
Theorem C7_unreachable_goal (id : nat → Z) (fuel : nat) (g : Graph)
    (start goal : string) (depth_limit max_depth : Z)
    (heuristic_data : gmap string Z) (comp : list string) :
  graph_wf g → reachable_closed g start → goal ∈ dict_keys g →
  ¬ reachable g start goal → (∀ x, reachable g start x → x ∈ comp) →
  length (dict_keys g) < fuel →
  terminates (breadth_first_search fuel g start goal)
    (no_path_within (length comp))
  ∧ terminates (uniform_cost_search fuel g start goal)
      (no_path_within (length comp))
  ∧ terminates (depth_first_search fuel g start goal)
      (no_path_within (length comp))
  ∧ terminates (depth_limited_search fuel g start goal depth_limit)
      (no_path_within (length comp))
  ∧ terminates (iterative_deepening_search fuel g start goal max_depth)
      (no_path_within (Z.to_nat max_depth * length comp))
  ∧ (closed_graph g →
     terminates (bidirectional_search fuel g start goal)
       (no_path_within (2 * length comp)))
  ∧ terminates (greedy_search fuel g start goal heuristic_data)
      (no_path_within (length comp))
  ∧ terminates (a_star_search id fuel g start goal heuristic_data)
      (no_path_within (length comp)).
Proof.
  intros Hwf Hclosed Hgoal Hun Hcomp Hfuel. split_and!.
  - destruct (bfs_returns fuel g start goal Hclosed Hfuel) as [r Hr].
    exists r. split; [done|]. apply bfs_unidirectional in Hr.
    by eapply unidirectional_exhausted.
  - destruct (ucs_returns fuel g start goal Hclosed Hfuel) as [r Hr].
    exists r. split; [done|]. apply ucs_unidirectional in Hr.
    by eapply unidirectional_exhausted.
  - destruct (dfs_returns fuel g start goal Hclosed Hfuel) as [r Hr].
    exists r. split; [done|]. apply dfs_unidirectional in Hr.
    by eapply unidirectional_exhausted.
  - destruct (dls_returns fuel g start goal depth_limit Hclosed Hfuel) as [r Hr].
    exists r. split; [done|]. apply dls_unidirectional in Hr.
    by eapply unidirectional_exhausted.
  - destruct (ids_returns fuel g start goal max_depth Hclosed Hfuel) as [r Hr].
    exists r. split; [done|]. by eapply ids_exhausted.
  - intros Hall.
    destruct (bidi_total g start goal fuel) as [r Hr]; try done.
    + by eapply unreachable_ne.
    + apply Hclosed. exists 0%Z. constructor.
    + exists r. split; [done|]. by eapply bidi_exhausted.
  - destruct (greedy_returns fuel g start goal heuristic_data Hclosed Hfuel)
      as [r Hr].
    exists r. split; [done|]. apply greedy_unidirectional in Hr.
    by eapply unidirectional_exhausted.
  - destruct (astar_returns id fuel g start goal heuristic_data Hclosed Hfuel)
      as [r Hr].
    exists r. split; [done|]. apply astar_unidirectional in Hr.
    by eapply unidirectional_exhausted.
Qed.

(** On the two components, from S to G, with the component [S, A]. *)
Lemma C7_unreachable_goal_witness :
  terminates (breadth_first_search 10 split_graph "S" "G") (no_path_within 2)
  ∧ terminates (uniform_cost_search 10 split_graph "S" "G") (no_path_within 2)
  ∧ terminates (depth_first_search 10 split_graph "S" "G") (no_path_within 2)
  ∧ terminates (depth_limited_search 10 split_graph "S" "G" default_depth_limit)
      (no_path_within 2)
  ∧ terminates (iterative_deepening_search 10 split_graph "S" "G"
                  default_max_depth)
      (no_path_within 200)
  ∧ (closed_graph split_graph →
     terminates (bidirectional_search 10 split_graph "S" "G") (no_path_within 4))
  ∧ terminates (greedy_search 10 split_graph "S" "G" ∅) (no_path_within 2)
  ∧ terminates (a_star_search increasing_ids 10 split_graph "S" "G" ∅)
      (no_path_within 2).
Proof.
  apply (C7_unreachable_goal increasing_ids 10 split_graph "S" "G"
           default_depth_limit default_max_depth ∅ ["S"; "A"]).
  - by_evaluation.
  - exact split_graph_closed.
  - by_evaluation.
  - exact split_graph_apart.
  - intros x. apply split_graph_component.
  - vm_compute. lia.
Defined.

(** C7 as stated fails for bidirectional search.  On two components of two
    locations each, with the goal in the other one, it expands four nodes,
    twice the size of the component of the start; and where a location out
    of reach of the start has a neighbour that is not a key, it raises
    [KeyError] while it builds the reverse graph. *)
Lemma C7_bidirectional_counterexample :
  (reachable_closed split_graph "S" ∧ "G" ∈ dict_keys split_graph
   ∧ ¬ reachable split_graph "S" "G"
   ∧ (∀ x, reachable split_graph "S" x ↔ x ∈ ["S"; "A"])
   ∧ ∃ r, bidirectional_search 10 split_graph "S" "G" = Ret r
        ∧ nodes_expanded r = 4 ∧ ¬ nodes_expanded r ≤ length ["S"; "A"])
  ∧ (reachable_closed dangling_graph "S" ∧ "G" ∈ dict_keys dangling_graph
     ∧ ¬ reachable dangling_graph "S" "G"
     ∧ ∀ fuel, bidirectional_search fuel dangling_graph "S" "G"
               = Raise (KeyError "X")).
Proof.
  split; split_and!.
  - exact split_graph_closed.
  - by_evaluation.
  - exact split_graph_apart.
  - exact split_graph_component.
  - eexists. split; [vm_compute; reflexivity|]. split; [done|]. simpl. lia.
  - intros x Hx%dangling_graph_component. revert Hx. 
    intros [->|[]%elem_of_nil]%elem_of_cons. by_evaluation.
  - by_evaluation.
  - intros Hx%dangling_graph_component. revert Hx. by_evaluation.
  - intros fuel. reflexivity.
Qed.

(** ** The metrics *)

(** C8: whatever one of the eight functions returns, no more nodes were
    expanded than generated, and the largest frontier held at least one
    node; iterative deepening with [max_depth <= 0] and [start != goal] runs
    no search, has no frontier, and reports 0. *)
Theorem C8_metrics (id : nat → Z) (fuel : nat) (g : Graph) (start goal : string)
    (depth_limit max_depth : Z) (heuristic_data : gmap string Z) :
  returns (breadth_first_search fuel g start goal) metrics_ok
  ∧ returns (uniform_cost_search fuel g start goal) metrics_ok
  ∧ returns (depth_first_search fuel g start goal) metrics_ok
  ∧ returns (depth_limited_search fuel g start goal depth_limit) metrics_ok
  ∧ returns (iterative_deepening_search fuel g start goal max_depth)
      (λ r, nodes_expanded r ≤ nodes_generated r
            ∧ ((0 < max_depth)%Z → 1 ≤ max_frontier_size r))
  ∧ returns (bidirectional_search fuel g start goal) metrics_ok
  ∧ returns (greedy_search fuel g start goal heuristic_data) metrics_ok
  ∧ returns (a_star_search id fuel g start goal heuristic_data) metrics_ok.
Proof.
  split_and!.
  - intros r Hr%bfs_unidirectional. by eapply unidirectional_metrics.
  - intros r Hr%ucs_unidirectional. by eapply unidirectional_metrics.
  - intros r Hr%dfs_unidirectional. by eapply unidirectional_metrics.
  - intros r Hr%dls_unidirectional. by eapply unidirectional_metrics.
  - intros r. destruct (decide (start = goal)) as [Heq|Hne].
    + unfold iterative_deepening_search. rewrite decide_True by done.
      intros [= <-]. simpl. lia.
    + intros (Hle & Hmax & _)%ids_result; done.
  - intros r. destruct (decide (start = goal)) as [Heq|Hne].
    + unfold bidirectional_search. rewrite decide_True by done.
      intros [= <-]. split; simpl; lia.
    + intros Hr. apply bidi_run in Hr; [|done].
      destruct Hr as (rg & _ & [(fwd & bwd & Hmeet)|(st & Hinv & ->)]).
      * by eapply meeting_metrics.
      * split; simpl.
        -- pose proof (bi_generated _ _ _ _ _ Hinv). lia.
        -- apply (bi_max _ _ _ _ _ Hinv).
  - intros r Hr%greedy_unidirectional. by eapply unidirectional_metrics.
  - intros r Hr%astar_unidirectional. by eapply unidirectional_metrics.
Qed.

(** ** The trace *)

(** C9: when [start != goal], the steps that breadth-first, uniform-cost,
    depth-first, depth-limited, greedy or A-star search returns are as many
    as the nodes expanded, one per pop, and they are the record of the
    iterations of the loop, in order: the snapshot of an iteration shows the
    states of the frontier and the explored set with which the iteration
    starts, before its pop, and as current the state of the entry that the
    pop of the function ([popleft], [pop] or [heappop]) takes out of that
    frontier.  So the explored set of each snapshot is the set of the
    states popped before it, its current state is the one at the popping
    end of its frontier (the head for a queue or a heap, the last element
    for a stack) and is not yet explored; the first snapshot shows the
    frontier [start]. *)
Theorem C9_trace (id : nat → Z) (fuel : nat) (g : Graph) (start goal : string)
    (depth_limit : Z) (heuristic_data : gmap string Z) :
  start ≠ goal →
  returns (breadth_first_search fuel g start goal)
    (λ r, trace_ok head start r
          ∧ recorded list_popleft (bfs_body g goal) (bfs_entry start) r)
  ∧ returns (uniform_cost_search fuel g start goal)
      (λ r, trace_ok head start r
            ∧ recorded heapq.heappop (ucs_body g goal) (ucs_entry start) r)
  ∧ returns (depth_first_search fuel g start goal)
      (λ r, trace_ok last start r
            ∧ recorded list_pop (dfs_body g goal) (dfs_entry start) r)
  ∧ returns (depth_limited_search fuel g start goal depth_limit)
      (λ r, trace_ok last start r
            ∧ recorded list_pop (dls_body g goal depth_limit)
                (dfs_entry start) r)
  ∧ returns (greedy_search fuel g start goal heuristic_data)
      (λ r, trace_ok head start r
            ∧ recorded heapq.heappop (greedy_body g goal heuristic_data)
                (greedy_entry goal heuristic_data start) r)
  ∧ returns (a_star_search id fuel g start goal heuristic_data)
      (λ r, trace_ok head start r
            ∧ recorded heapq.heappop (astar_body id g goal heuristic_data)
                (astar_entry id goal heuristic_data start) r).
Proof.
  intros Hne. split_and!; intros r Hr; split.
  - apply bfs_unidirectional in Hr. by eapply unidirectional_trace.
  - by eapply bfs_recorded.
  - apply ucs_unidirectional in Hr. by eapply unidirectional_trace.
  - by eapply ucs_recorded.
  - apply dfs_unidirectional in Hr. by eapply unidirectional_trace.
  - by eapply dfs_recorded.
  - apply dls_unidirectional in Hr. by eapply unidirectional_trace.
  - by eapply dls_recorded.
  - apply greedy_unidirectional in Hr. by eapply unidirectional_trace.
  - by eapply greedy_recorded.
  - apply astar_unidirectional in Hr. by eapply unidirectional_trace.
  - by eapply astar_recorded.
Qed.

(** On the scenario, from A to C. *)
Lemma C9_trace_witness :
  returns (breadth_first_search 10 scenario_graph "A" "C")
    (λ r, trace_ok head "A" r
          ∧ recorded list_popleft (bfs_body scenario_graph "C")
              (bfs_entry "A") r)
  ∧ returns (uniform_cost_search 10 scenario_graph "A" "C")
      (λ r, trace_ok head "A" r
            ∧ recorded heapq.heappop (ucs_body scenario_graph "C")
                (ucs_entry "A") r)
  ∧ returns (depth_first_search 10 scenario_graph "A" "C")
      (λ r, trace_ok last "A" r
            ∧ recorded list_pop (dfs_body scenario_graph "C")
                (dfs_entry "A") r)
  ∧ returns (depth_limited_search 10 scenario_graph "A" "C" default_depth_limit)
      (λ r, trace_ok last "A" r
            ∧ recorded list_pop
                (dls_body scenario_graph "C" default_depth_limit)
                (dfs_entry "A") r)
  ∧ returns (greedy_search 10 scenario_graph "A" "C" ∅)
      (λ r, trace_ok head "A" r
            ∧ recorded heapq.heappop (greedy_body scenario_graph "C" ∅)
                (greedy_entry "C" ∅ "A") r)
  ∧ returns (a_star_search increasing_ids 10 scenario_graph "A" "C" ∅)
      (λ r, trace_ok head "A" r
            ∧ recorded heapq.heappop
                (astar_body increasing_ids scenario_graph "C" ∅)
                (astar_entry increasing_ids "C" ∅ "A") r).
Proof.
  apply (C9_trace increasing_ids 10 scenario_graph "A" "C" default_depth_limit ∅).
  vm_compute. discriminate.
Defined.

(** ** The heuristic on a state without a value *)

(** C10: [get_heuristic] returns for every state, goal and table, and it
    returns 0 for a state the table lacks, the designated goal included; so
    greedy and A-star search return on every graph that holds its reachable
    locations as keys, whatever the table lacks. *)
Theorem C10_heuristic_total (id : nat → Z) (fuel : nat) (g : Graph)
    (start goal state : string) (heuristic_data : gmap string Z) :
  (∃ v, get_heuristic state goal heuristic_data = Ret v)
  ∧ (heuristic_data !! state = None →
       get_heuristic state goal heuristic_data = Ret 0%Z)
  ∧ (reachable_closed g start → length (dict_keys g) < fuel →
       (∃ r, greedy_search fuel g start goal heuristic_data = Ret r)
       ∧ (∃ r, a_star_search id fuel g start goal heuristic_data = Ret r)).
Proof.
  split_and!.
  - rewrite get_heuristic_value. eauto.
  - intros Hnone. rewrite get_heuristic_value. unfold heuristic_value.
    rewrite Hnone. by destruct (decide (goal = designated_goal)).
  - intros Hclosed Hfuel.
    split; [by apply greedy_returns|by apply astar_returns].
Qed.
(* ===================================================================== *)
(** * The cost of a path, recomputed                                      *)
(* ===================================================================== *)

Lemma path_cost_loop (g : Graph) (rest pre : list string) (u : string) (acc : Z) :
  foldM (path_cost_step (pre ++ u :: rest) g) acc
    (seq (length pre) (length rest))
  = cost_along g u rest acc.
Proof.
  revert pre u acc. induction rest as [|v rest IH]; intros pre u acc; [done|].
  cbn [length seq foldM cost_along]. unfold path_cost_step at 1.
  unfold list_getitem.
  rewrite (list_lookup_middle pre (v :: rest) u (length pre) eq_refl).
  cbn [bind]. destruct (dict_getitem g u) as [neighbors|e|]; cbn [bind]; try done.
  replace (pre ++ u :: v :: rest) with ((pre ++ [u]) ++ v :: rest)
    by (by rewrite <- app_assoc).
  rewrite (list_lookup_middle (pre ++ [u]) rest v (length pre + 1))
    by (rewrite length_app; simpl; lia).
  cbn [bind]. destruct (dict_getitem neighbors v) as [w|e|]; cbn [bind]; try done.
  specialize (IH (pre ++ [u]) v (acc + w)%Z).
  rewrite length_app in IH. simpl in IH.
  replace (length pre + 1) with (S (length pre)) in IH by lia. exact IH.
Qed.

Lemma calculate_path_cost_cons (g : Graph) (u : string) (rest : list string) :
  calculate_path_cost (u :: rest) g = cost_along g u rest 0.
Proof.
  unfold calculate_path_cost. rewrite bool_decide_eq_false_2 by done.
  cbn [orb]. case_bool_decide as Hlen.
  - destruct rest; [done|simpl in Hlen; lia].
  - pose proof (path_cost_loop g rest [] u 0%Z) as Hloop. simpl in Hloop.
    simpl. by rewrite Nat.sub_0_r.
Qed.

Lemma cost_along_weight (g : Graph) (u : string) (rest : list string) (acc c : Z) :
  path_weight g (u :: rest) = Some c → cost_along g u rest acc = Ret (acc + c)%Z.
Proof.
  revert u acc c. induction rest as [|v rest IH]; intros u acc c.
  - simpl. intros [= <-]. by rewrite Z.add_0_r.
  - rewrite path_weight_cons. cbn [cost_along]. unfold dict_getitem.
    destruct (dict_get g u) as [neighbors|]; [|done]. cbn [bind].
    destruct (dict_get neighbors v) as [w|]; [|done]. cbn [bind].
    destruct (path_weight g (v :: rest)) as [c'|] eqn:Hc'; [|done].
    intros [= <-]. rewrite (IH v (acc + w)%Z c' Hc').
    f_equal. lia.
Qed.

Lemma cost_along_Ret (g : Graph) (u : string) (rest : list string) (acc r : Z) :
  cost_along g u rest acc = Ret r →
  ∃ c, path_weight g (u :: rest) = Some c ∧ r = (acc + c)%Z.
Proof.
  revert u acc r. induction rest as [|v rest IH]; intros u acc r.
  - simpl. intros [= <-]. exists 0%Z. split; [done|lia].
  - rewrite path_weight_cons. cbn [cost_along]. unfold dict_getitem.
    destruct (dict_get g u) as [neighbors|]; [|done]. cbn [bind].
    destruct (dict_get neighbors v) as [w|]; [|done]. cbn [bind].
    intros (c & -> & ->)%IH. exists (w + c)%Z. split; [done|lia].
Qed.

Lemma cost_along_Raise (g : Graph) (u : string) (rest : list string) (acc : Z) e :
  cost_along g u rest acc = Raise e → ∃ k, e = KeyError k ∧ k ∈ u :: rest.
Proof.
  revert u acc. induction rest as [|v rest IH]; intros u acc; [done|].
  cbn [cost_along]. unfold dict_getitem.
  destruct (dict_get g u) as [neighbors|]; cbn [bind].
  - destruct (dict_get neighbors v) as [w|]; cbn [bind].
    + intros (k & -> & Hk)%IH. exists k. split; [done|by right].
    + intros [= <-]. exists v. split; [done|]. right. left.
  - intros [= <-]. exists u. split; [done|left].
Qed.

Lemma cost_along_fuel (g : Graph) (u : string) (rest : list string) (acc : Z) :
  cost_along g u rest acc ≠ OutOfFuel.
Proof.
  revert u acc. induction rest as [|v rest IH]; intros u acc; [done|].
  cbn [cost_along]. unfold dict_getitem.
  destruct (dict_get g u) as [neighbors|]; cbn [bind]; [|done].
  destruct (dict_get neighbors v) as [w|]; cbn [bind]; [apply IH|done].
Qed.

(** The cost after a prefix that is a path of the graph. *)
Lemma cost_along_app (g : Graph) (u m : string) (pre post : list string)
    (acc c : Z) :
  path_weight g (u :: pre ++ [m]) = Some c →
  cost_along g u (pre ++ m :: post) acc = cost_along g m post (acc + c)%Z.
Proof.
  revert u acc c. induction pre as [|x pre IH]; intros u acc c.
  - simpl app. rewrite path_weight_cons. cbn [cost_along]. unfold dict_getitem.
    destruct (dict_get g u) as [neighbors|]; [|done]. cbn [bind].
    destruct (dict_get neighbors m) as [w|]; [|done]. cbn [bind].
    simpl. intros [= <-]. by rewrite Z.add_0_r.
  - simpl app. rewrite path_weight_cons. cbn [cost_along]. unfold dict_getitem.
    destruct (dict_get g u) as [neighbors|]; [|done]. cbn [bind].
    destruct (dict_get neighbors x) as [w|]; [|done]. cbn [bind].
    destruct (path_weight g (x :: pre ++ [m])) as [c'|] eqn:Hc'; [|done].
    intros [= <-]. rewrite (IH x (acc + w)%Z c' Hc').
    f_equal. lia.
Qed.

Lemma calculate_path_cost_weight (g : Graph) (p : list string) (c : Z) :
  path_weight g p = Some c → calculate_path_cost p g = Ret c.
Proof.
  destruct p as [|u rest]; [done|]. intros Hc.
  rewrite calculate_path_cost_cons. by rewrite (cost_along_weight _ _ _ 0 c).
Qed.
(* ===================================================================== *)
(** * The adjacency dictionary of the window                              *)
(* ===================================================================== *)

Lemma graph_wf_setitem (g : Graph) (k : string) (inner : dict Z) :
  graph_wf g → dict_wf inner → graph_wf (dict_setitem g k inner).
Proof.
  intros [Hwf Hall] Hinner. split; [by apply dict_wf_setitem|].
  rewrite Forall_forall in Hall. apply Forall_forall. intros [k' v'] Hin.
  apply dict_setitem_elem in Hin as [[= -> ->]|Hin]; [done|].
  apply (Hall _ Hin).
Qed.

Lemma weight_edge (g : Graph) (u v : string) (w : Z) :
  graph_wf g → edge g u v w ↔ weight g u v = Some w.
Proof.
  intros Hwf. unfold edge, weight. split.
  - intros (neighbors & Hget & Hin). rewrite Hget.
    apply dict_get_elem_wf; [|done]. by eapply graph_wf_neighbors.
  - destruct (dict_get g u) as [neighbors|]; [|done].
    intros Hget%dict_get_Some_elem. eauto.
Qed.

Lemma joins_sym (road : string * string * Z) (a b : string) :
  joins road a b ↔ joins road b a.
Proof. unfold joins. tauto. Qed.

Lemma road_distance_sym (roads : list (string * string * Z)) (a b : string) :
  road_distance roads a b = road_distance roads b a.
Proof.
  unfold road_distance. generalize (@None Z).
  induction roads as [|road roads IH]; intros acc; [done|]. simpl.
  destruct (decide (joins road a b)) as [Hj|Hj].
  - rewrite decide_True by (by apply joins_sym). apply IH.
  - rewrite decide_False by (by rewrite joins_sym). apply IH.
Qed.

(** The dictionary of empty dictionaries the construction starts from. *)
Lemma adjacency_init (keys : list string) :
  NoDup keys →
  let g := fold_left (λ d city, dict_setitem d city ([] : dict Z)) keys [] in
  dict_keys g = keys ∧ graph_wf g ∧ ∀ a b, weight g a b = None.
Proof.
  intros Hnd g.
  assert (dict_keys g = keys) as Hkeys.
  { unfold g. rewrite reverse_init_keys; [done|done|].
    by intros k _ ?%elem_of_nil. }
  assert (∀ u inner, dict_get g u = Some inner → inner = []) as Hempty.
  { intros u inner. apply reverse_init_empty. by intros v i. }
  split; [done|]. split.
  - split; [unfold dict_wf; by rewrite Hkeys|].
    apply Forall_forall. intros [k inner] Hin.
    assert (dict_get g k = Some inner) as Hget.
    { apply dict_get_elem_wf; [|done]. unfold dict_wf. by rewrite Hkeys. }
    rewrite (Hempty _ _ Hget). apply NoDup_nil_2.
  - intros a b. unfold weight. destruct (dict_get g a) as [inner|] eqn:Hget; [|done].
    by rewrite (Hempty _ _ Hget).
Qed.

(** One road: both ends must be keys, and the two entries it writes are
    the only ones that change. *)
Lemma add_road_Ret (g g' : Graph) (c1 c2 : string) (d : Z) :
  graph_wf g → add_road g (c1, c2, d) = Ret g' →
  c1 ∈ dict_keys g ∧ c2 ∈ dict_keys g
  ∧ dict_keys g' = dict_keys g ∧ graph_wf g'
  ∧ ∀ a b, weight g' a b
           = if decide (joins (c1, c2, d) a b) then Some d else weight g a b.
Proof.
  intros Hwf. unfold add_road, dict_getitem.
  destruct (dict_get g c1) as [i1|] eqn:H1; [|done]. cbn [bind].
  set (g1 := dict_setitem g c1 (dict_setitem i1 c2 d)).
  destruct (dict_get g1 c2) as [i2|] eqn:H2; [|done]. cbn [bind].
  intros [= <-].
  assert (c1 ∈ dict_keys g) as Hc1 by (apply dict_get_is_Some; eauto).
  assert (dict_keys g1 = dict_keys g) as Hk1
    by (by apply dict_keys_setitem_in).
  assert (c2 ∈ dict_keys g) as Hc2.
  { rewrite <- Hk1. apply dict_get_is_Some. eauto. }
  assert (graph_wf g1) as Hwf1.
  { apply graph_wf_setitem; [done|]. apply dict_wf_setitem.
    by eapply graph_wf_neighbors. }
  split; [done|]. split; [done|]. split.
  { rewrite dict_keys_setitem_in; [done|]. by rewrite Hk1. }
  split.
  { apply graph_wf_setitem; [done|]. apply dict_wf_setitem.
    by eapply graph_wf_neighbors. }
  intros a b. unfold weight, joins. simpl.
  destruct (decide (c2 = a)) as [<-|Ha2].
  - rewrite dict_get_setitem_eq.
    destruct (decide (c1 = b)) as [<-|Hb1].
    + rewrite dict_get_setitem_eq. rewrite decide_True by tauto. done.
    + rewrite dict_get_setitem_ne by done.
      destruct (decide (c1 = c2)) as [Heq|Hne].
      * subst c2. unfold g1 in H2. rewrite dict_get_setitem_eq in H2.
        injection H2 as <-. rewrite dict_get_setitem_ne by done.
        rewrite H1. rewrite decide_False by tauto. done.
      * unfold g1 in H2. rewrite dict_get_setitem_ne in H2 by done.
        rewrite H2. rewrite decide_False by tauto. done.
  - rewrite dict_get_setitem_ne by done. unfold g1.
    destruct (decide (c1 = a)) as [<-|Ha1].
    + rewrite dict_get_setitem_eq. rewrite H1.
      destruct (decide (c2 = b)) as [<-|Hb2].
      * rewrite dict_get_setitem_eq. rewrite decide_True by tauto. done.
      * rewrite dict_get_setitem_ne by done. rewrite decide_False by tauto. done.
    + rewrite dict_get_setitem_ne by done. rewrite decide_False by tauto. done.
Qed.

Lemma add_road_total (g : Graph) (c1 c2 : string) (d : Z) :
  c1 ∈ dict_keys g → c2 ∈ dict_keys g → ∃ g', add_road g (c1, c2, d) = Ret g'.
Proof.
  intros [i1 H1]%dict_get_is_Some Hc2. unfold add_road, dict_getitem.
  rewrite H1. cbn [bind].
  assert (c2 ∈ dict_keys (dict_setitem g c1 (dict_setitem i1 c2 d))) as Hc2'.
  { apply dict_keys_setitem_elem. by right. }
  apply dict_get_is_Some in Hc2' as [i2 ->]. cbn [bind]. eauto.
Qed.

(** The first end of the road that is no key is the one the exception
    names. *)
Lemma add_road_Raise (g : Graph) (c1 c2 : string) (d : Z) :
  ¬ road_ok (dict_keys g) (c1, c2, d) →
  add_road g (c1, c2, d)
  = Raise (KeyError (if decide (c1 ∈ dict_keys g) then c2 else c1)).
Proof.
  unfold road_ok, add_road, dict_getitem. simpl. intros Hbad.
  destruct (decide (c1 ∈ dict_keys g)) as [Hc1|Hc1].
  - pose proof Hc1 as [i1 H1]%dict_get_is_Some. rewrite H1. cbn [bind].
    assert (c2 ∉ dict_keys (dict_setitem g c1 (dict_setitem i1 c2 d))) as Hc2.
    { rewrite dict_keys_setitem_in by done. tauto. }
    apply dict_get_None in Hc2. by rewrite Hc2.
  - apply dict_get_None in Hc1. by rewrite Hc1.
Qed.

Lemma roads_list_id (ROADS : list (string * string * Z)) :
  (λ '(city1, city2, distance), (city1, city2, distance)) <$> ROADS = ROADS.
Proof.
  induction ROADS as [|[[c1 c2] d] ROADS IH]; [done|].
  rewrite fmap_cons. by f_equal.
Qed.

(** The roads, one after the other, from any well-formed dictionary. *)
Lemma add_roads_Ret (roads : list (string * string * Z)) (g g' : Graph) :
  graph_wf g → foldM add_road g roads = Ret g' →
  Forall (road_ok (dict_keys g)) roads
  ∧ dict_keys g' = dict_keys g ∧ graph_wf g'
  ∧ ∀ a b, weight g' a b
           = fold_left (λ acc road,
                          if decide (joins road a b) then Some road.2 else acc)
               roads (weight g a b).
Proof.
  revert g. induction roads as [|[[c1 c2] d] roads IH]; intros g Hwf;
    cbn [foldM fold_left].
  - intros [= <-]. split; [constructor|]. done.
  - destruct (add_road g (c1, c2, d)) as [g1| |] eqn:Hroad; try done.
    destruct (add_road_Ret g g1 c1 c2 d Hwf Hroad)
      as (Hc1 & Hc2 & Hk1 & Hwf1 & Hw1).
    intros Hrest. destruct (IH g1 Hwf1 Hrest) as (Hall & Hk & Hwf' & Hw).
    rewrite Hk1 in Hall, Hk. split; [by constructor|].
    split; [done|]. split; [done|].
    intros a b. rewrite Hw, Hw1. done.
Qed.

Lemma add_roads_total (roads : list (string * string * Z)) (g : Graph) :
  graph_wf g → Forall (road_ok (dict_keys g)) roads →
  ∃ g', foldM add_road g roads = Ret g'.
Proof.
  revert g. induction roads as [|[[c1 c2] d] roads IH]; intros g Hwf Hall;
    cbn [foldM].
  - eauto.
  - apply Forall_cons in Hall as [[Hc1 Hc2] Hall]. simpl in Hc1, Hc2.
    destruct (add_road_total g c1 c2 d Hc1 Hc2) as [g1 Hroad]. rewrite Hroad.
    destruct (add_road_Ret g g1 c1 c2 d Hwf Hroad) as (_ & _ & Hk1 & Hwf1 & _).
    apply IH; [done|]. by rewrite Hk1.
Qed.

Lemma add_roads_Raise (pre post : list (string * string * Z)) (g : Graph)
    (c1 c2 : string) (d : Z) :
  graph_wf g → Forall (road_ok (dict_keys g)) pre →
  ¬ road_ok (dict_keys g) (c1, c2, d) →
  foldM add_road g (pre ++ (c1, c2, d) :: post)
  = Raise (KeyError (if decide (c1 ∈ dict_keys g) then c2 else c1)).
Proof.
  revert g. induction pre as [|[[a b] w] pre IH]; intros g Hwf Hall Hbad;
    cbn [app foldM].
  - by rewrite add_road_Raise.
  - apply Forall_cons in Hall as [[Ha Hb] Hall]. simpl in Ha, Hb.
    destruct (add_road_total g a b w Ha Hb) as [g1 Hroad]. rewrite Hroad.
    destruct (add_road_Ret g g1 a b w Hwf Hroad) as (_ & _ & Hk1 & Hwf1 & _).
    rewrite <- Hk1. apply IH; [done|by rewrite Hk1|by rewrite Hk1].
Qed.

(** From the lookups back to the shape of the graph. *)
Lemma closed_graph_weight (g : Graph) :
  graph_wf g → (∀ a b w, weight g a b = Some w → b ∈ dict_keys g) →
  closed_graph g.
Proof.
  intros Hwf Hclosed. apply Forall_forall. intros [u neighbors] Hu.
  apply Forall_forall. intros [v w] Hv. simpl.
  apply (Hclosed u v w). apply weight_edge; [done|].
  exists neighbors. split; [|done]. apply dict_get_elem_wf; [apply Hwf|done].
Qed.

Lemma road_distance_Some (roads : list (string * string * Z)) (a b : string)
    (w : Z) :
  road_distance roads a b = Some w →
  ∃ road, road ∈ roads ∧ joins road a b ∧ road.2 = w.
Proof.
  unfold road_distance.
  assert (∀ acc,
    fold_left (λ acc road, if decide (joins road a b) then Some road.2 else acc)
      roads acc = Some w →
    acc = Some w ∨ ∃ road, road ∈ roads ∧ joins road a b ∧ road.2 = w) as Hgen.
  { induction roads as [|road roads IH]; intros acc; simpl; [auto|].
    intros [Hacc|(r & Hr & Hj & Hw)]%IH.
    - destruct (decide (joins road a b)) as [Hj|Hj]; [|auto].
      injection Hacc as <-. right. exists road. split; [left|done].
    - right. exists r. split; [by right|done]. }
  intros [?|?]%Hgen; done.
Qed.
(* ===================================================================== *)
(** * Runs that carry one more invariant                                  *)
(* ===================================================================== *)

Section runs_with.
Context (g : Graph) (start goal : string) (fuel : nat).
Context (pos : list string → option string) (J : Vars.t Node.t unit → Prop).

Lemma bfs_with :
  stable head g goal start J →
  returns (breadth_first_search fuel g start goal)
    (unidirectional_with J head g start goal).
Proof.
  intros [HJ0 HJ]. destruct (decide (start = goal)) as [Heq|Hne];
    [short_cut breadth_first_search|].
  intros r. unfold breadth_first_search. rewrite decide_False by done.
  intros Hrun.
  eapply (run_partial false Node.path_cost head g goal start (λ _, True) J)
    in Hrun as (st & (_ & Hinv & HJst) & Hend); eauto using bfs_body_spec.
  - right. split; [done|]. eauto 10.
  - split; [done|]. split; [apply search_inv_init|exact HJ0].
Qed.

Lemma dfs_with :
  stable last g goal start J →
  returns (depth_first_search fuel g start goal)
    (unidirectional_with J last g start goal).
Proof.
  intros [HJ0 HJ]. destruct (decide (start = goal)) as [Heq|Hne];
    [short_cut depth_first_search|].
  intros r. unfold depth_first_search. rewrite decide_False by done.
  intros Hrun.
  eapply (run_partial false Node.path_cost last g goal start states_agree J)
    in Hrun as (st & (_ & Hinv & HJst) & Hend); eauto using dfs_body_spec.
  - right. split; [done|]. eauto 10.
  - split; [exact (singleton_agree start)|].
    split; [apply search_inv_init|exact HJ0].
Qed.

Lemma dls_with (depth_limit : Z) :
  stable last g goal start J →
  returns (depth_limited_search fuel g start goal depth_limit)
    (unidirectional_with J last g start goal).
Proof.
  intros [HJ0 HJ]. destruct (decide (start = goal)) as [Heq|Hne];
    [short_cut depth_limited_search|].
  intros r. unfold depth_limited_search. rewrite decide_False by done.
  intros Hrun.
  eapply (run_partial false Node.path_cost last g goal start states_agree J)
    in Hrun as (st & (_ & Hinv & HJst) & Hend); eauto using dls_body_spec.
  - right. split; [done|]. eauto 10.
  - split; [exact (singleton_agree start)|].
    split; [apply search_inv_init|exact HJ0].
Qed.

Lemma ucs_with :
  stable head g goal start J →
  returns (uniform_cost_search fuel g start goal)
    (unidirectional_with J head g start goal).
Proof.
  intros [HJ0 HJ]. destruct (decide (start = goal)) as [Heq|Hne];
    [short_cut uniform_cost_search|].
  intros r. unfold uniform_cost_search. rewrite decide_False by done.
  intros Hrun.
  eapply (run_partial true (λ n, (Node.path_cost n + 0)%Z) head g goal start
            ucs_local J)
    in Hrun as (st & (_ & Hinv & HJst) & Hend); eauto using ucs_body_spec.
  - right. split; [done|]. eauto 10.
  - split; [by apply ucs_local_init|].
    split; [apply search_inv_init|exact HJ0].
Qed.

Lemma greedy_with (heuristic_data : gmap string Z) :
  stable head g goal start J →
  returns (greedy_search fuel g start goal heuristic_data)
    (unidirectional_with J head g start goal).
Proof.
  intros [HJ0 HJ]. destruct (decide (start = goal)) as [Heq|Hne];
    [short_cut greedy_search|].
  intros r. unfold greedy_search. rewrite decide_False by done.
  rewrite get_heuristic_value. cbn [bind]. intros Hrun.
  eapply (run_partial false Node.path_cost head g goal start greedy_local J)
    in Hrun as (st & (_ & Hinv & HJst) & Hend); eauto using greedy_body_spec.
  - right. split; [done|]. eauto 10.
  - split; [split; [exact (singleton_agree start)|apply singleton_heap]|].
    split; [apply search_inv_init|exact HJ0].
Qed.

Lemma astar_with (id : nat → Z) (heuristic_data : gmap string Z) :
  stable head g goal start J →
  returns (a_star_search id fuel g start goal heuristic_data)
    (unidirectional_with J head g start goal).
Proof.
  intros [HJ0 HJ]. destruct (decide (start = goal)) as [Heq|Hne];
    [short_cut a_star_search|].
  intros r. unfold a_star_search. rewrite decide_False by done.
  rewrite get_heuristic_value. cbn [bind]. intros Hrun.
  eapply (run_partial true
            (λ n, (Node.path_cost n
                   + heuristic_value goal heuristic_data (Node.state n))%Z)
            head g goal start
            (astar_local (heuristic_value goal heuristic_data)) J)
    in Hrun as (st & (_ & Hinv & HJst) & Hend); eauto using astar_body_spec.
  - right. split; [done|]. eauto 10.
  - split; [by apply astar_local_init|].
    split; [apply search_inv_init|exact HJ0].
Qed.

End runs_with.

(** ** The parents of a frontier node *)

Lemma simple_stable (pos : list string → option string) (g : Graph)
    (goal start : string) :
  stable pos g goal start simple_inv.
Proof.
  split.
  - intros n [->|[]%elem_of_nil]%elem_of_cons. simpl.
    split; [apply NoDup_singleton|by intros x ?%elem_of_nil].
  - intros relax key v v' Hinv HJ
      [node rest cs Hpop Hgoal Hcs Habs Hexp Hsteps Hne Hng Hmax].
    pose proof (popped_elem _ _ _ _ _ _ Hpop) as Hnode.
    destruct Hpop as (HF & _).
    destruct (HJ node Hnode) as [Hnd Htail].
    assert (∀ x, x ∈ Node.path_back node → x ∈ Vars.explored v') as Hback.
    { intros x. rewrite path_back_cons, Hexp.
      intros [->|Hx]%elem_of_cons; [set_solver|]. apply Htail in Hx. set_solver. }
    intros n Hn. destruct (absorb_elem _ _ _ _ _ _ Habs Hn) as [Hr|Hc].
    + destruct (HJ n) as [Hndn Htailn]; [rewrite HF; by right|].
      split; [done|]. intros x Hx%Htailn. rewrite Hexp. set_solver.
    + destruct Hcs as [(children & Hex & Hperm)|[_ ->]];
        [|by apply elem_of_nil in Hc].
      rewrite Hperm in Hc. apply expand_Ret in Hex as (neighbors & _ & ->).
      apply list_elem_of_fmap in Hc as (e & -> & He).
      pose proof (absorb_fresh _ _ _ _ _ Habs) as Hfresh.
      assert (Node.state (Node.child node e) ∉ Vars.explored v') as Hnew.
      { rewrite Hexp. apply Hfresh; [|done]. intros m Hm.
        intros [Heq%elem_of_singleton|Hx]%elem_of_union.
        - pose proof (inv_nodup _ _ _ _ _ Hinv) as Hnd'.
          rewrite HF in Hnd'. simpl in Hnd'.
          apply NoDup_cons in Hnd' as [Hnotin _]. apply Hnotin.
          apply list_elem_of_fmap. eauto.
        - revert Hx. apply (inv_fresh _ _ _ _ _ Hinv). rewrite HF. by right. }
      simpl. split.
      * apply NoDup_cons. split; [|done]. intros Hin. apply Hnew. by apply Hback.
      * done.
Qed.

Lemma end_simple (relax : bool) (key : Node.t → Z)
    (pos : list string → option string) (goal alg : string)
    (v : Vars.t Node.t unit) (r : Result Step.t) :
  simple_inv v → run_end relax key pos goal alg v r → NoDup (path r).
Proof.
  intros HJ [[node rest alg' Hpop _ ->]|[_ ->]]; simpl; [|constructor].
  unfold Node.path. rewrite reverse_Permutation.
  apply HJ. by eapply popped_elem.
Qed.

(** ** The snapshots *)

Lemma snapshot_ok_pop (relax : bool) (key : Node.t → Z)
    (pos : list string → option string) (g : Graph) (goal start : string)
    (v : Vars.t Node.t unit) (node : Node.t) (rest : list Node.t) :
  search_inv pos g goal start v → popped relax key pos v node rest →
  snapshot_ok (snapshot (Node.state <$> Vars.frontier v) (Vars.explored v)
                 (Node.state node)).
Proof.
  intros Hinv Hpop. pose proof (popped_elem _ _ _ _ _ _ Hpop) as Hnode.
  split; [apply (inv_nodup _ _ _ _ _ Hinv)|]. split.
  - simpl. intros x (n & -> & Hn)%list_elem_of_fmap.
    by apply (inv_fresh _ _ _ _ _ Hinv).
  - exists (Node.state node). split; [done|]. simpl.
    apply list_elem_of_fmap. eauto.
Qed.

Lemma snapshots_stable (pos : list string → option string) (g : Graph)
    (goal start : string) :
  stable pos g goal start snapshots_inv.
Proof.
  split; [constructor|].
  intros relax key v v' Hinv HJ
    [node rest cs Hpop Hgoal Hcs Habs Hexp Hsteps Hne Hng Hmax].
  unfold snapshots_inv. rewrite Hsteps. apply Forall_app. split; [done|].
  apply Forall_singleton. by eapply snapshot_ok_pop.
Qed.

Lemma end_snapshots (relax : bool) (key : Node.t → Z)
    (pos : list string → option string) (g : Graph) (goal start alg : string)
    (v : Vars.t Node.t unit) (r : Result Step.t) :
  search_inv pos g goal start v → snapshots_inv v →
  run_end relax key pos goal alg v r → Forall snapshot_ok (steps r).
Proof.
  intros Hinv HJ [[node rest alg' Hpop _ ->]|[_ ->]]; simpl; [|done].
  apply Forall_app. split; [done|].
  apply Forall_singleton. by eapply snapshot_ok_pop.
Qed.

(** ** The size of the frontier *)

Lemma frontier_length_bound (pos : list string → option string) (g : Graph)
    (goal start : string) (comp : list string) (v : Vars.t Node.t unit) :
  (∀ x, reachable g start x → x ∈ comp) → search_inv pos g goal start v →
  length (Vars.frontier v) ≤ Vars.nodes_generated v
  ∧ length (Vars.frontier v) ≤ length comp.
Proof.
  intros Hcomp Hinv. split.
  - pose proof (inv_generated _ _ _ _ _ Hinv). lia.
  - rewrite <- (length_fmap Node.state).
    apply submseteq_length, NoDup_submseteq; [apply (inv_nodup _ _ _ _ _ Hinv)|].
    intros x (n & -> & Hn)%list_elem_of_fmap.
    apply Hcomp. eapply node_ok_reachable. by apply (inv_ok _ _ _ _ _ Hinv).
Qed.

Lemma frontier_bound_stable (pos : list string → option string) (g : Graph)
    (goal start : string) (comp : list string) :
  (∀ x, reachable g start x → x ∈ comp) →
  stable pos g goal start (frontier_bound comp).
Proof.
  intros Hcomp. split.
  - split; simpl; [lia|].
    assert (start ∈ comp) as Hs by (apply Hcomp; exists 0%Z; constructor).
    destruct comp; [by apply elem_of_nil in Hs|simpl; lia].
  - intros relax key v v' Hinv [HJ1 HJ2]
      [node rest cs Hpop Hgoal Hcs Habs Hexp Hsteps Hne Hng Hmax].
    destruct (frontier_length_bound pos g goal start comp v Hcomp Hinv).
    unfold frontier_bound. rewrite Hmax, Hng. split; lia.
Qed.

Lemma end_frontier_bound (relax : bool) (key : Node.t → Z)
    (pos : list string → option string) (g : Graph) (goal start alg : string)
    (comp : list string) (v : Vars.t Node.t unit) (r : Result Step.t) :
  (∀ x, reachable g start x → x ∈ comp) →
  search_inv pos g goal start v → frontier_bound comp v →
  run_end relax key pos goal alg v r →
  max_frontier_size r ≤ nodes_generated r
  ∧ max_frontier_size r ≤ length comp.
Proof.
  intros Hcomp Hinv [HJ1 HJ2] [[node rest alg' Hpop _ ->]|[_ ->]]; simpl;
    [|done].
  destruct (frontier_length_bound pos g goal start comp v Hcomp Hinv).
  split; lia.
Qed.

(** ** Expansions, the goal found or not *)

Lemma end_expanded_all (relax : bool) (key : Node.t → Z)
    (pos : list string → option string) (g : Graph) (goal start alg : string)
    (comp : list string) (v : Vars.t Node.t unit) (r : Result Step.t) :
  (∀ x, reachable g start x → x ∈ comp) →
  search_inv pos g goal start v → run_end relax key pos goal alg v r →
  nodes_expanded r ≤ length comp.
Proof.
  intros Hcomp Hinv [[node rest alg' Hpop Hg ->]|[_ ->]]; simpl.
  - rewrite <- (inv_size _ _ _ _ _ Hinv).
    assert (size ({[goal]} ∪ Vars.explored v) = S (size (Vars.explored v)))
      as <-.
    { rewrite size_union, size_singleton; [done|].
      pose proof (inv_goal _ _ _ _ _ Hinv). set_solver. }
    apply size_le_list. intros x [->%elem_of_singleton|Hx]%elem_of_union.
    + apply Hcomp. rewrite <- Hg. eapply node_ok_reachable.
      apply (inv_ok _ _ _ _ _ Hinv). by eapply popped_elem.
    + by apply Hcomp, (inv_explored _ _ _ _ _ Hinv).
  - rewrite <- (inv_size _ _ _ _ _ Hinv). apply size_le_list.
    intros x Hx. by apply Hcomp, (inv_explored _ _ _ _ _ Hinv).
Qed.

(** ** The locations expanded, in order *)

Lemma currents_app (l1 l2 : list Step.t) :
  currents (l1 ++ l2) = currents l1 ++ currents l2.
Proof. unfold currents. apply omap_app. Qed.

Lemma currents_cons (s : Step.t) (l : list Step.t) (x : string) :
  Step.current s = Some x → currents (s :: l) = x :: currents l.
Proof. intros Hcur. unfold currents. simpl. by rewrite Hcur. Qed.

Lemma trace_from_currents (pos : list string → option string)
    (X0 : gset string) (l : list Step.t) (X : gset string) :
  trace_from pos X0 l X →
  NoDup (currents l) ∧ (∀ x, x ∈ currents l → x ∉ X0)
  ∧ (∀ x, x ∈ X ↔ x ∈ X0 ∨ x ∈ currents l)
  ∧ length (currents l) = length l.
Proof.
  induction 1 as [X|X s x rest X' Hexp Hcur Hpos Hx Hd Htrace IH].
  - split; [constructor|]. split; [by intros x ?%elem_of_nil|].
    split; [|done]. intros x. split; [auto|].
    by intros [?|?%elem_of_nil].
  - destruct IH as (Hnd & Hout & Hin & Hlen).
    rewrite (currents_cons s rest x Hcur). simpl.
    split.
    { apply NoDup_cons. split; [|done]. intros Hx'%Hout. set_solver. }
    split.
    { intros y [->|Hy%Hout]%elem_of_cons; [done|]. set_solver. }
    split; [|by rewrite Hlen].
    intros y. rewrite Hin, elem_of_cons, elem_of_union, elem_of_singleton.
    tauto.
Qed.

Lemma end_currents (relax : bool) (key : Node.t → Z)
    (pos : list string → option string) (g : Graph) (goal start alg : string)
    (v : Vars.t Node.t unit) (r : Result Step.t) :
  search_inv pos g goal start v → run_end relax key pos goal alg v r →
  NoDup (currents (steps r))
  ∧ length (currents (steps r)) = nodes_expanded r
  ∧ (∀ x, x ∈ currents (steps r) → reachable g start x)
  ∧ (path r ≠ [] → ∃ pre, currents (steps r) = pre ++ [goal] ∧ goal ∉ pre)
  ∧ (path r = [] → goal ∉ currents (steps r)).
Proof.
  intros Hinv Hend.
  destruct (trace_from_currents _ _ _ _ (inv_trace _ _ _ _ _ Hinv))
    as (Hnd & _ & Hin & Hlen).
  assert (∀ x, x ∈ currents (Vars.steps v) → x ∈ Vars.explored v) as Hsub.
  { intros x Hx. apply Hin. by right. }
  assert (goal ∉ currents (Vars.steps v)) as Hgoal.
  { intros Hg%Hsub. by apply (inv_goal _ _ _ _ _ Hinv). }
  destruct Hend as [[node rest alg' Hpop Hg ->]|[_ ->]]; simpl.
  - pose proof (popped_elem _ _ _ _ _ _ Hpop) as Hnode.
    rewrite currents_app.
    change (currents [snapshot _ _ (Node.state node)]) with [Node.state node].
    split_and!.
    + apply NoDup_app. split; [done|]. split; [|apply NoDup_singleton].
      intros x Hx%Hsub ->%list_elem_of_singleton.
      by apply (inv_fresh _ _ _ _ _ Hinv) in Hx.
    + rewrite length_app, Hlen, (inv_steps _ _ _ _ _ Hinv). simpl. lia.
    + intros x [Hx%Hsub| ->%list_elem_of_singleton]%elem_of_app.
      * by apply (inv_explored _ _ _ _ _ Hinv).
      * eapply node_ok_reachable. by apply (inv_ok _ _ _ _ _ Hinv).
    + intros _. exists (currents (Vars.steps v)). by rewrite Hg.
    + intros Hp. by destruct (node_path_nonempty node).
  - split_and!; try done.
    + by rewrite Hlen, (inv_steps _ _ _ _ _ Hinv).
    + intros x Hx%Hsub. by apply (inv_explored _ _ _ _ _ Hinv).
Qed.

(** ** Depth and length *)

Lemma path_back_length_child (n : Node.t) (e : string * Z) :
  length (Node.path_back (Node.child n e)) = S (length (Node.path_back n)).
Proof. done. Qed.

Lemma node_path_length (n : Node.t) :
  length (Node.path n) = length (Node.path_back n).
Proof. unfold Node.path. by rewrite length_reverse. Qed.

Lemma node_ok_depth (g : Graph) (start : string) (n : Node.t) :
  node_ok g start n →
  Z.of_nat (length (Node.path n)) = (Node.depth n + 1)%Z.
Proof.
  rewrite node_path_length.
  induction 1 as [|n neighbors e _ IH _ _]; [done|].
  rewrite path_back_length_child. simpl Node.depth. lia.
Qed.
(* ===================================================================== *)
(** * The depth limit                                                     *)
(* ===================================================================== *)

Lemma list_pop_Ret {A} (l r : list A) (x : A) :
  list_pop l = Ret (x, r) → l = r ++ [x].
Proof.
  unfold list_pop. destruct (reverse l) as [|y t] eqn:Hrev; [done|].
  intros [= <- <-]. rewrite <- (reverse_involutive l), Hrev.
  by rewrite reverse_cons.
Qed.

Lemma dfs_child_elem (X : gset string) (cs F F' : list Node.t)
    (fs fs' : gset string) (ng ng' : nat) :
  fold_left (dfs_child X) cs (F, fs, ng) = (F', fs', ng') →
  ∀ n, n ∈ F' → n ∈ F ∨ n ∈ cs.
Proof.
  revert F fs ng. induction cs as [|c cs IH]; intros F fs ng; simpl.
  - intros [= <- <- <-]. auto.
  - destruct (bool_decide (Node.state c ∉ X)
              && bool_decide (Node.state c ∉ fs)).
    + intros Hfold n Hn. destruct (IH _ _ _ Hfold n Hn) as [Hin|Hin].
      * apply elem_of_app in Hin as [Hin| ->%list_elem_of_singleton];
          [by left|right; left].
      * right. by right.
    + intros Hfold n Hn. destruct (IH _ _ _ Hfold n Hn) as [Hin|Hin];
        [by left|right; by right].
Qed.

Lemma dls_body_depth (g : Graph) (goal start : string) (depth_limit : Z)
    (st st' : Vars.t Node.t (gset string)) :
  depth_inv start depth_limit st →
  dls_body g goal depth_limit st = Ret (Next st') →
  depth_inv start depth_limit st'.
Proof.
  intros Hd. unfold dls_body.
  intros ([node init] & HF%list_pop_Ret & Hb)%bind_Ret.
  apply bind_Ret in Hb as (fs & _ & Hb).
  assert (∀ n, n ∈ init → (Node.depth n ≤ depth_limit)%Z ∨ n = Node.root start)
    as Hinit.
  { intros n Hn. apply Hd. rewrite HF, elem_of_app. by left. }
  destruct (decide (Node.state node = goal)); [done|].
  destruct (decide (Node.depth node < depth_limit)%Z) as [Hlt|Hge].
  - apply bind_Ret in Hb as (children & Hex & Hb).
    apply expand_Ret in Hex as (neighbors & _ & ->).
    destruct (fold_left _ _ _) as [[F' fs'] ng'] eqn:Hfold.
    injection Hb as <-. intros m Hm. simpl in Hm.
    destruct (dfs_child_elem _ _ _ _ _ _ _ _ Hfold m Hm) as [Hin|Hin]; [auto|].
    rewrite elem_of_reverse in Hin.
    apply list_elem_of_fmap in Hin as (e & -> & _). left. simpl. lia.
  - injection Hb as <-. exact Hinit.
Qed.

Lemma dls_body_spec_depth (key : Node.t → Z) (g : Graph) (goal start : string)
    (depth_limit : Z) :
  body_spec false key last g goal start
    (λ st, states_agree st ∧ depth_inv start depth_limit st)
    (dls_body g goal depth_limit).
Proof.
  intros st [HL Hd] Hinv Hne.
  pose proof (dls_body_spec key g goal start depth_limit st HL Hinv Hne) as Hspec.
  destruct (dls_body g goal depth_limit st) as [[st'|r]|e|] eqn:Hb; try done.
  destruct Hspec as [Hstep HL']. split; [done|]. split; [done|].
  by eapply dls_body_depth.
Qed.

(** A path that depth-limited search finds has at most [depth_limit]
    edges. *)
Lemma dls_depth_bound (fuel : nat) (g : Graph) (start goal : string)
    (depth_limit : Z) (r : Result Step.t) :
  start ≠ goal →
  depth_limited_search fuel g start goal depth_limit = Ret r → path r ≠ [] →
  (2 ≤ Z.of_nat (length (path r)) ≤ depth_limit + 1)%Z.
Proof.
  intros Hne. unfold depth_limited_search. rewrite decide_False by done.
  intros Hrun Hp.
  eapply (run_partial false Node.path_cost last g goal start
            (λ st, states_agree st ∧ depth_inv start depth_limit st)
            (λ _, True))
    in Hrun as (st & ((_ & Hd) & Hinv & _) & Hend);
    eauto using dls_body_spec_depth.
  - destruct Hend as [[node rest alg' Hpop Hg ->]|[_ ->]]; [|done].
    simpl. pose proof (popped_elem _ _ _ _ _ _ Hpop) as Hnode.
    pose proof (inv_ok _ _ _ _ _ Hinv _ Hnode) as Hok.
    rewrite (node_ok_depth _ _ _ Hok).
    rewrite view_frontier_node in Hnode.
    destruct (Hd node Hnode) as [Hle| ->]; [|done].
    assert (node ≠ Node.root start) as Hroot by (by intros ->).
    destruct Hok as [|n neighbors e Hn _ _]; [done|].
    apply node_ok_depth in Hn. pose proof (node_path_nonempty n) as Hnil.
    destruct (Node.path n); [done|]. cbn [Node.depth Node.child] in *.
    simpl in Hn. lia.
  - split; [split|].
    + exact (singleton_agree start).
    + intros n [->|[]%elem_of_nil]%elem_of_cons. by right.
    + split; [apply search_inv_init|done].
Qed.

(** ** Iterative deepening *)

Lemma range_lookup (n : Z) (i : nat) (x : Z) :
  range n !! i = Some x → x = Z.of_nat i ∧ (0 ≤ x < n)%Z.
Proof.
  unfold range. rewrite list_lookup_fmap.
  destruct (seq 0 (Z.to_nat n) !! i) as [k|] eqn:Hk; [|done].
  apply lookup_seq in Hk as [-> Hlt]. simpl. intros [= <-]. lia.
Qed.

Lemma tagged_below_mono (b b' : Z) (s : Step.t) :
  (b ≤ b')%Z → tagged_below b s → tagged_below b' s.
Proof. intros Hle (d & Hd & Hr). exists d. split; [done|lia]. Qed.

Section deepening.
Context (g : Graph) (start goal : string) (fuel : nat).
Hypothesis Hne : start ≠ goal.

Lemma dls_steps_length (depth : Z) (r : Result Step.t) :
  depth_limited_search fuel g start goal depth = Ret r →
  length (steps r) = nodes_expanded r.
Proof.
  intros (v & Hinv & Hend)%dls_run; [|done].
  by destruct (end_trace _ _ _ _ _ _ _ _ _ Hinv Hend) as [Hlen _].
Qed.

Lemma ids_first_success (max_depth : Z) (r : Result Step.t) :
  iterative_deepening_search fuel g start goal max_depth = Ret r →
  length (steps r) = nodes_expanded r
  ∧ Forall (tagged_below max_depth) (steps r)
  ∧ (path r ≠ [] → first_success fuel g start goal max_depth r)
  ∧ (path r = [] →
       ∀ d, (0 ≤ d < max_depth)%Z → dls_fails fuel g start goal d).
Proof.
  unfold iterative_deepening_search. rewrite decide_False by done.
  intros (fl & Hloop & Hfl)%bind_Ret.
  eapply (for_loop_rule (deepening_inv fuel g start goal)
            (λ r, length (steps r) = nodes_expanded r
                  ∧ Forall (tagged_below max_depth) (steps r)
                  ∧ first_success fuel g start goal max_depth r)) in Hloop.
  - destruct fl as [[[[te tg] mf] all_steps]|r'].
    + injection Hfl as <-. destruct Hloop as (Hfail & Hlen & Htag).
      rewrite range_length in Hfail, Htag. simpl in *.
      split; [done|]. split.
      { eapply Forall_impl; [exact Htag|]. intros s (d & Hd & Hr).
        exists d. split; [done|lia]. }
      split; [done|]. intros _ d Hd.
      replace d with (Z.of_nat (Z.to_nat d)) by lia. apply Hfail. lia.
    + injection Hfl as <-. destruct Hloop as (Hlen & Htag & Hfirst).
      split; [done|]. split; [done|]. split; [done|].
      intros Hp. by destruct Hfirst as (_ & _ & _ & _ & _ & _ & ? & _).
  - intros i depth [[[te tg] mf] all_steps] st' Hi (Hfail & Hlen & Htag).
    apply range_lookup in Hi as [-> Hrange].
    unfold ids_body. intros (res & Hdls & Hres)%bind_Ret.
    case_bool_decide as Hp; [done|]. injection Hres as <-.
    split; [|split]; simpl in *.
    + intros j Hj. destruct (decide (j = i)) as [->|Hji]; [by exists res|].
      apply Hfail. lia.
    + rewrite length_app, length_fmap, (dls_steps_length _ _ Hdls). lia.
    + apply Forall_app. split.
      * eapply Forall_impl; [exact Htag|]. intros s. apply tagged_below_mono. lia.
      * apply Forall_fmap, Forall_forall. intros s _.
        exists (Z.of_nat i). split; [done|lia].
  - intros i depth [[[te tg] mf] all_steps] r' Hi (Hfail & Hlen & Htag).
    apply range_lookup in Hi as [-> Hrange].
    unfold ids_body. intros (res & Hdls & Hres)%bind_Ret.
    case_bool_decide as Hp; [|done]. injection Hres as <-. simpl in *.
    split; [|split].
    + rewrite length_app, length_fmap, (dls_steps_length _ _ Hdls). lia.
    + apply Forall_app. split.
      * eapply Forall_impl; [exact Htag|]. intros s. apply tagged_below_mono. lia.
      * apply Forall_fmap, Forall_forall. intros s _.
        exists (Z.of_nat i). split; [done|lia].
    + exists (Z.of_nat i), res. simpl. split_and!; try done; try lia.
      * intros d' Hd'. replace d' with (Z.of_nat (Z.to_nat d')) by lia.
        apply Hfail. lia.
      * pose proof (dls_depth_bound _ _ _ _ _ _ Hne Hdls Hp). lia.
  - split; [intros j Hj; lia|]. split; [done|constructor].
Qed.

End deepening.
(* ===================================================================== *)
(** * A start that is no key of the graph                                 *)
(* ===================================================================== *)

Lemma while_loop_Raise {St R} (cond : St → bool)
    (body : St → outcome (flow St R)) (fuel : nat) (st : St) (e : exn) :
  cond st = true → body st = Raise e →
  while_loop cond body (S fuel) st = Raise e.
Proof. intros Hc Hb. simpl. by rewrite Hc, Hb. Qed.

Lemma while_loop_once {St R} (cond : St → bool)
    (body : St → outcome (flow St R)) (fuel : nat) (st st' : St) :
  cond st = true → body st = Ret (Next st') → cond st' = false →
  while_loop cond body (S (S fuel)) st = Ret (Next st').
Proof. intros Hc Hb Hc'. simpl. by rewrite Hc, Hb, Hc'. Qed.

Lemma expand_missing (g : Graph) (n : Node.t) :
  Node.state n ∉ dict_keys g → Node.expand g n = Raise (KeyError (Node.state n)).
Proof.
  intros Hn%dict_get_None. unfold Node.expand, dict_getitem. by rewrite Hn.
Qed.

Section missing_start.
Context (g : Graph) (start goal : string) (fuel : nat).
Hypothesis Hne : start ≠ goal.
Hypothesis Hmissing : start ∉ dict_keys g.

Lemma bfs_missing_start :
  breadth_first_search (S fuel) g start goal = Raise (KeyError start).
Proof.
  unfold breadth_first_search, finish. rewrite decide_False by done.
  rewrite (while_loop_Raise _ _ _ _ (KeyError start)); [done|done|].
  unfold bfs_body. cbn [Vars.frontier list_popleft bind Node.state Node.root].
  rewrite decide_False by done. by rewrite expand_missing.
Qed.

Lemma dfs_missing_start :
  depth_first_search (S fuel) g start goal = Raise (KeyError start).
Proof.
  unfold depth_first_search, finish. rewrite decide_False by done.
  rewrite (while_loop_Raise _ _ _ _ (KeyError start)); [done|done|].
  unfold dfs_body, set_remove.
  cbn [Vars.frontier Vars.frontier_states list_pop reverse rev_append bind
       Node.state Node.root].
  rewrite decide_True by set_solver. cbn [bind].
  rewrite decide_False by done. by rewrite expand_missing.
Qed.

Lemma ucs_missing_start :
  uniform_cost_search (S fuel) g start goal = Raise (KeyError start).
Proof.
  unfold uniform_cost_search, finish. rewrite decide_False by done.
  rewrite (while_loop_Raise _ _ _ _ (KeyError start)); [done|done|].
  unfold ucs_body, set_remove.
  change (heapq.heappop (Vars.frontier _))
    with (Ret ((0%Z, Node.root start), @nil (Z * Node.t))).
  cbn [Vars.frontier_states bind Node.state Node.root snd].
  rewrite decide_True by set_solver. cbn [bind].
  rewrite decide_False by done. by rewrite expand_missing.
Qed.

Lemma greedy_missing_start (heuristic_data : gmap string Z) :
  greedy_search (S fuel) g start goal heuristic_data = Raise (KeyError start).
Proof.
  unfold greedy_search, finish. rewrite decide_False by done.
  rewrite get_heuristic_value. cbn [bind].
  rewrite (while_loop_Raise _ _ _ _ (KeyError start)); [done|done|].
  unfold greedy_body, set_remove.
  change (heapq.heappop (Vars.frontier _))
    with (Ret ((heuristic_value goal heuristic_data start, Node.root start),
               @nil (Z * Node.t))).
  cbn [Vars.frontier_states bind Node.state Node.root snd].
  rewrite decide_True by set_solver. cbn [bind].
  rewrite decide_False by done. by rewrite expand_missing.
Qed.

Lemma astar_missing_start (id : nat → Z) (heuristic_data : gmap string Z) :
  a_star_search id (S fuel) g start goal heuristic_data
  = Raise (KeyError start).
Proof.
  unfold a_star_search, finish. rewrite decide_False by done.
  rewrite get_heuristic_value. cbn [bind].
  rewrite (while_loop_Raise _ _ _ _ (KeyError start)); [done|done|].
  unfold astar_body, map_delitem.
  change (heapq.heappop (Vars.frontier _))
    with (Ret (((Node.path_cost (Node.root start)
                 + heuristic_value goal heuristic_data start)%Z, id 1,
                Node.root start),
               @nil (Z * Z * Node.t))).
  cbn [Vars.frontier_states bind Node.state Node.root snd].
  rewrite lookup_singleton_eq. cbn [bind].
  rewrite decide_False by done. by rewrite expand_missing.
Qed.

(** With a limit above 0 the root is expanded; with a limit of 0 or less
    it is popped and left alone, and the search ends on an empty frontier
    without a look at the graph. *)
Lemma dls_missing_start (depth_limit : Z) :
  (0 < depth_limit)%Z →
  depth_limited_search (S fuel) g start goal depth_limit
  = Raise (KeyError start).
Proof.
  intros Hlimit.
  unfold depth_limited_search, finish. rewrite decide_False by done.
  rewrite (while_loop_Raise _ _ _ _ (KeyError start)); [done|done|].
  unfold dls_body, set_remove.
  cbn [Vars.frontier Vars.frontier_states list_pop reverse rev_append bind
       Node.state Node.root Node.depth].
  rewrite decide_True by set_solver. cbn [bind].
  rewrite decide_False by done. rewrite decide_True by done.
  by rewrite expand_missing.
Qed.

End missing_start.

Lemma dls_limit_zero (g : Graph) (start goal : string) (fuel : nat)
    (depth_limit : Z) :
  start ≠ goal → (depth_limit ≤ 0)%Z →
  depth_limited_search (S (S fuel)) g start goal depth_limit
  = Ret (no_path_result "dls" 1 1 1
           [snapshot [start] ∅ start]).
Proof.
  intros Hne Hlimit.
  unfold depth_limited_search, finish. rewrite decide_False by done.
  assert (dls_body g goal depth_limit
            (Vars.mk [Node.root start] {[start]} ∅ [] 0 1 1)
          = Ret (Next (Vars.mk [] ({[start]} ∖ {[start]}) ({[start]} ∪ ∅)
                         [snapshot [start] ∅ start] 1 1 1))) as Hb.
  { unfold dls_body, set_remove.
    cbn [Vars.frontier Vars.frontier_states list_pop reverse rev_append bind
         Node.state Node.root Node.depth].
    rewrite decide_True by set_solver. cbn [bind].
    rewrite decide_False by done. by rewrite decide_False by lia. }
  by rewrite (while_loop_once _ _ _ _ _ eq_refl Hb eq_refl).
Qed.

Lemma ids_missing_start (g : Graph) (start goal : string) (fuel : nat)
    (max_depth : Z) :
  start ≠ goal → start ∉ dict_keys g → (2 ≤ max_depth)%Z →
  iterative_deepening_search (S (S fuel)) g start goal max_depth
  = Raise (KeyError start).
Proof.
  intros Hne Hmissing Hdepth.
  unfold iterative_deepening_search. rewrite decide_False by done.
  unfold range.
  destruct (Z.to_nat max_depth) as [|[|k]] eqn:Hk; [lia|lia|].
  cbn [seq fmap list_fmap for_loop]. unfold ids_body at 1.
  rewrite (dls_limit_zero g start goal fuel (Z.of_nat 0) Hne) by done.
  cbn [bind path no_path_result]. rewrite bool_decide_eq_false_2 by (by intros ?).
  unfold ids_body at 1.
  rewrite (dls_missing_start g start goal (S fuel) Hne Hmissing (Z.of_nat 1))
    by done.
  done.
Qed.

Lemma bidi_missing_start (g rg : Graph) (start goal : string) (fuel : nat) :
  start ≠ goal → start ∉ dict_keys g → make_reverse_graph g = Ret rg →
  bidirectional_search (S fuel) g start goal = Raise (KeyError start).
Proof.
  intros Hne Hmissing Hrg.
  unfold bidirectional_search. rewrite decide_False by done.
  rewrite Hrg. cbn [bind].
  rewrite (while_loop_Raise _ _ _ _ (KeyError start)); [done|done|].
  unfold bidi_body.
  cbn [BiVars.forward_frontier BiVars.backward_explored list_popleft bind
       Node.state Node.root].
  change (dict_contains (@nil (string * Node.t)) start) with false.
  cbn match. by rewrite expand_missing.
Qed.
(* ===================================================================== *)
(** * The name a result carries                                           *)
(* ===================================================================== *)

Lemma finish_label {E FS} (alg : string) (cond : Vars.t E FS → bool)
    (body : Vars.t E FS → outcome (flow (Vars.t E FS) (Result Step.t)))
    (fuel : nat) (st0 : Vars.t E FS) (r : Result Step.t) :
  (∀ st r, body st = Ret (Return r) → algorithm r = alg) →
  finish alg (while_loop cond body fuel st0) = Ret r → algorithm r = alg.
Proof.
  intros Hbody (fl & Hloop & Hfl)%bind_Ret.
  eapply (while_loop_rule (λ _, True) (λ r, algorithm r = alg)) in Hloop;
    [|done|by eauto|done].
  destruct fl as [st|r']; [by injection Hfl as <-|].
  by injection Hfl as <-.
Qed.

Lemma bfs_body_label (g : Graph) (goal : string) st r :
  bfs_body g goal st = Ret (Return r) → algorithm r = "bfs".
Proof.
  unfold bfs_body. intros ([node f] & _ & Hb)%bind_Ret.
  destruct (decide (Node.state node = goal)); [by injection Hb as <-|].
  apply bind_Ret in Hb as (children & _ & Hb).
  by destruct (fold_left _ _ _).
Qed.

Lemma ucs_body_label (g : Graph) (goal : string) st r :
  ucs_body g goal st = Ret (Return r) → algorithm r = "ucs".
Proof.
  unfold ucs_body. intros ([entry f] & _ & Hb)%bind_Ret.
  apply bind_Ret in Hb as (fs & _ & Hb).
  destruct (decide (Node.state entry.2 = goal)); [by injection Hb as <-|].
  apply bind_Ret in Hb as (children & _ & Hb).
  by destruct (fold_left _ _ _) as [[? ?] ?].
Qed.

Lemma dfs_body_label (g : Graph) (goal : string) st r :
  dfs_body g goal st = Ret (Return r) → algorithm r = "dfs".
Proof.
  unfold dfs_body. intros ([node f] & _ & Hb)%bind_Ret.
  apply bind_Ret in Hb as (fs & _ & Hb).
  destruct (decide (Node.state node = goal)); [by injection Hb as <-|].
  apply bind_Ret in Hb as (children & _ & Hb).
  by destruct (fold_left _ _ _) as [[? ?] ?].
Qed.

Lemma dls_body_label (g : Graph) (goal : string) (depth_limit : Z) st r :
  dls_body g goal depth_limit st = Ret (Return r) → algorithm r = "dls".
Proof.
  unfold dls_body. intros ([node f] & _ & Hb)%bind_Ret.
  apply bind_Ret in Hb as (fs & _ & Hb).
  destruct (decide (Node.state node = goal)); [by injection Hb as <-|].
  destruct (decide (Node.depth node < depth_limit)%Z); [|done].
  apply bind_Ret in Hb as (children & _ & Hb).
  by destruct (fold_left _ _ _) as [[? ?] ?].
Qed.

Lemma greedy_body_label (g : Graph) (goal : string)
    (heuristic_data : gmap string Z) st r :
  greedy_body g goal heuristic_data st = Ret (Return r) →
  algorithm r = "greedy".
Proof.
  unfold greedy_body. intros ([entry f] & _ & Hb)%bind_Ret.
  apply bind_Ret in Hb as (fs & _ & Hb).
  destruct (decide (Node.state entry.2 = goal)); [by injection Hb as <-|].
  apply bind_Ret in Hb as (children & _ & Hb).
  by apply bind_Ret in Hb as ([[? ?] ?] & _ & Hb).
Qed.

Lemma astar_body_label (id : nat → Z) (g : Graph) (goal : string)
    (heuristic_data : gmap string Z) st r :
  astar_body id g goal heuristic_data st = Ret (Return r) →
  algorithm r = "astar".
Proof.
  unfold astar_body. intros ([entry f] & _ & Hb)%bind_Ret.
  apply bind_Ret in Hb as (fs & _ & Hb).
  destruct (decide (Node.state entry.2 = goal)); [by injection Hb as <-|].
  apply bind_Ret in Hb as (children & _ & Hb).
  by apply bind_Ret in Hb as ([[? ?] ?] & _ & Hb).
Qed.

Lemma bidi_body_label (g rg : Graph) st r :
  bidi_body g rg st = Ret (Return r) → algorithm r = "bidirectional".
Proof.
  assert (∀ f b ne ng mf l res,
    join f b ne ng mf l = Ret res → algorithm res = "bidirectional") as Hjoin.
  { intros f b ne ng mf l res. unfold join.
    intros ([? ?] & _ & [= <-])%bind_Ret. done. }
  unfold bidi_body. intros ([fnode ff] & _ & Hb)%bind_Ret.
  destruct (dict_contains _ _).
  - apply bind_Ret in Hb as (bnode & _ & Hb).
    apply bind_Ret in Hb as (res & Hres & [= <-]). by eapply Hjoin.
  - apply bind_Ret in Hb as (children & _ & Hb).
    destruct (fold_left _ _ _) as [ff' ng'].
    apply bind_Ret in Hb as ([bnode bf] & _ & Hb).
    destruct (dict_contains _ _).
    + apply bind_Ret in Hb as (fnode' & _ & Hb).
      apply bind_Ret in Hb as (res & Hres & [= <-]). by eapply Hjoin.
    + apply bind_Ret in Hb as (children' & _ & Hb).
      by destruct (fold_left _ _ _) as [bf' ng''].
Qed.

Section labels.
Context (id : nat → Z) (fuel : nat) (g : Graph) (start goal : string).
Context (depth_limit max_depth : Z) (heuristic_data : gmap string Z).

Lemma bfs_label :
  returns (breadth_first_search fuel g start goal) (λ r, algorithm r = "bfs").
Proof.
  intros r. unfold breadth_first_search.
  destruct (decide (start = goal)); [by intros [= <-]|].
  apply finish_label. apply bfs_body_label.
Qed.

Lemma ucs_label :
  returns (uniform_cost_search fuel g start goal) (λ r, algorithm r = "ucs").
Proof.
  intros r. unfold uniform_cost_search.
  destruct (decide (start = goal)); [by intros [= <-]|].
  apply finish_label. apply ucs_body_label.
Qed.

Lemma dfs_label :
  returns (depth_first_search fuel g start goal) (λ r, algorithm r = "dfs").
Proof.
  intros r. unfold depth_first_search.
  destruct (decide (start = goal)); [by intros [= <-]|].
  apply finish_label. apply dfs_body_label.
Qed.

Lemma dls_label :
  returns (depth_limited_search fuel g start goal depth_limit)
    (λ r, algorithm r = "dls").
Proof.
  intros r. unfold depth_limited_search.
  destruct (decide (start = goal)); [by intros [= <-]|].
  apply finish_label. apply dls_body_label.
Qed.

Lemma greedy_label :
  returns (greedy_search fuel g start goal heuristic_data)
    (λ r, algorithm r = "greedy").
Proof.
  intros r. unfold greedy_search.
  destruct (decide (start = goal)); [by intros [= <-]|].
  rewrite get_heuristic_value. cbn [bind].
  apply finish_label. apply greedy_body_label.
Qed.

Lemma astar_label :
  returns (a_star_search id fuel g start goal heuristic_data)
    (λ r, algorithm r = "astar").
Proof.
  intros r. unfold a_star_search.
  destruct (decide (start = goal)); [by intros [= <-]|].
  rewrite get_heuristic_value. cbn [bind].
  apply finish_label. apply astar_body_label.
Qed.

Lemma ids_label :
  returns (iterative_deepening_search fuel g start goal max_depth)
    (λ r, algorithm r = "ids").
Proof.
  intros r. unfold iterative_deepening_search.
  destruct (decide (start = goal)); [by intros [= <-]|].
  intros (fl & Hloop & Hfl)%bind_Ret.
  eapply (for_loop_rule (λ _ _, True) (λ r, algorithm r = "ids")) in Hloop;
    [|done| |done].
  - destruct fl as [[[[te tg] mf] all_steps]|r']; by injection Hfl as <-.
  - intros i depth [[[te tg] mf] all_steps] r' _ _. unfold ids_body.
    intros (res & _ & Hres)%bind_Ret.
    case_bool_decide; [|done]. by injection Hres as <-.
Qed.

Lemma bidi_label :
  returns (bidirectional_search fuel g start goal)
    (λ r, algorithm r = "bidirectional").
Proof.
  intros r. unfold bidirectional_search.
  destruct (decide (start = goal)); [by intros [= <-]|].
  intros (rg & _ & Hb)%bind_Ret. apply bind_Ret in Hb as (fl & Hloop & Hfl).
  eapply (while_loop_rule (λ _, True) (λ r, algorithm r = "bidirectional"))
    in Hloop; [|done|intros st r' _ _; apply bidi_body_label|done].
  destruct fl as [st|r']; by injection Hfl as <-.
Qed.

End labels.
(* ===================================================================== *)
(** * The heuristic table and the goals it is not made for                *)
(* ===================================================================== *)

Lemma foldM_ext {X St} (f f' : St → X → outcome St) (st : St) (xs : list X) :
  (∀ st x, f st x = f' st x) → foldM f st xs = foldM f' st xs.
Proof.
  intros Hext. revert st. induction xs as [|x xs IH]; intros st; [done|].
  simpl. rewrite Hext. destruct (f' st x); [apply IH|done|done].
Qed.

Lemma while_loop_ext {St R} (cond : St → bool)
    (body body' : St → outcome (flow St R)) (fuel : nat) (st : St) :
  (∀ st, body st = body' st) →
  while_loop cond body fuel st = while_loop cond body' fuel st.
Proof.
  intros Hext. revert st. induction fuel as [|fuel IH]; intros st; [done|].
  simpl. rewrite Hext. destruct (cond st); [|done].
  destruct (body' st) as [[st'|r]| |]; [apply IH|done|done|done].
Qed.

Lemma heuristic_other_goal (state goal : string) (heuristic_data : gmap string Z) :
  goal ≠ designated_goal → heuristic_value goal heuristic_data state = 0%Z.
Proof. intros Hg. unfold heuristic_value. by rewrite decide_False. Qed.

Lemma consistent_other_goal (g : Graph) (goal : string)
    (heuristic_data : gmap string Z) :
  goal ≠ designated_goal → nonneg_weights g →
  consistent (heuristic_value goal heuristic_data) g.
Proof.
  intros Hg Hnn. unfold nonneg_weights, consistent, forall_edges in *.
  eapply Forall_impl; [exact Hnn|]. intros item Hitem.
  eapply Forall_impl; [exact Hitem|]. intros e He. simpl in *.
  rewrite !heuristic_other_goal by done. lia.
Qed.

Section other_goal.
Context (g : Graph) (goal : string) (hd hd' : gmap string Z).
Hypothesis Hgoal : goal ≠ designated_goal.

Lemma get_heuristic_other (state : string) :
  get_heuristic state goal hd = get_heuristic state goal hd'.
Proof. rewrite !get_heuristic_value. by rewrite !heuristic_other_goal. Qed.

Lemma greedy_child_other X acc c :
  greedy_child goal hd X acc c = greedy_child goal hd' X acc c.
Proof.
  unfold greedy_child. destruct acc as [[F fs] ng].
  by rewrite (get_heuristic_other (Node.state c)).
Qed.

Lemma greedy_body_other st :
  greedy_body g goal hd st = greedy_body g goal hd' st.
Proof.
  unfold greedy_body.
  destruct (heapq.heappop (Vars.frontier st)) as [[entry F]| |]; cbn [bind];
    [|done|done].
  destruct (set_remove _ _) as [fs| |]; cbn [bind]; [|done|done].
  destruct (decide (Node.state entry.2 = goal)); [done|].
  destruct (Node.expand g entry.2) as [children| |]; cbn [bind]; [|done|done].
  by rewrite (foldM_ext _ _ _ _ (greedy_child_other _)).
Qed.

Lemma astar_child_other (id : nat → Z) X acc c :
  astar_child id goal hd X acc c = astar_child id goal hd' X acc c.
Proof.
  unfold astar_child. destruct acc as [[F fs] ng].
  by rewrite (get_heuristic_other (Node.state c)).
Qed.

Lemma astar_body_other (id : nat → Z) st :
  astar_body id g goal hd st = astar_body id g goal hd' st.
Proof.
  unfold astar_body.
  destruct (heapq.heappop (Vars.frontier st)) as [[entry F]| |]; cbn [bind];
    [|done|done].
  destruct (map_delitem _ _) as [fs| |]; cbn [bind]; [|done|done].
  destruct (decide (Node.state entry.2 = goal)); [done|].
  destruct (Node.expand g entry.2) as [children| |]; cbn [bind]; [|done|done].
  by rewrite (foldM_ext _ _ _ _ (astar_child_other id _)).
Qed.

Lemma greedy_search_other (fuel : nat) (start : string) :
  greedy_search fuel g start goal hd = greedy_search fuel g start goal hd'.
Proof.
  unfold greedy_search. destruct (decide (start = goal)); [done|].
  rewrite (get_heuristic_other start).
  destruct (get_heuristic start goal hd') as [h| |]; cbn [bind]; [|done|done].
  by rewrite (while_loop_ext _ _ _ _ _ greedy_body_other).
Qed.

Lemma astar_search_other (id : nat → Z) (fuel : nat) (start : string) :
  a_star_search id fuel g start goal hd = a_star_search id fuel g start goal hd'.
Proof.
  unfold a_star_search. destruct (decide (start = goal)); [done|].
  rewrite (get_heuristic_other start).
  destruct (get_heuristic start goal hd') as [h| |]; cbn [bind]; [|done|done].
  by rewrite (while_loop_ext _ _ _ _ _ (astar_body_other id)).
Qed.

End other_goal.
(* ===================================================================== *)
(** * The reverse graph is the transpose                                  *)
(* ===================================================================== *)

Lemma weight_functional (g : Graph) (u v : string) (w w' : Z) :
  graph_wf g → edge g u v w → edge g u v w' → w = w'.
Proof.
  intros Hwf Hw%weight_edge Hw'%weight_edge; [|done|done]. congruence.
Qed.

(** One assignment [reverse_graph[neighbor][city] = distance]. *)
Lemma reverse_graph_edge_weight (rg rg' : Graph) (city v : string) (w : Z) :
  reverse_graph_edge city rg (v, w) = Ret rg' →
  v ∈ dict_keys rg ∧ dict_keys rg' = dict_keys rg
  ∧ ∀ a b, weight rg' a b
           = if decide (a = v ∧ b = city) then Some w else weight rg a b.
Proof.
  unfold reverse_graph_edge, dict_getitem.
  destruct (dict_get rg v) as [inner|] eqn:Hget; [|done]. cbn [bind].
  intros [= <-].
  assert (v ∈ dict_keys rg) as Hv by (apply dict_get_is_Some; eauto).
  split; [done|]. split; [by apply dict_keys_setitem_in|].
  intros a b. unfold weight.
  destruct (decide (v = a)) as [<-|Ha].
  - rewrite dict_get_setitem_eq, Hget.
    destruct (decide (city = b)) as [<-|Hb].
    + rewrite dict_get_setitem_eq. by rewrite decide_True.
    + rewrite dict_get_setitem_ne by done.
      rewrite decide_False; [done|]. by intros [_ ->].
  - rewrite dict_get_setitem_ne by done.
    rewrite decide_False; [done|]. by intros [-> _].
Qed.

Section transpose.
Context (g : Graph).
Hypothesis Hwf : graph_wf g.

(** The entries written for edges of the graph are never written over
    with another weight. *)
Lemma reverse_city_weight (city : string) (neighbors : dict Z) (rg rg' : Graph) :
  (∀ e, e ∈ neighbors → edge g city e.1 e.2) →
  foldM (reverse_graph_edge city) rg neighbors = Ret rg' →
  dict_keys rg' = dict_keys rg
  ∧ Forall (λ e : string * Z, e.1 ∈ dict_keys rg) neighbors
  ∧ (∀ c v w, edge g c v w → weight rg v c = Some w → weight rg' v c = Some w)
  ∧ (∀ e, e ∈ neighbors → weight rg' e.1 city = Some e.2).
Proof.
  revert rg. induction neighbors as [|[v w] neighbors IH]; intros rg Hedges;
    cbn [foldM].
  - intros [= <-]. split; [done|]. split; [constructor|]. split; [done|].
    by intros e ?%elem_of_nil.
  - destruct (reverse_graph_edge city rg (v, w)) as [rg1| |] eqn:Hstep;
      try done.
    apply reverse_graph_edge_weight in Hstep as (Hv & Hk1 & Hw1).
    intros Hrest.
    destruct (IH rg1) as (Hk & Hall & Hkeep & Hnew); [|done|].
    { intros e He. apply Hedges. by right. }
    assert (edge g city v w) as Hvw by (apply (Hedges (v, w)); left).
    assert (∀ c x y, edge g c x y → weight rg x c = Some y →
              weight rg1 x c = Some y) as Hkeep1.
    { intros c x y Hcxy Hold. rewrite Hw1.
      destruct (decide (x = v ∧ c = city)) as [[-> ->]|_]; [|done].
      f_equal. by eapply weight_functional. }
    split; [by rewrite Hk, Hk1|]. split.
    { constructor; [done|]. by rewrite Hk1 in Hall. }
    split; [by eauto|].
    intros e [->|He]%elem_of_cons; [|by apply Hnew].
    simpl. apply (Hkeep city v w Hvw). rewrite Hw1. by rewrite decide_True.
Qed.

Lemma reverse_cities_weight (items : list (string * dict Z)) (rg rg' : Graph) :
  (∀ item, item ∈ items → item ∈ g) →
  foldM reverse_graph_city rg items = Ret rg' →
  dict_keys rg' = dict_keys rg
  ∧ Forall (λ item : string * dict Z,
              Forall (λ e : string * Z, e.1 ∈ dict_keys rg) item.2) items
  ∧ (∀ c v w, edge g c v w → weight rg v c = Some w → weight rg' v c = Some w)
  ∧ (∀ city neighbors e, (city, neighbors) ∈ items → e ∈ neighbors →
       weight rg' e.1 city = Some e.2).
Proof.
  revert rg. induction items as [|[city neighbors] items IH]; intros rg Hsub;
    cbn [foldM].
  - intros [= <-]. split; [done|]. split; [constructor|]. split; [done|].
    by intros city neighbors e ?%elem_of_nil.
  - unfold reverse_graph_city at 1.
    destruct (foldM (reverse_graph_edge city) rg neighbors) as [rg1| |]
      eqn:Hcity; try done.
    assert (∀ e, e ∈ neighbors → edge g city e.1 e.2) as Hedges.
    { intros [v w] He. exists neighbors. split; [|done].
      apply dict_get_elem_wf; [apply Hwf|]. apply Hsub. left. }
    apply reverse_city_weight in Hcity as (Hk1 & Hall1 & Hkeep1 & Hnew1);
      [|done].
    intros Hrest.
    destruct (IH rg1) as (Hk & Hall & Hkeep & Hnew); [|done|].
    { intros item Hitem. apply Hsub. by right. }
    split; [by rewrite Hk, Hk1|]. split.
    { constructor; [done|]. by rewrite Hk1 in Hall. }
    split; [by eauto|].
    intros c nb e [[= -> ->]|Hin]%elem_of_cons He; [|by eapply Hnew].
    apply Hkeep; [by apply Hedges|by apply Hnew1].
Qed.

Lemma reverse_graph_exact (rg : Graph) :
  make_reverse_graph g = Ret rg →
  dict_keys rg = dict_keys g ∧ graph_wf rg ∧ closed_graph g
  ∧ ∀ u v, weight rg v u = weight g u v.
Proof.
  intros Hrg. pose proof (reverse_graph_inv g rg Hwf Hrg) as [Hkeys Hinner].
  assert (graph_wf rg) as Hwf'.
  { split; [unfold dict_wf; rewrite Hkeys; apply Hwf|].
    apply Forall_forall. intros [k inner] Hin. simpl.
    apply (Hinner k). apply dict_get_elem_wf; [|done].
    unfold dict_wf. rewrite Hkeys. apply Hwf. }
  unfold make_reverse_graph in Hrg.
  apply reverse_cities_weight in Hrg as (_ & _ & _ & Hnew); [|done].
  assert (∀ u v w, weight g u v = Some w → weight rg v u = Some w) as Hcomplete.
  { intros u v w (neighbors & Hget & Hin)%weight_edge; [|done].
    apply (Hnew u neighbors (v, w)); [by apply dict_get_Some_elem|done]. }
  split; [done|]. split; [done|]. split.
  - apply closed_graph_weight; [done|]. intros a b w Hab%Hcomplete.
    rewrite <- Hkeys. apply dict_get_is_Some. unfold weight in Hab.
    destruct (dict_get rg b); [eauto|done].
  - intros u v. destruct (weight g u v) as [w|] eqn:Hg; [by apply Hcomplete|].
    destruct (weight rg v u) as [w|] eqn:Hr; [|done].
    apply weight_edge in Hr; [|done]. destruct Hr as (inner & Hget & Hin).
    destruct (Hinner _ _ Hget) as [_ Hedges].
    apply Hedges, weight_edge in Hin; [|done]. congruence.
Qed.

End transpose.

(** What the construction raises names a neighbour that is no key. *)
Lemma reverse_graph_Raise (g : Graph) (e : exn) :
  graph_wf g → make_reverse_graph g = Raise e →
  ∃ u v w, edge g u v w ∧ v ∉ dict_keys g ∧ e = KeyError v.
Proof.
  intros Hwf. unfold make_reverse_graph.
  set (rg0 := fold_left _ (dict_keys g) []).
  assert (dict_keys rg0 = dict_keys g) as Hkeys0.
  { unfold rg0.
    rewrite reverse_init_keys; [done|apply Hwf|by intros k _ ?%elem_of_nil]. }
  assert (∀ city neighbors rg1, dict_keys rg1 = dict_keys g →
            foldM (reverse_graph_edge city) rg1 neighbors = Raise e →
            ∃ v w, (v, w) ∈ neighbors ∧ v ∉ dict_keys g ∧ e = KeyError v)
    as Hcity.
  { intros city. induction neighbors as [|[v w] neighbors IH]; intros rg1 Hk;
      cbn [foldM]; [done|].
    destruct (reverse_graph_edge city rg1 (v, w)) as [rg2|e'|] eqn:Hstep.
    - apply reverse_graph_edge_weight in Hstep as (_ & Hk2 & _).
      intros (v' & w' & Hin & Hv')%IH; [|by rewrite Hk2].
      exists v', w'. split; [by right|done].
    - intros [= ->]. unfold reverse_graph_edge, dict_getitem in Hstep.
      destruct (dict_get rg1 v) as [inner|] eqn:Hget; [done|].
      injection Hstep as <-. exists v, w. split; [left|].
      split; [|done]. rewrite <- Hk. by apply dict_get_None.
    - unfold reverse_graph_edge, dict_getitem in Hstep.
      by destruct (dict_get rg1 v). }
  assert (∀ items rg1, (∀ item, item ∈ items → item ∈ g) →
            dict_keys rg1 = dict_keys g →
            foldM reverse_graph_city rg1 items = Raise e →
            ∃ u v w, edge g u v w ∧ v ∉ dict_keys g ∧ e = KeyError v) as Hgen.
  { induction items as [|[city neighbors] items IH]; intros rg1 Hsub Hk;
      cbn [foldM]; [done|].
    unfold reverse_graph_city at 1.
    destruct (foldM (reverse_graph_edge city) rg1 neighbors) as [rg2|e'|]
      eqn:Hfold.
    - apply IH; [intros item Hitem; apply Hsub; by right|].
      assert (∀ e, e ∈ neighbors → edge g city e.1 e.2) as Hedges.
      { intros [v w] He. exists neighbors. split; [|done].
        apply dict_get_elem_wf; [apply Hwf|]. apply Hsub. left. }
      destruct (reverse_city_weight g Hwf city neighbors rg1 rg2 Hedges Hfold)
        as (Hk2 & _).
      by rewrite Hk2.
    - intros [= ->]. apply Hcity in Hfold as (v & w & Hin & Hv & ->); [|done].
      exists city, v, w. split; [|done]. exists neighbors. split; [|done].
      apply dict_get_elem_wf; [apply Hwf|]. apply Hsub. left.
    - assert (∀ nb rg, foldM (reverse_graph_edge city) rg nb ≠ OutOfFuel)
        as Hfuel.
      { induction nb as [|[v w] nb IHnb]; intros rg'; cbn [foldM]; [done|].
        unfold reverse_graph_edge at 1, dict_getitem.
        destruct (dict_get rg' v); cbn [bind]; [apply IHnb|done]. }
      by destruct (Hfuel neighbors rg1). }
  by apply Hgen.
Qed.
(* ===================================================================== *)
(** * More about what the searches return                                 *)
(* ===================================================================== *)

Lemma unidirectional_distance (pos : list string → option string) (g : Graph)
    (start goal : string) (r : Result Step.t) :
  unidirectional pos g start goal r → path r = [] → distance r = 0%Z.
Proof.
  intros [(_ & alg & ->)|(_ & relax & key & alg & v & Hinv & Hend)]; [done|].
  by eapply end_distance.
Qed.

Lemma cost_of_result {S} (g : Graph) (start goal : string) (r : Result S) :
  valid_path g start goal r → (path r = [] → distance r = 0%Z) →
  cost_agrees g r.
Proof.
  intros Hvalid Hnil. unfold cost_agrees.
  destruct (decide (path r = [])) as [Hp|Hp].
  - rewrite Hp, (Hnil Hp). done.
  - destruct (Hvalid Hp) as (_ & _ & Hw). by apply calculate_path_cost_weight.
Qed.

Lemma unidirectional_cost (pos : list string → option string) (g : Graph)
    (start goal : string) (r : Result Step.t) :
  graph_wf g → unidirectional pos g start goal r → cost_agrees g r.
Proof.
  intros Hwf Hr. eapply cost_of_result.
  - by eapply unidirectional_path.
  - by eapply unidirectional_distance.
Qed.

(** What iterative deepening and bidirectional search return, the short
    cut included. *)
Lemma ids_path_facts (fuel : nat) (g : Graph) (start goal : string)
    (max_depth : Z) (r : Result Step.t) :
  graph_wf g →
  iterative_deepening_search fuel g start goal max_depth = Ret r →
  valid_path g start goal r ∧ (path r = [] → distance r = 0%Z).
Proof.
  intros Hwf. destruct (decide (start = goal)) as [Heq|Hne].
  - unfold iterative_deepening_search. rewrite decide_True by done.
    intros [= <-]. split; [|done]. intros _. by rewrite <- Heq.
  - intros Hr. apply ids_result in Hr; [|done].
    destruct Hr as (_ & _ & Hpath & _ & Hdist & _). split; [|done].
    exact (Hpath Hwf).
Qed.

Lemma bidi_path_facts (fuel : nat) (g : Graph) (start goal : string)
    (r : Result BiStep.t) :
  graph_wf g → bidirectional_search fuel g start goal = Ret r →
  valid_path g start goal r ∧ (path r = [] → distance r = 0%Z)
  ∧ NoDup (path r).
Proof.
  intros Hwf. destruct (decide (start = goal)) as [Heq|Hne].
  - unfold bidirectional_search. rewrite decide_True by done.
    intros [= <-]. split; [|split; [done|apply NoDup_singleton]].
    intros _. by rewrite <- Heq.
  - intros Hr. apply bidi_run in Hr; [|done].
    destruct Hr as (rg & Hrg & [(fwd & bwd & Hmeet)|(st & Hinv & ->)]).
    + split; [|split].
      * intros _. eapply meeting_path; [done|done|]. by apply reverse_graph_inv.
      * intros Hp. by destruct (meeting_nonempty _ _ _ _ _ _ _ Hmeet).
      * by destruct (meeting_nodup _ _ _ _ _ _ _ Hmeet).
    + split; [done|]. split; [done|constructor].
Qed.

(** ** Every search on a graph whose neighbours are all keys *)

Section closed_graph.
Context (id : nat → Z) (fuel : nat) (g : Graph) (start goal : string).
Context (depth_limit max_depth : Z) (heuristic_data : gmap string Z).
Hypothesis Hwf : graph_wf g.
Hypothesis Hclosed : closed_graph g.
Hypothesis Hstart : start ∈ dict_keys g.
Hypothesis Hgoal : goal ∈ dict_keys g.
Hypothesis Hfuel : length (dict_keys g) < fuel.

Lemma closed_graph_searches :
  terminates (breadth_first_search fuel g start goal) (valid_path g start goal)
  ∧ terminates (uniform_cost_search fuel g start goal)
      (valid_path g start goal)
  ∧ terminates (depth_first_search fuel g start goal)
      (valid_path g start goal)
  ∧ terminates (depth_limited_search fuel g start goal depth_limit)
      (valid_path g start goal)
  ∧ terminates (iterative_deepening_search fuel g start goal max_depth)
      (valid_path g start goal)
  ∧ terminates (bidirectional_search fuel g start goal)
      (valid_path g start goal)
  ∧ terminates (greedy_search fuel g start goal heuristic_data)
      (valid_path g start goal)
  ∧ terminates (a_star_search id fuel g start goal heuristic_data)
      (valid_path g start goal).
Proof.
  pose proof (closed_reachable g start Hclosed Hstart) as Hreach.
  split_and!.
  - destruct (bfs_returns fuel g start goal Hreach Hfuel) as [r Hr].
    exists r. split; [done|]. apply bfs_unidirectional in Hr.
    by eapply unidirectional_path.
  - destruct (ucs_returns fuel g start goal Hreach Hfuel) as [r Hr].
    exists r. split; [done|]. apply ucs_unidirectional in Hr.
    by eapply unidirectional_path.
  - destruct (dfs_returns fuel g start goal Hreach Hfuel) as [r Hr].
    exists r. split; [done|]. apply dfs_unidirectional in Hr.
    by eapply unidirectional_path.
  - destruct (dls_returns fuel g start goal depth_limit Hreach Hfuel) as [r Hr].
    exists r. split; [done|]. apply dls_unidirectional in Hr.
    by eapply unidirectional_path.
  - destruct (ids_returns fuel g start goal max_depth Hreach Hfuel) as [r Hr].
    exists r. split; [done|]. by eapply ids_path_facts.
  - destruct (decide (start = goal)) as [Heq|Hne].
    + unfold bidirectional_search. rewrite decide_True by done.
      eexists. split; [done|]. intros _. by rewrite <- Heq.
    + destruct (bidi_total g start goal fuel) as [r Hr]; try done.
      exists r. split; [done|]. by eapply bidi_path_facts.
  - destruct (greedy_returns fuel g start goal heuristic_data Hreach Hfuel)
      as [r Hr].
    exists r. split; [done|]. apply greedy_unidirectional in Hr.
    by eapply unidirectional_path.
  - destruct (astar_returns id fuel g start goal heuristic_data Hreach Hfuel)
      as [r Hr].
    exists r. split; [done|]. apply astar_unidirectional in Hr.
    by eapply unidirectional_path.
Qed.

End closed_graph.

(** ** The adjacency dictionary, from the data to the result *)

Lemma make_adjacency_dict_Ret {Pos} (CITIES : dict Pos)
    (ROADS : list (string * string * Z)) (g : Graph) :
  dict_wf CITIES → make_adjacency_dict CITIES ROADS = Ret g →
  Forall (road_ok (dict_keys CITIES)) ROADS
  ∧ dict_keys g = dict_keys CITIES ∧ graph_wf g ∧ closed_graph g
  ∧ ∀ a b, weight g a b = road_distance ROADS a b.
Proof.
  intros Hwf. unfold make_adjacency_dict. rewrite roads_list_id.
  destruct (adjacency_init (dict_keys CITIES) Hwf) as (Hk0 & Hwf0 & Hw0).
  intros Hrun.
  destruct (add_roads_Ret _ _ _ Hwf0 Hrun) as (Hall & Hk & Hwfg & Hw).
  rewrite Hk0 in Hall, Hk.
  assert (∀ a b, weight g a b = road_distance ROADS a b) as Hdist.
  { intros a b. rewrite Hw, Hw0. done. }
  split; [done|]. split; [done|]. split; [done|]. split; [|done].
  apply closed_graph_weight; [done|]. intros a b w Hab.
  rewrite Hdist in Hab.
  apply road_distance_Some in Hab as ([[c1 c2] d] & Hin & Hj & _).
  rewrite Forall_forall in Hall. destruct (Hall _ Hin) as [H1 H2].
  rewrite Hk. destruct Hj as [[_ <-]|[<- _]]; done.
Qed.

(** ** What the invariants say of a result *)

Lemma stable_and (pos : list string → option string) (g : Graph)
    (goal start : string) (J1 J2 : Vars.t Node.t unit → Prop) :
  stable pos g goal start J1 → stable pos g goal start J2 →
  stable pos g goal start (λ v, J1 v ∧ J2 v).
Proof.
  intros [H01 H1] [H02 H2]. split; [done|].
  intros relax key v v' Hinv [HJ1 HJ2] Hstep. split; eauto.
Qed.

Lemma unidirectional_simple (pos : list string → option string) (g : Graph)
    (start goal : string) (r : Result Step.t) :
  unidirectional_with simple_inv pos g start goal r → NoDup (path r).
Proof.
  intros [(_ & alg & ->)|(_ & relax & key & alg & v & Hinv & HJ & Hend)].
  - apply NoDup_singleton.
  - by eapply end_simple.
Qed.

Lemma unidirectional_snapshots (pos : list string → option string) (g : Graph)
    (start goal : string) (r : Result Step.t) :
  unidirectional_with snapshots_inv pos g start goal r →
  Forall snapshot_ok (steps r).
Proof.
  intros [(_ & alg & ->)|(_ & relax & key & alg & v & Hinv & HJ & Hend)].
  - constructor.
  - by eapply end_snapshots.
Qed.

Lemma unidirectional_order (pos : list string → option string) (g : Graph)
    (start goal : string) (r : Result Step.t) :
  unidirectional pos g start goal r → expansion_order g start goal r.
Proof.
  intros [(Heq & alg & ->)|(_ & relax & key & alg & v & Hinv & Hend)].
  - split_and!; simpl; try done; try constructor.
    by intros x ?%elem_of_nil.
  - destruct (end_currents _ _ _ _ _ _ _ _ _ Hinv Hend)
      as (H1 & H2 & H3 & H4 & H5).
    split_and!; auto.
Qed.

(** The locations on the way to a frontier node can all be reached. *)
Lemma path_back_reachable (pos : list string → option string) (g : Graph)
    (goal start : string) (v : Vars.t Node.t unit) (n : Node.t) :
  search_inv pos g goal start v → simple_inv v → n ∈ Vars.frontier v →
  ∀ x, x ∈ Node.path_back n → reachable g start x.
Proof.
  intros Hinv HJ Hn x. rewrite path_back_cons.
  intros [->|Hx]%elem_of_cons.
  - eapply node_ok_reachable. by apply (inv_ok _ _ _ _ _ Hinv).
  - apply (inv_explored _ _ _ _ _ Hinv). by apply (HJ n Hn).
Qed.

Lemma unidirectional_within (pos : list string → option string) (g : Graph)
    (start goal : string) (comp : list string) (r : Result Step.t) :
  (∀ x, reachable g start x → x ∈ comp) →
  unidirectional_with (λ v, simple_inv v ∧ frontier_bound comp v)
    pos g start goal r →
  within comp r.
Proof.
  intros Hcomp
    [(_ & alg & ->)|(_ & relax & key & alg & v & Hinv & [HJ1 HJ2] & Hend)].
  - assert (start ∈ comp) as Hs by (apply Hcomp; exists 0%Z; constructor).
    assert (1 ≤ length comp) as Hlen.
    { destruct comp; [by apply elem_of_nil in Hs|simpl; lia]. }
    split_and!; simpl; lia.
  - destruct (end_frontier_bound _ _ _ _ _ _ _ _ _ _ Hcomp Hinv HJ2 Hend).
    split_and!; try done.
    + by eapply end_expanded_all.
    + pose proof (end_simple _ _ _ _ _ _ _ HJ1 Hend) as Hnd.
      apply submseteq_length, NoDup_submseteq; [done|].
      intros x Hx. apply Hcomp.
      destruct Hend as [[node rest alg' Hpop _ ->]|[_ ->]];
        [|by apply elem_of_nil in Hx].
      simpl in Hx. unfold Node.path in Hx. rewrite elem_of_reverse in Hx.
      eapply path_back_reachable; [done|done| |done]. by eapply popped_elem.
Qed.

Lemma bidi_simple (fuel : nat) (g : Graph) (start goal : string)
    (r : Result BiStep.t) :
  bidirectional_search fuel g start goal = Ret r → NoDup (path r).
Proof.
  destruct (decide (start = goal)) as [Heq|Hne].
  - unfold bidirectional_search. rewrite decide_True by done.
    intros [= <-]. apply NoDup_singleton.
  - intros Hr. apply bidi_run in Hr; [|done].
    destruct Hr as (rg & Hrg & [(fwd & bwd & Hmeet)|(st & Hinv & ->)]).
    + by destruct (meeting_nodup _ _ _ _ _ _ _ Hmeet).
    + constructor.
Qed.

Lemma ids_simple (fuel : nat) (g : Graph) (start goal : string)
    (max_depth : Z) (r : Result Step.t) :
  iterative_deepening_search fuel g start goal max_depth = Ret r →
  NoDup (path r).
Proof.
  destruct (decide (start = goal)) as [Heq|Hne].
  - unfold iterative_deepening_search. rewrite decide_True by done.
    intros [= <-]. apply NoDup_singleton.
  - intros Hr. apply ids_first_success in Hr; [|done].
    destruct Hr as (_ & _ & Hfound & _).
    destruct (decide (path r = [])) as [->|Hp]; [constructor|].
    destruct (Hfound Hp) as (d & rd & _ & Hdls & <- & _).
    apply (dls_with g start goal fuel simple_inv d) in Hdls;
      [|apply simple_stable].
    by eapply unidirectional_simple.
Qed.
(* ===================================================================== *)
(** * Searches without a limit are complete                               *)
(* ===================================================================== *)

Lemma absorb_keeps (relax : bool) (X : gset string) (F cs F' : list Node.t)
    (x : string) :
  absorb relax X F cs F' → x ∈ (Node.state <$> F) → x ∈ (Node.state <$> F').
Proof.
  intros Habs (n & Hn & <-)%elem_of_states.
  destruct (absorb_keep relax _ _ _ _ _ Habs Hn) as (n' & Hn' & Hs & _).
  apply elem_of_states. eauto.
Qed.

Lemma absorb_covers (relax : bool) (X : gset string) (F cs F' : list Node.t)
    (c : Node.t) :
  absorb relax X F cs F' → c ∈ cs →
  Node.state c ∈ X ∨ Node.state c ∈ (Node.state <$> F').
Proof.
  intros Habs. induction Habs as [F|F c1 F1 cs F' H1 Habs IH].
  - by intros ?%elem_of_nil.
  - intros [->|Hc]%elem_of_cons; [|by apply IH].
    assert (Node.state c1 ∈ X ∨ Node.state c1 ∈ (Node.state <$> F1))
      as [?|Hin]; [|by left|right; by eapply absorb_keeps].
    destruct H1 as [(HF & [Hc|(old & Hold & Hs & _)])|
                    [(HF & _)|(old & rest & HF & HF1 & _)]].
    + by left.
    + right. apply elem_of_states. exists old. by rewrite HF.
    + right. apply elem_of_states. exists c1. rewrite HF. split; [left|done].
    + right. apply elem_of_states. exists c1. rewrite HF1. split; [left|done].
Qed.

Lemma closure_init (g : Graph) (start : string) :
  closure_inv g start (start_vars start).
Proof.
  split.
  - right. simpl. left.
  - intros u x w Hu. by apply not_elem_of_empty in Hu.
Qed.

Lemma closure_expands (g : Graph) (start : string)
    (v v' : Vars.t Node.t unit) :
  closure_inv g start v → expands g v v' → closure_inv g start v'.
Proof.
  intros [Hstart Hedges]
    (relax & node & rest & children & cs & HF & Hex & Hperm & Habs & Hexp).
  assert (∀ x, x ∈ Vars.explored v ∨ x ∈ (Node.state <$> Vars.frontier v) →
            x ∈ Vars.explored v' ∨ x ∈ (Node.state <$> Vars.frontier v'))
    as Hkeep.
  { intros x [Hx|Hx]; [left; rewrite Hexp; set_solver|].
    rewrite HF in Hx. simpl in Hx. apply elem_of_cons in Hx as [->|Hx].
    - left. rewrite Hexp. set_solver.
    - right. by eapply absorb_keeps. }
  split; [by apply Hkeep|].
  intros u x w Hu Hedge. rewrite Hexp in Hu.
  apply elem_of_union in Hu as [->%elem_of_singleton|Hu].
  - assert (Node.child node (x, w) ∈ cs) as Hc.
    { rewrite Hperm. by eapply expand_edge. }
    destruct (absorb_covers _ _ _ _ _ _ Habs Hc) as [Hin|Hin].
    + left. by rewrite Hexp.
    + by right.
  - apply Hkeep. by eapply Hedges.
Qed.

(** Every walk that ends outside the explored set crosses the frontier. *)
Lemma closure_cut (g : Graph) (start : string) (v : Vars.t Node.t unit)
    (x : string) (c : Z) :
  closure_inv g start v → walk g start x c → x ∉ Vars.explored v →
  Vars.frontier v ≠ [].
Proof.
  intros [Hstart Hedges] Hwalk.
  assert (∀ y, y ∈ (Node.state <$> Vars.frontier v) → Vars.frontier v ≠ [])
    as Hne.
  { intros y Hy HF. rewrite HF in Hy. by apply elem_of_nil in Hy. }
  induction Hwalk as [|u c x w Hwalk IH Hedge]; intros Hx.
  - destruct Hstart as [?|Hs]; [done|]. by eapply Hne.
  - destruct (decide (u ∈ Vars.explored v)) as [Hu|Hu]; [|by apply IH].
    destruct (Hedges u x w Hu Hedge) as [?|Hin]; [done|]. by eapply Hne.
Qed.

(** An iteration of a cost-comparing search expands the node it pops. *)
Lemma step_expands (key : Node.t → Z) (pos : list string → option string)
    (g : Graph) (goal : string) (v v' : Vars.t Node.t unit) :
  search_step true key pos g goal v v' → expands g v v'.
Proof.
  intros [node rest cs (HF & _) _ Hcs Habs Hexp _ _ _ _].
  destruct Hcs as [(children & Hex & Hperm)|[? _]]; [|done].
  exists true, node, rest, children, cs. done.
Qed.

Lemma end_exhaustive (relax : bool) (key : Node.t → Z)
    (pos : list string → option string) (g : Graph) (goal start alg : string)
    (v : Vars.t Node.t unit) (r : Result Step.t) :
  search_inv pos g goal start v → closure_inv g start v →
  run_end relax key pos goal alg v r →
  exhaustive g start goal r.
Proof.
  intros Hinv Hcl [[node rest alg' Hpop Hg ->]|[Hempty ->]]; simpl.
  - split; [intros _; apply node_path_nonempty|].
    intros Hp. by destruct (node_path_nonempty node).
  - destruct (trace_from_currents _ _ _ _ (inv_trace _ _ _ _ _ Hinv))
      as (_ & _ & Hin & _).
    assert (∀ x, reachable g start x → x ∈ Vars.explored v) as Hall.
    { intros x [c Hwalk]. apply dec_stable. intros Hx.
      by destruct (closure_cut g start v x c Hcl Hwalk Hx). }
    split.
    + intros Hreach%Hall. by apply (inv_goal _ _ _ _ _ Hinv) in Hreach.
    + intros _ x. split.
      * intros Hx%Hall. apply Hin in Hx as [Hx|Hx]; [|done].
        by apply not_elem_of_empty in Hx.
      * intros Hx. apply (inv_explored _ _ _ _ _ Hinv), Hin. by right.
Qed.

Section run_complete.
Context {E FS : Type} `{Entry E}.
Context (relax : bool) (key : Node.t → Z) (pos : list string → option string).
Context (g : Graph) (goal start : string).
Context (L : Vars.t E FS → Prop).
Context (body : Vars.t E FS → outcome (flow (Vars.t E FS) (Result Step.t))).

Hypothesis Hbody : body_spec relax key pos g goal start L body.
Hypothesis Hexpands : ∀ st st',
  L st → search_inv pos g goal start (view st) → Vars.frontier st ≠ [] →
  body st = Ret (Next st') → expands g (view st) (view st').

Lemma body_spec_closure :
  body_spec relax key pos g goal start
    (λ st, L st ∧ closure_inv g start (view st)) body.
Proof.
  intros st [HL Hcl] Hinv Hne.
  pose proof (Hbody st HL Hinv Hne) as Hspec.
  pose proof (Hexpands st) as Hexp.
  destruct (body st) as [[st'|r]|e|]; try done.
  destruct Hspec as [Hstep HL']. split; [done|]. split; [done|].
  eapply closure_expands; [done|]. by apply Hexp.
Qed.

Lemma run_exhaustive (alg : string) (fuel : nat) (st0 : Vars.t E FS)
    (r : Result Step.t) :
  L st0 → search_inv pos g goal start (view st0) →
  closure_inv g start (view st0) →
  finish alg (while_loop frontier_nonempty body fuel st0) = Ret r →
  exhaustive g start goal r.
Proof.
  intros HL0 Hinv0 Hcl0 Hrun.
  eapply (run_partial relax key pos g goal start
            (λ st, L st ∧ closure_inv g start (view st)) (λ _, True))
    in Hrun as (st & ((_ & Hcl) & Hinv & _) & Hend);
    eauto using body_spec_closure.
  - by eapply end_exhaustive.
  - done.
Qed.

End run_complete.

(** ** The loop bodies expand what they pop *)

Lemma bfs_body_expands (g : Graph) (goal : string)
    (st st' : Vars.t Node.t unit) :
  bfs_body g goal st = Ret (Next st') → expands g (view st) (view st').
Proof.
  unfold bfs_body.
  destruct (Vars.frontier st) as [|node rest] eqn:HF; [done|].
  cbn [list_popleft bind]. case_decide as Hgoal; [done|].
  destruct (Node.expand g node) as [children|e|] eqn:Hex; cbn [bind];
    [|done..].
  destruct (fold_left _ children _) as [F' ng'] eqn:Hfold.
  apply bfs_children in Hfold as [Habs ->]. intros [= <-].
  exists false, node, rest, children, children.
  split; [by rewrite view_frontier_node, HF|]. split; [done|].
  split; [done|]. split; [|done]. by rewrite view_frontier_node.
Qed.

Lemma dfs_body_expands (pos : list string → option string) (g : Graph)
    (goal start : string) (st st' : Vars.t Node.t (gset string)) :
  states_agree st → search_inv pos g goal start (view st) →
  dfs_body g goal st = Ret (Next st') → expands g (view st) (view st').
Proof.
  intros HL Hinv. unfold dfs_body.
  intros ([node init] & HF%list_pop_Ret & Hb)%bind_Ret.
  apply bind_Ret in Hb as (fs & Hfs & Hb).
  pose proof (inv_nodup _ _ _ _ _ Hinv) as Hnd.
  rewrite view_frontier_node, HF in Hnd.
  pose proof HL as Hagree. unfold states_agree in Hagree.
  rewrite view_frontier_node, HF in Hagree.
  unfold set_remove in Hfs. rewrite decide_True in Hfs.
  2:{ apply Hagree. rewrite fmap_app, elem_of_app. right. simpl. left. }
  injection Hfs as <-.
  pose proof (states_agree_pop_last _ _ _ Hnd Hagree) as Hagree'.
  case_decide as Hgoal; [done|].
  apply bind_Ret in Hb as (children & Hex & Hb).
  destruct (fold_left _ (reverse children) _) as [[F' fs'] ng'] eqn:Hfold.
  apply dfs_children in Hfold as (Habs & -> & Hfs'); [|done].
  injection Hb as <-.
  exists false, node, init, children, (reverse children).
  split; [by rewrite view_frontier_node, HF, Permutation_app_comm|].
  split; [done|]. split; [apply reverse_Permutation|].
  split; [|done]. by rewrite view_frontier_node.
Qed.

Lemma greedy_body_expands (pos : list string → option string) (g : Graph)
    (goal start : string) (heuristic_data : gmap string Z)
    (st st' : Vars.t (Z * Node.t) (gset string)) :
  greedy_local st → search_inv pos g goal start (view st) →
  Vars.frontier st ≠ [] →
  greedy_body g goal heuristic_data st = Ret (Next st') →
  expands g (view st) (view st').
Proof.
  intros [Hagree Hheap] Hinv Hne. unfold greedy_body.
  destruct (heappop_least _ Hne Hheap)
    as (entry & rest & -> & Hhead & Hperm & Hheap' & _).
  cbn [bind].
  pose proof (inv_nodup _ _ _ _ _ Hinv) as Hnd. cbn [view Vars.frontier] in Hnd.
  destruct (heap_pop_states _ _ _ Hnd Hperm _ Hagree) as [Hin Hagree'].
  unfold set_remove. rewrite decide_True by done. cbn [bind].
  case_decide as Hgoal; [done|].
  destruct (Node.expand g entry.2) as [children|e|] eqn:Hex; cbn [bind];
    [|done..].
  destruct (greedy_children goal heuristic_data
              ({[Node.state entry.2]} ∪ Vars.explored st) children rest
              (Vars.frontier_states st ∖ {[Node.state entry.2]})
              (Vars.nodes_generated st) Hheap' Hagree')
    as (F' & fs' & ng' & -> & Habs & -> & Hh' & Hfs').
  cbn [bind]. intros [= <-].
  exists false, (entry_node entry), (entry_node <$> rest), children, children.
  split; [cbn; by rewrite Hperm|]. done.
Qed.

(** ** The five searches *)

Section complete.
Context (g : Graph) (start goal : string) (fuel : nat).

Lemma trivial_exhaustive (alg : string) (expanded generated size : nat) :
  exhaustive g start goal (trivial_result alg start expanded generated size).
Proof. split; [done|]. simpl. done. Qed.

Lemma bfs_exhaustive :
  returns (breadth_first_search fuel g start goal) (exhaustive g start goal).
Proof.
  intros r. unfold breadth_first_search. case_decide as Hne.
  { intros [= <-]. apply trivial_exhaustive. }
  eapply (run_exhaustive false Node.path_cost head g goal start (λ _, True));
    eauto using bfs_body_spec, bfs_body_expands.
  - apply search_inv_init.
  - apply closure_init.
Qed.

Lemma dfs_exhaustive :
  returns (depth_first_search fuel g start goal) (exhaustive g start goal).
Proof.
  intros r. unfold depth_first_search. case_decide as Hne.
  { intros [= <-]. apply trivial_exhaustive. }
  eapply (run_exhaustive false Node.path_cost last g goal start states_agree);
    eauto using dfs_body_spec.
  - intros st st' HL Hinv _. by eapply dfs_body_expands.
  - exact (singleton_agree start).
  - apply search_inv_init.
  - apply closure_init.
Qed.

Lemma greedy_exhaustive (heuristic_data : gmap string Z) :
  returns (greedy_search fuel g start goal heuristic_data)
    (exhaustive g start goal).
Proof.
  intros r. unfold greedy_search. case_decide as Hne.
  { intros [= <-]. apply trivial_exhaustive. }
  rewrite get_heuristic_value. cbn [bind].
  eapply (run_exhaustive false Node.path_cost head g goal start greedy_local);
    eauto using greedy_body_spec.
  - intros st st'. by eapply greedy_body_expands.
  - split; [exact (singleton_agree start)|apply singleton_heap].
  - apply search_inv_init.
  - apply closure_init.
Qed.

Lemma ucs_exhaustive :
  returns (uniform_cost_search fuel g start goal) (exhaustive g start goal).
Proof.
  intros r. unfold uniform_cost_search. case_decide as Hne.
  { intros [= <-]. apply trivial_exhaustive. }
  eapply (run_exhaustive true (λ n, (Node.path_cost n + 0)%Z) head g goal
            start ucs_local); eauto using ucs_body_spec.
  - intros st st' HL Hinv Hfr Hb.
    pose proof (ucs_body_spec g goal start st HL Hinv Hfr) as Hspec.
    rewrite Hb in Hspec. destruct Hspec as [Hstep _].
    by eapply step_expands.
  - by apply ucs_local_init.
  - apply search_inv_init.
  - apply closure_init.
Qed.

Lemma astar_exhaustive (id : nat → Z) (heuristic_data : gmap string Z) :
  returns (a_star_search id fuel g start goal heuristic_data)
    (exhaustive g start goal).
Proof.
  intros r. unfold a_star_search. case_decide as Hne.
  { intros [= <-]. apply trivial_exhaustive. }
  rewrite get_heuristic_value. cbn [bind].
  eapply (run_exhaustive true
            (λ n, (Node.path_cost n
                   + heuristic_value goal heuristic_data (Node.state n))%Z)
            head g goal start
            (astar_local (heuristic_value goal heuristic_data)));
    eauto using astar_body_spec.
  - intros st st' HL Hinv Hfr Hb.
    pose proof (astar_body_spec id goal heuristic_data g start st HL Hinv Hfr)
      as Hspec.
    rewrite Hb in Hspec. destruct Hspec as [Hstep _].
    by eapply step_expands.
  - by apply astar_local_init.
  - apply search_inv_init.
  - apply closure_init.
Qed.

End complete.
(* ===================================================================== *)
(** * Breadth-first search finds a path of the fewest edges               *)
(* ===================================================================== *)

Lemma hops_app (g : Graph) (start u v : string) (k k' : nat) :
  hops g start u k → hops g u v k' → hops g start v (k + k').
Proof.
  intros Hu Hv. induction Hv as [|x d y w _ IH Hedge].
  - by rewrite Nat.add_0_r.
  - rewrite Nat.add_succ_r. by eapply hops_step.
Qed.

Lemma path_weight_hops (g : Graph) (p : list string) (u v : string) (c : Z) :
  head p = Some u → last p = Some v → path_weight g p = Some c →
  hops g u v (length p - 1).
Proof.
  revert u c. induction p as [|x p IH]; intros u c Hhead Hlast Hw; [done|].
  simpl in Hhead. injection Hhead as ->.
  destruct p as [|y p].
  - simpl in *. simplify_eq. constructor.
  - rewrite path_weight_cons in Hw.
    destruct (dict_get g u) as [neighbors|] eqn:Hg; [|done].
    destruct (dict_get neighbors y) as [w|] eqn:Hn; [|done].
    destruct (path_weight g (y :: p)) as [c'|] eqn:Hp; [|done].
    replace (length (u :: y :: p) - 1) with (1 + (length (y :: p) - 1))
      by (simpl; lia).
    apply (hops_app g u y v).
    + eapply hops_step; [constructor|].
      exists neighbors. split; [done|]. by apply dict_get_Some_elem.
    + eapply IH; [done| |done]. by rewrite last_cons_cons in Hlast.
Qed.

Lemma is_path_hops (g : Graph) (start goal : string) p c :
  is_path g start goal p c → hops g start goal (length p - 1).
Proof. intros (Hh & Hl & Hw). by eapply path_weight_hops. Qed.

Lemma queue_sorted_snoc (F : list Node.t) (c : Node.t) :
  queue_sorted F → Forall (λ a, level_order a c) F → queue_sorted (F ++ [c]).
Proof.
  induction F as [|a F IH]; simpl; [done|].
  intros [Ha HF] [Hac Hc]%Forall_cons. split; [|by apply IH].
  apply Forall_app. split; [done|]. by constructor.
Qed.

Lemma nodup_states_eq (F : list Node.t) (a b : Node.t) :
  NoDup (Node.state <$> F) → a ∈ F → b ∈ F → Node.state a = Node.state b →
  a = b.
Proof.
  induction F as [|n F IH]; [by intros _ ?%elem_of_nil|].
  simpl. intros [Hn Hnd]%NoDup_cons [->|Ha]%elem_of_cons [->|Hb]%elem_of_cons Hs.
  - done.
  - destruct Hn. apply elem_of_states. eauto.
  - destruct Hn. apply elem_of_states. eauto.
  - by apply IH.
Qed.

(** The children of a node at depth [d] join a queue that spans the depths
    [d] and [d + 1]. *)
Lemma bfs_children_levels (X : gset string) (d : Z) (cs F F' : list Node.t)
    (ng ng' : nat) :
  fold_left (bfs_child X) cs (F, ng) = (F', ng') →
  Forall (λ c, Node.depth c = (d + 1)%Z) cs →
  queue_sorted F → Forall (λ a, (d ≤ Node.depth a ≤ d + 1)%Z) F →
  queue_sorted F' ∧ Forall (λ a, (d ≤ Node.depth a ≤ d + 1)%Z) F'
  ∧ (∀ n, n ∈ F → n ∈ F')
  ∧ ∀ c, c ∈ cs →
      Node.state c ∈ X ∨ ∃ n, n ∈ F' ∧ Node.state n = Node.state c.
Proof.
  revert F ng. induction cs as [|c cs IH]; intros F ng; simpl.
  - intros [= <- <-] _ Hs Hd. split_and!; try done.
    by intros c ?%elem_of_nil.
  - intros Hfold [Hc Hcs]%Forall_cons Hs Hd.
    destruct (bool_decide (Node.state c ∉ X)
              && bool_decide (Node.state c ∉ (Node.state <$> F))) eqn:Hb.
    + destruct (IH _ _ Hfold Hcs) as (Hs' & Hd' & Hkeep & Hcov).
      * apply queue_sorted_snoc; [done|].
        eapply Forall_impl; [exact Hd|]. intros a Ha. unfold level_order.
        simpl in Ha. lia.
      * apply Forall_app. split; [done|]. constructor; [lia|constructor].
      * split_and!; try done.
        { intros n Hn. apply Hkeep, elem_of_app. by left. }
        intros c' [->|Hc']%elem_of_cons; [|by apply Hcov].
        right. exists c. split; [|done].
        apply Hkeep, elem_of_app. right. left.
    + destruct (IH _ _ Hfold Hcs Hs Hd) as (Hs' & Hd' & Hkeep & Hcov).
      split_and!; try done.
      intros c' [->|Hc']%elem_of_cons; [|by apply Hcov].
      apply andb_false_iff in Hb
        as [Hx%bool_decide_eq_false|Hf%bool_decide_eq_false].
      * left. by apply dec_stable.
      * right. apply dec_stable, elem_of_states in Hf as (n & Hn & Hsn).
        exists n. split; [by apply Hkeep|done].
Qed.

Section fewest.
Context (g : Graph) (goal start : string).

(** Every walk that ends outside the explored set crosses the queue, at a
    node no deeper than the walk is long. *)
Lemma queue_cut (st : Vars.t Node.t unit) (x : string) (k : nat) :
  queue_inv g start st → hops g start x k → x ∉ Vars.explored st →
  ∃ m, m ∈ Vars.frontier st ∧ (Node.depth m ≤ Z.of_nat k)%Z.
Proof.
  intros (_ & Hstart & Hedges) Hwalk.
  induction Hwalk as [|u k x w Hwalk IH Hedge]; intros Hx.
  - destruct Hstart as [?|(n & Hn & Hs & Hd)]; [done|]. exists n. done.
  - destruct (decide (u ∈ Vars.explored st)) as [Hu|Hu].
    + destruct (Hedges u k x w Hwalk Hu Hedge) as [?|(n & Hn & Hs & Hd)];
        [done|].
      exists n. split; [done|]. lia.
    + destruct (IH Hu) as (m & Hm & Hd). exists m. split; [done|]. lia.
Qed.

(** The node at the head of the queue is no deeper than any walk to its
    location is long. *)
Lemma queue_head_least (st : Vars.t Node.t unit) (node : Node.t)
    (rest : list Node.t) (k : nat) :
  queue_inv g start st → Vars.frontier st = node :: rest →
  Node.state node ∉ Vars.explored st → hops g start (Node.state node) k →
  (Node.depth node ≤ Z.of_nat k)%Z.
Proof.
  intros Hq HF Hfresh Hwalk.
  destruct (queue_cut st _ k Hq Hwalk Hfresh) as (m & Hm & Hd).
  destruct Hq as (Hs & _). rewrite HF in Hm, Hs. simpl in Hs.
  apply elem_of_cons in Hm as [->|Hm]; [done|].
  destruct Hs as [Hall _]. rewrite Forall_forall in Hall.
  specialize (Hall m Hm). unfold level_order in Hall. lia.
Qed.

Lemma bfs_body_queue (st st' : Vars.t Node.t unit) :
  search_inv head g goal start (view st) → queue_inv g start st →
  bfs_body g goal st = Ret (Next st') → queue_inv g start st'.
Proof.
  intros Hinv Hq. unfold bfs_body.
  destruct (Vars.frontier st) as [|node rest] eqn:HF; [done|].
  cbn [list_popleft bind]. case_decide as Hgoal; [done|].
  destruct (Node.expand g node) as [children|e|] eqn:Hex; cbn [bind];
    [|done..].
  destruct (fold_left _ children _) as [F' ng'] eqn:Hfold. intros [= <-].
  assert (Node.state node ∉ Vars.explored st) as Hfresh.
  { apply (inv_fresh _ _ _ _ _ Hinv). rewrite view_frontier_node, HF. left. }
  pose proof (λ k, queue_head_least st node rest k Hq HF Hfresh) as Hleast.
  destruct Hq as (Hs & Hstart & Hedges). rewrite HF in Hs, Hstart, Hedges.
  destruct Hs as [Hall Hs].
  pose proof Hex as Hex'. apply expand_Ret in Hex' as (neighbors & _ & ->).
  eapply (bfs_children_levels _ (Node.depth node)) in Hfold
    as (Hs' & Hd' & Hkeep & Hcov); [|by apply Forall_fmap, Forall_true|done|].
  2:{ eapply Forall_impl; [exact Hall|]. intros a Ha.
      unfold level_order in Ha. simpl. lia. }
  rewrite Forall_forall in Hd'.
  assert (∀ n k, n ∈ node :: rest → (Node.depth n ≤ k)%Z →
    Node.state n ∈ {[Node.state node]} ∪ Vars.explored st
    ∨ ∃ n', n' ∈ F' ∧ Node.state n' = Node.state n ∧ (Node.depth n' ≤ k)%Z)
    as Hold.
  { intros n k [->|Hn]%elem_of_cons Hk; [left; set_solver|].
    right. exists n. split; [by apply Hkeep|done]. }
  split; [done|]. simpl. split.
  - destruct Hstart as [Hin|(n & Hn & Hsn & Hd)]; [left; set_solver|].
    rewrite <- Hsn. by apply Hold.
  - intros u k x w Hwalk Hu Hedge.
    apply elem_of_union in Hu as [->%elem_of_singleton|Hu].
    + specialize (Hleast k Hwalk).
      assert (Node.child node (x, w) ∈ Node.child node <$> neighbors) as Hc.
      { by eapply expand_edge. }
      destruct (Hcov _ Hc) as [Hin|(n & Hn & Hsn)]; [by left|].
      right. exists n. split; [done|]. split; [done|].
      specialize (Hd' n Hn). simpl in Hd'. lia.
    + destruct (Hedges u k x w Hwalk Hu Hedge) as [Hin|(n & Hn & Hsn & Hd)];
        [left; set_solver|].
      rewrite <- Hsn. by apply Hold.
Qed.

Lemma bfs_body_spec_queue (key : Node.t → Z) :
  body_spec false key head g goal start (queue_inv g start) (bfs_body g goal).
Proof.
  intros st Hq Hinv Hne.
  pose proof (bfs_body_spec key g goal start st I Hinv Hne) as Hspec.
  destruct (bfs_body g goal st) as [[st'|r]|e|] eqn:Hb; try done.
  destruct Hspec as [Hstep _]. split; [done|]. by eapply bfs_body_queue.
Qed.

Lemma queue_init :
  queue_inv g start (Vars.mk [Node.root start] () ∅ [] 0 1 1).
Proof.
  split; [by split|]. split.
  - right. exists (Node.root start). split; [left|done].
  - intros u k x w _ Hu. by apply not_elem_of_empty in Hu.
Qed.

End fewest.
(* ===================================================================== *)
(** * Further properties: the callers of the searches                     *)
(* ===================================================================== *)

(** ** [calculate_path_cost] *)

(** X1: on a graph given as dictionaries whose weights are integers,
    added up exactly as the embedding has them, the cost that
    [calculate_path_cost] recomputes for the path of a result is the
    distance the result reports, for each of the eight searches, a path
    found or not.  (With floating-point weights the two sums are taken in
    different orders by bidirectional search, and can differ in the last
    digit; the statement is about integer weights only.) *)
Theorem X1_path_cost_agrees (id : nat → Z) (fuel : nat) (g : Graph)
    (start goal : string) (depth_limit max_depth : Z)
    (heuristic_data : gmap string Z) :
  graph_wf g →
  returns (breadth_first_search fuel g start goal) (cost_agrees g)
  ∧ returns (uniform_cost_search fuel g start goal) (cost_agrees g)
  ∧ returns (depth_first_search fuel g start goal) (cost_agrees g)
  ∧ returns (depth_limited_search fuel g start goal depth_limit)
      (cost_agrees g)
  ∧ returns (iterative_deepening_search fuel g start goal max_depth)
      (cost_agrees g)
  ∧ returns (bidirectional_search fuel g start goal) (cost_agrees g)
  ∧ returns (greedy_search fuel g start goal heuristic_data) (cost_agrees g)
  ∧ returns (a_star_search id fuel g start goal heuristic_data)
      (cost_agrees g).
Proof.
  intros Hwf. split_and!.
  - intros r Hr%bfs_unidirectional. by eapply unidirectional_cost.
  - intros r Hr%ucs_unidirectional. by eapply unidirectional_cost.
  - intros r Hr%dfs_unidirectional. by eapply unidirectional_cost.
  - intros r Hr%dls_unidirectional. by eapply unidirectional_cost.
  - intros r Hr. destruct (ids_path_facts _ _ _ _ _ _ Hwf Hr).
    by eapply cost_of_result.
  - intros r Hr. destruct (bidi_path_facts _ _ _ _ _ Hwf Hr) as (? & ? & _).
    by eapply cost_of_result.
  - intros r Hr%greedy_unidirectional. by eapply unidirectional_cost.
  - intros r Hr%astar_unidirectional. by eapply unidirectional_cost.
Qed.

(** On the scenario, from A to C. *)
Lemma X1_path_cost_agrees_witness :
  returns (breadth_first_search 10 scenario_graph "A" "C")
    (cost_agrees scenario_graph)
  ∧ returns (uniform_cost_search 10 scenario_graph "A" "C")
      (cost_agrees scenario_graph)
  ∧ returns (depth_first_search 10 scenario_graph "A" "C")
      (cost_agrees scenario_graph)
  ∧ returns (depth_limited_search 10 scenario_graph "A" "C" default_depth_limit)
      (cost_agrees scenario_graph)
  ∧ returns (iterative_deepening_search 10 scenario_graph "A" "C"
               default_max_depth)
      (cost_agrees scenario_graph)
  ∧ returns (bidirectional_search 10 scenario_graph "A" "C")
      (cost_agrees scenario_graph)
  ∧ returns (greedy_search 10 scenario_graph "A" "C" ∅)
      (cost_agrees scenario_graph)
  ∧ returns (a_star_search increasing_ids 10 scenario_graph "A" "C" ∅)
      (cost_agrees scenario_graph).
Proof.
  apply (X1_path_cost_agrees increasing_ids 10 scenario_graph "A" "C"
           default_depth_limit default_max_depth ∅).
  by_evaluation.
Defined.

(** X2: [calculate_path_cost] returns 0 for the empty path and for a path
    of one location, whatever the graph; for a longer path it returns [c]
    exactly when every location of the path is a neighbour of the one
    before and [c] is the sum of the weights. *)
Theorem X2_path_cost_paths (g : Graph) (u : string) (rest : list string)
    (c : Z) :
  calculate_path_cost [] g = Ret 0%Z
  ∧ calculate_path_cost [u] g = Ret 0%Z
  ∧ (calculate_path_cost (u :: rest) g = Ret c
     ↔ path_weight g (u :: rest) = Some c).
Proof.
  split; [done|]. split; [done|]. rewrite calculate_path_cost_cons. split.
  - intros (c' & Hw & ->)%cost_along_Ret. by rewrite Hw.
  - intros Hw. by rewrite (cost_along_weight _ _ _ 0 c Hw).
Qed.

(** X3: what [calculate_path_cost] raises is a [KeyError] that names a
    location of the path.  After a prefix that is a path of the graph, at
    the first pair [u], [v] for which [graph[u][v]] is missing, it names [u]
    when [u] is no key of the graph and [v] otherwise. *)
Theorem X3_path_cost_errors (g : Graph) (pre post : list string)
    (u v : string) (c : Z) :
  path_weight g (pre ++ [u]) = Some c → weight g u v = None →
  calculate_path_cost (pre ++ u :: v :: post) g
  = Raise (KeyError (if decide (u ∈ dict_keys g) then v else u))
  ∧ ∀ p e, calculate_path_cost p g = Raise e → ∃ k, e = KeyError k ∧ k ∈ p.
Proof.
  intros Hpre Hmissing. split.
  - assert (cost_along g u (v :: post) c
            = Raise (KeyError (if decide (u ∈ dict_keys g) then v else u)))
      as Hfail.
    { cbn [cost_along]. unfold dict_getitem, weight in *.
      destruct (dict_get g u) as [neighbors|] eqn:Hu; cbn [bind].
      - rewrite decide_True by (apply dict_get_is_Some; eauto).
        by rewrite Hmissing.
      - rewrite decide_False; [done|]. by apply dict_get_None. }
    destruct pre as [|x pre]; simpl app in *.
    + rewrite calculate_path_cost_cons. simpl in Hpre. by injection Hpre as <-.
    + rewrite calculate_path_cost_cons.
      by rewrite (cost_along_app g x u pre (v :: post) 0 c Hpre).
  - intros [|x p] e; [done|]. rewrite calculate_path_cost_cons.
    apply cost_along_Raise.
Qed.

(** On the scenario: B and D are not adjacent. *)
Lemma X3_path_cost_errors_witness :
  calculate_path_cost (["A"] ++ "B" :: "D" :: ["C"]) scenario_graph
  = Raise (KeyError (if decide ("B" ∈ dict_keys scenario_graph)
                     then "D" else "B"))
  ∧ ∀ p e, calculate_path_cost p scenario_graph = Raise e →
      ∃ k, e = KeyError k ∧ k ∈ p.
Proof.
  apply (X3_path_cost_errors scenario_graph ["A"] ["C"] "B" "D" 1%Z);
    reflexivity.
Defined.

(** ** The adjacency dictionary of the window *)

(** X4: when the construction of the adjacency dictionary returns, the
    result has the cities as its keys, in their order, no key twice at
    either level and every neighbour a key; [graph[a][b]] is the distance
    of the last road of the list that joins [a] and [b], in either
    direction, and is missing when no road joins them; so the graph is
    symmetric. *)
Theorem X4_adjacency_lookup {Pos} (CITIES : dict Pos)
    (ROADS : list (string * string * Z)) (g : Graph) :
  dict_wf CITIES → make_adjacency_dict CITIES ROADS = Ret g →
  dict_keys g = dict_keys CITIES ∧ graph_wf g ∧ closed_graph g
  ∧ (∀ a b, weight g a b = road_distance ROADS a b)
  ∧ symmetric g.
Proof.
  intros Hwf Hrun.
  destruct (make_adjacency_dict_Ret CITIES ROADS g Hwf Hrun)
    as (_ & Hk & Hwfg & Hclosed & Hw).
  split_and!; try done.
  intros a b. rewrite !Hw. apply road_distance_sym.
Qed.

(** On the cities and roads of the scenario. *)
Lemma X4_adjacency_lookup_witness :
  ∃ g, make_adjacency_dict scenario_cities scenario_roads = Ret g
    ∧ dict_keys g = dict_keys scenario_cities ∧ graph_wf g ∧ closed_graph g
    ∧ (∀ a b, weight g a b = road_distance scenario_roads a b)
    ∧ symmetric g.
Proof.
  eexists. split; [vm_compute; reflexivity|].
  apply (X4_adjacency_lookup scenario_cities scenario_roads).
  - by_evaluation.
  - vm_compute. reflexivity.
Defined.

(** X5: the construction of the adjacency dictionary returns exactly when
    both ends of every road are cities; otherwise it raises [KeyError] at
    the first road with an end that is no city, naming the first end when
    that is no city and the second end otherwise. *)
Theorem X5_adjacency_errors {Pos} (CITIES : dict Pos)
    (ROADS : list (string * string * Z)) :
  dict_wf CITIES →
  ((∃ g, make_adjacency_dict CITIES ROADS = Ret g)
   ↔ Forall (road_ok (dict_keys CITIES)) ROADS)
  ∧ ∀ pre post city1 city2 distance,
      ROADS = pre ++ (city1, city2, distance) :: post →
      Forall (road_ok (dict_keys CITIES)) pre →
      ¬ road_ok (dict_keys CITIES) (city1, city2, distance) →
      make_adjacency_dict CITIES ROADS
      = Raise (KeyError (if decide (city1 ∈ dict_keys CITIES)
                         then city2 else city1)).
Proof.
  intros Hwf.
  destruct (adjacency_init (dict_keys CITIES) Hwf) as (Hk0 & Hwf0 & Hw0).
  split; [split|].
  - intros [g Hg]. by destruct (make_adjacency_dict_Ret CITIES ROADS g Hwf Hg).
  - intros Hall. unfold make_adjacency_dict. rewrite roads_list_id.
    apply add_roads_total; [done|]. by rewrite Hk0.
  - intros pre post c1 c2 d -> Hpre Hbad.
    unfold make_adjacency_dict. rewrite roads_list_id.
    rewrite <- Hk0 in Hpre, Hbad.
    rewrite (add_roads_Raise pre post _ c1 c2 d Hwf0 Hpre Hbad).
    by rewrite Hk0.
Qed.

(** On the cities of the scenario and a road to a place that is none. *)
Lemma X5_adjacency_errors_witness :
  ((∃ g, make_adjacency_dict scenario_cities
           (scenario_roads ++ [("C", "E", 4%Z)]) = Ret g)
   ↔ Forall (road_ok (dict_keys scenario_cities))
       (scenario_roads ++ [("C", "E", 4%Z)]))
  ∧ ∀ pre post city1 city2 distance,
      scenario_roads ++ [("C", "E", 4%Z)]
      = pre ++ (city1, city2, distance) :: post →
      Forall (road_ok (dict_keys scenario_cities)) pre →
      ¬ road_ok (dict_keys scenario_cities) (city1, city2, distance) →
      make_adjacency_dict scenario_cities (scenario_roads ++ [("C", "E", 4%Z)])
      = Raise (KeyError (if decide (city1 ∈ dict_keys scenario_cities)
                         then city2 else city1)).
Proof.
  apply (X5_adjacency_errors scenario_cities
           (scenario_roads ++ [("C", "E", 4%Z)])).
  by_evaluation.
Defined.

(** X6: on the adjacency dictionary built from the map data, from a city
    to a city, each of the eight searches returns, as the window calls
    them (depth limit 10, maximal depth 100, any heuristic table), with
    fuel for one pop per city: none raises, and a path that is returned
    leads from the start to the goal along roads, at the distance
    reported. *)
Theorem X6_window_searches {Pos} (id : nat → Z) (fuel : nat)
    (CITIES : dict Pos) (ROADS : list (string * string * Z)) (g : Graph)
    (start goal : string) (heuristic_data : gmap string Z) :
  dict_wf CITIES → make_adjacency_dict CITIES ROADS = Ret g →
  start ∈ dict_keys CITIES → goal ∈ dict_keys CITIES →
  length CITIES < fuel →
  terminates (breadth_first_search fuel g start goal) (valid_path g start goal)
  ∧ terminates (uniform_cost_search fuel g start goal)
      (valid_path g start goal)
  ∧ terminates (depth_first_search fuel g start goal)
      (valid_path g start goal)
  ∧ terminates (depth_limited_search fuel g start goal default_depth_limit)
      (valid_path g start goal)
  ∧ terminates (iterative_deepening_search fuel g start goal default_max_depth)
      (valid_path g start goal)
  ∧ terminates (bidirectional_search fuel g start goal)
      (valid_path g start goal)
  ∧ terminates (greedy_search fuel g start goal heuristic_data)
      (valid_path g start goal)
  ∧ terminates (a_star_search id fuel g start goal heuristic_data)
      (valid_path g start goal).
Proof.
  intros Hwf Hrun Hstart Hgoal Hfuel.
  destruct (make_adjacency_dict_Ret CITIES ROADS g Hwf Hrun)
    as (_ & Hk & Hwfg & Hclosed & _).
  apply closed_graph_searches; try done; rewrite Hk; try done.
  unfold dict_keys. by rewrite length_fmap.
Qed.

(** On the cities and roads of the scenario, from A to the isolated D. *)
Lemma X6_window_searches_witness :
  ∃ g, make_adjacency_dict scenario_cities scenario_roads = Ret g
  ∧ terminates (breadth_first_search 10 g "A" "D") (valid_path g "A" "D")
  ∧ terminates (uniform_cost_search 10 g "A" "D") (valid_path g "A" "D")
  ∧ terminates (depth_first_search 10 g "A" "D") (valid_path g "A" "D")
  ∧ terminates (depth_limited_search 10 g "A" "D" default_depth_limit)
      (valid_path g "A" "D")
  ∧ terminates (iterative_deepening_search 10 g "A" "D" default_max_depth)
      (valid_path g "A" "D")
  ∧ terminates (bidirectional_search 10 g "A" "D") (valid_path g "A" "D")
  ∧ terminates (greedy_search 10 g "A" "D" ∅) (valid_path g "A" "D")
  ∧ terminates (a_star_search increasing_ids 10 g "A" "D" ∅)
      (valid_path g "A" "D").
Proof.
  eexists. split; [vm_compute; reflexivity|].
  apply (X6_window_searches increasing_ids 10 scenario_cities scenario_roads).
  - by_evaluation.
  - vm_compute. reflexivity.
  - by_evaluation.
  - by_evaluation.
  - vm_compute. lia.
Defined.

(** ** What every search keeps true *)

(** X7: the path a search returns holds no location twice, for each of
    the eight searches and every graph. *)
Theorem X7_paths_simple (id : nat → Z) (fuel : nat) (g : Graph)
    (start goal : string) (depth_limit max_depth : Z)
    (heuristic_data : gmap string Z) :
  returns (breadth_first_search fuel g start goal) (λ r, NoDup (path r))
  ∧ returns (uniform_cost_search fuel g start goal) (λ r, NoDup (path r))
  ∧ returns (depth_first_search fuel g start goal) (λ r, NoDup (path r))
  ∧ returns (depth_limited_search fuel g start goal depth_limit)
      (λ r, NoDup (path r))
  ∧ returns (iterative_deepening_search fuel g start goal max_depth)
      (λ r, NoDup (path r))
  ∧ returns (bidirectional_search fuel g start goal) (λ r, NoDup (path r))
  ∧ returns (greedy_search fuel g start goal heuristic_data)
      (λ r, NoDup (path r))
  ∧ returns (a_star_search id fuel g start goal heuristic_data)
      (λ r, NoDup (path r)).
Proof.
  split_and!; intros r Hr.
  - eapply unidirectional_simple, (bfs_with g start goal fuel simple_inv);
      [apply simple_stable|done].
  - eapply unidirectional_simple, (ucs_with g start goal fuel simple_inv);
      [apply simple_stable|done].
  - eapply unidirectional_simple, (dfs_with g start goal fuel simple_inv);
      [apply simple_stable|done].
  - eapply unidirectional_simple,
      (dls_with g start goal fuel simple_inv depth_limit);
      [apply simple_stable|done].
  - by eapply ids_simple.
  - by eapply bidi_simple.
  - eapply unidirectional_simple,
      (greedy_with g start goal fuel simple_inv heuristic_data);
      [apply simple_stable|done].
  - eapply unidirectional_simple,
      (astar_with g start goal fuel simple_inv id heuristic_data);
      [apply simple_stable|done].
Qed.

(** X8: in the trace of each of the six unidirectional searches no
    location is current twice, there are as many current locations as
    nodes expanded, each of them can be reached from the start, and the
    goal is current only in the last snapshot of a search that returns a
    path. *)
Theorem X8_expansion_order (id : nat → Z) (fuel : nat) (g : Graph)
    (start goal : string) (depth_limit : Z) (heuristic_data : gmap string Z) :
  returns (breadth_first_search fuel g start goal)
    (expansion_order g start goal)
  ∧ returns (uniform_cost_search fuel g start goal)
      (expansion_order g start goal)
  ∧ returns (depth_first_search fuel g start goal)
      (expansion_order g start goal)
  ∧ returns (depth_limited_search fuel g start goal depth_limit)
      (expansion_order g start goal)
  ∧ returns (greedy_search fuel g start goal heuristic_data)
      (expansion_order g start goal)
  ∧ returns (a_star_search id fuel g start goal heuristic_data)
      (expansion_order g start goal).
Proof.
  split_and!; intros r Hr.
  - by eapply unidirectional_order, bfs_unidirectional.
  - by eapply unidirectional_order, ucs_unidirectional.
  - by eapply unidirectional_order, dfs_unidirectional.
  - by eapply unidirectional_order, dls_unidirectional.
  - by eapply unidirectional_order, greedy_unidirectional.
  - by eapply unidirectional_order, astar_unidirectional.
Qed.

(** X9: every snapshot in the trace of the six unidirectional searches
    shows a frontier without a location twice, none of whose locations is
    in the explored set shown, and a current location taken from that
    frontier. *)
Theorem X9_snapshots (id : nat → Z) (fuel : nat) (g : Graph)
    (start goal : string) (depth_limit : Z) (heuristic_data : gmap string Z) :
  returns (breadth_first_search fuel g start goal)
    (λ r, Forall snapshot_ok (steps r))
  ∧ returns (uniform_cost_search fuel g start goal)
      (λ r, Forall snapshot_ok (steps r))
  ∧ returns (depth_first_search fuel g start goal)
      (λ r, Forall snapshot_ok (steps r))
  ∧ returns (depth_limited_search fuel g start goal depth_limit)
      (λ r, Forall snapshot_ok (steps r))
  ∧ returns (greedy_search fuel g start goal heuristic_data)
      (λ r, Forall snapshot_ok (steps r))
  ∧ returns (a_star_search id fuel g start goal heuristic_data)
      (λ r, Forall snapshot_ok (steps r)).
Proof.
  split_and!; intros r Hr.
  - eapply unidirectional_snapshots,
      (bfs_with g start goal fuel snapshots_inv);
      [apply snapshots_stable|done].
  - eapply unidirectional_snapshots,
      (ucs_with g start goal fuel snapshots_inv);
      [apply snapshots_stable|done].
  - eapply unidirectional_snapshots,
      (dfs_with g start goal fuel snapshots_inv);
      [apply snapshots_stable|done].
  - eapply unidirectional_snapshots,
      (dls_with g start goal fuel snapshots_inv depth_limit);
      [apply snapshots_stable|done].
  - eapply unidirectional_snapshots,
      (greedy_with g start goal fuel snapshots_inv heuristic_data);
      [apply snapshots_stable|done].
  - eapply unidirectional_snapshots,
      (astar_with g start goal fuel snapshots_inv id heuristic_data);
      [apply snapshots_stable|done].
Qed.

(** X10: when [comp] lists every location that can be reached from the
    start, each of the six unidirectional searches, a path found or not,
    expands at most [length comp] nodes, never holds more than
    [length comp] nodes in its frontier nor more than it has generated,
    and returns a path of at most [length comp] locations. *)
Theorem X10_within_component (id : nat → Z) (fuel : nat) (g : Graph)
    (start goal : string) (depth_limit : Z) (heuristic_data : gmap string Z)
    (comp : list string) :
  (∀ x, reachable g start x → x ∈ comp) →
  returns (breadth_first_search fuel g start goal) (within comp)
  ∧ returns (uniform_cost_search fuel g start goal) (within comp)
  ∧ returns (depth_first_search fuel g start goal) (within comp)
  ∧ returns (depth_limited_search fuel g start goal depth_limit)
      (within comp)
  ∧ returns (greedy_search fuel g start goal heuristic_data) (within comp)
  ∧ returns (a_star_search id fuel g start goal heuristic_data)
      (within comp).
Proof.
  intros Hcomp.
  assert (∀ pos, stable pos g goal start
                   (λ v, simple_inv v ∧ frontier_bound comp v)) as Hstable.
  { intros pos. apply stable_and;
      [apply simple_stable|by apply frontier_bound_stable]. }
  split_and!; intros r Hr.
  - eapply unidirectional_within; [done|].
    by eapply (bfs_with g start goal fuel).
  - eapply unidirectional_within; [done|].
    by eapply (ucs_with g start goal fuel).
  - eapply unidirectional_within; [done|].
    by eapply (dfs_with g start goal fuel).
  - eapply unidirectional_within; [done|].
    by eapply (dls_with g start goal fuel).
  - eapply unidirectional_within; [done|].
    by eapply (greedy_with g start goal fuel).
  - eapply unidirectional_within; [done|].
    by eapply (astar_with g start goal fuel).
Qed.

(** On the scenario, from A, where D is out of reach. *)
Lemma X10_within_component_witness :
  returns (breadth_first_search 10 scenario_graph "A" "C")
    (within ["A"; "B"; "C"])
  ∧ returns (uniform_cost_search 10 scenario_graph "A" "C")
      (within ["A"; "B"; "C"])
  ∧ returns (depth_first_search 10 scenario_graph "A" "C")
      (within ["A"; "B"; "C"])
  ∧ returns (depth_limited_search 10 scenario_graph "A" "C" 10)
      (within ["A"; "B"; "C"])
  ∧ returns (greedy_search 10 scenario_graph "A" "C" ∅)
      (within ["A"; "B"; "C"])
  ∧ returns (a_star_search increasing_ids 10 scenario_graph "A" "C" ∅)
      (within ["A"; "B"; "C"]).
Proof.
  apply (X10_within_component increasing_ids 10 scenario_graph "A" "C" 10 ∅
           ["A"; "B"; "C"]).
  intros x. apply edge_closed_reachable; by_evaluation.
Defined.

(** ** The depth limit *)

(** X11: a path that depth-limited search returns for a goal other than
    the start has at least two locations and at most [depth_limit + 1],
    as [calculate_path_length] counts them: it has at most [depth_limit]
    edges. *)
Theorem X11_depth_limit_respected (fuel : nat) (g : Graph)
    (start goal : string) (depth_limit : Z) :
  start ≠ goal →
  returns (depth_limited_search fuel g start goal depth_limit)
    (edges_within depth_limit).
Proof.
  intros Hne r Hr Hp. unfold calculate_path_length.
  rewrite bool_decide_eq_true_2 by done. by eapply dls_depth_bound.
Qed.

(** On the chain, where D is three edges from A: the limit 3 is
    respected. *)
Lemma X11_depth_limit_respected_witness :
  returns (depth_limited_search 10 chain_graph "A" "D" 3) (edges_within 3).
Proof.
  apply (X11_depth_limit_respected 10 chain_graph "A" "D" 3). by_evaluation.
Defined.

(** X12: with a limit of zero or less, depth-limited search for a goal
    other than the start pops the start and expands nothing: it returns no
    path, with one node expanded, one generated and one snapshot, and does
    not look into the graph (the start need not be a key). *)
Theorem X12_depth_limit_zero (fuel : nat) (g : Graph) (start goal : string)
    (depth_limit : Z) :
  start ≠ goal → (depth_limit ≤ 0)%Z →
  depth_limited_search (S (S fuel)) g start goal depth_limit
  = Ret (no_path_result "dls" 1 1 1 [snapshot [start] ∅ start]).
Proof. apply dls_limit_zero. Qed.

(** On the empty graph. *)
Lemma X12_depth_limit_zero_witness :
  depth_limited_search 2 [] "A" "B" 0
  = Ret (no_path_result "dls" 1 1 1 [snapshot ["A"] ∅ "A"]).
Proof.
  apply (X12_depth_limit_zero 0 [] "A" "B" 0); [by_evaluation|lia].
Defined.

(** X13: iterative deepening for a goal other than the start returns the
    path and the distance of the first limit, counted from zero, at which
    depth-limited search finds a path: every smaller limit fails, and the
    path has at most that many edges.  When it returns no path, every limit
    below [max_depth] has failed. *)
Theorem X13_deepening_first_success (fuel : nat) (g : Graph)
    (start goal : string) (max_depth : Z) (r : Result Step.t) :
  start ≠ goal →
  iterative_deepening_search fuel g start goal max_depth = Ret r →
  (path r ≠ [] → first_success fuel g start goal max_depth r)
  ∧ (path r = [] →
       ∀ d, (0 ≤ d < max_depth)%Z → dls_fails fuel g start goal d).
Proof.
  intros Hne Hr.
  by destruct (ids_first_success g start goal fuel Hne max_depth r Hr)
    as (_ & _ & ? & ?).
Qed.

(** On the chain, where the limits 0, 1 and 2 fail and 3 succeeds. *)
Lemma X13_deepening_first_success_witness :
  ∃ r, iterative_deepening_search 10 chain_graph "A" "D" 100 = Ret r
    ∧ (path r ≠ [] → first_success 10 chain_graph "A" "D" 100 r)
    ∧ (path r = [] →
         ∀ d, (0 ≤ d < 100)%Z → dls_fails 10 chain_graph "A" "D" d).
Proof.
  eexists. split; [vm_compute; reflexivity|].
  apply (X13_deepening_first_success 10 chain_graph "A" "D" 100).
  - by_evaluation.
  - vm_compute. reflexivity.
Defined.

(** X14: the trace that iterative deepening returns for a goal other than
    the start has one snapshot per node expanded, over all the limits it
    tried, and every snapshot carries the limit of its run, a number from
    zero below [max_depth]. *)
Theorem X14_deepening_trace (fuel : nat) (g : Graph) (start goal : string)
    (max_depth : Z) :
  start ≠ goal →
  returns (iterative_deepening_search fuel g start goal max_depth)
    (λ r, length (steps r) = nodes_expanded r
          ∧ Forall (tagged_below max_depth) (steps r)).
Proof.
  intros Hne r Hr.
  by destruct (ids_first_success g start goal fuel Hne max_depth r Hr)
    as (? & ? & _).
Qed.

(** On the chain. *)
Lemma X14_deepening_trace_witness :
  returns (iterative_deepening_search 10 chain_graph "A" "D" 100)
    (λ r, length (steps r) = nodes_expanded r
          ∧ Forall (tagged_below 100) (steps r)).
Proof.
  apply (X14_deepening_trace 10 chain_graph "A" "D" 100). by_evaluation.
Defined.

(** ** A start that is no key of the graph *)

(** X15: for a start that is no key of the graph and a goal other than the
    start, every search raises [KeyError] for the start in its first
    iteration: depth-limited search when its limit is positive, iterative
    deepening (in its second run) when [max_depth] is at least 2, and
    bidirectional search when the reverse graph can be built. *)
Theorem X15_missing_start (id : nat → Z) (fuel : nat) (g : Graph)
    (start goal : string) (depth_limit max_depth : Z)
    (heuristic_data : gmap string Z) :
  start ≠ goal → start ∉ dict_keys g →
  breadth_first_search (S fuel) g start goal = Raise (KeyError start)
  ∧ uniform_cost_search (S fuel) g start goal = Raise (KeyError start)
  ∧ depth_first_search (S fuel) g start goal = Raise (KeyError start)
  ∧ ((0 < depth_limit)%Z →
     depth_limited_search (S fuel) g start goal depth_limit
     = Raise (KeyError start))
  ∧ ((2 ≤ max_depth)%Z →
     iterative_deepening_search (S (S fuel)) g start goal max_depth
     = Raise (KeyError start))
  ∧ ((∃ rg, make_reverse_graph g = Ret rg) →
     bidirectional_search (S fuel) g start goal = Raise (KeyError start))
  ∧ greedy_search (S fuel) g start goal heuristic_data
    = Raise (KeyError start)
  ∧ a_star_search id (S fuel) g start goal heuristic_data
    = Raise (KeyError start).
Proof.
  intros Hne Hmissing. split_and!.
  - by apply bfs_missing_start.
  - by apply ucs_missing_start.
  - by apply dfs_missing_start.
  - intros Hd. by apply dls_missing_start.
  - intros Hd. by apply ids_missing_start.
  - intros [rg Hrg]. by eapply bidi_missing_start.
  - by apply greedy_missing_start.
  - by apply astar_missing_start.
Qed.

(** On the scenario, from a location E that it does not hold. *)
Lemma X15_missing_start_witness :
  breadth_first_search 1 scenario_graph "E" "C" = Raise (KeyError "E")
  ∧ uniform_cost_search 1 scenario_graph "E" "C" = Raise (KeyError "E")
  ∧ depth_first_search 1 scenario_graph "E" "C" = Raise (KeyError "E")
  ∧ ((0 < 10)%Z →
     depth_limited_search 1 scenario_graph "E" "C" 10 = Raise (KeyError "E"))
  ∧ ((2 ≤ 100)%Z →
     iterative_deepening_search 2 scenario_graph "E" "C" 100
     = Raise (KeyError "E"))
  ∧ ((∃ rg, make_reverse_graph scenario_graph = Ret rg) →
     bidirectional_search 1 scenario_graph "E" "C" = Raise (KeyError "E"))
  ∧ greedy_search 1 scenario_graph "E" "C" ∅ = Raise (KeyError "E")
  ∧ a_star_search increasing_ids 1 scenario_graph "E" "C" ∅
    = Raise (KeyError "E").
Proof.
  apply (X15_missing_start increasing_ids 0 scenario_graph "E" "C" 10 100 ∅);
    by_evaluation.
Defined.

(** ** Labels and tables *)

(** X16: every result carries the label of the function that returned it,
    at each of its return statements, which is the key the window files
    the result under; [algorithm_names] holds a name for it, so the name
    the window shows is never the bare label. *)
Theorem X16_labels (id : nat → Z) (fuel : nat) (g : Graph)
    (start goal : string) (depth_limit max_depth : Z)
    (heuristic_data : gmap string Z) :
  returns (breadth_first_search fuel g start goal) (labelled "bfs")
  ∧ returns (uniform_cost_search fuel g start goal) (labelled "ucs")
  ∧ returns (depth_first_search fuel g start goal) (labelled "dfs")
  ∧ returns (depth_limited_search fuel g start goal depth_limit)
      (labelled "dls")
  ∧ returns (iterative_deepening_search fuel g start goal max_depth)
      (labelled "ids")
  ∧ returns (bidirectional_search fuel g start goal)
      (labelled "bidirectional")
  ∧ returns (greedy_search fuel g start goal heuristic_data)
      (labelled "greedy")
  ∧ returns (a_star_search id fuel g start goal heuristic_data)
      (labelled "astar").
Proof.
  assert (∀ S name (r : Result S),
            is_Some (dict_get algorithm_names name) →
            algorithm r = name → labelled name r) as Hlab.
  { intros S name r [shown Hshown] Hr. split; [done|].
    unfold shown_name. by rewrite Hr, Hshown. }
  split_and!; intros r Hr; (apply Hlab; [by_evaluation|]).
  - by eapply bfs_label.
  - by eapply ucs_label.
  - by eapply dfs_label.
  - by eapply dls_label.
  - by eapply ids_label.
  - by eapply bidi_label.
  - by eapply greedy_label.
  - by eapply astar_label.
Qed.

(** X17: for a goal other than the designated one the heuristic table
    plays no part: greedy search and A-star search come to the same
    outcome, result or exception, trace included, under any two tables. *)
Theorem X17_table_ignored (id : nat → Z) (fuel : nat) (g : Graph)
    (start goal : string) (heuristic_data heuristic_data' : gmap string Z) :
  goal ≠ designated_goal →
  greedy_search fuel g start goal heuristic_data
  = greedy_search fuel g start goal heuristic_data'
  ∧ a_star_search id fuel g start goal heuristic_data
    = a_star_search id fuel g start goal heuristic_data'.
Proof.
  intros Hgoal. split.
  - by apply greedy_search_other.
  - by apply astar_search_other.
Qed.

(** On the detour map, with B for a goal: the table of the detour and the
    empty one. *)
Lemma X17_table_ignored_witness :
  greedy_search 10 detour_graph "S" "B" detour_table
  = greedy_search 10 detour_graph "S" "B" ∅
  ∧ a_star_search increasing_ids 10 detour_graph "S" "B" detour_table
    = a_star_search increasing_ids 10 detour_graph "S" "B" ∅.
Proof.
  apply (X17_table_ignored increasing_ids 10 detour_graph "S" "B"
           detour_table ∅).
  by_evaluation.
Defined.

(** X18: for a goal other than the designated one, on a graph with
    non-negative weights that holds every location reachable from the
    start as a key, A-star search returns a cheapest path to a reachable
    goal whatever the table holds, at the distance uniform-cost search
    returns. *)
Theorem X18_astar_other_goal (id : nat → Z) (fuel : nat) (g : Graph)
    (start goal : string) (heuristic_data : gmap string Z) :
  goal ≠ designated_goal →
  graph_wf g → reachable_closed g start → reachable g start goal →
  nonneg_weights g → length (dict_keys g) < fuel →
  ∃ r r', a_star_search id fuel g start goal heuristic_data = Ret r
    ∧ uniform_cost_search fuel g start goal = Ret r'
    ∧ optimal g start goal r ∧ distance r = distance r'.
Proof.
  intros Hgoal Hwf Hclosed Hreach Hnn Hfuel.
  destruct (astar_returns id fuel g start goal heuristic_data Hclosed Hfuel)
    as [r Hr].
  destruct (ucs_returns fuel g start goal Hclosed Hfuel) as [r' Hr'].
  exists r, r'. split; [done|]. split; [done|].
  assert (optimal g start goal r ∧ optimal g start goal r') as [Ho Ho'].
  { destruct (decide (start = goal)) as [Heq|Hne].
    - unfold a_star_search in Hr. unfold uniform_cost_search in Hr'.
      rewrite decide_True in Hr, Hr' by done.
      injection Hr as <-. injection Hr' as <-. subst goal.
      split; by apply trivial_optimal.
    - split.
      + apply astar_run_optimal in Hr;
          [|done|by apply consistent_other_goal].
        destruct Hr as (v & Hinv & Hdj & Hend).
        eapply (end_optimal_path (heuristic_value goal heuristic_data));
          eauto using consistent_other_goal.
      + apply ucs_run_optimal in Hr'; [|done|done].
        destruct Hr' as (v & Hinv & Hdj & Hend).
        eapply (end_optimal_path (λ _, 0%Z)); eauto using nonneg_consistent. }
  split; [done|].
  destruct Ho as [Hp Hleast], Ho' as [Hp' Hleast'].
  pose proof (Hleast _ _ Hp'). pose proof (Hleast' _ _ Hp). lia.
Qed.

(** On the detour map, to B, with the table that misleads the search for
    Bucharest. *)
Lemma X18_astar_other_goal_witness :
  ∃ r r', a_star_search increasing_ids 10 detour_graph "S" "B" detour_table
          = Ret r
    ∧ uniform_cost_search 10 detour_graph "S" "B" = Ret r'
    ∧ optimal detour_graph "S" "B" r ∧ distance r = distance r'.
Proof.
  apply (X18_astar_other_goal increasing_ids 10 detour_graph "S" "B"
           detour_table).
  - by_evaluation.
  - by_evaluation.
  - apply closed_reachable; by_evaluation.
  - apply (is_path_reachable _ _ _ ["S"; "A"; "B"] 2%Z). by_evaluation.
  - by_evaluation.
  - vm_compute. lia.
Defined.

(** ** The reverse graph of bidirectional search *)

(** X19: the reverse graph that bidirectional search builds, when the
    construction returns, is the transpose of the graph: it has the keys of
    the graph in their order, no key twice at either level, and
    [reverse_graph[v][u]] is [graph[u][v]], present or missing, for every
    [u] and [v]. *)
Theorem X19_reverse_graph_transpose (g rg : Graph) :
  graph_wf g → make_reverse_graph g = Ret rg →
  dict_keys rg = dict_keys g ∧ graph_wf rg
  ∧ ∀ u v, weight rg v u = weight g u v.
Proof.
  intros Hwf Hrg.
  by destruct (reverse_graph_exact g Hwf rg Hrg) as (? & ? & _ & ?).
Qed.

(** On the detour map with the edge from B to S taken out. *)
Lemma X19_reverse_graph_transpose_witness :
  ∃ rg, make_reverse_graph (dict_setitem detour_graph "B" [("A", 1%Z)])
        = Ret rg
    ∧ dict_keys rg = dict_keys (dict_setitem detour_graph "B" [("A", 1%Z)])
    ∧ graph_wf rg
    ∧ ∀ u v, weight rg v u
             = weight (dict_setitem detour_graph "B" [("A", 1%Z)]) u v.
Proof.
  eexists. split; [vm_compute; reflexivity|].
  apply (X19_reverse_graph_transpose
           (dict_setitem detour_graph "B" [("A", 1%Z)])).
  - by_evaluation.
  - vm_compute. reflexivity.
Defined.

(** X20: the construction of the reverse graph returns exactly when every
    neighbour in the graph is a key of it, reachable from the start or
    not; otherwise it raises [KeyError] for a neighbour that is no key, and
    so does bidirectional search for a goal other than the start, before
    it expands a node. *)
Theorem X20_reverse_graph_errors (fuel : nat) (g : Graph)
    (start goal : string) :
  graph_wf g →
  ((∃ rg, make_reverse_graph g = Ret rg) ↔ closed_graph g)
  ∧ (∀ e, make_reverse_graph g = Raise e →
       (∃ u v w, edge g u v w ∧ v ∉ dict_keys g ∧ e = KeyError v)
       ∧ (start ≠ goal → bidirectional_search fuel g start goal = Raise e)).
Proof.
  intros Hwf. split; [split|].
  - intros [rg Hrg]. by destruct (reverse_graph_exact g Hwf rg Hrg) as (_ & _ & ? & _).
  - by apply reverse_graph_total.
  - intros e He. split; [by apply reverse_graph_Raise|].
    intros Hne. unfold bidirectional_search.
    rewrite decide_False by done. by rewrite He.
Qed.

(** On the graph with the dangling neighbour X, out of reach of S. *)
Lemma X20_reverse_graph_errors_witness :
  ((∃ rg, make_reverse_graph dangling_graph = Ret rg)
   ↔ closed_graph dangling_graph)
  ∧ (∀ e, make_reverse_graph dangling_graph = Raise e →
       (∃ u v w, edge dangling_graph u v w ∧ v ∉ dict_keys dangling_graph
                 ∧ e = KeyError v)
       ∧ ("S" ≠ "G" →
          bidirectional_search 10 dangling_graph "S" "G" = Raise e)).
Proof.
  apply (X20_reverse_graph_errors 10 dangling_graph "S" "G"). by_evaluation.
Defined.

(** ** Completeness *)

(** X21: breadth-first, uniform-cost, depth-first, greedy and A-star
    search give up only when nothing is left to expand: whatever the
    weights and the table, a search that returns no path has shown every
    location that can be reached from the start as current in its trace,
    and no other, so a goal that can be reached is found. *)
Theorem X21_exhaustive (id : nat → Z) (fuel : nat) (g : Graph)
    (start goal : string) (heuristic_data : gmap string Z) :
  returns (breadth_first_search fuel g start goal) (exhaustive g start goal)
  ∧ returns (uniform_cost_search fuel g start goal)
      (exhaustive g start goal)
  ∧ returns (depth_first_search fuel g start goal) (exhaustive g start goal)
  ∧ returns (greedy_search fuel g start goal heuristic_data)
      (exhaustive g start goal)
  ∧ returns (a_star_search id fuel g start goal heuristic_data)
      (exhaustive g start goal).
Proof.
  split_and!.
  - apply bfs_exhaustive.
  - apply ucs_exhaustive.
  - apply dfs_exhaustive.
  - apply greedy_exhaustive.
  - apply astar_exhaustive.
Qed.

(** X22: on a graph given as dictionaries that holds every location
    reachable from the start as a key, with fuel for one pop per key,
    breadth-first, uniform-cost, depth-first, greedy and A-star search
    return a path of the graph from the start to every goal that can be
    reached, at the distance reported, whatever the weights and the
    table. *)
Theorem X22_complete (id : nat → Z) (fuel : nat) (g : Graph)
    (start goal : string) (heuristic_data : gmap string Z) :
  graph_wf g → reachable_closed g start → reachable g start goal →
  length (dict_keys g) < fuel →
  terminates (breadth_first_search fuel g start goal)
    (λ r, is_path g start goal (path r) (distance r))
  ∧ terminates (uniform_cost_search fuel g start goal)
      (λ r, is_path g start goal (path r) (distance r))
  ∧ terminates (depth_first_search fuel g start goal)
      (λ r, is_path g start goal (path r) (distance r))
  ∧ terminates (greedy_search fuel g start goal heuristic_data)
      (λ r, is_path g start goal (path r) (distance r))
  ∧ terminates (a_star_search id fuel g start goal heuristic_data)
      (λ r, is_path g start goal (path r) (distance r)).
Proof.
  intros Hwf Hclosed Hreach Hfuel. split_and!.
  - destruct (bfs_returns fuel g start goal Hclosed Hfuel) as [r Hr].
    exists r. split; [done|].
    eapply (unidirectional_path head); [by eapply bfs_unidirectional|done|].
    by apply (bfs_exhaustive g start goal fuel r Hr).
  - destruct (ucs_returns fuel g start goal Hclosed Hfuel) as [r Hr].
    exists r. split; [done|].
    eapply (unidirectional_path head); [by eapply ucs_unidirectional|done|].
    by apply (ucs_exhaustive g start goal fuel r Hr).
  - destruct (dfs_returns fuel g start goal Hclosed Hfuel) as [r Hr].
    exists r. split; [done|].
    eapply (unidirectional_path last); [by eapply dfs_unidirectional|done|].
    by apply (dfs_exhaustive g start goal fuel r Hr).
  - destruct (greedy_returns fuel g start goal heuristic_data Hclosed Hfuel)
      as [r Hr].
    exists r. split; [done|].
    eapply (unidirectional_path head);
      [by eapply greedy_unidirectional|done|].
    by apply (greedy_exhaustive g start goal fuel heuristic_data r Hr).
  - destruct (astar_returns id fuel g start goal heuristic_data Hclosed Hfuel)
      as [r Hr].
    exists r. split; [done|].
    eapply (unidirectional_path head);
      [by eapply astar_unidirectional|done|].
    by apply (astar_exhaustive g start goal fuel id heuristic_data r Hr).
Qed.

(** On the detour map, with a weight below zero on the edge from A to B
    and the table that misleads the search for Bucharest. *)
Lemma X22_complete_witness :
  terminates
    (breadth_first_search 10
       (dict_setitem detour_graph "A" [("S", 1%Z); ("B", (-4)%Z)])
       "S" "Bucharest")
    (λ r, is_path (dict_setitem detour_graph "A" [("S", 1%Z); ("B", (-4)%Z)])
            "S" "Bucharest" (path r) (distance r))
  ∧ terminates
      (uniform_cost_search 10
         (dict_setitem detour_graph "A" [("S", 1%Z); ("B", (-4)%Z)])
         "S" "Bucharest")
      (λ r, is_path
              (dict_setitem detour_graph "A" [("S", 1%Z); ("B", (-4)%Z)])
              "S" "Bucharest" (path r) (distance r))
  ∧ terminates
      (depth_first_search 10
         (dict_setitem detour_graph "A" [("S", 1%Z); ("B", (-4)%Z)])
         "S" "Bucharest")
      (λ r, is_path
              (dict_setitem detour_graph "A" [("S", 1%Z); ("B", (-4)%Z)])
              "S" "Bucharest" (path r) (distance r))
  ∧ terminates
      (greedy_search 10
         (dict_setitem detour_graph "A" [("S", 1%Z); ("B", (-4)%Z)])
         "S" "Bucharest" detour_table)
      (λ r, is_path
              (dict_setitem detour_graph "A" [("S", 1%Z); ("B", (-4)%Z)])
              "S" "Bucharest" (path r) (distance r))
  ∧ terminates
      (a_star_search increasing_ids 10
         (dict_setitem detour_graph "A" [("S", 1%Z); ("B", (-4)%Z)])
         "S" "Bucharest" detour_table)
      (λ r, is_path
              (dict_setitem detour_graph "A" [("S", 1%Z); ("B", (-4)%Z)])
              "S" "Bucharest" (path r) (distance r)).
Proof.
  apply (X22_complete increasing_ids 10
           (dict_setitem detour_graph "A" [("S", 1%Z); ("B", (-4)%Z)])
           "S" "Bucharest" detour_table).
  - by_evaluation.
  - apply closed_reachable; by_evaluation.
  - apply (is_path_reachable _ _ _ ["S"; "B"; "Bucharest"] 13%Z).
    by_evaluation.
  - vm_compute. lia.
Defined.

(** X23: the path that breadth-first search returns has the fewest
    locations, as [calculate_path_length] counts them, of all the paths of
    the graph from the start to the goal: no path has fewer edges. *)
Theorem X23_bfs_fewest_edges (fuel : nat) (g : Graph) (start goal : string) :
  returns (breadth_first_search fuel g start goal)
    (λ r, path r ≠ [] → fewest_edges g start goal r).
Proof.
  intros r. unfold breadth_first_search. case_decide as Hne.
  { intros [= <-] _ p c (Hh & _). simpl. destruct p as [|x p]; [done|].
    unfold calculate_path_length. rewrite !bool_decide_eq_true_2 by done.
    simpl. lia. }
  intros Hrun Hp p c Hpath.
  eapply (run_partial false Node.path_cost head g goal start
            (queue_inv g start) (λ _, True))
    in Hrun as (st & (Hq & Hinv & _) & Hend);
    eauto using bfs_body_spec_queue.
  2:{ split; [apply queue_init|]. split; [apply search_inv_init|done]. }
  destruct Hend as [[node rest alg Hpop Hg ->]|[_ ->]]; [|done].
  simpl in *. pose proof (popped_elem _ _ _ _ _ _ Hpop) as Hnode.
  destruct Hpop as (HF & Hpos & _). rewrite view_frontier_node in *.
  destruct (Vars.frontier st) as [|n0 rest0] eqn:HF0; [done|].
  simpl in Hpos. injection Hpos as Hs0.
  assert (n0 = node) as ->.
  { eapply nodup_states_eq; [|left|done|done].
    pose proof (inv_nodup _ _ _ _ _ Hinv) as Hnd.
    by rewrite view_frontier_node, HF0 in Hnd. }
  assert (Node.depth node ≤ Z.of_nat (length p - 1))%Z as Hd.
  { eapply (queue_head_least g start st node rest0); [done|done| |].
    - apply (inv_fresh _ _ _ _ _ Hinv). rewrite view_frontier_node, HF0. left.
    - rewrite Hg. by eapply is_path_hops. }
  assert (node_ok g start node) as Hlen%node_ok_depth.
  { apply (inv_ok _ _ _ _ _ Hinv). rewrite view_frontier_node, HF0. left. }
  destruct Hpath as (Hh & _). destruct p as [|x p]; [done|].
  unfold calculate_path_length. rewrite !bool_decide_eq_true_2 by done.
  simpl in *. lia.
Qed.
